(** * monosat: minimal cover selection and dynamic maximum flow

    A shallow embedding of [src/dgl/EdmondsKarpDynamic.h] (module [Dgl])
    and [src/Cover.h] (module [Cover]), with the properties of the
    specification stated and settled against the embedded code.

    Conventions.  Weights are [Z] (the template parameter [Weight] with exact
    arithmetic).  A [std::vector] is a [list], read with [nth] and written
    with stdpp's [<[i:=x]>]: a read past the end gives the default of the
    element type and a write past the end changes nothing, where C++ leaves the
    behaviour undefined.  The release build is modelled: [assert]s and the
    [#ifndef NDEBUG] / [#ifdef DEBUG_MAXFLOW] / [#ifdef RECORD] blocks are
    absent.  Loops that the source writes as [while(true)] or over a growing
    queue take a [fuel] argument and return [None] when it runs out; reading a
    negative index also gives [None]. *)

From Stdlib Require Import ZArith Lia List Bool Arith.
From stdpp Require Import base tactics option list numbers.

(** ** Dynamic maximum flow *)

Module Dgl.

Local Open Scope Z_scope.

(** *** The graph view *)

(** An adjacency entry [{node, id}], as returned by [g.incident(u,i)] and
    [g.incoming(u,i)]. *)
Record Edge := mkEdge { node : nat; id : nat }.

(** An entry of [g.all_edges]; its id is its position. *)
Record FullEdge := mkFullEdge { from : nat; to : nat }.

(** An entry of [g.history]. *)
Record EdgeChange := mkChange { chg_id : nat; addition : bool }.

(** Modelled from the spec: the [DynamicGraph] collaborator (its header is
    not part of the sources).  It has the fields the flow engine reads: the
    node count, the edge table, the per-edge enabled flag, the mutation log
    and the counters.  Every id below [edges] is an edge, and the forward and
    reverse adjacency lists hold the edges in the order of their ids. *)
Record DynamicGraph := mkGraph {
  nodes : nat;
  all_edges : list FullEdge;
  edge_status : list bool;
  history : list EdgeChange;
  modifications : Z;
  additions : Z;
  deletions : Z;
  historyclears : Z;
  is_changed : bool
}.

Definition edges (g : DynamicGraph) : nat := length (all_edges g).
Definition isEdge (g : DynamicGraph) (i : nat) : bool := (i <? edges g)%nat.
Definition edgeEnabled (g : DynamicGraph) (i : nat) : bool :=
  nth i (edge_status g) false.
Definition changed (g : DynamicGraph) : bool := is_changed g.

Fixpoint adj_out (u i : nat) (es : list FullEdge) : list Edge :=
  match es with
  | [] => []
  | e :: r => if (from e =? u)%nat then mkEdge (to e) i :: adj_out u (S i) r
              else adj_out u (S i) r
  end.

Fixpoint adj_in (u i : nat) (es : list FullEdge) : list Edge :=
  match es with
  | [] => []
  | e :: r => if (to e =? u)%nat then mkEdge (from e) i :: adj_in u (S i) r
              else adj_in u (S i) r
  end.

(** [g.incident(u,0)], ..., [g.incident(u,g.nIncident(u)-1)]. *)
Definition incident (g : DynamicGraph) (u : nat) : list Edge :=
  adj_out u 0 (all_edges g).

(** [g.incoming(u,0)], ..., [g.incoming(u,g.nIncoming(u)-1)]. *)
Definition incoming (g : DynamicGraph) (u : nat) : list Edge :=
  adj_in u 0 (all_edges g).

(** Modelled from the spec: the two mutations of the graph view, enabling and
    disabling an edge.  A mutation that changes the flag advances the
    [modifications] counter, stamps [additions] or [deletions], and appends
    one event to the log; one that changes nothing leaves the graph as it
    is. *)
Definition enableEdge (e : nat) (g : DynamicGraph) : DynamicGraph :=
  if edgeEnabled g e then g
  else mkGraph (nodes g) (all_edges g) (<[e := true]> (edge_status g))
         (history g ++ [mkChange e true])
         (modifications g + 1) (modifications g + 1) (deletions g)
         (historyclears g) (is_changed g).

Definition disableEdge (e : nat) (g : DynamicGraph) : DynamicGraph :=
  if edgeEnabled g e then
    mkGraph (nodes g) (all_edges g) (<[e := false]> (edge_status g))
         (history g ++ [mkChange e false])
         (modifications g + 1) (additions g) (modifications g + 1)
         (historyclears g) (is_changed g)
  else g.

(** *** The engine state *)

(** [struct LocalEdge]: the predecessor record.  [le_from] is [-1] for an
    unvisited node and [-2] for the source of the search; [le_id] is [-1] on
    the shortcut arc. *)
Record LocalEdge := mkLocal { le_from : Z; le_id : Z; backward : bool }.

Definition LocalEdge0 : LocalEdge := mkLocal (-1) (-1) false.

Definition with_from (x : Z) (p : LocalEdge) : LocalEdge :=
  mkLocal x (le_id p) (backward p).

(** [struct MaxFlowEdge {u, v, id}], the element type of a cut. *)
Record MaxFlowEdge := mkCut { cu : nat; cv : nat; cid : nat }.

(** The data members of [EdmondsKarpDynamic].  The references [g] and
    [capacity] are arguments of the functions below. *)
Record EKD := mkEKD {
  f : Z;
  F : list Z;
  shortCircuitFlow : Z;
  curflow : Z;
  last_modification : Z;
  last_deletion : Z;
  last_addition : Z;
  history_qhead : nat;
  last_history_clear : Z;
  prev : list LocalEdge;
  M : list Z;
  Q : list nat;
  edge_enabled : list bool;
  seen : list bool
}.

Definition INF : Z := 0xF0F0F0.

(** The constructor. *)
Definition init : EKD :=
  mkEKD 0 [] 0 0 (-1) (-1) (-1) 0 (-1) [] [] [] [] [].

Definition set_f (x : Z) (st : EKD) : EKD :=
  mkEKD x (F st) (shortCircuitFlow st) (curflow st) (last_modification st)
    (last_deletion st) (last_addition st) (history_qhead st)
    (last_history_clear st) (prev st) (M st) (Q st) (edge_enabled st) (seen st).

Definition set_F (x : list Z) (st : EKD) : EKD :=
  mkEKD (f st) x (shortCircuitFlow st) (curflow st) (last_modification st)
    (last_deletion st) (last_addition st) (history_qhead st)
    (last_history_clear st) (prev st) (M st) (Q st) (edge_enabled st) (seen st).

Definition set_shortCircuitFlow (x : Z) (st : EKD) : EKD :=
  mkEKD (f st) (F st) x (curflow st) (last_modification st)
    (last_deletion st) (last_addition st) (history_qhead st)
    (last_history_clear st) (prev st) (M st) (Q st) (edge_enabled st) (seen st).

Definition set_prev (x : list LocalEdge) (st : EKD) : EKD :=
  mkEKD (f st) (F st) (shortCircuitFlow st) (curflow st) (last_modification st)
    (last_deletion st) (last_addition st) (history_qhead st)
    (last_history_clear st) x (M st) (Q st) (edge_enabled st) (seen st).

Definition set_M (x : list Z) (st : EKD) : EKD :=
  mkEKD (f st) (F st) (shortCircuitFlow st) (curflow st) (last_modification st)
    (last_deletion st) (last_addition st) (history_qhead st)
    (last_history_clear st) (prev st) x (Q st) (edge_enabled st) (seen st).

Definition set_Q (x : list nat) (st : EKD) : EKD :=
  mkEKD (f st) (F st) (shortCircuitFlow st) (curflow st) (last_modification st)
    (last_deletion st) (last_addition st) (history_qhead st)
    (last_history_clear st) (prev st) (M st) x (edge_enabled st) (seen st).

Definition set_edge_enabled (x : list bool) (st : EKD) : EKD :=
  mkEKD (f st) (F st) (shortCircuitFlow st) (curflow st) (last_modification st)
    (last_deletion st) (last_addition st) (history_qhead st)
    (last_history_clear st) (prev st) (M st) (Q st) x (seen st).

Definition set_seen (x : list bool) (st : EKD) : EKD :=
  mkEKD (f st) (F st) (shortCircuitFlow st) (curflow st) (last_modification st)
    (last_deletion st) (last_addition st) (history_qhead st)
    (last_history_clear st) (prev st) (M st) (Q st) (edge_enabled st) x.

(** The last five assignments of [maxFlow]. *)
Definition set_stamps (g : DynamicGraph) (st : EKD) : EKD :=
  mkEKD (f st) (F st) (shortCircuitFlow st) (f st) (modifications g)
    (deletions g) (additions g) (length (history g)) (historyclears g)
    (prev st) (M st) (Q st) (edge_enabled st) (seen st).

Definition getF (st : EKD) (i : nat) : Z := nth i (F st) 0.
Definition getM (st : EKD) (i : nat) : Z := nth i (M st) 0.
Definition getPrev (st : EKD) (i : nat) : LocalEdge := nth i (prev st) LocalEdge0.
Definition enabled (st : EKD) (i : nat) : bool := nth i (edge_enabled st) false.

(** *** Breadth-first search on the residual graph *)

(** [for(i = 0; i < n; i++) prev[i].from = -1;] *)
Fixpoint clear_from (n : nat) (p : list LocalEdge) : list LocalEdge :=
  match n with
  | O => p
  | S k => <[k := with_from (-1) (nth k p LocalEdge0)]> (clear_from k p)
  end.

(** The first lines of both searches: every [prev[i].from] is reset,
    [prev[s].from = -2], and the queue holds [s] alone. *)
Definition bfs_start (g : DynamicGraph) (s : nat) (st : EKD) : EKD :=
  let p := clear_from (nodes g) (prev st) in
  set_Q [s] (set_prev (<[s := with_from (-2) (nth s p LocalEdge0)]> p) st).

(** The residual capacity the search sees on adjacency entry [e]: on a
    forward entry [capacity[id] - F[id]], on an incoming entry [F[id] - 0]. *)
Definition residual (cap : list Z) (st : EKD) (back : bool) (i : nat) : Z :=
  if back then getF st i - 0 else nth i cap 0 - getF st i.

(** One inner [for] loop of the search over the adjacency entries [es] of
    [u], forward ([back = false]) or incoming ([back = true]).  The result's
    flag tells that [t] was reached, which leaves the loop. *)
Fixpoint scan (cap : list Z) (back : bool) (u t : nat) (es : list Edge)
    (st : EKD) : EKD * bool :=
  match es with
  | [] => (st, false)
  | e :: r =>
      if negb (enabled st (id e)) then scan cap back u t r st
      else
        let v := node e in
        let b := residual cap st back (id e) in
        if (b >? 0) && (le_from (getPrev st v) =? -1) then
          let st1 := set_prev (<[v := mkLocal (Z.of_nat u) (Z.of_nat (id e)) back]> (prev st)) st in
          let st2 := set_M (<[v := Z.min (getM st1 u) b]> (M st1)) st1 in
          if negb (v =? t)%nat then scan cap back u t r (set_Q (Q st2 ++ [v]) st2)
          else (st2, true)
        else scan cap back u t r st
  end.

(** The queue loop of [BreadthFirstSearch(s,t,bound)]: reaching [t] leaves
    only the inner loop, the outer loop runs until the queue is used up. *)
Fixpoint bfs_loop (fuel : nat) (g : DynamicGraph) (cap : list Z) (t j : nat)
    (found : bool) (st : EKD) : option (EKD * bool) :=
  match fuel with
  | O => None
  | S k =>
      match Q st !! j with
      | None => Some (st, found)
      | Some u =>
          let '(st1, f1) := scan cap false u t (incident g u) st in
          let '(st2, f2) := scan cap true u t (incoming g u) st1 in
          bfs_loop k g cap t (S j) (found || f1 || f2) st2
      end
  end.

(** [BreadthFirstSearch(s, t, bound)]. *)
Definition BreadthFirstSearch (fuel : nat) (g : DynamicGraph) (cap : list Z)
    (s t : nat) (st : EKD) : option (EKD * Z) :=
  match bfs_loop fuel g cap t 0 false (bfs_start g s st) with
  | None => None
  | Some (st1, found) => Some (st1, if found then getM st1 t else 0)
  end.

(** The queue loop of the search with a shortcut arc: here reaching [t]
    returns at once. *)
Fixpoint bfs_sc_loop (fuel : nat) (g : DynamicGraph) (cap : list Z) (t j : nat)
    (scFrom scTo : nat) (scCap scFlow : Z) (st : EKD) : option (EKD * Z) :=
  match fuel with
  | O => None
  | S k =>
      match Q st !! j with
      | None => Some (st, 0)
      | Some u =>
          let '(st0, f0) :=
            if (u =? scFrom)%nat && (scCap - scFlow >? 0) then
              let v := scTo in
              let st1 := set_prev (<[v := mkLocal (Z.of_nat u) (-1) false]> (prev st)) st in
              let st2 := set_M (<[v := Z.min (getM st1 u) (scCap - scFlow)]> (M st1)) st1 in
              if negb (v =? t)%nat then (set_Q (Q st2 ++ [v]) st2, false)
              else (st2, true)
            else (st, false) in
          if f0 then Some (st0, getM st0 t) else
          let '(st1, f1) := scan cap false u t (incident g u) st0 in
          if f1 then Some (st1, getM st1 t) else
          let '(st2, f2) := scan cap true u t (incoming g u) st1 in
          if f2 then Some (st2, getM st2 t) else
          bfs_sc_loop k g cap t (S j) scFrom scTo scCap scFlow st2
      end
  end.

(** [BreadthFirstSearch(s, t, shortCircuitFrom, shortCircuitTo,
    shortCircuitCapacity, shortCircuitFlow)]. *)
Definition BreadthFirstSearch_sc (fuel : nat) (g : DynamicGraph) (cap : list Z)
    (s t scFrom scTo : nat) (scCap scFlow : Z) (st : EKD) : option (EKD * Z) :=
  bfs_sc_loop fuel g cap t 0 scFrom scTo scCap scFlow (bfs_start g s st).

(** *** Augmentation *)

(** [F[id] = F[id] - m] on a backward step, [F[id] = F[id] + m] otherwise. *)
Definition push (p : LocalEdge) (m : Z) (st : EKD) : EKD :=
  let i := Z.to_nat (le_id p) in
  if backward p then set_F (<[i := getF st i - m]> (F st)) st
  else set_F (<[i := getF st i + m]> (F st)) st.

(** The walk [v = t; while (v != s) { ...; v = u; }] of [maxFlow_residual]
    and of [maxFlow_p(s,t)]. *)
Fixpoint augment (fuel : nat) (s v : nat) (m : Z) (st : EKD) : option EKD :=
  match fuel with
  | O => None
  | S k =>
      if (v =? s)%nat then Some st
      else
        let p := getPrev st v in
        if (le_id p <? 0) || (le_from p <? 0) then None
        else augment k s (Z.to_nat (le_from p)) m (push p m st)
  end.

(** The walk of [maxFlow_p(s,t,shortCircuitFrom,shortCircuitTo,bound)]: a
    step whose edge id is negative changes no flow and continues from
    [shortCircuitFrom]. *)
Fixpoint augment_sc (fuel : nat) (s v scFrom : nat) (m : Z) (st : EKD)
    : option EKD :=
  match fuel with
  | O => None
  | S k =>
      if (v =? s)%nat then Some st
      else
        let p := getPrev st v in
        if 0 <=? le_id p then
          if le_from p <? 0 then None
          else augment_sc k s (Z.to_nat (le_from p)) scFrom m (push p m st)
        else augment_sc k s scFrom scFrom m st
  end.

(** *** The three max-flow loops *)

(** The [while(true)] loop of [maxFlow_residual(s, t, bound)]; [new_flow] is
    the local of that name. *)
Fixpoint residual_loop (fuel fuel' : nat) (g : DynamicGraph) (cap : list Z)
    (s t : nat) (bound new_flow : Z) (st : EKD) : option (EKD * Z) :=
  match fuel with
  | O => None
  | S k =>
      match BreadthFirstSearch fuel' g cap s t st with
      | None => None
      | Some (st1, m0) =>
          let m := if (0 <=? bound) && (bound <? new_flow + m0)
                   then bound - new_flow else m0 in
          if m <=? 0 then Some (st1, new_flow)
          else
            match augment fuel' s t m st1 with
            | None => None
            | Some st2 => residual_loop k fuel' g cap s t bound (new_flow + m) st2
            end
      end
  end.

Definition maxFlow_residual (fuel : nat) (g : DynamicGraph) (cap : list Z)
    (s t : nat) (bound : Z) (st : EKD) : option (EKD * Z) :=
  residual_loop fuel fuel g cap s t bound 0 st.

(** [maxFlow_p(s, t)]: the loop works on the member [f] and returns it. *)
Fixpoint maxFlow_p (fuel fuel' : nat) (g : DynamicGraph) (cap : list Z)
    (s t : nat) (st : EKD) : option EKD :=
  match fuel with
  | O => None
  | S k =>
      match BreadthFirstSearch fuel' g cap s t st with
      | None => None
      | Some (st1, m) =>
          if m =? 0 then Some st1
          else
            match augment fuel' s t m (set_f (f st1 + m) st1) with
            | None => None
            | Some st2 => maxFlow_p k fuel' g cap s t st2
            end
      end
  end.

(** The [while(true)] loop of [maxFlow_p(s, t, shortCircuitFrom,
    shortCircuitTo, bound)]: [bound] is also the capacity of the shortcut
    arc, whose flow is the member [shortCircuitFlow]. *)
Fixpoint shortcut_loop (fuel fuel' : nat) (g : DynamicGraph) (cap : list Z)
    (s t scFrom scTo : nat) (bound newFlow : Z) (st : EKD)
    : option (EKD * Z) :=
  match fuel with
  | O => None
  | S k =>
      match BreadthFirstSearch_sc fuel' g cap s t scFrom scTo bound
              (shortCircuitFlow st) st with
      | None => None
      | Some (st1, m0) =>
          let m := if (0 <=? bound) && (bound <? newFlow + m0)
                   then bound - newFlow else m0 in
          if m =? 0 then Some (st1, newFlow)
          else
            match augment_sc fuel' s t scFrom m st1 with
            | None => None
            | Some st2 =>
                shortcut_loop k fuel' g cap s t scFrom scTo bound (newFlow + m) st2
            end
      end
  end.

Definition maxFlow_p_sc (fuel : nat) (g : DynamicGraph) (cap : list Z)
    (s t scFrom scTo : nat) (bound : Z) (st : EKD) : option (EKD * Z) :=
  shortcut_loop fuel fuel g cap s t scFrom scTo bound 0
    (set_shortCircuitFlow 0 st).

(** *** [maxFlow] *)

(** The branch of [maxFlow] that starts over: the buffers are resized, [F]
    is zeroed, [edge_enabled] is read from the graph, and [maxFlow_p(s,t)]
    runs. *)
Definition reinit (g : DynamicGraph) (s : nat) (st : EKD) : EKD :=
  let st1 := set_F (replicate (length (all_edges g)) 0) st in
  let st2 := set_prev (resize (nodes g) LocalEdge0 (prev st1)) st1 in
  let st3 := set_M (resize (nodes g) 0 (M st2)) st2 in
  let st4 := set_f 0 st3 in
  let st5 := set_M (replicate (nodes g) 0)
               (set_prev (clear_from (nodes g) (prev st4)) st4) in
  let st6 := set_prev (<[s := with_from (-2) (getPrev st5 s)]> (prev st5)) st5 in
  let st7 := set_M (<[s := INF]> (M st6)) st6 in
  set_edge_enabled
    (map (fun i => isEdge g i && edgeEnabled g i) (seq 0 (edges g))) st7.

(** The flags [added_Edges] and [needsReflow] of [maxFlow]. *)
Record Flags := mkFlags { added_Edges : bool; needsReflow : bool }.

(** The body of the replay loop for one entry of [g.history]. *)
Definition replay_event (fuel : nat) (g : DynamicGraph) (cap : list Z)
    (s t : nat) (ev : EdgeChange) (acc : EKD * Flags) : option (EKD * Flags) :=
  let '(st, fl) := acc in
  let edgeid := chg_id ev in
  if addition ev && edgeEnabled g edgeid then
    Some (set_edge_enabled (<[edgeid := true]> (edge_enabled st)) st,
          mkFlags true (needsReflow fl))
  else if negb (addition ev) && negb (edgeEnabled g edgeid) then
    let st1 := set_edge_enabled (<[edgeid := false]> (edge_enabled st)) st in
    let fv0 := getF st1 edgeid in
    if fv0 =? 0 then Some (st1, fl)
    else
      let e := nth edgeid (all_edges g) (mkFullEdge 0 0) in
      let '(u, v, fv) := if fv0 <? 0 then (to e, from e, - fv0)
                         else (from e, to e, fv0) in
      match maxFlow_residual fuel g cap u v fv st1 with
      | None => None
      | Some (st2, flow) =>
          if flow =? fv then
            Some (set_F (<[edgeid := 0]> (F st2)) st2, fl)
          else
            let delta := fv - flow in
            match maxFlow_p_sc fuel g cap u v s t delta st2 with
            | None => None
            | Some (st3, _) =>
                Some (set_F (<[edgeid := 0]> (F st3)) st3,
                      mkFlags (added_Edges fl) true)
            end
      end
  else Some (st, fl).

(** The replay loop over [g.history[history_qhead..]]. *)
Fixpoint replay (fuel : nat) (g : DynamicGraph) (cap : list Z) (s t : nat)
    (evs : list EdgeChange) (acc : EKD * Flags) : option (EKD * Flags) :=
  match evs with
  | [] => Some acc
  | ev :: r =>
      match replay_event fuel g cap s t ev acc with
      | None => None
      | Some acc1 => replay fuel g cap s t r acc1
      end
  end.

(** The recount under [needsReflow]: [F] summed over the entries of
    [g.incident(s,.)] that are enabled. *)
Definition sum_out (g : DynamicGraph) (s : nat) (st : EKD) : Z :=
  fold_left (fun acc e => if enabled st (id e) then acc + getF st (id e) else acc)
    (incident g s) 0.

(** [maxFlow(s, t)]: the new state and the returned value. *)
Definition maxFlow (fuel : nat) (g : DynamicGraph) (cap : list Z) (s t : nat)
    (st : EKD) : option (EKD * Z) :=
  if (0 <? last_modification st) && (modifications g =? last_modification st)
  then Some (st, curflow st)
  else
    let ost1 :=
      if (last_modification st <=? 0)
         || negb (historyclears g =? last_history_clear st) || changed g
      then maxFlow_p fuel fuel g cap s t (reinit g s st)
      else Some st in
    match ost1 with
    | None => None
    | Some st1 =>
        match replay fuel g cap s t (drop (history_qhead st1) (history g))
                (st1, mkFlags false false) with
        | None => None
        | Some (st2, fl) =>
            let st3 := if needsReflow fl then set_f (sum_out g s st2) st2 else st2 in
            let ost4 := if added_Edges fl then maxFlow_p fuel fuel g cap s t st3
                        else Some st3 in
            match ost4 with
            | None => None
            | Some st4 => Some (set_stamps g st4, f st4)
            end
        end
    end.

(** *** [minCut] *)

(** One inner loop of the exploration over the forward entries of [u]: a
    saturated edge is appended to [cut], another one marks its head. *)
Fixpoint cut_scan_out (g : DynamicGraph) (cap : list Z) (u : nat)
    (es : list Edge) (st : EKD) (cut : list MaxFlowEdge)
    : EKD * list MaxFlowEdge :=
  match es with
  | [] => (st, cut)
  | e :: r =>
      if negb (edgeEnabled g (id e)) then cut_scan_out g cap u r st cut
      else if nth (id e) cap 0 - getF st (id e) =? 0 then
        cut_scan_out g cap u r st (cut ++ [mkCut u (node e) (id e)])
      else if negb (nth (node e) (seen st) false) then
        cut_scan_out g cap u r
          (set_seen (<[node e := true]> (seen st)) (set_Q (Q st ++ [node e]) st)) cut
      else cut_scan_out g cap u r st cut
  end.

(** The inner loop over the incoming entries of [u]. *)
Fixpoint cut_scan_in (g : DynamicGraph) (es : list Edge) (st : EKD) : EKD :=
  match es with
  | [] => st
  | e :: r =>
      if negb (edgeEnabled g (id e)) then cut_scan_in g r st
      else if getF st (id e) =? 0 then cut_scan_in g r st
      else if negb (nth (node e) (seen st) false) then
        cut_scan_in g r
          (set_seen (<[node e := true]> (seen st)) (set_Q (Q st ++ [node e]) st))
      else cut_scan_in g r st
  end.

Fixpoint cut_loop (fuel : nat) (g : DynamicGraph) (cap : list Z) (j : nat)
    (st : EKD) (cut : list MaxFlowEdge) : option (EKD * list MaxFlowEdge) :=
  match fuel with
  | O => None
  | S k =>
      match Q st !! j with
      | None => Some (st, cut)
      | Some u =>
          let '(st1, cut1) := cut_scan_out g cap u (incident g u) st cut in
          cut_loop k g cap (S j) (cut_scan_in g (incoming g u) st1) cut1
      end
  end.

(** The final compaction: the entries from a seen to an unseen vertex are
    kept, in order. *)
Definition keep_cut (st : EKD) (cut : list MaxFlowEdge) : list MaxFlowEdge :=
  List.filter (fun c => negb (nth (cv c) (seen st) false) && nth (cu c) (seen st) false) cut.

(** [minCut(s, t, cut)]: the new state, the cut vector on return and the
    returned value. *)
Definition minCut (fuel : nat) (g : DynamicGraph) (cap : list Z) (s t : nat)
    (cut : list MaxFlowEdge) (st : EKD) : option (EKD * list MaxFlowEdge * Z) :=
  match maxFlow fuel g cap s t st with
  | None => None
  | Some (st1, fl) =>
      let st2 := set_Q [s] st1 in
      let st3 := set_seen (<[s := true]> (replicate (nodes g) false)) st2 in
      match cut_loop fuel g cap 0 st3 cut with
      | None => None
      | Some (st4, cut1) => Some (st4, keep_cut st4 cut1, fl)
      end
  end.

(** [getEdgeFlow(id)] and [getEdgeResidualCapacity(id)]. *)
Definition getEdgeFlow (st : EKD) (i : nat) : Z := getF st i.
Definition getEdgeResidualCapacity (cap : list Z) (st : EKD) (i : nat) : Z :=
  nth i cap 0 - getF st i.

(** *** The repair of a deletion, in the words of the specification *)

(** The endpoints of edge [e] oriented along its flow, and that flow. *)
Definition reorient (g : DynamicGraph) (e : nat) (st : EKD) : nat * nat * Z :=
  let fe := nth e (all_edges g) (mkFullEdge 0 0) in
  if getF st e <? 0 then (to fe, from fe, - getF st e)
  else (from fe, to fe, getF st e).

(** [edge_enabled[e] = false]. *)
Definition disable_flag (e : nat) (st : EKD) : EKD :=
  set_edge_enabled (<[e := false]> (edge_enabled st)) st.

(** The repair after the deletion of an edge [e] that carries flow, written
    from the specification's description: the flag of [e] is cleared; a
    residual-graph max-flow from [u] to [v] bounded by [fv] runs; if it
    recovers [fv], [F[e]] is set to zero; otherwise a shortcut-augmented
    max-flow from [u] to [v] runs with a shortcut arc of capacity
    [delta = fv - recovered], [F[e]] is set to zero and a reflow is
    requested (the returned flag).  The endpoints of the shortcut arc are
    given by [arc u v]. *)
Definition deletion_repair (arc : nat -> nat -> nat * nat) (fuel : nat)
    (g : DynamicGraph) (cap : list Z) (e : nat) (st : EKD)
    : option (EKD * bool) :=
  let st1 := disable_flag e st in
  let '(u, v, fv) := reorient g e st1 in
  match maxFlow_residual fuel g cap u v fv st1 with
  | None => None
  | Some (st2, recovered) =>
      if recovered =? fv then Some (set_F (<[e := 0]> (F st2)) st2, false)
      else
        let delta := fv - recovered in
        match maxFlow_p_sc fuel g cap u v (fst (arc u v)) (snd (arc u v)) delta st2 with
        | None => None
        | Some (st3, _) => Some (set_F (<[e := 0]> (F st3)) st3, true)
        end
  end.

(** The shortcut arc as the specification words it: from [u] to [v]. *)
Definition arc_u_v (u v : nat) : nat * nat := (u, v).

(** The shortcut arc from the source to the sink of the [maxFlow] call. *)
Definition arc_s_t (s t : nat) (u v : nat) : nat * nat := (s, t).

(** What [maxFlow] does after the replay when a reflow was requested and no
    edge was added: the cached value is recounted and the stamps are
    taken. *)
Definition finish_repair (g : DynamicGraph) (s : nat) (r : EKD * bool)
    : EKD * Z :=
  let '(st, reflow) := r in
  let st1 := if reflow then set_f (sum_out g s st) st else st in
  (set_stamps g st1, f st1).

(** *** The scenarios of the specification *)

(** Flow scenario A: nodes 0..3, edges 0->1 (3), 0->2 (2), 1->2 (1),
    1->3 (2), 2->3 (3), all enabled, with the [changed] flag as given. *)
Definition graphA (ch : bool) : DynamicGraph :=
  mkGraph 4
    [mkFullEdge 0 1; mkFullEdge 0 2; mkFullEdge 1 2; mkFullEdge 1 3; mkFullEdge 2 3]
    [true; true; true; true; true] [] 9 9 0 0 ch.

Definition capA : list Z := [3; 2; 1; 2; 3].

(** The engine after the first [maxFlow(0,3)] of scenario A. *)
Definition stateA : EKD :=
  Eval vm_compute in
    match maxFlow 8 (graphA false) capA 0 3 init with
    | Some (st, _) => st
    | None => init
    end.

(** Scenario A after the first [maxFlow(0,3)], when the client has then
    disabled edge 1, disabled edge 3 and enabled edge 1 again: three events
    wait for the next call. *)
Definition graphD : DynamicGraph :=
  enableEdge 1 (disableEdge 3 (disableEdge 1 (graphA false))).

(** A graph with an edge from a node to itself: nodes 0..2, edges 0->1,
    1->1, 1->2 and 0->2, all enabled. *)
Definition graphL : DynamicGraph :=
  mkGraph 3 [mkFullEdge 0 1; mkFullEdge 1 1; mkFullEdge 1 2; mkFullEdge 0 2]
    [true; true; true; true] [] 7 7 0 0 false.

Definition capL : list Z := [2; 4; 1; 1].

(** The cut that the specification lists for scenario A. *)
Definition cutA_spec : list MaxFlowEdge :=
  [mkCut 0 2 1; mkCut 1 2 2; mkCut 1 3 3].

(** A graph on which the recount goes wrong: nodes 0..2, edges 0->1, 1->2
    and 1->0, each of capacity 1, all enabled. *)
Definition graphB : DynamicGraph :=
  mkGraph 3 [mkFullEdge 0 1; mkFullEdge 1 2; mkFullEdge 1 0]
    [true; true; true] [] 6 6 0 0 false.

Definition capB : list Z := [1; 1; 1].

(** The sum of the capacities of the edges of a cut. *)
Definition cut_capacity (cap : list Z) (cut : list MaxFlowEdge) : Z :=
  fold_right (fun c acc => nth (cid c) cap 0 + acc) 0 cut.

(** *** Runs of a client *)

(** What a client does with one graph and one engine: it enables or
    disables an edge of the graph, or calls [maxFlow(s,t)]. *)
Inductive Op := Enable (e : nat) | Disable (e : nat) | MaxFlow.

(** The graph, the engine and the values returned so far (the latest
    first) after the operations [ops]. *)
Fixpoint run (fuel : nat) (cap : list Z) (s t : nat) (ops : list Op)
    (g : DynamicGraph) (st : EKD) (out : list Z)
    : option (DynamicGraph * EKD * list Z) :=
  match ops with
  | [] => Some (g, st, out)
  | Enable e :: r => run fuel cap s t r (enableEdge e g) st out
  | Disable e :: r => run fuel cap s t r (disableEdge e g) st out
  | MaxFlow :: r =>
      match maxFlow fuel g cap s t st with
      | None => None
      | Some (st1, v) => run fuel cap s t r g st1 (v :: out)
      end
  end.

(** The reference: Edmonds-Karp from scratch on the edges that are enabled
    now, which is the engine's own start-over branch on a new instance. *)
Definition from_scratch (fuel : nat) (g : DynamicGraph) (cap : list Z)
    (s t : nat) : option Z :=
  option_map f (maxFlow_p fuel fuel g cap s t (reinit g s init)).

(** The values a client gets that answers every call from scratch. *)
Fixpoint run_reference (fuel : nat) (cap : list Z) (s t : nat) (ops : list Op)
    (g : DynamicGraph) (out : list Z) : option (list Z) :=
  match ops with
  | [] => Some out
  | Enable e :: r => run_reference fuel cap s t r (enableEdge e g) out
  | Disable e :: r => run_reference fuel cap s t r (disableEdge e g) out
  | MaxFlow :: r =>
      match from_scratch fuel g cap s t with
      | None => None
      | Some v => run_reference fuel cap s t r g (v :: out)
      end
  end.

(** *** Frames *)

(** The searches write [prev], [M] and [Q] only. *)
Definition search_frame (st st' : EKD) : Prop :=
  F st' = F st /\ f st' = f st /\ edge_enabled st' = edge_enabled st
  /\ shortCircuitFlow st' = shortCircuitFlow st
  /\ length (prev st') = length (prev st) /\ length (M st') = length (M st).

(** The walks write [F] only, and keep its length. *)
Definition walk_frame (st st' : EKD) : Prop :=
  length (F st') = length (F st) /\ f st' = f st
  /\ edge_enabled st' = edge_enabled st
  /\ shortCircuitFlow st' = shortCircuitFlow st
  /\ prev st' = prev st /\ M st' = M st /\ Q st' = Q st.

(** The max-flow loops keep the sizes and the flags. *)
Definition loop_frame (st st' : EKD) : Prop :=
  length (F st') = length (F st) /\ edge_enabled st' = edge_enabled st
  /\ length (prev st') = length (prev st) /\ length (M st') = length (M st).

(** *** Flows *)

(** The edge with id [i]. *)
Definition edge_at (g : DynamicGraph) (i : nat) : FullEdge :=
  nth i (all_edges g) (mkFullEdge 0 0).

(** The endpoints of every edge are nodes of the graph. *)
Definition graph_wf (g : DynamicGraph) : Prop :=
  forall e, In e (all_edges g) -> (from e < nodes g)%nat /\ (to e < nodes g)%nat.

(** The buffers of the engine have the sizes of the graph. *)
Definition sizes_ok (g : DynamicGraph) (st : EKD) : Prop :=
  length (F st) = edges g /\ length (prev st) = nodes g
  /\ length (M st) = nodes g /\ length (edge_enabled st) = edges g.

(** The sum of [f j e] over the edges [e] of [es], numbered from [k]. *)
Fixpoint esum (f : nat -> FullEdge -> Z) (k : nat) (es : list FullEdge) : Z :=
  match es with
  | [] => 0
  | e :: r => f k e + esum f (S k) r
  end.

(** The sum of [f 0], ..., [f (k-1)]. *)
Fixpoint Zsum (f : nat -> Z) (k : nat) : Z :=
  match k with
  | O => 0
  | S k' => Zsum f k' + f k'
  end.

(** What edge [i] adds to the flow into [x] minus the flow out of [x], as
    the engine sees it: only an enabled edge counts. *)
Definition term (st : EKD) (x i : nat) (e : FullEdge) : Z :=
  if enabled st i then
    (if (to e =? x)%nat then getF st i else 0)
    - (if (from e =? x)%nat then getF st i else 0)
  else 0.

(** Inflow minus outflow at node [x]. *)
Definition excess (g : DynamicGraph) (st : EKD) (x : nat) : Z :=
  esum (term st x) 0 (all_edges g).

(** The sum of [F] over the enabled entries of an adjacency list, as in
    [dbg_check_flow]. *)
Definition flow_sum (st : EKD) (l : list Edge) : Z :=
  fold_right (fun e acc => (if enabled st (id e) then getF st (id e) else 0) + acc) 0 l.

Definition inflow (g : DynamicGraph) (st : EKD) (u : nat) : Z :=
  flow_sum st (incoming g u).

Definition outflow (g : DynamicGraph) (st : EKD) (u : nat) : Z :=
  flow_sum st (incident g u).

(** [1] if the nodes are equal, [0] otherwise. *)
Definition ind (x y : nat) : Z := if (x =? y)%nat then 1 else 0.

(** [1] for [true], [0] for [false]. *)
Definition b2z (b : bool) : Z := if b then 1 else 0.

(** The set [U] of nodes is closed under the residual arcs that the
    searches follow: an enabled edge with spare capacity does not leave it,
    and an enabled edge with flow does not enter it. *)
Definition closed (g : DynamicGraph) (cap : list Z) (st : EKD) (U : nat -> bool)
    : Prop :=
  forall i, (i < edges g)%nat -> enabled st i = true ->
    (U (from (edge_at g i)) = true -> 0 < nth i cap 0 - getF st i ->
     U (to (edge_at g i)) = true)
    /\ (U (to (edge_at g i)) = true -> 0 < getF st i ->
        U (from (edge_at g i)) = true).

(** The balance of the flow: node [t] receives [a] units more than it
    sends, node [s] sends [a] units more than it receives, and [d] units
    that entered [u] have yet to leave it for [v]. *)
Definition balance (g : DynamicGraph) (st : EKD) (s t : nat) (a : Z)
    (u v : nat) (d : Z) : Prop :=
  forall x, (x < nodes g)%nat ->
    excess g st x = a * (ind t x - ind s x) + d * (ind u x - ind v x).

(** The capacity constraints on every edge but [skip]: the flow of an
    enabled edge is between zero and its capacity, a disabled edge and a
    self-loop carry none. *)
Definition capacity_ok (g : DynamicGraph) (cap : list Z) (st : EKD)
    (skip : option nat) : Prop :=
  forall i, (i < edges g)%nat -> skip <> Some i ->
    (if enabled st i then 0 <= getF st i <= nth i cap 0 else getF st i = 0)
    /\ (from (edge_at g i) = to (edge_at g i) -> getF st i = 0).

(** The bottleneck labels are positive at the source and at the tail of
    every edge that carries flow, which is where a search can start. *)
Definition labels_ok (g : DynamicGraph) (st : EKD) (s : nat) : Prop :=
  0 < getM st s
  /\ forall i, (i < edges g)%nat -> 0 < getF st i -> 0 < getM st (from (edge_at g i)).

(** The invariant of the engine between the steps of [maxFlow(s,t)]. *)
Definition flow_inv (g : DynamicGraph) (cap : list Z) (s t : nat) (st : EKD)
    : Prop :=
  sizes_ok g st /\ capacity_ok g cap st None /\ labels_ok g st s
  /\ exists a, 0 <= a /\ balance g st s t a 0 0 0.

(** The total capacity. *)
Definition total_capacity (g : DynamicGraph) (cap : list Z) : Z :=
  esum (fun i _ => nth i cap 0) 0 (all_edges g).

(** Fuel that is enough for every loop of the engine on [g]. *)
Definition enough (g : DynamicGraph) (cap : list Z) : nat :=
  Z.to_nat (total_capacity g cap) + nodes g + 2.

(** *** The search tree *)

(** Node [v] has been reached by the running search. *)
Definition discovered (st : EKD) (v : nat) : Prop := le_from (getPrev st v) <> -1.

Definition discoveredb (st : EKD) (v : nat) : bool :=
  negb (le_from (getPrev st v) =? -1).

(** Edge [i] taken forward ([back = false]) or backward ([back = true])
    leads from [u] to [v]. *)
Definition arc (g : DynamicGraph) (u v i : nat) (back : bool) : Prop :=
  (i < edges g)%nat
  /\ if back then to (edge_at g i) = u /\ from (edge_at g i) = v
     else from (edge_at g i) = u /\ to (edge_at g i) = v.

(** The search follows edge [i] in that direction: it is enabled and has
    residual capacity. *)
Definition usable (cap : list Z) (st : EKD) (i : nat) (back : bool) : Prop :=
  enabled st i = true /\ 0 < residual cap st back i.

(** Every residual arc that leaves [u] leads to a node that has been
    reached. *)
Definition scanned (g : DynamicGraph) (cap : list Z) (st : EKD) (u : nat) : Prop :=
  forall v i back, arc g u v i back -> usable cap st i back -> discovered st v.

(** The predecessor record of [v] is right: it names a node [u] that was
    reached before [v] and whose label bounds that of [v], and either an arc
    from [u] to [v] that the search follows, whose residual capacity bounds
    the label of [v], or the shortcut arc [sc].  [r] orders the nodes by the
    time they were reached, [via] tells whether the way to a node uses the
    shortcut. *)
Definition parent_ok (g : DynamicGraph) (cap : list Z) (sc : option (nat * nat))
    (r : nat -> nat) (via : nat -> bool) (st : EKD) (v : nat) : Prop :=
  exists u,
    le_from (getPrev st v) = Z.of_nat u /\ (u < nodes g)%nat
    /\ discovered st u /\ (r u < r v)%nat /\ getM st v <= getM st u
    /\ ((exists i, le_id (getPrev st v) = Z.of_nat i
                   /\ arc g u v i (backward (getPrev st v))
                   /\ usable cap st i (backward (getPrev st v))
                   /\ getM st v <= residual cap st (backward (getPrev st v)) i
                   /\ via v = via u)
        \/ (le_id (getPrev st v) = -1 /\ sc = Some (u, v)
            /\ via u = false /\ via v = true)).

(** The invariant of a search from [s] for [t]: the queue holds distinct
    reached nodes, every reached node is in the queue or is [t], the labels
    of the reached nodes are positive, every reached node but [s] has a
    right predecessor record, and a node reached without the shortcut is in
    the set [U]. *)
Definition bfs_inv (g : DynamicGraph) (cap : list Z) (s t : nat)
    (sc : option (nat * nat)) (U : nat -> bool) (r : nat -> nat)
    (via : nat -> bool) (st : EKD) : Prop :=
  (length (prev st) = nodes g /\ length (M st) = nodes g)
  /\ List.NoDup (Q st)
  /\ (forall v, In v (Q st) ->
        (v < nodes g)%nat /\ discovered st v /\ (r v < length (Q st))%nat)
  /\ (forall v, (v < nodes g)%nat -> discovered st v ->
        (In v (Q st) \/ v = t) /\ (r v <= length (Q st))%nat /\ 0 < getM st v
        /\ (via v = false -> U v = true))
  /\ (le_from (getPrev st s) = -2 /\ In s (Q st) /\ via s = false)
  /\ (forall v, (v < nodes g)%nat -> discovered st v -> v <> s ->
        parent_ok g cap sc r via st v).

(** The state [st'] extends the search of [st]: what was reached stays as
    it is, and a label that changes becomes positive. *)
Definition extends (st st' : EKD) : Prop :=
  search_frame st st'
  /\ (forall x, discovered st x ->
        getPrev st' x = getPrev st x /\ getM st' x = getM st x)
  /\ (forall x, getM st' x = getM st x \/ 0 < getM st' x)
  /\ (exists new, Q st' = Q st ++ new).


(** The first lines of the queue loop of the search with a shortcut arc:
    when [u] is the tail of the shortcut arc and the arc has spare capacity,
    its head is labelled, whatever its label was. *)
Definition shortcut_step (t u scFrom scTo : nat) (scCap scFlow : Z) (st : EKD)
    : EKD * bool :=
  if (u =? scFrom)%nat && (scCap - scFlow >? 0) then
    let v := scTo in
    let st1 := set_prev (<[v := mkLocal (Z.of_nat u) (-1) false]> (prev st)) st in
    let st2 := set_M (<[v := Z.min (getM st1 u) (scCap - scFlow)]> (M st1)) st1 in
    if negb (v =? t)%nat then (set_Q (Q st2 ++ [v]) st2, false)
    else (st2, true)
  else (st, false).

(** The tail [p] of the shortcut arc left the queue before position [j]
    whenever a node was reached through the arc. *)
Definition fired_inv (st : EKD) (via : nat -> bool) (j p : nat) : Prop :=
  forall x, discovered st x -> via x = true ->
    exists jj, (jj < j)%nat /\ Q st !! jj = Some p.

(** The invariant of a walk that has come down to node [v] of the search
    tree of [st0], rooted at [a]: only [F] has changed, the capacity
    constraints hold, [U] is still closed, the tree arcs that the walk has
    yet to take are untouched, and the tail of every edge with flow has a
    positive label. *)
Definition walk_inv (g : DynamicGraph) (cap : list Z) (skip : option nat)
    (U : nat -> bool) (a : nat) (r : nat -> nat) (st0 st : EKD) (v : nat) : Prop :=
  walk_frame st0 st
  /\ capacity_ok g cap st skip
  /\ closed g cap st U
  /\ (forall x i, (x < nodes g)%nat -> discovered st0 x -> x <> a ->
        (r x <= r v)%nat -> le_id (getPrev st0 x) = Z.of_nat i ->
        getF st i = getF st0 i)
  /\ (forall i, (i < edges g)%nat -> 0 < getF st i ->
        0 < getM st0 (from (edge_at g i))).

(** No capacity is negative. *)
Definition nonneg (cap : list Z) : Prop := forall i, 0 <= nth i cap 0.

(** The invariant of the repair of a deleted edge [e] whose flow went from
    [u] to [v]: the edge is disabled and keeps its flow, which is left out
    of the capacity constraints, and [d] units of it have yet to be
    rerouted. *)
Definition repair_inv (g : DynamicGraph) (cap : list Z) (s t e u v : nat)
    (a d : Z) (st : EKD) : Prop :=
  sizes_ok g st /\ capacity_ok g cap st (Some e) /\ enabled st e = false
  /\ labels_ok g st s /\ 0 < getM st u
  /\ balance g st s t a u v d /\ 0 <= a /\ 0 <= d.

(** *** The engine between the calls *)

(** The events of the log that the engine has yet to replay. *)
Definition pending (g : DynamicGraph) (st : EKD) : list EdgeChange :=
  drop (history_qhead st) (history g).

(** What holds of an engine for [maxFlow(s,t)] between the operations of a
    client: it has yet to compute a flow, or its flow satisfies the
    invariant, every flag of its own that differs from the graph's has an
    event to come that sets it, and with the stamp of the graph the flags
    are those of the graph. *)
Definition engine_inv (g : DynamicGraph) (cap : list Z) (s t : nat) (st : EKD)
    : Prop :=
  last_modification st <= 0
  \/ (flow_inv g cap s t st
      /\ last_modification st <= modifications g
      /\ (history_qhead st <= length (history g))%nat
      /\ (forall i, (i < edges g)%nat ->
            enabled st i = edgeEnabled g i
            \/ exists ev, In ev (pending g st) /\ chg_id ev = i
                          /\ addition ev = edgeEnabled g i)
      /\ (last_modification st = modifications g ->
          forall i, (i < edges g)%nat -> enabled st i = edgeEnabled g i)).

(** The flow map is feasible for the graph as it is: the flags of the
    engine are those of the graph, the flow of an enabled edge is between
    zero and its capacity, a disabled edge carries none, and at every node
    but [s] and [t] the two sums of [dbg_check_flow] are equal. *)
Definition feasible (g : DynamicGraph) (cap : list Z) (s t : nat) (st : EKD)
    : Prop :=
  (forall e, (e < edges g)%nat -> enabled st e = edgeEnabled g e)
  /\ (forall e, (e < edges g)%nat ->
        if edgeEnabled g e then 0 <= getF st e <= nth e cap 0 else getF st e = 0)
  /\ (forall u, (u < nodes g)%nat -> u <> s -> u <> t ->
        inflow g st u = outflow g st u).

(** *** Cuts and residual paths *)

(** The capacity of the cut around the set [U]: the sum of the capacities
    of the enabled edges that leave [U]. *)
Definition cut_cap (g : DynamicGraph) (cap : list Z) (st : EKD) (U : nat -> bool)
    : Z :=
  esum (fun i e => if enabled st i && U (from e) && negb (U (to e))
                   then nth i cap 0 else 0) 0 (all_edges g).

(** What leaves [s] minus what enters it, with the sums of
    [dbg_check_flow]. *)
Definition net_out (g : DynamicGraph) (st : EKD) (s : nat) : Z :=
  outflow g st s - inflow g st s.

(** Node [v] can be reached from [s] over arcs of residual capacity at
    least [b]: enabled edges taken forward with that much spare capacity,
    enabled edges taken backward with that much flow. *)
Inductive reach (g : DynamicGraph) (cap : list Z) (st : EKD) (s : nat) (b : Z)
    : nat -> Prop :=
  | reach_refl : reach g cap st s b s
  | reach_step u v i back :
      reach g cap st s b u -> arc g u v i back -> enabled st i = true ->
      b <= residual cap st back i ->
      reach g cap st s b v.

(** *** The engine after a call *)

(** The engine right after a [maxFlow(s,t)] call on [g] that returned [v]:
    the invariant of the flow holds, the flags and the stamps are those of
    the graph, and [f] and [curflow] hold [v]. *)
Definition settled_engine (g : DynamicGraph) (cap : list Z) (s t : nat)
    (st : EKD) (v : Z) : Prop :=
  flow_inv g cap s t st
  /\ (forall i, (i < edges g)%nat -> enabled st i = edgeEnabled g i)
  /\ last_modification st = modifications g
  /\ history_qhead st = length (history g)
  /\ last_history_clear st = historyclears g
  /\ f st = v /\ curflow st = v.

(** What holds of an engine between the operations of a client when the
    modification counter of the graph is positive: [engine_inv] with the
    stamps. *)
Definition engine_inv2 (g : DynamicGraph) (cap : list Z) (s t : nat) (st : EKD)
    : Prop :=
  last_modification st <= 0
  \/ (flow_inv g cap s t st
      /\ last_modification st <= modifications g
      /\ (history_qhead st <= length (history g))%nat
      /\ (forall i, (i < edges g)%nat ->
            enabled st i = edgeEnabled g i
            \/ exists ev, In ev (pending g st) /\ chg_id ev = i
                          /\ addition ev = edgeEnabled g i)
      /\ last_history_clear st = historyclears g
      /\ f st = curflow st
      /\ (last_modification st = modifications g ->
          (forall i, (i < edges g)%nat -> enabled st i = edgeEnabled g i)
          /\ history_qhead st = length (history g))).

(** The graph after the edges [es] are enabled one after the other. *)
Definition enable_all (es : list nat) (g : DynamicGraph) : DynamicGraph :=
  fold_left (fun g e => enableEdge e g) es g.

(** *** The exploration of [minCut] *)

(** The sum of the capacities of the entries of a cut vector, as the debug
    block of [minCut] sums it. *)
Definition cut_weight (cap : list Z) (cut : list MaxFlowEdge) : Z :=
  fold_right (fun c acc => nth (cid c) cap 0 + acc) 0 cut.

(** [seen[x]]. *)
Definition seenb (st : EKD) (x : nat) : bool := nth x (seen st) false.

(** The entries that the exploration of node [u] appends to the cut vector:
    one for each enabled forward edge of [u] without spare capacity. *)
Definition saturated_out (g : DynamicGraph) (cap : list Z) (st : EKD) (u : nat)
    : list MaxFlowEdge :=
  map (fun e => mkCut u (node e) (id e))
    (List.filter (fun e => edgeEnabled g (id e)
                           && (nth (id e) cap 0 - getF st (id e) =? 0))
       (incident g u)).

(** Node [u] has been explored: the head of every enabled forward edge of
    [u] with spare capacity is seen, and so is the tail of every enabled
    incoming edge of [u] with flow. *)
Definition explored (g : DynamicGraph) (cap : list Z) (st : EKD) (u : nat)
    : Prop :=
  forall i, (i < edges g)%nat -> edgeEnabled g i = true ->
    (from (edge_at g i) = u -> nth i cap 0 - getF st i <> 0 ->
     seenb st (to (edge_at g i)) = true)
    /\ (to (edge_at g i) = u -> getF st i <> 0 ->
        seenb st (from (edge_at g i)) = true).

(** The invariant of the exploration: [Q] lists the seen nodes, each once,
    and all of them lie in the set [U0]. *)
Definition explore_inv (g : DynamicGraph) (U0 : nat -> bool) (st : EKD) : Prop :=
  length (seen st) = nodes g
  /\ List.NoDup (Q st)
  /\ (forall x, seenb st x = true <-> In x (Q st))
  /\ (forall x, In x (Q st) -> (x < nodes g)%nat /\ U0 x = true).

(** The edges of [es], numbered from [k], that satisfy [p], as cut
    entries. *)
Fixpoint crossing (p : nat -> FullEdge -> bool) (k : nat) (es : list FullEdge)
    : list MaxFlowEdge :=
  match es with
  | [] => []
  | e :: r => (if p k e then [mkCut (from e) (to e) k] else [])
              ++ crossing p (S k) r
  end.

(** *** Runs without deletions *)

(** The client never disables an edge. *)
Definition no_disable (ops : list Op) : Prop := forall e, ~ In (Disable e) ops.

(** The engine holds a flow whose value is [f], the events it has yet to
    replay are additions, and while none of them takes effect the flow is
    separated from more by a closed set. *)
Definition exact_engine (g : DynamicGraph) (cap : list Z) (s t : nat) (st : EKD)
    : Prop :=
  balance g st s t (f st) 0 0 0
  /\ (forall ev, In ev (pending g st) -> addition ev = true)
  /\ ((forall ev, In ev (pending g st) -> edgeEnabled g (chg_id ev) = false) ->
      exists U, closed g cap st U /\ U s = true /\ U t = false).

(** What holds of the engine between the operations of a client that never
    disables an edge. *)
Definition additions_inv (g : DynamicGraph) (cap : list Z) (s t : nat) (st : EKD)
    : Prop :=
  engine_inv2 g cap s t st
  /\ (0 < last_modification st -> exact_engine g cap s t st).
End Dgl.

(** ** Minimal cover selection *)

Module Cover.

(** *** The solver view *)

Definition Var := nat.

(** Modelled from the spec: a literal is a (variable, polarity) pair
    ([core/SolverTypes.h] is not part of the sources).  [sign = false] is the
    positive literal [mkLit(v)]. *)
Record Lit := mkLitS { var : Var; sign : bool }.

Definition mkLit (v : Var) : Lit := mkLitS v false.
Definition neg (p : Lit) : Lit := mkLitS (var p) (negb (sign p)).

Definition Lit_eqb (a b : Lit) : bool :=
  (var a =? var b) && Bool.eqb (sign a) (sign b).

Inductive lbool := l_True | l_False | l_Undef.

Definition lbool_eqb (a b : lbool) : bool :=
  match a, b with
  | l_True, l_True | l_False, l_False | l_Undef, l_Undef => true
  | _, _ => false
  end.

(** [struct Solver::Watcher]; a blocker that is [lit_Undef] is [None]. *)
Record Watcher := mkWatcher { cref : nat; blocker : option Lit }.

(** Modelled from the spec: the read-only view of the SAT solver
    ([core/Solver.h] is not part of the sources): the number of variables,
    the assignment, the trail with the start of each decision level, the
    clauses (a clause reference is a position in [clauses]) and the watch
    lists. *)
Record Solver := mkSolver {
  nVars : nat;
  assigns : list lbool;
  trail : list Lit;
  trail_lim : list nat;
  clauses : list (list Lit);
  watches : Lit -> list Watcher
}.

Definition decisionLevel (Sv : Solver) : nat := length (trail_lim Sv).

(** [S.value(l)]: the value of the variable, flipped under a negative
    literal. *)
Definition value (Sv : Solver) (l : Lit) : lbool :=
  match nth (var l) (assigns Sv) l_Undef with
  | l_Undef => l_Undef
  | l_True => if sign l then l_False else l_True
  | l_False => if sign l then l_True else l_False
  end.

(** *** The state of [class Cover] *)

Record Cover := mkCover {
  uncovered : list (list Lit);
  coverCount : list Z;
  mVarsGreedyScore : list Z;
  mVarsInUncCls : list (list nat);
  potentialCoverLits : list Lit;
  in_cover : list bool;
  subset : list Var;
  include : list bool
}.

Definition init : Cover := mkCover [] [] [] [] [] [] [] [].

(** [vec::growTo(size, pad)]: pads up to [size], never shrinks. *)
Definition growTo {A} (n : nat) (pad : A) (l : list A) : list A :=
  l ++ replicate (n - length l) pad.

Definition set_include (x : list bool) (st : Cover) : Cover :=
  mkCover (uncovered st) (coverCount st) (mVarsGreedyScore st)
    (mVarsInUncCls st) (potentialCoverLits st) (in_cover st) (subset st) x.

Definition set_subset (x : list Var) (st : Cover) : Cover :=
  mkCover (uncovered st) (coverCount st) (mVarsGreedyScore st)
    (mVarsInUncCls st) (potentialCoverLits st) (in_cover st) x (include st).

Definition set_in_cover (x : list bool) (st : Cover) : Cover :=
  mkCover (uncovered st) (coverCount st) (mVarsGreedyScore st)
    (mVarsInUncCls st) (potentialCoverLits st) x (subset st) (include st).

Definition set_potentialCoverLits (x : list Lit) (st : Cover) : Cover :=
  mkCover (uncovered st) (coverCount st) (mVarsGreedyScore st)
    (mVarsInUncCls st) x (in_cover st) (subset st) (include st).

Definition set_mVarsInUncCls (x : list (list nat)) (st : Cover) : Cover :=
  mkCover (uncovered st) (coverCount st) (mVarsGreedyScore st)
    x (potentialCoverLits st) (in_cover st) (subset st) (include st).

Definition set_mVarsGreedyScore (x : list Z) (st : Cover) : Cover :=
  mkCover (uncovered st) (coverCount st) x
    (mVarsInUncCls st) (potentialCoverLits st) (in_cover st) (subset st) (include st).

Definition set_coverCount (x : list Z) (st : Cover) : Cover :=
  mkCover (uncovered st) x (mVarsGreedyScore st)
    (mVarsInUncCls st) (potentialCoverLits st) (in_cover st) (subset st) (include st).

Definition set_uncovered (x : list (list Lit)) (st : Cover) : Cover :=
  mkCover x (coverCount st) (mVarsGreedyScore st)
    (mVarsInUncCls st) (potentialCoverLits st) (in_cover st) (subset st) (include st).

Definition included (st : Cover) (v : Var) : bool := nth v (include st) false.
Definition inCover (st : Cover) (v : Var) : bool := nth v (in_cover st) false.
Definition count (st : Cover) (i : nat) : Z := nth i (coverCount st) 0%Z.
Definition score (st : Cover) (v : Var) : Z := nth v (mVarsGreedyScore st) 0%Z.
Definition inUncCls (st : Cover) (v : Var) : list nat := nth v (mVarsInUncCls st) [].

(** [excludeFromCover(v, exclude)]. *)
Definition excludeFromCover (v : Var) (exclude : bool) (st : Cover) : Cover :=
  set_include (<[v := negb exclude]> (growTo (v + 1) true (include st))) st.

(** *** [getCover]: the common prefix *)

(** The loop that fills [subset] with the indices [i] of [include] that are
    set. *)
Definition build_subset (inc : list bool) : list Var :=
  List.filter (fun i => nth i inc false) (seq 0 (length inc)).

(** The lines before the first pass: [include] grows, [subset] is built if
    it is empty, [in_cover] is reset. *)
Definition prologue (Sv : Solver) (st : Cover) : Cover :=
  let st1 := set_include (growTo (nVars Sv) true (include st)) st in
  let st2 := if length (subset st1) =? 0
             then set_subset (subset st1 ++ build_subset (include st1)) st1
             else st1 in
  set_in_cover (growTo (nVars Sv) false []) st2.

(** The loop over the trail below the first decision. *)
Fixpoint level0 (ls : list Lit) (st : Cover) (cover : list Lit)
    : Cover * list Lit :=
  match ls with
  | [] => (st, cover)
  | l :: r =>
      if included st (var l) then
        level0 r (set_in_cover (<[var l := true]> (in_cover st)) st) (cover ++ [l])
      else level0 r st cover
  end.

Definition level0_count (Sv : Solver) : nat :=
  if decisionLevel Sv =? 0 then length (trail Sv)
  else nth 0 (trail_lim Sv) 0.

(** *** Fast mode *)

(** The loop over the watchers [ws] of [~p] for the variable [v]: the first
    clause that is not yet covered puts [p] into the cover and leaves the
    loop. *)
Fixpoint fast_watchers (Sv : Solver) (v : Var) (p : Lit) (ws : list Watcher)
    (st : Cover) (cover : list Lit) : Cover * list Lit :=
  match ws with
  | [] => (st, cover)
  | w :: r =>
      let covered_by (l : Lit) :=
        lbool_eqb (value Sv l) l_True
        && (negb (included st (var l)) || inCover st (var l)) in
      if match blocker w with Some b => covered_by b | None => false end
      then fast_watchers Sv v p r st cover
      else
        let c := nth (cref w) (clauses Sv) [] in
        let c0 := nth 0 c (mkLit 0) in
        let other_watcher := if Lit_eqb c0 p then nth 1 c (mkLit 0) else c0 in
        if lbool_eqb (value Sv other_watcher) l_True then
          if negb (included st (var other_watcher)) || inCover st (var other_watcher)
          then fast_watchers Sv v p r st cover
          else (set_in_cover (<[v := true]> (in_cover st)) st, cover ++ [p])
        else (set_in_cover (<[v := true]> (in_cover st)) st, cover ++ [p])
  end.

(** The loop over [subset]. *)
Fixpoint fast_pass (Sv : Solver) (vs : list Var) (st : Cover) (cover : list Lit)
    : Cover * list Lit :=
  match vs with
  | [] => (st, cover)
  | v :: r =>
      if inCover st v then fast_pass Sv r st cover
      else
        let p0 := mkLit v in
        let p := if lbool_eqb (value Sv p0) l_False then neg p0 else p0 in
        let '(st1, cover1) := fast_watchers Sv v p (watches Sv (neg p)) st cover in
        fast_pass Sv r st1 cover1
  end.

(** *** Exact mode *)

(** The resets before the first pass of the exact mode. *)
Definition exact_reset (Sv : Solver) (st : Cover) : Cover :=
  let n := length (clauses Sv) in
  let st1 := set_potentialCoverLits [] st in
  let st2 := set_uncovered (growTo (n + 1) [] (uncovered st1)) st1 in
  let st3 := set_mVarsGreedyScore (growTo (nVars Sv) 0%Z []) st2 in
  let st4 := set_mVarsInUncCls (growTo (nVars Sv) [] (mVarsInUncCls st3)) st3 in
  let st5 := set_coverCount (growTo (n + 1) 0%Z []) st4 in
  let st6 := set_mVarsInUncCls (map (fun _ => []) (mVarsInUncCls st5)) st5 in
  set_uncovered (map (fun _ => []) (uncovered st6)) st6.

(** First pass, the scan of one clause: [lit1count] and [plit] after the
    inner loop ([plit] is [None] while it is [lit_Undef]). *)
Fixpoint forced_scan (Sv : Solver) (st : Cover) (c : list Lit)
    (lit1count : Z) (plit : option Lit) : Z * option Lit :=
  match c with
  | [] => (lit1count, plit)
  | l :: r =>
      if negb (lbool_eqb (value Sv l) l_False) then
        if negb (included st (var l)) then (0%Z, plit)
        else if negb (lit1count =? 0)%Z then ((lit1count + 1)%Z, Some l)
        else forced_scan Sv st r (lit1count + 1)%Z (Some l)
      else forced_scan Sv st r lit1count plit
  end.

(** First pass, the body of the loop for clause [i]. *)
Definition forced_clause (Sv : Solver) (i : nat) (c : list Lit)
    (acc : Cover * list Lit) : Cover * list Lit :=
  let '(st, cover) := acc in
  match forced_scan Sv st c 0%Z None with
  | (lit1count, Some plit) =>
      if (lit1count =? 1)%Z then
        let st1 := set_coverCount (<[i := (count st i + 1)%Z]> (coverCount st)) st in
        if negb (inCover st1 (var plit)) then
          (set_in_cover (<[var plit := true]> (in_cover st1)) st1, cover ++ [plit])
        else (st1, cover)
      else (st, cover)
  | (_, None) => (st, cover)
  end.

Fixpoint forced_pass (Sv : Solver) (i : nat) (cs : list (list Lit))
    (acc : Cover * list Lit) : Cover * list Lit :=
  match cs with
  | [] => acc
  | c :: r => forced_pass Sv (S i) r (forced_clause Sv i c acc)
  end.

(** Second pass, the scan of one clause: whether it is satisfied by an
    excluded or an already chosen variable, and [uncovered[i]]. *)
Fixpoint sat_scan (Sv : Solver) (st : Cover) (c : list Lit) (unc : list Lit)
    : bool * list Lit :=
  match c with
  | [] => (false, unc)
  | l :: r =>
      if lbool_eqb (value Sv l) l_True then
        if negb (included st (var l)) then (true, [])
        else if inCover st (var l) then (true, [])
        else sat_scan Sv st r (unc ++ [l])
      else sat_scan Sv st r unc
  end.

(** Second pass, the body of the loop over [uncovered[i]]. *)
Definition bump (i : nat) (st : Cover) (l : Lit) : Cover :=
  let v := var l in
  let st1 := if (score st v =? 0)%Z
             then set_potentialCoverLits (potentialCoverLits st ++ [l]) st
             else st in
  let st2 := set_mVarsGreedyScore (<[v := (score st v + 1)%Z]> (mVarsGreedyScore st1)) st1 in
  set_mVarsInUncCls (<[v := inUncCls st2 v ++ [i]]> (mVarsInUncCls st2)) st2.

Definition greedy_clause (Sv : Solver) (i : nat) (c : list Lit) (st : Cover)
    : Cover :=
  match sat_scan Sv st c (nth i (uncovered st) []) with
  | (true, unc) =>
      set_uncovered (<[i := unc]> (uncovered st))
        (set_coverCount (<[i := (count st i + 1)%Z]> (coverCount st)) st)
  | (false, unc) =>
      fold_left (bump i) unc (set_uncovered (<[i := unc]> (uncovered st)) st)
  end.

Fixpoint greedy_pass (Sv : Solver) (i : nat) (cs : list (list Lit)) (st : Cover)
    : Cover :=
  match cs with
  | [] => st
  | c :: r => greedy_pass Sv (S i) r (greedy_clause Sv i c st)
  end.

(** [struct cover_lt]. *)
Definition cover_lt (st : Cover) (a b : Lit) : bool :=
  (score st (var b) <? score st (var a))%Z.

(** Third pass: the loop that advances [i] to the next clause whose cover
    count is zero ([k] bounds the distance to [S.clauses.size()]). *)
Fixpoint first_uncovered (st : Cover) (k i : nat) : nat :=
  match k with
  | O => i
  | S k' => if (count st i =? 0)%Z then i else first_uncovered st k' (S i)
  end.

Definition add_counts (d : Z) (cls : list nat) (st : Cover) : Cover :=
  fold_left (fun st c => set_coverCount (<[c := (count st c + d)%Z]> (coverCount st)) st)
    cls st.

(** Third pass: the [while(true)] loop; [cands] is
    [potentialCoverLits[scoreRank..]].  Reading past its end gives [None]. *)
Fixpoint third_pass (n : nat) (cands : list Lit) (i : nat) (st : Cover)
    (cover : list Lit) : option (Cover * list Lit) :=
  let i' := first_uncovered st (n - i) i in
  if i' =? n then Some (st, cover)
  else
    match cands with
    | [] => None
    | inVid :: r =>
        let cls := inUncCls st (var inVid) in
        if existsb (fun c => (count st c =? 0)%Z) cls then
          third_pass n r i' (add_counts 1 cls st) (cover ++ [inVid])
        else third_pass n r i' st cover
    end.

(** The first loop of the last pass: the position of the first cover
    literal whose clause-index list is not empty. *)
Fixpoint first_greedy (st : Cover) (cover : list Lit) : nat :=
  match cover with
  | [] => 0
  | l :: r => if negb (length (inUncCls st (var l)) =? 0) then 0
              else S (first_greedy st r)
  end.

(** The second loop of the last pass over [cover[i..]]: a literal none of
    whose clauses has cover count one is dropped and its clauses' counts are
    decremented; the others are kept in order. *)
Fixpoint prune (ls : list Lit) (st : Cover) (kept : list Lit)
    : Cover * list Lit :=
  match ls with
  | [] => (st, kept)
  | l :: r =>
      let cls := inUncCls st (var l) in
      if existsb (fun c => (count st c =? 1)%Z) cls then prune r st (kept ++ [l])
      else prune r (add_counts (-1) cls st) kept
  end.

(** *** [getCover] *)

(** [getCover(S, cover)]: the new state and the cover vector on return.
    [sort] stands for [sort] of [mtl/Sort.h], which is not part of the
    sources; [opt_fast_partial] is the option of that name. *)
Definition getCover (sort : (Lit -> Lit -> bool) -> list Lit -> list Lit)
    (opt_fast_partial : bool) (Sv : Solver) (st : Cover)
    : option (Cover * list Lit) :=
  let st0 := prologue Sv st in
  let '(st1, cover1) := level0 (firstn (level0_count Sv) (trail Sv)) st0 [] in
  if opt_fast_partial then Some (fast_pass Sv (subset st1) st1 cover1)
  else
    let st2 := exact_reset Sv st1 in
    let '(st3, cover3) := forced_pass Sv 0 (clauses Sv) (st2, cover1) in
    let st4 := greedy_pass Sv 0 (clauses Sv) st3 in
    let st5 := set_potentialCoverLits
                 (sort (cover_lt st4) (potentialCoverLits st4)) st4 in
    match third_pass (length (clauses Sv)) (potentialCoverLits st5) 0 st5 cover3 with
    | None => None
    | Some (st6, cover6) =>
        let i0 := first_greedy st6 cover6 in
        let '(st7, kept) := prune (skipn i0 cover6) st6 [] in
        Some (st7, firstn i0 cover6 ++ kept)
    end.

(** Modelled from the spec: a stable sort ("when scores are equal, insertion
    order into the candidate list decides"), used where a concrete [sort] is
    needed.  [insert_sorted lt x l] puts [x] behind the elements at the front
    of [l] that [lt] orders before it, and so in front of its equals;
    [stable_sort] inserts the elements from the last to the first, which
    leaves equal elements in the order of the list. *)
Fixpoint insert_sorted (lt : Lit -> Lit -> bool) (x : Lit) (l : list Lit)
    : list Lit :=
  match l with
  | [] => [x]
  | y :: r => if lt y x then y :: insert_sorted lt x r else x :: y :: r
  end.

Definition stable_sort (lt : Lit -> Lit -> bool) (l : list Lit) : list Lit :=
  fold_right (fun x acc => insert_sorted lt x acc) [] l.

(** *** Runs of a client *)

(** What a client does with one [Cover] object: it sets or clears the
    exclusion of a variable, or asks for a cover of the solver's current
    state. *)
Inductive CoverOp :=
  | ExcludeFromCover (v : Var) (exclude : bool)
  | GetCover (opt_fast_partial : bool) (Sv : Solver).

(** The object after the operations [ops]. *)
Fixpoint run_cover (sort : (Lit -> Lit -> bool) -> list Lit -> list Lit)
    (ops : list CoverOp) (st : Cover) : option Cover :=
  match ops with
  | [] => Some st
  | ExcludeFromCover v b :: r => run_cover sort r (excludeFromCover v b st)
  | GetCover fast Sv :: r =>
      match getCover sort fast Sv st with
      | None => None
      | Some (st1, _) => run_cover sort r st1
      end
  end.

(** The variables that the fast-mode loop of a [getCover] call on [st]
    goes through. *)
Definition scanned (Sv : Solver) (st : Cover) : list Var :=
  subset (prologue Sv st).

(** *** A solver state with one binary clause *)

(** Two variables, [x0] true and [x1] false, both assigned at decision level
    one, and the clause [x0 \/ x1] with its two watchers. *)
Definition solverF : Solver :=
  mkSolver 2 [l_True; l_False] [mkLitS 0 false; mkLitS 1 true] [0]
    [[mkLitS 0 false; mkLitS 1 false]]
    (fun l =>
       if Lit_eqb l (mkLitS 0 true) then [mkWatcher 0 (Some (mkLitS 1 false))]
       else if Lit_eqb l (mkLitS 1 true) then [mkWatcher 0 (Some (mkLitS 0 false))]
       else []).

(** *** Frames *)

(** [subset] and [include] are the same in both states. *)
Definition same_lists (st st' : Cover) : Prop :=
  subset st' = subset st /\ include st' = include st.

(** A solver state in which the greedy pass has a choice: three true
    variables decided at level one, and the clauses [x0 \/ x1] and
    [x0 \/ x2]. *)
Definition solverG : Solver :=
  mkSolver 3 [l_True; l_True; l_True]
    [mkLitS 0 false; mkLitS 1 false; mkLitS 2 false] [0]
    [[mkLitS 0 false; mkLitS 1 false]; [mkLitS 0 false; mkLitS 2 false]]
    (fun _ => []).

(** *** The contract of [getCover] *)

Definition isTrue (Sv : Solver) (l : Lit) : bool :=
  lbool_eqb (value Sv l) l_True.

(** The solver view is well formed: the literals on the trail are true, and
    the variables of the trail and of the clauses are below [nVars]. *)
Definition solver_wf (Sv : Solver) : Prop :=
  (forall l, In l (trail Sv) -> var l < nVars Sv /\ value Sv l = l_True)
  /\ (forall c l, In c (clauses Sv) -> In l c -> var l < nVars Sv).

(** The current assignment satisfies every clause. *)
Definition satisfied (Sv : Solver) : Prop :=
  forall c, In c (clauses Sv) -> exists l, In l c /\ value Sv l = l_True.

(** The inclusion flag with which a [getCover] call on [st] works. *)
Definition eligible (Sv : Solver) (st : Cover) (v : Var) : bool :=
  included (prologue Sv st) v.

(** Every cover-eligible variable is assigned. *)
Definition eligible_assigned (Sv : Solver) (st : Cover) : Prop :=
  forall l, var l < nVars Sv -> eligible Sv st (var l) = true ->
            value Sv l <> l_Undef.

(** Clause [c] holds a true literal of an excluded variable, or a literal
    of [cover]. *)
Definition covers (Sv : Solver) (st : Cover) (cover c : list Lit) : Prop :=
  (exists l, In l c /\ value Sv l = l_True /\ included st (var l) = false)
  \/ (exists l, In l c /\ In l cover).

(** [cover] without the literal [l]. *)
Definition remove_lit (l : Lit) (cover : list Lit) : list Lit :=
  List.filter (fun x => negb (Lit_eqb x l)) cover.

(** *** Invariants of the exact mode *)

(** What holds of [in_cover] and of the cover under construction during the
    first passes: the cover literals are true literals of included
    variables below [nVars], and [in_cover] marks exactly their variables. *)
Definition chosen_ok (Sv : Solver) (st : Cover) (cover : list Lit) : Prop :=
  length (in_cover st) = nVars Sv
  /\ (forall l, In l cover ->
        isTrue Sv l = true /\ included st (var l) = true
        /\ inCover st (var l) = true /\ var l < nVars Sv)
  /\ (forall v, inCover st v = true -> exists l, In l cover /\ var l = v).

(** A clause is settled after the first pass: it holds a true literal of a
    variable that is excluded or already chosen. *)
Definition settled (Sv : Solver) (st : Cover) (c : list Lit) : bool :=
  existsb (fun l => isTrue Sv l && (negb (included st (var l)) || inCover st (var l))) c.

(** The true literals of a clause, in order. *)
Definition true_lits (Sv : Solver) (c : list Lit) : list Lit :=
  List.filter (isTrue Sv) c.

(** How often the clause index [c] occurs in the clause-index lists of the
    literals [G]. *)
Definition occurrences (st : Cover) (G : list Lit) (c : nat) : Z :=
  fold_right (fun l acc => (Z.of_nat (count_occ Nat.eq_dec (inUncCls st (var l)) c) + acc)%Z)
    0%Z G.

(** The first pass leaves the data of the later passes alone. *)
Definition forced_frame (st st' : Cover) : Prop :=
  include st' = include st /\ uncovered st' = uncovered st
  /\ mVarsGreedyScore st' = mVarsGreedyScore st
  /\ mVarsInUncCls st' = mVarsInUncCls st
  /\ potentialCoverLits st' = potentialCoverLits st
  /\ length (coverCount st') = length (coverCount st)
  /\ (forall v, inCover st v = true -> inCover st' v = true).

(** A clause with a non-zero cover count holds a true literal of a chosen
    variable, and no count is negative. *)
Definition counted_ok (Sv : Solver) (st : Cover) : Prop :=
  forall j,
    (0 <= count st j)%Z
    /\ (count st j <> 0%Z ->
        exists c p, nth_error (clauses Sv) j = Some c /\ In p c
                    /\ isTrue Sv p = true /\ inCover st (var p) = true).

(** Clause [j] is open for variable [v]: it is not settled and holds a true
    literal of [v]. *)
Definition open_for (Sv : Solver) (st : Cover) (j : nat) (v : Var) : Prop :=
  exists c, nth_error (clauses Sv) j = Some c /\ settled Sv st c = false
            /\ exists l, In l c /\ var l = v /\ isTrue Sv l = true.

(** The invariant of the second pass when the clauses below [k] are done
    and the true literals [done] of clause [k] have been entered; [cnt0] are
    the cover counts before the pass. *)
Definition greedy_inv (Sv : Solver) (cnt0 : nat -> Z) (k : nat) (done : list Lit)
    (st : Cover) : Prop :=
  (length (mVarsGreedyScore st) = nVars Sv
   /\ nVars Sv <= length (mVarsInUncCls st)
   /\ length (coverCount st) = S (length (clauses Sv)))
  /\ (forall v j, In j (inUncCls st v) ->
        (j < k /\ open_for Sv st j v)
        \/ (j = k /\ exists l, In l done /\ var l = v))
  /\ (forall i c l, i < k -> nth_error (clauses Sv) i = Some c ->
        settled Sv st c = false -> In l c -> isTrue Sv l = true ->
        In i (inUncCls st (var l)))
  /\ (forall l, In l done -> In k (inUncCls st (var l)))
  /\ (forall v, v < nVars Sv -> score st v = Z.of_nat (length (inUncCls st v)))
  /\ (forall l, In l (potentialCoverLits st) ->
        isTrue Sv l = true /\ inUncCls st (var l) <> [])
  /\ List.NoDup (map var (potentialCoverLits st))
  /\ (forall v, inUncCls st v <> [] -> In v (map var (potentialCoverLits st)))
  /\ (forall j c, nth_error (clauses Sv) j = Some c ->
        count st j = (cnt0 j + if (j <? k)%nat && settled Sv st c then 1 else 0)%Z).

(** The entries of [uncovered] from [k] on are empty. *)
Definition pending_empty (k : nat) (st : Cover) : Prop :=
  forall j, k <= j -> nth j (uncovered st) [] = [].

(** The second pass leaves [include] and [in_cover] alone. *)
Definition greedy_frame (st st' : Cover) : Prop :=
  include st' = include st /\ in_cover st' = in_cover st
  /\ subset st' = subset st.

(** The third and the last pass write [coverCount] only. *)
Definition count_frame (st st' : Cover) : Prop :=
  include st' = include st /\ in_cover st' = in_cover st
  /\ subset st' = subset st
  /\ mVarsInUncCls st' = mVarsInUncCls st
  /\ length (coverCount st') = length (coverCount st).

(** The facts about the clause-index lists that the second pass leaves
    behind. *)
Definition lists_ok (Sv : Solver) (st : Cover) : Prop :=
  length (coverCount st) = S (length (clauses Sv))
  /\ (forall v j, In j (inUncCls st v) -> j < length (clauses Sv) /\ open_for Sv st j v)
  /\ (forall i c l, nth_error (clauses Sv) i = Some c ->
        settled Sv st c = false -> In l c -> isTrue Sv l = true ->
        In i (inUncCls st (var l))).

(** The cover counts during the third and the last pass, when [G] are the
    literals chosen by the third pass that are still in the cover: an open
    clause is counted once for each occurrence in their lists, a settled
    clause has a positive count. *)
Definition counts_ok (Sv : Solver) (st : Cover) (G : list Lit) : Prop :=
  forall j c, nth_error (clauses Sv) j = Some c ->
    if settled Sv st c then (0 < count st j)%Z
    else count st j = occurrences st G j.


(** *** The parts of a cover *)

(** The literals that the trail pass of a [getCover] call on [st] puts into
    the cover: the literals of the trail below the first decision whose
    variable is included, in the order of the trail. *)
Definition level0_lits (Sv : Solver) (st : Cover) : list Lit :=
  List.filter (fun l => included (prologue Sv st) (var l))
    (firstn (level0_count Sv) (trail Sv)).

(** The lengths of the two scratch vectors that the resets of the exact
    mode do not rebuild. *)
Definition same_sizes (st st' : Cover) : Prop :=
  length (uncovered st') = length (uncovered st)
  /\ length (mVarsInUncCls st') = length (mVarsInUncCls st).

(** What the fast mode relies on in the watch lists: every clause has two
    literals at least and is watched through one of its true literals [p],
    by a watcher in the list of [~p] whose blocker, if it has one, is a
    literal of the clause. *)
Definition watch_ok (Sv : Solver) : Prop :=
  forall j c, nth_error (clauses Sv) j = Some c ->
    2 <= length c
    /\ exists p w, In p c /\ value Sv p = l_True
         /\ In w (watches Sv (neg p)) /\ cref w = j
         /\ (forall b, blocker w = Some b -> In b c).

(** The inclusion flag of variable [v] after the operations [ops] of a
    client, when it was [b] before: the last [excludeFromCover(v, _)]
    decides. *)
Definition last_flag (v : Var) (ops : list CoverOp) (b : bool) : bool :=
  fold_left (fun b op => match op with
                         | ExcludeFromCover u e => if u =? v then negb e else b
                         | GetCover _ _ => b
                         end) ops b.

End Cover.

(** * Properties of the dynamic maximum flow *)

Module DglProps.

Import Dgl.

Local Open Scope Z_scope.

(** ** More fuel never changes a result *)

Section FuelMonotone.

Context (g : DynamicGraph) (cap : list Z).

Lemma bfs_loop_mono fuel fuel' t j found st r :
  bfs_loop fuel g cap t j found st = Some r -> (fuel <= fuel')%nat ->
  bfs_loop fuel' g cap t j found st = Some r.
Proof.
  revert fuel' j found st.
  induction fuel as [|k IH]; intros [|k'] j found st H Hle; simpl in *;
    try discriminate; try lia.
  destruct (Q st !! j); [|exact H].
  destruct (scan cap false n t (incident g n) st) as [st1 f1].
  destruct (scan cap true n t (incoming g n) st1) as [st2 f2].
  apply IH; [exact H | lia].
Qed.

Lemma BreadthFirstSearch_mono fuel fuel' s t st r :
  BreadthFirstSearch fuel g cap s t st = Some r -> (fuel <= fuel')%nat ->
  BreadthFirstSearch fuel' g cap s t st = Some r.
Proof.
  unfold BreadthFirstSearch. intros H Hle.
  destruct (bfs_loop fuel g cap t 0 false (bfs_start g s st)) as [x|] eqn:E;
    [|discriminate].
  now rewrite (bfs_loop_mono _ _ _ _ _ _ _ E Hle).
Qed.

Lemma bfs_sc_loop_mono fuel fuel' t j a b c d st r :
  bfs_sc_loop fuel g cap t j a b c d st = Some r -> (fuel <= fuel')%nat ->
  bfs_sc_loop fuel' g cap t j a b c d st = Some r.
Proof.
  revert fuel' j st.
  induction fuel as [|k IH]; intros [|k'] j st H Hle; simpl in *;
    try discriminate; try lia.
  destruct (Q st !! j); [|exact H].
  destruct (if (n =? a)%nat && (c - d >? 0) then _ else _) as [st0 f0].
  destruct f0; [exact H|].
  destruct (scan cap false n t (incident g n) st0) as [st1 f1].
  destruct f1; [exact H|].
  destruct (scan cap true n t (incoming g n) st1) as [st2 f2].
  destruct f2; [exact H|].
  apply IH; [exact H | lia].
Qed.

Lemma augment_mono fuel fuel' s v m st r :
  augment fuel s v m st = Some r -> (fuel <= fuel')%nat ->
  augment fuel' s v m st = Some r.
Proof.
  revert fuel' v st.
  induction fuel as [|k IH]; intros [|k'] v st H Hle; simpl in *;
    try discriminate; try lia.
  destruct (v =? s)%nat; [exact H|].
  destruct (_ || _); [discriminate|].
  apply IH; [exact H | lia].
Qed.

Lemma augment_sc_mono fuel fuel' s v a m st r :
  augment_sc fuel s v a m st = Some r -> (fuel <= fuel')%nat ->
  augment_sc fuel' s v a m st = Some r.
Proof.
  revert fuel' v st.
  induction fuel as [|k IH]; intros [|k'] v st H Hle; simpl in *;
    try discriminate; try lia.
  destruct (v =? s)%nat; [exact H|].
  destruct (0 <=? le_id (getPrev st v)).
  - destruct (le_from (getPrev st v) <? 0); [discriminate|].
    apply IH; [exact H | lia].
  - apply IH; [exact H | lia].
Qed.

Lemma residual_loop_mono fuel1 fuel1' fuel2 fuel2' s t bound nf st r :
  residual_loop fuel1 fuel2 g cap s t bound nf st = Some r ->
  (fuel1 <= fuel1')%nat -> (fuel2 <= fuel2')%nat ->
  residual_loop fuel1' fuel2' g cap s t bound nf st = Some r.
Proof.
  revert fuel1' nf st.
  induction fuel1 as [|k IH]; intros [|k'] nf st H Hle1 Hle2; simpl in *;
    try discriminate; try lia.
  destruct (BreadthFirstSearch fuel2 g cap s t st) as [[st1 m0]|] eqn:E;
    [|discriminate].
  rewrite (BreadthFirstSearch_mono _ _ _ _ _ _ E Hle2).
  destruct (_ <=? 0); [exact H|].
  destruct (augment fuel2 s t _ st1) as [st2|] eqn:E2; [|discriminate].
  rewrite (augment_mono _ _ _ _ _ _ _ E2 Hle2).
  apply IH; [exact H | lia | lia].
Qed.

Lemma maxFlow_residual_mono fuel fuel' s t bound st r :
  maxFlow_residual fuel g cap s t bound st = Some r -> (fuel <= fuel')%nat ->
  maxFlow_residual fuel' g cap s t bound st = Some r.
Proof. intros H Hle. exact (residual_loop_mono _ _ _ _ _ _ _ _ _ _ H Hle Hle). Qed.

Lemma maxFlow_p_mono fuel1 fuel1' fuel2 fuel2' s t st r :
  maxFlow_p fuel1 fuel2 g cap s t st = Some r ->
  (fuel1 <= fuel1')%nat -> (fuel2 <= fuel2')%nat ->
  maxFlow_p fuel1' fuel2' g cap s t st = Some r.
Proof.
  revert fuel1' st.
  induction fuel1 as [|k IH]; intros [|k'] st H Hle1 Hle2; simpl in *;
    try discriminate; try lia.
  destruct (BreadthFirstSearch fuel2 g cap s t st) as [[st1 m0]|] eqn:E;
    [|discriminate].
  rewrite (BreadthFirstSearch_mono _ _ _ _ _ _ E Hle2).
  destruct (m0 =? 0); [exact H|].
  destruct (augment fuel2 s t _ _) as [st2|] eqn:E2; [|discriminate].
  rewrite (augment_mono _ _ _ _ _ _ _ E2 Hle2).
  apply IH; [exact H | lia | lia].
Qed.

Lemma shortcut_loop_mono fuel1 fuel1' fuel2 fuel2' s t a b bound nf st r :
  shortcut_loop fuel1 fuel2 g cap s t a b bound nf st = Some r ->
  (fuel1 <= fuel1')%nat -> (fuel2 <= fuel2')%nat ->
  shortcut_loop fuel1' fuel2' g cap s t a b bound nf st = Some r.
Proof.
  revert fuel1' nf st.
  induction fuel1 as [|k IH]; intros [|k'] nf st H Hle1 Hle2; simpl in *;
    try discriminate; try lia.
  unfold BreadthFirstSearch_sc in *.
  destruct (bfs_sc_loop fuel2 g cap t 0 a b bound _ _) as [[st1 m0]|] eqn:E;
    [|discriminate].
  rewrite (bfs_sc_loop_mono _ _ _ _ _ _ _ _ _ _ E Hle2).
  destruct (_ =? 0); [exact H|].
  destruct (augment_sc fuel2 s t a _ st1) as [st2|] eqn:E2; [|discriminate].
  rewrite (augment_sc_mono _ _ _ _ _ _ _ _ E2 Hle2).
  apply IH; [exact H | lia | lia].
Qed.

Lemma maxFlow_p_sc_mono fuel fuel' s t a b bound st r :
  maxFlow_p_sc fuel g cap s t a b bound st = Some r -> (fuel <= fuel')%nat ->
  maxFlow_p_sc fuel' g cap s t a b bound st = Some r.
Proof. intros H Hle. exact (shortcut_loop_mono _ _ _ _ _ _ _ _ _ _ _ _ H Hle Hle). Qed.

Lemma replay_event_mono fuel fuel' s t ev acc r :
  replay_event fuel g cap s t ev acc = Some r -> (fuel <= fuel')%nat ->
  replay_event fuel' g cap s t ev acc = Some r.
Proof.
  intros H Hle. unfold replay_event in *. destruct acc as [st fl].
  destruct (addition ev && edgeEnabled g (chg_id ev)); [exact H|].
  destruct (negb (addition ev) && negb (edgeEnabled g (chg_id ev))); [|exact H].
  destruct (_ =? 0); [exact H|].
  destruct (if _ <? 0 then _ else _) as [[u v] fv].
  destruct (maxFlow_residual fuel g cap u v fv _) as [[st2 flow]|] eqn:E;
    [|discriminate].
  rewrite (maxFlow_residual_mono _ _ _ _ _ _ _ E Hle).
  destruct (flow =? fv); [exact H|].
  destruct (maxFlow_p_sc fuel g cap u v s t _ st2) as [[st3 x]|] eqn:E2;
    [|discriminate].
  now rewrite (maxFlow_p_sc_mono _ _ _ _ _ _ _ _ _ E2 Hle).
Qed.

Lemma replay_mono fuel fuel' s t evs acc r :
  replay fuel g cap s t evs acc = Some r -> (fuel <= fuel')%nat ->
  replay fuel' g cap s t evs acc = Some r.
Proof.
  revert acc. induction evs as [|ev evs IH]; intros acc H Hle; simpl in *;
    [exact H|].
  destruct (replay_event fuel g cap s t ev acc) as [acc1|] eqn:E; [|discriminate].
  rewrite (replay_event_mono _ _ _ _ _ _ _ E Hle). now apply IH.
Qed.

Lemma maxFlow_mono fuel fuel' s t st r :
  maxFlow fuel g cap s t st = Some r -> (fuel <= fuel')%nat ->
  maxFlow fuel' g cap s t st = Some r.
Proof.
  intros H Hle. unfold maxFlow in *.
  destruct (_ && _); [exact H|].
  set (b := _ || changed g) in *.
  assert (E1 : forall x,
    (if b then maxFlow_p fuel fuel g cap s t (reinit g s st) else Some st) = Some x ->
    (if b then maxFlow_p fuel' fuel' g cap s t (reinit g s st) else Some st) = Some x).
  { intros x. destruct b; [|auto]. intros E.
    exact (maxFlow_p_mono _ _ _ _ _ _ _ _ E Hle Hle). }
  destruct (if b then maxFlow_p fuel _ _ _ _ _ _ else _) as [st1|]; [|discriminate].
  rewrite (E1 st1 eq_refl).
  destruct (replay fuel g cap s t _ _) as [[st2 fl]|] eqn:E2; [|discriminate].
  rewrite (replay_mono _ _ _ _ _ _ _ E2 Hle).
  destruct (added_Edges fl); [|exact H].
  destruct (maxFlow_p fuel fuel g cap s t _) as [st4|] eqn:E4; [|discriminate].
  now rewrite (maxFlow_p_mono _ _ _ _ _ _ _ _ E4 Hle Hle).
Qed.

Lemma cut_loop_mono fuel fuel' j st cut r :
  cut_loop fuel g cap j st cut = Some r -> (fuel <= fuel')%nat ->
  cut_loop fuel' g cap j st cut = Some r.
Proof.
  revert fuel' j st cut.
  induction fuel as [|k IH]; intros [|k'] j st cut H Hle; simpl in *;
    try discriminate; try lia.
  destruct (Q st !! j); [|exact H].
  destruct (cut_scan_out g cap n (incident g n) st cut) as [st1 cut1].
  apply IH; [exact H | lia].
Qed.

Lemma minCut_mono fuel fuel' s t cut st r :
  minCut fuel g cap s t cut st = Some r -> (fuel <= fuel')%nat ->
  minCut fuel' g cap s t cut st = Some r.
Proof.
  intros H Hle. unfold minCut in *.
  destruct (maxFlow fuel g cap s t st) as [[st1 fl]|] eqn:E; [|discriminate].
  rewrite (maxFlow_mono _ _ _ _ _ _ E Hle).
  destruct (cut_loop fuel g cap 0 _ cut) as [[st4 cut1]|] eqn:E2; [|discriminate].
  now rewrite (cut_loop_mono _ _ _ _ _ _ E2 Hle).
Qed.

End FuelMonotone.

Lemma run_mono fuel fuel' cap s t ops g st out r :
  run fuel cap s t ops g st out = Some r -> (fuel <= fuel')%nat ->
  run fuel' cap s t ops g st out = Some r.
Proof.
  revert g st out. induction ops as [|[e|e|] ops IH]; intros g st out H Hle;
    simpl in *; auto.
  destruct (maxFlow fuel g cap s t st) as [[st1 v]|] eqn:E; [|discriminate].
  rewrite (maxFlow_mono _ _ _ _ _ _ _ _ E Hle). now apply IH.
Qed.

Lemma from_scratch_mono fuel fuel' g cap s t v :
  from_scratch fuel g cap s t = Some v -> (fuel <= fuel')%nat ->
  from_scratch fuel' g cap s t = Some v.
Proof.
  unfold from_scratch. intros H Hle.
  destruct (maxFlow_p fuel fuel g cap s t _) as [st1|] eqn:E; [|discriminate].
  now rewrite (maxFlow_p_mono _ _ _ _ _ _ _ _ _ _ E Hle Hle).
Qed.

Lemma run_reference_mono fuel fuel' cap s t ops g out r :
  run_reference fuel cap s t ops g out = Some r -> (fuel <= fuel')%nat ->
  run_reference fuel' cap s t ops g out = Some r.
Proof.
  revert g out. induction ops as [|[e|e|] ops IH]; intros g out H Hle;
    simpl in *; auto.
  destruct (from_scratch fuel g cap s t) as [v|] eqn:E; [|discriminate].
  rewrite (from_scratch_mono _ _ _ _ _ _ _ E Hle). now apply IH.
Qed.

(** ** The flow scenarios *)

(** C2, as the code has it.  On flow scenario A, [maxFlow(0,3)] returns 5
    and, once the edge 1->3 is disabled, the next [maxFlow(0,3)] returns 3:
    the arc 1->2 of capacity 1 is then the only way out of node 1.  This
    holds whether the second call replays the deletion or starts over, and
    with any fuel from 8 on. *)
Theorem scenario_A_flow (ch : bool) (fuel : nat) :
  (8 <= fuel)%nat ->
  option_map snd (run fuel capA 0 3 [MaxFlow; Disable 3; MaxFlow] (graphA ch) init [])
  = Some [3; 5].
Proof.
  intros Hle.
  destruct (run 8 capA 0 3 [MaxFlow; Disable 3; MaxFlow] (graphA ch) init [])
    as [r|] eqn:E; [|destruct ch; vm_compute in E; discriminate].
  rewrite (run_mono _ _ _ _ _ _ _ _ _ _ E Hle).
  destruct ch; vm_compute in E; injection E as <-; reflexivity.
Qed.

Lemma scenario_A_flow_witness :
  option_map snd (run 8 capA 0 3 [MaxFlow; Disable 3; MaxFlow] (graphA false) init [])
  = Some [3; 5].
Proof. apply (scenario_A_flow false 8). lia. Defined.

(** C2 as the specification words it (5, then 4) fails on the code. *)
Lemma scenario_A_flow_not_4 :
  ~ (forall ch fuel, (8 <= fuel)%nat ->
       option_map snd
         (run fuel capA 0 3 [MaxFlow; Disable 3; MaxFlow] (graphA ch) init [])
       = Some [4; 5]).
Proof.
  intros H. specialize (H false 8%nat (Nat.le_refl _)).
  vm_compute in H. discriminate.
Qed.

(** C3, as the code has it.  On the initial graph of flow scenario A,
    [minCut(0,3,cut)] called with an empty [cut] returns 5 and fills [cut]
    with the two edges that leave the source, 0->1 (capacity 3) and 0->2
    (capacity 2): after the max-flow every edge is saturated, so the
    exploration marks the source alone. *)
Theorem scenario_A_cut (ch : bool) (fuel : nat) :
  (8 <= fuel)%nat ->
  option_map (fun r => (snd (fst r), snd r)) (minCut fuel (graphA ch) capA 0 3 [] init)
  = Some ([mkCut 0 1 0; mkCut 0 2 1], 5)
  /\ cut_capacity capA [mkCut 0 1 0; mkCut 0 2 1] = 5.
Proof.
  intros Hle. split; [|reflexivity].
  destruct (minCut 8 (graphA ch) capA 0 3 [] init) as [r|] eqn:E;
    [|destruct ch; vm_compute in E; discriminate].
  rewrite (minCut_mono _ _ _ _ _ _ _ _ _ E Hle).
  destruct ch; vm_compute in E; injection E as <-; reflexivity.
Qed.

Lemma scenario_A_cut_witness :
  option_map (fun r => (snd (fst r), snd r)) (minCut 8 (graphA false) capA 0 3 [] init)
  = Some ([mkCut 0 1 0; mkCut 0 2 1], 5)
  /\ cut_capacity capA [mkCut 0 1 0; mkCut 0 2 1] = 5.
Proof. apply (scenario_A_cut false 8). lia. Defined.

(** C3 as the specification words it fails on the code: the cut returned
    for scenario A does not have the edges 0->2, 1->2 and 1->3 as its
    elements. *)
Lemma scenario_A_cut_not_spec :
  ~ (forall ch fuel, (8 <= fuel)%nat ->
       exists st cut, minCut fuel (graphA ch) capA 0 3 [] init = Some (st, cut, 5)
                      /\ forall c, In c cut <-> In c cutA_spec).
Proof.
  intros H. destruct (H false 8%nat (Nat.le_refl _)) as (st & cut & E & Hc).
  vm_compute in E. injection E as _ <-.
  assert (Hin : In (mkCut 1 3 3) cutA_spec) by (right; right; left; reflexivity).
  apply Hc in Hin. simpl in Hin.
  destruct Hin as [Hx|[Hx|[]]]; discriminate.
Qed.

(** C1 at the failing input.  On [graphB] (edges 0->1, 1->2, 1->0 of
    capacity 1) the first [maxFlow(0,2)] returns 1; after the edge 1->2 is
    disabled the sink has no enabled edge left, and Edmonds-Karp from scratch
    returns 0, but the engine returns 1: the repair pushes the surplus of
    node 1 back to the source along the forward edge 1->0, and the recount
    sums [F] over the edges that leave the source only. *)
Theorem incremental_recount_differs (fuel : nat) :
  (6 <= fuel)%nat ->
  option_map snd (run fuel capB 0 2 [MaxFlow; Disable 1; MaxFlow] graphB init [])
  = Some [1; 1]
  /\ run_reference fuel capB 0 2 [MaxFlow; Disable 1; MaxFlow] graphB [] = Some [0; 1].
Proof.
  intros Hle. split.
  - destruct (run 6 capB 0 2 [MaxFlow; Disable 1; MaxFlow] graphB init [])
      as [r|] eqn:E; [|vm_compute in E; discriminate].
    rewrite (run_mono _ _ _ _ _ _ _ _ _ _ E Hle).
    vm_compute in E; injection E as <-; reflexivity.
  - apply (run_reference_mono 6); [reflexivity | exact Hle].
Qed.

Lemma incremental_recount_differs_witness :
  option_map snd (run 6 capB 0 2 [MaxFlow; Disable 1; MaxFlow] graphB init [])
  = Some [1; 1]
  /\ run_reference 6 capB 0 2 [MaxFlow; Disable 1; MaxFlow] graphB [] = Some [0; 1].
Proof. apply (incremental_recount_differs 6). lia. Defined.

(** C6 at the failing input.  After the same two steps on [graphB],
    [minCut(0,2,cut)] with an empty [cut] returns the value 1 and the empty
    cut, whose capacities sum to 0. *)
Theorem minCut_capacity_differs (fuel : nat) :
  (6 <= fuel)%nat ->
  match run fuel capB 0 2 [MaxFlow; Disable 1] graphB init [] with
  | Some (g, st, _) =>
      option_map (fun r => (snd (fst r), snd r)) (minCut fuel g capB 0 2 [] st)
      = Some ([], 1)
  | None => False
  end.
Proof.
  intros Hle.
  destruct (run 6 capB 0 2 [MaxFlow; Disable 1] graphB init [])
    as [r|] eqn:E; [|vm_compute in E; discriminate].
  rewrite (run_mono _ _ _ _ _ _ _ _ _ _ E Hle).
  vm_compute in E; injection E as <-.
  match goal with |- option_map _ (minCut _ ?g _ _ _ _ ?st) = _ =>
    destruct (minCut 6 g capB 0 2 [] st) as [r|] eqn:E2;
      [|vm_compute in E2; discriminate] end.
  rewrite (minCut_mono _ _ _ _ _ _ _ _ _ E2 Hle).
  vm_compute in E2; injection E2 as <-; reflexivity.
Qed.

Lemma minCut_capacity_differs_witness :
  match run 6 capB 0 2 [MaxFlow; Disable 1] graphB init [] with
  | Some (g, st, _) =>
      option_map (fun r => (snd (fst r), snd r)) (minCut 6 g capB 0 2 [] st)
      = Some ([], 1)
  | None => False
  end.
Proof. apply (minCut_capacity_differs 6). lia. Defined.

(** ** [minCut] and the entries its argument already holds *)

Lemma cut_scan_out_app g cap u es st c0 c :
  cut_scan_out g cap u es st (c0 ++ c)
  = (fst (cut_scan_out g cap u es st c), c0 ++ snd (cut_scan_out g cap u es st c)).
Proof.
  revert st c. induction es as [|e es IH]; intros st c; simpl; [reflexivity|].
  destruct (negb (edgeEnabled g (id e))); [apply IH|].
  destruct (_ =? 0).
  - rewrite <- app_assoc. apply IH.
  - destruct (negb (nth (node e) (seen st) false)); apply IH.
Qed.

Lemma cut_loop_app fuel g cap j st c0 c :
  cut_loop fuel g cap j st (c0 ++ c)
  = option_map (fun r => (fst r, c0 ++ snd r)) (cut_loop fuel g cap j st c).
Proof.
  revert j st c. induction fuel as [|k IH]; intros j st c; simpl; [reflexivity|].
  destruct (Q st !! j); [|reflexivity].
  rewrite cut_scan_out_app.
  destruct (cut_scan_out g cap n (incident g n) st c) as [st1 c1]; simpl.
  apply IH.
Qed.

Lemma keep_cut_app st c0 c : keep_cut st (c0 ++ c) = keep_cut st c0 ++ keep_cut st c.
Proof. unfold keep_cut. apply List.filter_app. Qed.

(** C10.  [minCut] does not clear [cut]: called with a vector [cut0] it
    returns what it returns for an empty vector, preceded by the entries of
    [cut0] whose [u] is marked by the exploration and whose [v] is not.  So an
    entry that this call did not produce can be part of the returned cut: in
    flow scenario A after the deletion of 1->3, an entry for that disabled
    edge is kept. *)
Theorem minCut_keeps_entries :
  (forall fuel g cap s t cut0 st,
     minCut fuel g cap s t cut0 st
     = match minCut fuel g cap s t [] st with
       | None => None
       | Some (st', cut', v) => Some (st', keep_cut st' cut0 ++ cut', v)
       end)
  /\ (exists g st cut' v,
        run 8 capA 0 3 [MaxFlow; Disable 3] (graphA false) init [] = Some (g, st, v)
        /\ edgeEnabled g 3 = false
        /\ option_map (fun r => snd (fst r)) (minCut 8 g capA 0 3 [] st) = Some cut'
        /\ ~ In (mkCut 1 3 3) cut'
        /\ option_map (fun r => snd (fst r)) (minCut 8 g capA 0 3 [mkCut 1 3 3] st)
           = Some (mkCut 1 3 3 :: cut')).
Proof.
  split.
  - intros fuel g cap s t cut0 st. unfold minCut.
    destruct (maxFlow fuel g cap s t st) as [[st1 fl]|]; [|reflexivity].
    pose proof (cut_loop_app fuel g cap 0
      (set_seen (<[s := true]> (replicate (nodes g) false)) (set_Q [s] st1)) cut0 [])
      as E.
    rewrite app_nil_r in E. rewrite E.
    destruct (cut_loop fuel g cap 0 _ []) as [[st4 c1]|]; simpl; [|reflexivity].
    now rewrite keep_cut_app.
  - destruct (run 8 capA 0 3 [MaxFlow; Disable 3] (graphA false) init [])
      as [[[g st] v]|] eqn:E; [|vm_compute in E; discriminate].
    exists g, st, [mkCut 0 2 1; mkCut 1 2 2], v.
    vm_compute in E. injection E as <- <- <-.
    split; [reflexivity|]. split; [reflexivity|]. split; [vm_compute; reflexivity|].
    split; [|vm_compute; reflexivity].
    simpl. intros [Hx|[Hx|[]]]; discriminate.
Qed.

(** ** What the searches and the walks leave alone *)

Lemma search_frame_refl st : search_frame st st.
Proof. repeat split. Qed.

Lemma search_frame_trans a b c :
  search_frame a b -> search_frame b c -> search_frame a c.
Proof. unfold search_frame. intuition congruence. Qed.

Lemma loop_frame_refl st : loop_frame st st.
Proof. repeat split. Qed.

Lemma loop_frame_trans a b c : loop_frame a b -> loop_frame b c -> loop_frame a c.
Proof. unfold loop_frame. intuition congruence. Qed.

Lemma search_loop_frame a b : search_frame a b -> loop_frame a b.
Proof. unfold search_frame, loop_frame. intuition congruence. Qed.

Lemma walk_loop_frame a b : walk_frame a b -> loop_frame a b.
Proof. unfold walk_frame, loop_frame. intuition congruence. Qed.

Lemma length_clear_from n p : length (clear_from n p) = length p.
Proof. induction n as [|n IH]; simpl; [reflexivity|]. now rewrite length_insert. Qed.

Lemma bfs_start_frame g s st : search_frame st (bfs_start g s st).
Proof.
  unfold bfs_start, search_frame; simpl.
  rewrite length_insert, length_clear_from. repeat split.
Qed.

Lemma scan_frame cap back u t es st :
  search_frame st (fst (scan cap back u t es st)).
Proof.
  revert st. induction es as [|e es IH]; intros st; simpl;
    [apply search_frame_refl|].
  destruct (negb (enabled st (id e))); [apply IH|].
  destruct (_ && _); [|apply IH].
  match goal with |- context [set_M ?m (set_prev ?p st)] =>
    assert (Hs : search_frame st (set_M m (set_prev p st)))
      by (unfold search_frame; simpl; rewrite !length_insert; repeat split) end.
  destruct (negb (node e =? t)%nat); simpl; [|exact Hs].
  eapply search_frame_trans; [|apply IH].
  unfold search_frame in *; simpl in *. exact Hs.
Qed.

Lemma bfs_loop_frame fuel g cap t j found st st' fd :
  bfs_loop fuel g cap t j found st = Some (st', fd) -> search_frame st st'.
Proof.
  revert j found st. induction fuel as [|k IH]; intros j found st H; simpl in H;
    [discriminate|].
  destruct (Q st !! j) as [u|]; [|injection H as <- _; apply search_frame_refl].
  pose proof (scan_frame cap false u t (incident g u) st) as H1.
  destruct (scan cap false u t (incident g u) st) as [st1 f1].
  pose proof (scan_frame cap true u t (incoming g u) st1) as H2.
  destruct (scan cap true u t (incoming g u) st1) as [st2 f2].
  apply IH in H. simpl in *.
  eauto using search_frame_trans.
Qed.

Lemma BreadthFirstSearch_frame fuel g cap s t st st' m :
  BreadthFirstSearch fuel g cap s t st = Some (st', m) -> search_frame st st'.
Proof.
  unfold BreadthFirstSearch. intros H.
  destruct (bfs_loop fuel g cap t 0 false (bfs_start g s st)) as [[st1 fd]|] eqn:E;
    [|discriminate].
  injection H as <- _.
  eapply search_frame_trans; [apply bfs_start_frame|].
  eapply bfs_loop_frame; exact E.
Qed.

Lemma bfs_sc_loop_frame fuel g cap t j a b c d st st' m :
  bfs_sc_loop fuel g cap t j a b c d st = Some (st', m) -> search_frame st st'.
Proof.
  revert j st. induction fuel as [|k IH]; intros j st H; simpl in H;
    [discriminate|].
  destruct (Q st !! j) as [u|]; [|injection H as <- _; apply search_frame_refl].
  assert (H0 : search_frame st (fst
    (if (u =? a)%nat && (c - d >? 0)
     then
       let st1 := set_prev (<[b := mkLocal (Z.of_nat u) (-1) false]> (prev st)) st in
       let st2 := set_M (<[b := Z.min (getM st1 u) (c - d)]> (M st1)) st1 in
       if negb (b =? t)%nat then (set_Q (Q st2 ++ [b]) st2, false) else (st2, true)
     else (st, false)))).
  { destruct (_ && _); [|apply search_frame_refl].
    destruct (negb _); unfold search_frame; simpl; rewrite !length_insert;
      repeat split. }
  destruct (if (u =? a)%nat && (c - d >? 0) then _ else _) as [st0 f0].
  simpl in H0. destruct f0; [injection H as <- _; exact H0|].
  pose proof (scan_frame cap false u t (incident g u) st0) as H1.
  destruct (scan cap false u t (incident g u) st0) as [st1 f1]. simpl in H1.
  destruct f1; [injection H as <- _; eauto using search_frame_trans|].
  pose proof (scan_frame cap true u t (incoming g u) st1) as H2.
  destruct (scan cap true u t (incoming g u) st1) as [st2 f2]. simpl in H2.
  destruct f2; [injection H as <- _; eauto using search_frame_trans|].
  apply IH in H. eauto using search_frame_trans.
Qed.

Lemma BreadthFirstSearch_sc_frame fuel g cap s t a b c d st st' m :
  BreadthFirstSearch_sc fuel g cap s t a b c d st = Some (st', m) ->
  search_frame st st'.
Proof.
  unfold BreadthFirstSearch_sc. intros H.
  eapply search_frame_trans; [apply bfs_start_frame|].
  eapply bfs_sc_loop_frame; exact H.
Qed.

Lemma walk_frame_refl st : walk_frame st st.
Proof. repeat split. Qed.

Lemma walk_frame_trans a b c : walk_frame a b -> walk_frame b c -> walk_frame a c.
Proof. unfold walk_frame. intuition congruence. Qed.

Lemma push_frame p m st : walk_frame st (push p m st).
Proof.
  unfold push, walk_frame. destruct (backward p); simpl;
    rewrite length_insert; repeat split.
Qed.

Lemma augment_frame fuel s v m st st' :
  augment fuel s v m st = Some st' -> walk_frame st st'.
Proof.
  revert v st. induction fuel as [|k IH]; intros v st H; simpl in H;
    [discriminate|].
  destruct (v =? s)%nat; [injection H as <-; apply walk_frame_refl|].
  destruct (_ || _); [discriminate|].
  apply IH in H. eapply walk_frame_trans; [apply push_frame | exact H].
Qed.

Lemma augment_sc_frame fuel s v a m st st' :
  augment_sc fuel s v a m st = Some st' -> walk_frame st st'.
Proof.
  revert v st. induction fuel as [|k IH]; intros v st H; simpl in H;
    [discriminate|].
  destruct (v =? s)%nat; [injection H as <-; apply walk_frame_refl|].
  destruct (0 <=? _).
  - destruct (_ <? 0); [discriminate|].
    apply IH in H. eapply walk_frame_trans; [apply push_frame | exact H].
  - now apply IH in H.
Qed.

Lemma residual_loop_frame fuel fuel' g cap s t bound nf st st' flow :
  residual_loop fuel fuel' g cap s t bound nf st = Some (st', flow) ->
  loop_frame st st'.
Proof.
  revert nf st. induction fuel as [|k IH]; intros nf st H; simpl in H;
    [discriminate|].
  destruct (BreadthFirstSearch fuel' g cap s t st) as [[st1 m0]|] eqn:E;
    [|discriminate].
  apply BreadthFirstSearch_frame, search_loop_frame in E.
  destruct (_ <=? 0); [injection H as <- _; exact E|].
  destruct (augment fuel' s t _ st1) as [st2|] eqn:E2; [|discriminate].
  apply augment_frame, walk_loop_frame in E2. apply IH in H.
  eauto using loop_frame_trans.
Qed.

Lemma maxFlow_p_frame fuel fuel' g cap s t st st' :
  maxFlow_p fuel fuel' g cap s t st = Some st' -> loop_frame st st'.
Proof.
  revert st. induction fuel as [|k IH]; intros st H; simpl in H; [discriminate|].
  destruct (BreadthFirstSearch fuel' g cap s t st) as [[st1 m0]|] eqn:E;
    [|discriminate].
  apply BreadthFirstSearch_frame, search_loop_frame in E.
  destruct (_ =? 0); [injection H as <-; exact E|].
  destruct (augment fuel' s t _ _) as [st2|] eqn:E2; [|discriminate].
  apply augment_frame, walk_loop_frame in E2. apply IH in H.
  eapply loop_frame_trans; [exact E|].
  eapply loop_frame_trans; [|exact H].
  eapply loop_frame_trans; [|exact E2]. repeat split.
Qed.

Lemma shortcut_loop_frame fuel fuel' g cap s t a b bound nf st st' flow :
  shortcut_loop fuel fuel' g cap s t a b bound nf st = Some (st', flow) ->
  loop_frame st st'.
Proof.
  revert nf st. induction fuel as [|k IH]; intros nf st H; simpl in H;
    [discriminate|].
  destruct (BreadthFirstSearch_sc fuel' g cap s t a b bound _ st)
    as [[st1 m0]|] eqn:E; [|discriminate].
  apply BreadthFirstSearch_sc_frame, search_loop_frame in E.
  destruct (_ =? 0); [injection H as <- _; exact E|].
  destruct (augment_sc fuel' s t a _ st1) as [st2|] eqn:E2; [|discriminate].
  apply augment_sc_frame, walk_loop_frame in E2. apply IH in H.
  eauto using loop_frame_trans.
Qed.

Lemma maxFlow_p_sc_frame fuel g cap s t a b bound st st' flow :
  maxFlow_p_sc fuel g cap s t a b bound st = Some (st', flow) ->
  loop_frame st st'.
Proof.
  unfold maxFlow_p_sc. intros H. apply shortcut_loop_frame in H.
  eapply loop_frame_trans; [|exact H]. repeat split.
Qed.

(** [maxFlow_residual] returns at most its bound. *)
Lemma residual_loop_bound fuel fuel' g cap s t bound nf st st' flow :
  residual_loop fuel fuel' g cap s t bound nf st = Some (st', flow) ->
  0 <= nf <= bound -> nf <= flow <= bound.
Proof.
  revert nf st. induction fuel as [|k IH]; intros nf st H Hnf; simpl in H;
    [discriminate|].
  destruct (BreadthFirstSearch fuel' g cap s t st) as [[st1 m0]|]; [|discriminate].
  set (m := if (0 <=? bound) && (bound <? nf + m0) then bound - nf else m0) in *.
  destruct (m <=? 0) eqn:Em; [injection H as _ <-; lia|].
  destruct (augment fuel' s t m st1) as [st2|]; [|discriminate].
  apply IH in H; [lia|].
  apply Z.leb_gt in Em. subst m.
  destruct (0 <=? bound) eqn:E1; destruct (bound <? nf + m0) eqn:E2; simpl in *;
    try apply Z.ltb_ge in E2; try apply Z.leb_gt in E1; lia.
Qed.


Lemma maxFlow_residual_frame_flag fuel g cap s t bound st st' flow :
  maxFlow_residual fuel g cap s t bound st = Some (st', flow) ->
  edge_enabled st' = edge_enabled st.
Proof. intros H. apply residual_loop_frame in H. apply H. Qed.

(** ** The repair of a deletion *)

(** C4 as the specification words it, with the shortcut arc from [u] to
    [v], fails on the code: in flow scenario A the deletion of 1->3 would
    leave the flow on 0->1 at 3 and the value at 5. *)
Lemma deletion_repair_not_u_v :
  ~ (forall fuel g cap s t e st,
       0 < last_modification st ->
       modifications g <> last_modification st ->
       historyclears g = last_history_clear st ->
       changed g = false ->
       drop (history_qhead st) (history g) = [mkChange e false] ->
       edgeEnabled g e = false ->
       getF st e <> 0 ->
       maxFlow fuel g cap s t st
       = option_map (finish_repair g s) (deletion_repair arc_u_v fuel g cap e st)).
Proof.
  intros H.
  specialize (H 8%nat (disableEdge 3 (graphA false)) capA 0%nat 3%nat 3%nat stateA).
  assert (E : option_map snd (maxFlow 8 (disableEdge 3 (graphA false)) capA 0 3 stateA)
              = option_map snd (option_map (finish_repair (disableEdge 3 (graphA false)) 0)
                  (deletion_repair arc_u_v 8 (disableEdge 3 (graphA false)) capA 3 stateA))).
  { f_equal. apply H; vm_compute; first [reflexivity | discriminate]. }
  vm_compute in E. discriminate.
Qed.

(** ** Sums over edges and nodes *)

Lemma esum_ext f f' k es :
  (forall j e, nth_error es j = Some e -> f (k + j)%nat e = f' (k + j)%nat e) ->
  esum f k es = esum f' k es.
Proof.
  revert k. induction es as [|e es IH]; intros k H; simpl; [reflexivity|].
  rewrite (IH (S k)).
  - specialize (H 0%nat e eq_refl). rewrite Nat.add_0_r in H. now rewrite H.
  - intros j e' Hj. specialize (H (S j) e' Hj).
    now rewrite Nat.add_succ_r in H.
Qed.

Lemma esum_le f f' k es :
  (forall j e, nth_error es j = Some e -> f (k + j)%nat e <= f' (k + j)%nat e) ->
  esum f k es <= esum f' k es.
Proof.
  revert k. induction es as [|e es IH]; intros k H; simpl; [lia|].
  assert (H0 := H 0%nat e eq_refl). rewrite Nat.add_0_r in H0.
  assert (H1 : esum f (S k) es <= esum f' (S k) es).
  { apply IH. intros j e' Hj. specialize (H (S j) e' Hj).
    now rewrite Nat.add_succ_r in H. }
  lia.
Qed.

Lemma esum_plus f f' k es :
  esum (fun i e => f i e + f' i e) k es = esum f k es + esum f' k es.
Proof. revert k. induction es as [|e es IH]; intros k; simpl; [|rewrite IH]; lia. Qed.

Lemma esum_zero k es : esum (fun _ _ => 0) k es = 0.
Proof. revert k. induction es as [|e es IH]; intros k; simpl; [|rewrite IH]; lia. Qed.

(** Changing the summand of one edge changes the sum by the difference. *)
Lemma esum_update f f' k es a e :
  nth_error es a = Some e ->
  (forall j e', nth_error es j = Some e' -> j <> a ->
                f' (k + j)%nat e' = f (k + j)%nat e') ->
  esum f' k es = esum f k es + (f' (k + a)%nat e - f (k + a)%nat e).
Proof.
  revert k a. induction es as [|e0 es IH]; intros k a Ha H; [now destruct a|].
  destruct a as [|a]; simpl in *.
  - injection Ha as ->. rewrite Nat.add_0_r.
    rewrite (esum_ext f' f (S k) es); [lia|].
    intros j e' Hj. specialize (H (S j) e' Hj).
    rewrite Nat.add_succ_r in H. apply H. discriminate.
  - rewrite (IH (S k) a Ha).
    + assert (H0 := H 0%nat e0 eq_refl). rewrite Nat.add_0_r in H0.
      rewrite H0 by discriminate. rewrite Nat.add_succ_r. simpl. lia.
    + intros j e' Hj Hne. specialize (H (S j) e' Hj).
      rewrite Nat.add_succ_r in H. apply H. congruence.
Qed.

Lemma Zsum_ext f f' k :
  (forall i, (i < k)%nat -> f i = f' i) -> Zsum f k = Zsum f' k.
Proof.
  induction k as [|k IH]; intros H; simpl; [reflexivity|].
  rewrite IH, H; auto.
Qed.

Lemma Zsum_plus f f' k : Zsum (fun i => f i + f' i) k = Zsum f k + Zsum f' k.
Proof. induction k as [|k IH]; simpl; [|rewrite IH]; lia. Qed.

Lemma Zsum_scale c f k : Zsum (fun i => c * f i) k = c * Zsum f k.
Proof. induction k as [|k IH]; simpl; [|rewrite IH]; lia. Qed.

Lemma Zsum_zero k : Zsum (fun _ => 0) k = 0.
Proof. induction k as [|k IH]; simpl; [|rewrite IH]; lia. Qed.

Lemma Zsum_esum (f : nat -> nat -> FullEdge -> Z) n k es :
  Zsum (fun x => esum (f x) k es) n = esum (fun i e => Zsum (fun x => f x i e) n) k es.
Proof.
  revert k. induction es as [|e es IH]; intros k; simpl.
  - apply Zsum_zero.
  - rewrite Zsum_plus, IH. reflexivity.
Qed.

(** The sum of a summand that is zero except at [a]. *)
Lemma Zsum_single (U : nat -> bool) a c n :
  (a < n)%nat ->
  Zsum (fun x => if U x then (if (a =? x)%nat then c else 0) else 0) n
  = if U a then c else 0.
Proof.
  induction n as [|n IH]; intros Ha; [lia|]. simpl.
  destruct (Nat.eq_dec a n) as [->|Hne].
  - rewrite Nat.eqb_refl.
    rewrite (Zsum_ext _ (fun _ => 0)); [rewrite Zsum_zero; destruct (U n); lia|].
    intros i Hi. destruct (U i); [|reflexivity].
    destruct (Nat.eqb_spec n i); [lia | reflexivity].
  - rewrite IH by lia. destruct (Nat.eqb_spec a n); [contradiction|].
    destruct (U n), (U a); lia.
Qed.

Lemma nth_error_edge_at g j e :
  nth_error (all_edges g) j = Some e -> edge_at g j = e /\ (j < edges g)%nat.
Proof.
  intros H. split.
  - unfold edge_at. now apply nth_error_nth.
  - apply nth_error_Some. congruence.
Qed.

Lemma edge_at_nth_error g j :
  (j < edges g)%nat -> nth_error (all_edges g) j = Some (edge_at g j).
Proof. intros H. unfold edge_at. now apply nth_error_nth'. Qed.

Lemma graph_wf_edge g i :
  graph_wf g -> (i < edges g)%nat ->
  (from (edge_at g i) < nodes g)%nat /\ (to (edge_at g i) < nodes g)%nat.
Proof.
  intros Hwf Hi. apply Hwf. eapply nth_error_In. now apply edge_at_nth_error.
Qed.

(** ** The adjacency lists *)

Lemma adj_out_In u k es v i :
  In (mkEdge v i) (adj_out u k es)
  <-> exists j e, nth_error es j = Some e /\ i = (k + j)%nat /\ from e = u /\ to e = v.
Proof.
  revert k. induction es as [|e0 es IH]; intros k; simpl.
  - split; [intros [] | intros (j & e & H & _); now destruct j].
  - split.
    + intros H. destruct (Nat.eqb_spec (from e0) u) as [E|E].
      * destruct H as [H|H].
        -- injection H as <- <-. exists 0%nat, e0. rewrite Nat.add_0_r. auto.
        -- apply IH in H. destruct H as (j & e & H1 & -> & H3 & H4).
           exists (S j), e. rewrite Nat.add_succ_r. auto.
      * apply IH in H. destruct H as (j & e & H1 & -> & H3 & H4).
        exists (S j), e. rewrite Nat.add_succ_r. auto.
    + intros (j & e & H1 & -> & H3 & H4). destruct j as [|j]; simpl in H1.
      * injection H1 as ->. rewrite (proj2 (Nat.eqb_eq _ _) H3), Nat.add_0_r, H4.
        now left.
      * assert (H : In (mkEdge v (k + S j)) (adj_out u (S k) es)).
        { apply IH. exists j, e. rewrite Nat.add_succ_r. auto. }
        destruct (from e0 =? u)%nat; [now right | exact H].
Qed.

Lemma adj_in_In u k es v i :
  In (mkEdge v i) (adj_in u k es)
  <-> exists j e, nth_error es j = Some e /\ i = (k + j)%nat /\ to e = u /\ from e = v.
Proof.
  revert k. induction es as [|e0 es IH]; intros k; simpl.
  - split; [intros [] | intros (j & e & H & _); now destruct j].
  - split.
    + intros H. destruct (Nat.eqb_spec (to e0) u) as [E|E].
      * destruct H as [H|H].
        -- injection H as <- <-. exists 0%nat, e0. rewrite Nat.add_0_r. auto.
        -- apply IH in H. destruct H as (j & e & H1 & -> & H3 & H4).
           exists (S j), e. rewrite Nat.add_succ_r. auto.
      * apply IH in H. destruct H as (j & e & H1 & -> & H3 & H4).
        exists (S j), e. rewrite Nat.add_succ_r. auto.
    + intros (j & e & H1 & -> & H3 & H4). destruct j as [|j]; simpl in H1.
      * injection H1 as ->. rewrite (proj2 (Nat.eqb_eq _ _) H3), Nat.add_0_r, H4.
        now left.
      * assert (H : In (mkEdge v (k + S j)) (adj_in u (S k) es)).
        { apply IH. exists j, e. rewrite Nat.add_succ_r. auto. }
        destruct (to e0 =? u)%nat; [now right | exact H].
Qed.

(** An entry of [g.incident(u,.)] is an edge from [u] to its node. *)
Lemma incident_In g u v i :
  In (mkEdge v i) (incident g u)
  <-> (i < edges g)%nat /\ from (edge_at g i) = u /\ to (edge_at g i) = v.
Proof.
  unfold incident. rewrite adj_out_In. split.
  - intros (j & e & H1 & -> & H3 & H4). simpl.
    destruct (nth_error_edge_at g j e H1) as [-> Hj]. auto.
  - intros (H1 & H2 & H3). exists i, (edge_at g i).
    split; [now apply edge_at_nth_error | auto].
Qed.

(** An entry of [g.incoming(u,.)] is an edge from its node to [u]. *)
Lemma incoming_In g u v i :
  In (mkEdge v i) (incoming g u)
  <-> (i < edges g)%nat /\ to (edge_at g i) = u /\ from (edge_at g i) = v.
Proof.
  unfold incoming. rewrite adj_in_In. split.
  - intros (j & e & H1 & -> & H3 & H4). simpl.
    destruct (nth_error_edge_at g j e H1) as [-> Hj]. auto.
  - intros (H1 & H2 & H3). exists i, (edge_at g i).
    split; [now apply edge_at_nth_error | auto].
Qed.

Lemma flow_sum_adj_in st x k es :
  flow_sum st (adj_in x k es)
  = esum (fun i e => if (to e =? x)%nat
                     then (if enabled st i then getF st i else 0) else 0) k es.
Proof.
  revert k. induction es as [|e es IH]; intros k; simpl; [reflexivity|].
  destruct (to e =? x)%nat; simpl; rewrite IH; lia.
Qed.

Lemma flow_sum_adj_out st x k es :
  flow_sum st (adj_out x k es)
  = esum (fun i e => if (from e =? x)%nat
                     then (if enabled st i then getF st i else 0) else 0) k es.
Proof.
  revert k. induction es as [|e es IH]; intros k; simpl; [reflexivity|].
  destruct (from e =? x)%nat; simpl; rewrite IH; lia.
Qed.

(** The excess is the inflow minus the outflow of [dbg_check_flow]. *)
Lemma excess_inflow_outflow g st x :
  excess g st x = inflow g st x - outflow g st x.
Proof.
  unfold excess, inflow, outflow, incoming, incident.
  rewrite flow_sum_adj_in, flow_sum_adj_out.
  set (A := esum _ 0 (all_edges g)). set (B := esum _ 0 (all_edges g)).
  set (C := esum _ 0 (all_edges g)).
  assert (H : A + C = B); [|lia].
  unfold A, B, C. rewrite <- esum_plus. apply esum_ext.
  intros j e _. simpl. unfold term.
  destruct (enabled st j), (to e =? x)%nat, (from e =? x)%nat; lia.
Qed.

(** ** How the excess changes *)

Lemma excess_change g st st' x a :
  (a < edges g)%nat ->
  (forall i, i <> a -> enabled st' i = enabled st i /\ getF st' i = getF st i) ->
  excess g st' x
  = excess g st x + (term st' x a (edge_at g a) - term st x a (edge_at g a)).
Proof.
  intros Ha H. unfold excess.
  rewrite (esum_update (term st x) (term st' x) 0 (all_edges g) a (edge_at g a)).
  - reflexivity.
  - now apply edge_at_nth_error.
  - intros j e' _ Hne. simpl. unfold term. destruct (H j Hne) as [-> ->]. reflexivity.
Qed.

Lemma ind_refl x : ind x x = 1.
Proof. unfold ind. now rewrite Nat.eqb_refl. Qed.

Lemma ind_ne x y : x <> y -> ind x y = 0.
Proof. unfold ind. intros H. now destruct (Nat.eqb_spec x y). Qed.

(** Adding [d] to the flow of an enabled edge moves [d] units of excess from
    its tail to its head. *)
Lemma excess_push g st st' x a d :
  (a < edges g)%nat -> enabled st a = true ->
  (forall i, enabled st' i = enabled st i) ->
  (forall i, getF st' i = if Nat.eq_dec i a then getF st a + d else getF st i) ->
  excess g st' x
  = excess g st x + d * (ind (to (edge_at g a)) x - ind (from (edge_at g a)) x).
Proof.
  intros Ha Hen He HF. rewrite (excess_change g st st' x a Ha).
  - unfold term, ind. rewrite He, Hen, HF.
    destruct (Nat.eq_dec a a); [|congruence].
    destruct (to (edge_at g a) =? x)%nat, (from (edge_at g a) =? x)%nat; lia.
  - intros i Hne. split; [apply He|]. rewrite HF.
    now destruct (Nat.eq_dec i a).
Qed.

(** Clearing the flag of an edge takes its flow out of the balance. *)
Lemma excess_disable g st st' x a :
  (a < edges g)%nat -> enabled st a = true -> enabled st' a = false ->
  (forall i, i <> a -> enabled st' i = enabled st i) ->
  (forall i, getF st' i = getF st i) ->
  excess g st' x
  = excess g st x
    + getF st a * (ind (from (edge_at g a)) x - ind (to (edge_at g a)) x).
Proof.
  intros Ha Hen Hdis He HF. rewrite (excess_change g st st' x a Ha).
  - unfold term, ind. rewrite Hen, Hdis.
    destruct (to (edge_at g a) =? x)%nat, (from (edge_at g a) =? x)%nat; lia.
  - intros i Hne. split; [now apply He | apply HF].
Qed.

(** A change of the flag or of the flow of an edge that is disabled before
    and after, or that carries no flow before and after, changes no
    excess. *)
Lemma excess_same g st st' x :
  (forall i, (i < edges g)%nat ->
     (if enabled st' i then getF st' i else 0) = (if enabled st i then getF st i else 0)) ->
  excess g st' x = excess g st x.
Proof.
  intros H. unfold excess. apply esum_ext. intros j e Hj. simpl.
  destruct (nth_error_edge_at g j e Hj) as [_ Hlt]. specialize (H j Hlt).
  unfold term.
  destruct (enabled st' j), (enabled st j), (to e =? x)%nat, (from e =? x)%nat; lia.
Qed.

(** ** Cuts *)

Lemma esum_if (b : bool) f k es :
  (if b then esum f k es else 0) = esum (fun i e => if b then f i e else 0) k es.
Proof. destruct b; [reflexivity | now rewrite esum_zero]. Qed.

(** The excess of a set of nodes is the flow that enters it minus the flow
    that leaves it. *)
Lemma cut_sum g st (U : nat -> bool) :
  graph_wf g ->
  Zsum (fun x => if U x then excess g st x else 0) (nodes g)
  = esum (fun i e => if enabled st i
                     then getF st i * (b2z (U (to e)) - b2z (U (from e))) else 0)
      0 (all_edges g).
Proof.
  intros Hwf. unfold excess.
  rewrite (Zsum_ext _ (fun x => esum (fun i e => if U x then term st x i e else 0)
                                   0 (all_edges g)))
    by (intros x _; apply esum_if).
  rewrite Zsum_esum. apply esum_ext. intros j e Hj. simpl.
  destruct (Hwf e (nth_error_In _ _ Hj)) as [Hf Ht].
  unfold term. destruct (enabled st j).
  - rewrite (Zsum_ext _ (fun x =>
        (if U x then (if (to e =? x)%nat then getF st j else 0) else 0)
        + (if U x then (if (from e =? x)%nat then - getF st j else 0) else 0)))
      by (intros x _; destruct (U x), (to e =? x)%nat, (from e =? x)%nat; lia).
    rewrite Zsum_plus, !Zsum_single by assumption.
    unfold b2z. destruct (U (to e)), (U (from e)); lia.
  - rewrite (Zsum_ext _ (fun _ => 0)) by (intros x _; now destruct (U x)).
    apply Zsum_zero.
Qed.

(** No flow enters a closed set and every edge that leaves it is full, so
    its excess is not positive. *)
Lemma closed_cut_nonpos g cap st skip U :
  graph_wf g -> capacity_ok g cap st skip ->
  (forall e, skip = Some e -> enabled st e = false) ->
  closed g cap st U ->
  Zsum (fun x => if U x then excess g st x else 0) (nodes g) <= 0.
Proof.
  intros Hwf Hcap Hskip Hcl. rewrite cut_sum by exact Hwf.
  apply Z.le_trans with (esum (fun _ _ => 0) 0 (all_edges g));
    [|rewrite esum_zero; lia].
  apply esum_le. intros j e Hj. simpl.
  destruct (nth_error_edge_at g j e Hj) as [He Hlt].
  destruct (enabled st j) eqn:En; [|lia].
  assert (Hs : skip <> Some j).
  { intros E. rewrite (Hskip j E) in En. discriminate. }
  destruct (Hcap j Hlt Hs) as [Hc _]. rewrite En in Hc.
  destruct (Hcl j Hlt En) as [H1 H2]. rewrite He in H1, H2.
  unfold b2z. destruct (U (to e)) eqn:Et, (U (from e)) eqn:Ef; lia.
Qed.

(** The excess of a set of nodes under a balance. *)
Lemma balance_cut g st s t a u v d (U : nat -> bool) :
  balance g st s t a u v d ->
  (s < nodes g)%nat -> (t < nodes g)%nat -> (u < nodes g)%nat -> (v < nodes g)%nat ->
  Zsum (fun x => if U x then excess g st x else 0) (nodes g)
  = a * (b2z (U t) - b2z (U s)) + d * (b2z (U u) - b2z (U v)).
Proof.
  intros Hb Hs Ht Hu Hv.
  rewrite (Zsum_ext _ (fun x =>
      a * ((if U x then (if (t =? x)%nat then 1 else 0) else 0)
           + (if U x then (if (s =? x)%nat then -1 else 0) else 0))
      + d * ((if U x then (if (u =? x)%nat then 1 else 0) else 0)
             + (if U x then (if (v =? x)%nat then -1 else 0) else 0)))).
  - rewrite Zsum_plus, !Zsum_scale, !Zsum_plus, !Zsum_single by assumption.
    unfold b2z. destruct (U t), (U s), (U u), (U v); lia.
  - intros x Hx. rewrite (Hb x Hx). unfold ind.
    destruct (U x), (t =? x)%nat, (s =? x)%nat, (u =? x)%nat, (v =? x)%nat; lia.
Qed.

(** ** One step of a search *)

Lemma nth_upd {A} (l : list A) i j x d :
  (i < length l)%nat ->
  nth j (<[i := x]> l) d = if Nat.eq_dec j i then x else nth j l d.
Proof.
  intros Hi. destruct (Nat.eq_dec j i) as [->|Hne].
  - now rewrite nth_lookup, list_lookup_insert_eq.
  - rewrite !nth_lookup, list_lookup_insert_ne; auto.
Qed.

Lemma residual_frame cap st st' back i :
  F st' = F st -> residual cap st' back i = residual cap st back i.
Proof. unfold residual, getF. now intros ->. Qed.

Lemma usable_frame cap st st' i back :
  F st' = F st -> edge_enabled st' = edge_enabled st ->
  usable cap st' i back <-> usable cap st i back.
Proof.
  intros HF He. unfold usable, enabled. rewrite He, (residual_frame cap st st' back i HF).
  reflexivity.
Qed.

Lemma undiscovered_overflow g st v :
  length (prev st) = nodes g -> (nodes g <= v)%nat -> ~ discovered st v.
Proof.
  intros Hl Hv H. apply H. unfold getPrev. rewrite nth_overflow by lia. reflexivity.
Qed.

Lemma discovered_lt g st v :
  length (prev st) = nodes g -> discovered st v -> (v < nodes g)%nat.
Proof.
  intros Hl H. destruct (Nat.lt_ge_cases v (nodes g)) as [Hlt|Hge]; [exact Hlt|].
  exfalso. eapply undiscovered_overflow; eauto.
Qed.

Lemma discoveredb_spec st v : discoveredb st v = true <-> discovered st v.
Proof.
  unfold discoveredb, discovered. rewrite negb_true_iff, Z.eqb_neq. reflexivity.
Qed.

Lemma extends_refl st : extends st st.
Proof.
  split; [apply search_frame_refl|]. split; [auto|]. split; [auto|].
  exists []. now rewrite app_nil_r.
Qed.

Lemma extends_discovered st st' x : extends st st' -> discovered st x -> discovered st' x.
Proof. intros (_ & H & _) Hx. unfold discovered in *. now rewrite (proj1 (H x Hx)). Qed.

Lemma extends_trans a b c : extends a b -> extends b c -> extends a c.
Proof.
  intros (F1 & P1 & M1 & (n1 & Q1)) (F2 & P2 & M2 & (n2 & Q2)).
  split; [eapply search_frame_trans; eauto|]. split; [|split].
  - intros x Hx. destruct (P1 x Hx) as [E1 E2].
    assert (Hx' : discovered b x) by (unfold discovered in *; now rewrite E1).
    destruct (P2 x Hx') as [E3 E4]. split; congruence.
  - intros x. destruct (M1 x) as [E1|E1], (M2 x) as [E2|E2]; try (right; lia).
    left. congruence.
  - exists (n1 ++ n2). now rewrite Q2, Q1, app_assoc.
Qed.

(** Reaching a new node [v] from a node [u] of the queue keeps the
    invariant. *)
Lemma discover_inv g cap s t sc U r via st u v p b viav (push : bool) :
  bfs_inv g cap s t sc U r via st ->
  In u (Q st) -> (v < nodes g)%nat -> ~ discovered st v -> 0 < b ->
  le_from p = Z.of_nat u ->
  ((exists i, le_id p = Z.of_nat i /\ arc g u v i (backward p)
              /\ usable cap st i (backward p)
              /\ b <= residual cap st (backward p) i
              /\ viav = via u /\ (via u = false -> U v = true))
   \/ (le_id p = -1 /\ sc = Some (u, v) /\ via u = false /\ viav = true)) ->
  (push = false -> v = t) ->
  let st1 := set_prev (<[v := p]> (prev st)) st in
  let st2 := set_M (<[v := Z.min (getM st1 u) b]> (M st1)) st1 in
  let st3 := if push then set_Q (Q st2 ++ [v]) st2 else st2 in
  let r' := fun x => if (x =? v)%nat then length (Q st) else r x in
  let via' := fun x => if (x =? v)%nat then viav else via x in
  bfs_inv g cap s t sc U r' via' st3 /\ extends st st3 /\ discovered st3 v
  /\ (forall x, discovered st x -> r' x = r x /\ via' x = via x)
  /\ (forall x, discovered st3 x -> discovered st x \/ x = v)
  /\ via' v = viav.
Proof.
  intros ((Lp & Lm) & Hnd & HQ & HD & (Hs1 & Hs2 & Hs3) & HP) Hu Hv Hnv Hb Hp Hlink Hpush
    st1 st2 st3 r' via'.
  destruct (HQ u Hu) as (Hun & Hud & Hur).
  assert (Huv : u <> v) by (intros ->; contradiction).
  assert (HP3 : forall x, getPrev st3 x = if Nat.eq_dec x v then p else getPrev st x).
  { intros x. unfold st3, getPrev. destruct push; simpl; apply nth_upd; lia. }
  assert (HM3 : forall x, getM st3 x
                = if Nat.eq_dec x v then Z.min (getM st u) b else getM st x).
  { intros x. unfold st3, getM. destruct push; simpl; apply nth_upd; lia. }
  assert (HF3 : F st3 = F st /\ edge_enabled st3 = edge_enabled st)
    by (unfold st3; destruct push; split; reflexivity).
  destruct HF3 as [HF3 HE3].
  assert (HQ3 : Q st3 = if push then Q st ++ [v] else Q st)
    by (unfold st3; destruct push; reflexivity).
  assert (Hd3 : forall x, discovered st3 x <-> discovered st x \/ x = v).
  { intros x. unfold discovered. rewrite HP3. destruct (Nat.eq_dec x v) as [->|Hne].
    - split; [auto|]. intros _. rewrite Hp. lia.
    - split; [auto|]. intros [H|H]; [exact H | contradiction]. }
  assert (Hr' : forall x, x <> v -> r' x = r x /\ via' x = via x).
  { intros x Hne. unfold r', via'. now destruct (Nat.eqb_spec x v). }
  assert (Hrv : r' v = length (Q st) /\ via' v = viav).
  { unfold r', via'. now rewrite Nat.eqb_refl. }
  assert (Hold : forall x, discovered st x -> x <> v) by (intros x Hx ->; contradiction).
  assert (HlenQ : (length (Q st) <= length (Q st3))%nat).
  { rewrite HQ3. destruct push; [rewrite length_app; simpl; lia | lia]. }
  assert (Hmu : 0 < getM st u) by (apply HD; auto).
  split; [|split; [|split; [|split; [|split]]]].
  - unfold bfs_inv. split; [|split; [|split; [|split; [|split]]]].
    + unfold st3. destruct push; simpl; rewrite !length_insert; auto.
    + rewrite HQ3. destruct push; [|exact Hnd].
      apply List.NoDup_app; [exact Hnd | constructor; [intros [] | constructor] |].
      intros x Hx [<-|[]]. apply Hnv. now apply HQ.
    + intros x Hx. rewrite HQ3 in Hx.
      assert (Hcase : In x (Q st) \/ (push = true /\ x = v)).
      { destruct push; [|now left]. apply in_app_or in Hx.
        destruct Hx as [Hx|[<-|[]]]; auto. }
      destruct Hcase as [Hx'|[Hp' ->]].
      * destruct (HQ x Hx') as (A1 & A2 & A3). split; [exact A1|].
        split; [apply Hd3; now left|].
        rewrite (proj1 (Hr' x (Hold x A2))). lia.
      * split; [exact Hv|]. split; [apply Hd3; now right|].
        rewrite (proj1 Hrv), HQ3, Hp', length_app. simpl. lia.
    + intros x Hx Hdx. apply Hd3 in Hdx. destruct Hdx as [Hdx| ->].
      * destruct (HD x Hx Hdx) as (A1 & A2 & A3 & A4).
        destruct (Hr' x (Hold x Hdx)) as [-> ->]. rewrite HM3.
        destruct (Nat.eq_dec x v); [exfalso; eapply Hold; eauto|].
        split; [|split; [lia | split; assumption]].
        destruct A1 as [A1|A1]; [left | now right].
        rewrite HQ3. destruct push; [apply in_or_app; now left | exact A1].
      * destruct Hrv as [-> ->]. rewrite HM3.
        destruct (Nat.eq_dec v v); [|congruence].
        split; [|split; [exact HlenQ | split; [lia|]]].
        -- rewrite HQ3. destruct push; [left; apply in_or_app; right; now left|].
           right. now apply Hpush.
        -- intros Hvia. destruct Hlink as [(i & _ & _ & _ & _ & E & HU)|(_ & _ & _ & E)].
           ++ apply HU. congruence.
           ++ congruence.
    + assert (Hsd : discovered st s) by (unfold discovered; rewrite Hs1; lia).
      rewrite HP3. destruct (Nat.eq_dec s v); [exfalso; eapply Hold; eauto|].
      split; [exact Hs1|]. split.
      * rewrite HQ3. destruct push; [apply in_or_app; now left | exact Hs2].
      * now rewrite (proj2 (Hr' s (Hold s Hsd))).
    + intros x Hx Hdx Hxs. apply Hd3 in Hdx.
      assert (Hus : usable cap st3 = usable cap st).
      { unfold usable, enabled. rewrite HE3.
        assert (E : residual cap st3 = residual cap st)
          by (unfold residual, getF; now rewrite HF3).
        now rewrite E. }
      destruct Hdx as [Hdx| ->].
      * destruct (HP x Hx Hdx Hxs) as (u0 & B1 & B2 & B3 & B4 & B5 & B6).
        pose proof (Hold x Hdx) as Hxv. pose proof (Hold u0 B3) as Huv0.
        exists u0. rewrite HP3, !HM3.
        destruct (Nat.eq_dec x v); [contradiction|].
        destruct (Nat.eq_dec u0 v); [contradiction|].
        destruct (Hr' x Hxv) as [-> ->]. destruct (Hr' u0 Huv0) as [-> ->].
        split; [exact B1|]. split; [exact B2|]. split; [apply Hd3; now left|].
        split; [exact B4|]. split; [exact B5|].
        rewrite Hus. destruct B6 as [(i & C1 & C2 & C3 & C4 & C5)|C].
        -- left. exists i. rewrite (residual_frame cap st st3) by exact HF3. auto.
        -- right. exact C.
      * exists u. rewrite HP3, !HM3.
        destruct (Nat.eq_dec v v); [|congruence].
        destruct (Nat.eq_dec u v); [contradiction|].
        destruct Hrv as [-> ->]. destruct (Hr' u Huv) as [-> ->].
        split; [exact Hp|]. split; [exact Hun|]. split; [apply Hd3; now left|].
        split; [exact Hur|]. split; [lia|].
        rewrite Hus.
        destruct Hlink as [(i & E1 & E2 & E3 & E4 & E5 & _)|(E1 & E2 & E3 & E4)].
        -- left. exists i. rewrite (residual_frame cap st st3) by exact HF3.
           repeat split; auto; try apply E2; try apply E3. lia.
        -- right. auto.
  - split; [|split; [|split]].
    + unfold st3, search_frame. destruct push; simpl; rewrite !length_insert;
        repeat split.
    + intros x Hx. rewrite HP3, HM3.
      destruct (Nat.eq_dec x v); [exfalso; eapply Hold; eauto | auto].
    + intros x. rewrite HM3. destruct (Nat.eq_dec x v); [right; lia | now left].
    + rewrite HQ3. destruct push; [now exists [v]|]. exists []. now rewrite app_nil_r.
  - apply Hd3. now right.
  - intros x Hx. apply Hr'. now apply Hold.
  - intros x Hx. now apply Hd3.
  - apply Hrv.
Qed.

Lemma extends_In st st' x : extends st st' -> In x (Q st) -> In x (Q st').
Proof. intros (_ & _ & _ & (n & ->)) H. apply in_or_app. now left. Qed.

Lemma extends_usable cap st st' i back :
  extends st st' -> usable cap st' i back <-> usable cap st i back.
Proof.
  intros ((HF & _ & HE & _) & _). apply usable_frame; assumption.
Qed.

Lemma closed_frame g cap st st' U :
  F st' = F st -> edge_enabled st' = edge_enabled st ->
  closed g cap st U -> closed g cap st' U.
Proof.
  intros HF HE H i Hi. unfold enabled, getF. rewrite HF, HE. apply (H i Hi).
Qed.

(** An inner loop of a search keeps the invariant; when it runs to its end,
    every usable entry leads to a discovered node. *)
Lemma scan_inv g cap s t sc U back u es :
  forall st r via,
  bfs_inv g cap s t sc U r via st -> closed g cap st U ->
  In u (Q st) ->
  (forall e, In e es -> (node e < nodes g)%nat /\ arc g u (node e) (id e) back) ->
  exists r' via',
    bfs_inv g cap s t sc U r' via' (fst (scan cap back u t es st))
    /\ extends st (fst (scan cap back u t es st))
    /\ (forall x, discovered st x -> r' x = r x /\ via' x = via x)
    /\ (forall x, discovered (fst (scan cap back u t es st)) x -> via' x = true ->
          (discovered st x /\ via x = true) \/ via u = true)
    /\ (snd (scan cap back u t es st) = true ->
          discovered (fst (scan cap back u t es st)) t)
    /\ (snd (scan cap back u t es st) = false ->
          (discovered (fst (scan cap back u t es st)) t -> discovered st t)
          /\ forall e, In e es -> usable cap st (id e) back ->
               discovered (fst (scan cap back u t es st)) (node e)).
Proof.
  induction es as [|e es IH]; intros st r via Hinv Hcl Hu Hes.
  - exists r, via. simpl. split; [exact Hinv|]. split; [apply extends_refl|].
    split; [auto|]. split; [auto|]. split; [discriminate|].
    intros _. split; [auto | intros e []].
  - assert (Hes' : forall e', In e' es ->
                     (node e' < nodes g)%nat /\ arc g u (node e') (id e') back)
      by (intros e' He'; apply Hes; now right).
    destruct (Hes e (or_introl eq_refl)) as [Hvn Harc].
    assert (Hskip : (enabled st (id e) = false \/ residual cap st back (id e) <= 0
                     \/ discovered st (node e)) ->
              scan cap back u t (e :: es) st = scan cap back u t es st).
    { intros H. simpl. destruct (enabled st (id e)) eqn:Een; simpl; [|reflexivity].
      destruct (residual cap st back (id e) >? 0) eqn:Eb; simpl; [|reflexivity].
      destruct (le_from (getPrev st (node e)) =? -1) eqn:Ed; [|reflexivity].
      exfalso. destruct H as [H|[H|H]]; [discriminate | lia |].
      apply H. lia. }
    destruct (enabled st (id e)) eqn:Een;
      [|rewrite Hskip by (now left)].
    2:{ destruct (IH st r via Hinv Hcl Hu Hes') as (r' & via' & A1 & A2 & A3 & A4 & A5 & A6).
        exists r', via'. repeat (split; [assumption|]).
        intros Hf. destruct (A6 Hf) as [B1 B2]. split; [exact B1|].
        intros e' [<-|He'] Hus; [|now apply B2].
        destruct Hus as [Hus _]. congruence. }
    destruct (Z.leb_spec (residual cap st back (id e)) 0) as [Hb|Hb];
      [rewrite Hskip by (right; now left)|].
    { destruct (IH st r via Hinv Hcl Hu Hes') as (r' & via' & A1 & A2 & A3 & A4 & A5 & A6).
      exists r', via'. repeat (split; [assumption|]).
      intros Hf. destruct (A6 Hf) as [B1 B2]. split; [exact B1|].
      intros e' [<-|He'] Hus; [|now apply B2].
      destruct Hus as [_ Hus]. lia. }
    destruct (Z.eq_dec (le_from (getPrev st (node e))) (-1)) as [Hd|Hd];
      [|rewrite Hskip by (right; now right)].
    2:{ destruct (IH st r via Hinv Hcl Hu Hes') as (r' & via' & A1 & A2 & A3 & A4 & A5 & A6).
        exists r', via'. repeat (split; [assumption|]).
        intros Hf. destruct (A6 Hf) as [B1 B2]. split; [exact B1|].
        intros e' [<-|He'] Hus; [|now apply B2].
        eapply extends_discovered; eauto. }
    (* the entry leads to a new node *)
    assert (Hnd : ~ discovered st (node e)) by (intros H; now apply H).
    assert (Hus0 : usable cap st (id e) back) by (split; [exact Een | lia]).
    pose (p := mkLocal (Z.of_nat u) (Z.of_nat (id e)) back).
    assert (HUu : via u = false -> U (node e) = true).
    { intros Hvu. destruct Hinv as (_ & _ & HQ & HD & _).
      destruct (HQ u Hu) as (Hun & Hud & _).
      destruct (HD u Hun Hud) as (_ & _ & _ & HUv). specialize (HUv Hvu).
      destruct Harc as [Hi Harc]. destruct (Hcl (id e) Hi Een) as [C1 C2].
      unfold residual in Hb. destruct back.
      - destruct Harc as [E1 E2]. rewrite <- E2. apply C2; [now rewrite E1 | lia].
      - destruct Harc as [E1 E2]. rewrite <- E2. apply C1; [now rewrite E1 | lia]. }
    pose proof (discover_inv g cap s t sc U r via st u (node e) p
                  (residual cap st back (id e)) (via u) (negb (node e =? t)%nat)
                  Hinv Hu Hvn Hnd Hb eq_refl) as Hstep.
    simpl in Hstep.
    assert (Hlink : (exists i, Z.of_nat (id e) = Z.of_nat i /\ arc g u (node e) i back
                /\ usable cap st i back
                /\ residual cap st back (id e) <= residual cap st back i
                /\ via u = via u /\ (via u = false -> U (node e) = true))
             \/ (Z.of_nat (id e) = -1 /\ sc = Some (u, node e) /\ via u = false
                 /\ via u = true)).
    { left. exists (id e). repeat split; auto; try apply Harc; try apply Hus0. lia. }
    assert (Hpush : negb (node e =? t)%nat = false -> node e = t).
    { intros H. apply negb_false_iff in H. now apply Nat.eqb_eq. }
    specialize (Hstep Hlink Hpush).
    destruct Hstep as (S1 & S2 & S3 & S4 & S5 & S6).
    assert (Hscan : scan cap back u t (e :: es) st =
              if negb (node e =? t)%nat
              then scan cap back u t es
                     (set_Q (Q (set_M (<[node e := Z.min (getM (set_prev (<[node e := p]> (prev st)) st) u) (residual cap st back (id e))]> (M (set_prev (<[node e := p]> (prev st)) st))) (set_prev (<[node e := p]> (prev st)) st)) ++ [node e])
                        (set_M (<[node e := Z.min (getM (set_prev (<[node e := p]> (prev st)) st) u) (residual cap st back (id e))]> (M (set_prev (<[node e := p]> (prev st)) st))) (set_prev (<[node e := p]> (prev st)) st)))
              else (set_M (<[node e := Z.min (getM (set_prev (<[node e := p]> (prev st)) st) u) (residual cap st back (id e))]> (M (set_prev (<[node e := p]> (prev st)) st))) (set_prev (<[node e := p]> (prev st)) st), true)).
    { simpl. rewrite Een. simpl.
      replace (residual cap st back (id e) >? 0) with true by (symmetry; lia).
      rewrite Hd. simpl. reflexivity. }
    rewrite Hscan. clear Hscan.
    destruct (negb (node e =? t)%nat) eqn:Ept.
    + match type of S1 with bfs_inv _ _ _ _ _ _ ?r1 ?v1 ?s3 =>
        set (st3 := s3) in *; set (r1' := r1) in *; set (via1 := v1) in * end.
      assert (Hcl3 : closed g cap st3 U).
      { destruct S2 as ((HF & _ & HE & _) & _). eapply closed_frame; eauto. }
      destruct (IH st3 r1' via1 S1 Hcl3 (extends_In _ _ _ S2 Hu) Hes')
        as (r' & via' & A1 & A2 & A3 & A4 & A5 & A6).
      exists r', via'. split; [exact A1|]. split; [eapply extends_trans; eauto|].
      split; [|split; [|split]].
      * intros x Hx. destruct (A3 x (extends_discovered _ _ _ S2 Hx)) as [-> ->].
        apply S4, Hx.
      * intros x Hx Hvx. destruct (A4 x Hx Hvx) as [[B1 B2]|B]; [|].
        -- destruct (S5 x B1) as [B3| ->].
           ++ left. split; [exact B3|]. now rewrite <- (proj2 (S4 x B3)).
           ++ right. now rewrite <- S6.
        -- right. assert (Hud : discovered st u).
           { destruct Hinv as (_ & _ & HQ & _). now apply HQ. }
           now rewrite <- (proj2 (S4 u Hud)).
      * exact A5.
      * intros Hf. destruct (A6 Hf) as [B1 B2]. split.
        -- intros Ht. destruct (S5 t (B1 Ht)) as [B3|B3]; [exact B3|].
           apply negb_true_iff, Nat.eqb_neq in Ept. congruence.
        -- intros e' [<-|He'] Hus.
           ++ eapply extends_discovered; eauto.
           ++ apply B2; [exact He'|]. now apply (extends_usable cap st st3).
    + match type of S1 with bfs_inv _ _ _ _ _ _ ?r1 ?v1 ?s3 =>
        set (st3 := s3) in *; set (r1' := r1) in *; set (via1 := v1) in * end.
      exists r1', via1. simpl. split; [exact S1|]. split; [exact S2|].
      split; [exact S4|]. split; [|split].
      * intros x Hx Hvx. destruct (S5 x Hx) as [B3| ->].
        -- left. split; [exact B3|]. now rewrite <- (proj2 (S4 x B3)).
        -- right. now rewrite <- S6.
      * intros _. rewrite <- (Hpush eq_refl). exact S3.
      * discriminate.
Qed.

(** ** The start of a search *)

Lemma clear_from_nth n p x :
  (n <= length p)%nat ->
  le_from (nth x (clear_from n p) LocalEdge0)
  = if (x <? n)%nat then -1 else le_from (nth x p LocalEdge0).
Proof.
  induction n as [|n IH]; intros Hn; simpl.
  - reflexivity.
  - rewrite nth_upd by (rewrite length_clear_from; lia).
    destruct (Nat.eq_dec x n) as [->|Hne].
    + simpl. replace (n <? S n)%nat with true by (symmetry; apply Nat.ltb_lt; lia).
      reflexivity.
    + rewrite IH by lia.
      destruct (Nat.ltb_spec x n), (Nat.ltb_spec x (S n)); try reflexivity; lia.
Qed.

Lemma bfs_start_prev g s st x :
  length (prev st) = nodes g -> (s < nodes g)%nat ->
  le_from (getPrev (bfs_start g s st) x)
  = if Nat.eq_dec x s then -2 else -1.
Proof.
  intros Hl Hs. unfold bfs_start, getPrev. simpl.
  rewrite nth_upd by (rewrite length_clear_from; lia).
  destruct (Nat.eq_dec x s); [reflexivity|].
  rewrite clear_from_nth by lia.
  destruct (Nat.ltb_spec x (nodes g)); [reflexivity|].
  rewrite nth_overflow by lia. reflexivity.
Qed.

Lemma bfs_start_inv g cap s t sc U st :
  length (prev st) = nodes g -> length (M st) = nodes g -> (s < nodes g)%nat ->
  0 < getM st s -> U s = true ->
  bfs_inv g cap s t sc U (fun _ => 0%nat) (fun _ => false) (bfs_start g s st)
  /\ (forall x, discovered (bfs_start g s st) x <-> x = s)
  /\ Q (bfs_start g s st) = [s]
  /\ M (bfs_start g s st) = M st.
Proof.
  intros Lp Lm Hs Hm HU.
  assert (Hd : forall x, discovered (bfs_start g s st) x <-> x = s).
  { intros x. unfold discovered. rewrite bfs_start_prev by assumption.
    destruct (Nat.eq_dec x s); split; intros; try lia; congruence. }
  split; [|split; [exact Hd|split; reflexivity]].
  unfold bfs_inv. split; [|split; [|split; [|split; [|split]]]].
  - destruct (bfs_start_frame g s st) as (_ & _ & _ & _ & E1 & E2).
    split; [congruence|]. unfold bfs_start. simpl. exact Lm.
  - simpl. constructor; [intros [] | constructor].
  - simpl. intros v [<-|[]]. split; [exact Hs|]. split; [now apply Hd | lia].
  - intros v Hv Hdv. apply Hd in Hdv. subst v. simpl.
    split; [left; now left|]. split; [lia|]. split; [exact Hm | auto].
  - split; [|split; [now left | reflexivity]].
    rewrite bfs_start_prev by assumption. destruct (Nat.eq_dec s s); congruence.
  - intros v _ Hdv Hne. apply Hd in Hdv. contradiction.
Qed.

(** ** The queue *)

Lemma queue_bound g cap s t sc U r via st :
  bfs_inv g cap s t sc U r via st -> (length (Q st) <= nodes g)%nat.
Proof.
  intros (_ & Hnd & HQ & _).
  rewrite <- (length_seq (nodes g) 0). apply List.NoDup_incl_length; [exact Hnd|].
  intros x Hx. apply in_seq. destruct (HQ x Hx). lia.
Qed.

Lemma incident_arcs g u :
  graph_wf g ->
  forall e, In e (incident g u) -> (node e < nodes g)%nat /\ arc g u (node e) (id e) false.
Proof.
  intros Hwf [v i] He. apply incident_In in He. destruct He as (Hi & E1 & E2). simpl.
  split; [rewrite <- E2; now apply graph_wf_edge|]. split; auto.
Qed.

Lemma incoming_arcs g u :
  graph_wf g ->
  forall e, In e (incoming g u) -> (node e < nodes g)%nat /\ arc g u (node e) (id e) true.
Proof.
  intros Hwf [v i] He. apply incoming_In in He. destruct He as (Hi & E1 & E2). simpl.
  split; [rewrite <- E2; now apply graph_wf_edge|]. split; auto.
Qed.

Lemma scanned_extends g cap st st' u :
  extends st st' -> scanned g cap st u -> scanned g cap st' u.
Proof.
  intros He H v i back Ha Hu. eapply extends_discovered; [exact He|].
  apply (H v i back Ha). now apply (extends_usable cap st st').
Qed.

(** Both inner loops on a node [u] of the queue. *)
Lemma scan_both g cap s t sc U u st r via :
  graph_wf g ->
  bfs_inv g cap s t sc U r via st -> closed g cap st U -> In u (Q st) ->
  let r1 := scan cap false u t (incident g u) st in
  let r2 := scan cap true u t (incoming g u) (fst r1) in
  exists r' via',
    bfs_inv g cap s t sc U r' via' (fst r2)
    /\ extends st (fst r2)
    /\ (forall x, discovered st x -> r' x = r x /\ via' x = via x)
    /\ (forall x, discovered (fst r2) x -> via' x = true ->
          (discovered st x /\ via x = true) \/ via u = true)
    /\ (snd r1 || snd r2 = true -> discovered (fst r2) t)
    /\ (snd r1 = false -> snd r2 = false ->
          (discovered (fst r2) t -> discovered st t) /\ scanned g cap (fst r2) u).
Proof.
  intros Hwf Hinv Hcl Hu r1 r2.
  destruct (scan_inv g cap s t sc U false u (incident g u) st r via Hinv Hcl Hu
              (incident_arcs g u Hwf)) as (ra & va & A1 & A2 & A3 & A4 & A5 & A6).
  fold r1 in A1, A2, A4, A5, A6.
  assert (Hcl1 : closed g cap (fst r1) U).
  { destruct A2 as ((HF & _ & HE & _) & _). eapply closed_frame; eauto. }
  destruct (scan_inv g cap s t sc U true u (incoming g u) (fst r1) ra va A1 Hcl1
              (extends_In _ _ _ A2 Hu) (incoming_arcs g u Hwf))
    as (rb & vb & B1 & B2 & B3 & B4 & B5 & B6).
  fold r2 in B1, B2, B4, B5, B6.
  assert (Hud : discovered st u).
  { destruct Hinv as (_ & _ & HQ & _). now apply HQ. }
  exists rb, vb. split; [exact B1|]. split; [eapply extends_trans; eauto|].
  split; [|split; [|split]].
  - intros x Hx. destruct (B3 x (extends_discovered _ _ _ A2 Hx)) as [-> ->].
    now apply A3.
  - intros x Hx Hvx. destruct (B4 x Hx Hvx) as [[C1 C2]|C].
    + apply A4; assumption.
    + right. now rewrite <- (proj2 (A3 u Hud)).
  - intros H. apply orb_true_iff in H. destruct H as [H|H].
    + eapply extends_discovered; [exact B2 | now apply A5].
    + now apply B5.
  - intros H1 H2. destruct (A6 H1) as [C1 C2]. destruct (B6 H2) as [D1 D2].
    split; [auto|]. intros v i back Ha Hus. destruct back.
    + destruct Ha as [Hi [E1 E2]].
      apply (D2 (mkEdge v i)); [apply incoming_In; auto|].
      apply (extends_usable cap (fst r1) (fst r2)); assumption.
    + destruct Ha as [Hi [E1 E2]].
      eapply extends_discovered; [exact B2|].
      apply (C2 (mkEdge v i)); [apply incident_In; auto|].
      apply (extends_usable cap st (fst r2)); [eapply extends_trans; eauto | assumption].
Qed.

(** ** The search of [maxFlow_p(s,t)] and of [maxFlow_residual] *)

Lemma bfs_loop_ok g cap s t :
  graph_wf g ->
  forall fuel j found st r via,
  bfs_inv g cap s t None (fun _ => true) r via st ->
  (nodes g - j < fuel)%nat ->
  (found = true -> discovered st t) ->
  (found = false ->
     ~ discovered st t
     /\ forall jj x, (jj < j)%nat -> Q st !! jj = Some x -> scanned g cap st x) ->
  exists st' fd r' via',
    bfs_loop fuel g cap t j found st = Some (st', fd)
    /\ bfs_inv g cap s t None (fun _ => true) r' via' st'
    /\ extends st st'
    /\ (fd = true -> discovered st' t)
    /\ (fd = false ->
          ~ discovered st' t /\ forall x, In x (Q st') -> scanned g cap st' x).
Proof.
  intros Hwf. induction fuel as [|k IH]; intros j found st r via Hinv Hfuel Hf1 Hf2;
    [lia|].
  simpl. destruct (Q st !! j) as [u|] eqn:Ej.
  - assert (Hu : In u (Q st)) by (eapply list_elem_of_In, list_elem_of_lookup_2; eauto).
    assert (Hj : (j < length (Q st))%nat) by (eapply lookup_lt_Some; eauto).
    pose proof (queue_bound _ _ _ _ _ _ _ _ _ Hinv) as Hq.
    assert (Hcl : closed g cap st (fun _ => true)) by (intros i _ _; auto).
    destruct (scan_both g cap s t None (fun _ => true) u st r via Hwf Hinv Hcl Hu)
      as (r' & via' & A1 & A2 & A3 & A4 & A5 & A6).
    destruct (scan cap false u t (incident g u) st) as [st1 f1] eqn:E1.
    simpl in A1, A2, A4, A5, A6.
    destruct (scan cap true u t (incoming g u) st1) as [st2 f2] eqn:E2.
    simpl in A1, A2, A4, A5, A6.
    destruct (IH (S j) (found || f1 || f2) st2 r' via' A1) as
      (st' & fd & r'' & via'' & B1 & B2 & B3 & B4 & B5).
    + lia.
    + intros H. apply orb_true_iff in H. destruct H as [H|H].
      * apply orb_true_iff in H. destruct H as [H|H].
        -- eapply extends_discovered; [exact A2 | now apply Hf1].
        -- apply A5. rewrite H. reflexivity.
      * apply A5. rewrite H. apply orb_true_r.
    + intros H. apply orb_false_iff in H. destruct H as [H H2].
      apply orb_false_iff in H. destruct H as [H0 H1].
      destruct (Hf2 H0) as [C1 C2]. destruct (A6 H1 H2) as [D1 D2].
      split; [auto|]. intros jj x Hjj Hx.
      pose proof A2 as (_ & _ & _ & (new & A2d)).
      rewrite A2d in Hx. destruct (Nat.eq_dec jj j) as [->|Hne].
      * rewrite lookup_app_l in Hx by exact Hj. assert (x = u) by congruence.
        subst x. exact D2.
      * rewrite lookup_app_l in Hx by lia.
        eapply scanned_extends; [exact A2|]. apply (C2 jj); [lia | exact Hx].
    + exists st', fd, r'', via''. split; [exact B1|]. split; [exact B2|].
      split; [eapply extends_trans; eauto|]. split; assumption.
  - exists st, found, r, via. split; [reflexivity|]. split; [exact Hinv|].
    split; [apply extends_refl|]. split; [exact Hf1|].
    intros H. destruct (Hf2 H) as [C1 C2]. split; [exact C1|].
    intros x Hx. apply list_elem_of_In, list_elem_of_lookup_1 in Hx.
    destruct Hx as [jj Hjj]. apply (C2 jj); [|exact Hjj].
    apply lookup_ge_None in Ej. apply lookup_lt_Some in Hjj. lia.
Qed.

(** When every node of the queue is scanned and [t] was not reached, the
    discovered nodes are closed under the residual arcs. *)
Lemma scanned_closed g cap s t sc U r via st :
  graph_wf g ->
  bfs_inv g cap s t sc U r via st -> ~ discovered st t ->
  (forall x, In x (Q st) -> scanned g cap st x) ->
  closed g cap st (discoveredb st).
Proof.
  intros Hwf Hinv Hnt Hsc i Hi Hen.
  destruct (graph_wf_edge g i Hwf Hi) as [Hfrom Hto].
  destruct Hinv as (_ & _ & _ & HD & _).
  assert (Hq : forall x, (x < nodes g)%nat -> discovered st x -> scanned g cap st x).
  { intros x Hx Hdx. apply Hsc. destruct (HD x Hx Hdx) as ([H| ->] & _); [exact H|].
    contradiction. }
  split; intros HU Hpos; apply discoveredb_spec; apply discoveredb_spec in HU.
  - apply (Hq _ Hfrom HU _ i false); [split; auto|]. split; [exact Hen|]. exact Hpos.
  - apply (Hq _ Hto HU _ i true); [split; auto|]. split; [exact Hen|].
    unfold residual. lia.
Qed.

(** [BreadthFirstSearch(s,t)] returns; a positive result is the bottleneck
    label of [t] in a search tree that reaches [t], and the result [0]
    comes with a set of nodes that holds [s], not [t], and is closed under
    the residual arcs. *)
Lemma BreadthFirstSearch_ok g cap s t fuel st :
  graph_wf g ->
  length (prev st) = nodes g -> length (M st) = nodes g ->
  (s < nodes g)%nat -> s <> t -> 0 < getM st s -> (nodes g < fuel)%nat ->
  exists st' m,
    BreadthFirstSearch fuel g cap s t st = Some (st', m)
    /\ search_frame st st'
    /\ (forall x, getM st' x = getM st x \/ 0 < getM st' x)
    /\ ((0 < m /\ m = getM st' t /\ discovered st' t
         /\ exists r via, bfs_inv g cap s t None (fun _ => true) r via st')
        \/ (m = 0 /\ closed g cap st' (discoveredb st')
            /\ discoveredb st' s = true /\ discoveredb st' t = false)).
Proof.
  intros Hwf Lp Lm Hs Hst Hm Hfuel.
  destruct (bfs_start_inv g cap s t None (fun _ => true) st Lp Lm Hs Hm eq_refl)
    as (I0 & D0 & Q0 & M0).
  assert (Hnt : ~ discovered (bfs_start g s st) t).
  { intros H. apply D0 in H. congruence. }
  destruct (bfs_loop_ok g cap s t Hwf fuel 0 false (bfs_start g s st) _ _ I0)
    as (st' & fd & r' & via' & B1 & B2 & B3 & B4 & B5).
  - lia.
  - discriminate.
  - intros _. split; [exact Hnt|]. intros jj x Hjj. lia.
  - unfold BreadthFirstSearch. rewrite B1.
    exists st', (if fd then getM st' t else 0). split; [reflexivity|].
    split; [eapply search_frame_trans; [apply bfs_start_frame | apply B3]|].
    split.
    { intros x. destruct B3 as (_ & _ & B3 & _). destruct (B3 x) as [E|E]; [|now right].
      left. rewrite E. unfold getM. now rewrite M0. }
    destruct fd.
    + left. pose proof (B4 eq_refl) as Ht.
      assert (Htn : (t < nodes g)%nat) by (eapply discovered_lt; [apply B2 | exact Ht]).
      pose proof B2 as (_ & _ & _ & B2d & _).
      split; [apply (B2d t Htn Ht)|]. split; [reflexivity|]. split; [exact Ht|].
      exists r', via'. exact B2.
    + right. destruct (B5 eq_refl) as [C1 C2]. split; [reflexivity|].
      split; [eapply scanned_closed; eauto|]. split.
      * apply discoveredb_spec. eapply extends_discovered; [exact B3|]. now apply D0.
      * destruct (discoveredb st' t) eqn:E; [|reflexivity].
        apply discoveredb_spec in E. contradiction.
Qed.

(** ** The search with a shortcut arc *)

Lemma bfs_sc_loop_S k g cap t j scFrom scTo scCap scFlow st :
  bfs_sc_loop (S k) g cap t j scFrom scTo scCap scFlow st
  = match Q st !! j with
    | None => Some (st, 0)
    | Some u =>
        let '(st0, f0) := shortcut_step t u scFrom scTo scCap scFlow st in
        if f0 then Some (st0, getM st0 t) else
        let '(st1, f1) := scan cap false u t (incident g u) st0 in
        if f1 then Some (st1, getM st1 t) else
        let '(st2, f2) := scan cap true u t (incoming g u) st1 in
        if f2 then Some (st2, getM st2 t) else
        bfs_sc_loop k g cap t (S j) scFrom scTo scCap scFlow st2
    end.
Proof. reflexivity. Qed.

Lemma fired_inv_extends st st' via via' j j' p :
  extends st st' -> (j <= j')%nat ->
  (forall x, discovered st' x -> via' x = true ->
     (discovered st x /\ via x = true)
     \/ exists jj, (jj < j')%nat /\ Q st !! jj = Some p) ->
  fired_inv st via j p -> fired_inv st' via' j' p.
Proof.
  intros He Hj Hc Hf x Hx Hvx. destruct He as (_ & _ & _ & (new & HQ)).
  assert (Hl : forall jj, Q st !! jj = Some p -> Q st' !! jj = Some p).
  { intros jj H. rewrite HQ. apply lookup_app_l_Some. exact H. }
  destruct (Hc x Hx Hvx) as [[C1 C2]|(jj & C1 & C2)].
  - destruct (Hf x C1 C2) as (jj & D1 & D2). exists jj. split; [lia | auto].
  - exists jj. split; [exact C1 | auto].
Qed.

(** The step along the shortcut arc. *)
Lemma shortcut_step_inv g cap a b p q U scCap scFlow r via st j u :
  bfs_inv g cap a b (Some (p, q)) U r via st ->
  (q < nodes g)%nat -> U q = false ->
  Q st !! j = Some u -> fired_inv st via j p ->
  exists r' via',
    bfs_inv g cap a b (Some (p, q)) U r' via'
      (fst (shortcut_step b u p q scCap scFlow st))
    /\ extends st (fst (shortcut_step b u p q scCap scFlow st))
    /\ fired_inv (fst (shortcut_step b u p q scCap scFlow st)) via' (S j) p
    /\ (snd (shortcut_step b u p q scCap scFlow st) = true ->
          discovered (fst (shortcut_step b u p q scCap scFlow st)) b)
    /\ (snd (shortcut_step b u p q scCap scFlow st) = false ->
          discovered (fst (shortcut_step b u p q scCap scFlow st)) b ->
          discovered st b)
    /\ (u = p -> 0 < scCap - scFlow ->
          discovered (fst (shortcut_step b u p q scCap scFlow st)) q)
    /\ (via' u = true -> via u = true).
Proof.
  intros Hinv Hq HUq Hj Hfired.
  assert (Hu : In u (Q st)) by (eapply list_elem_of_In, list_elem_of_lookup_2; eauto).
  pose proof Hinv as (_ & Hnd & HQ & HD & _).
  destruct (HQ u Hu) as (Hun & Hud & _).
  assert (Hnf : forall x, discovered st x -> via x = true -> u <> p).
  { intros x Hx Hvx ->. destruct (Hfired x Hx Hvx) as (jj & Hjj & E).
    assert (jj = j); [|lia].
    eapply NoDup_lookup; [|exact E|exact Hj]. now apply NoDup_ListNoDup. }
  unfold shortcut_step.
  destruct ((u =? p)%nat && (scCap - scFlow >? 0)) eqn:Efire.
  - apply andb_true_iff in Efire. destruct Efire as [Eu Ec].
    apply Nat.eqb_eq in Eu. subst u.
    assert (Hvia : forall x, discovered st x -> via x = false).
    { intros x Hx. destruct (via x) eqn:E; [|reflexivity].
      exfalso. now apply (Hnf x Hx E). }
    assert (Hnq : ~ discovered st q).
    { intros H. destruct (HD q Hq H) as (_ & _ & _ & HUv).
      rewrite HUv in HUq; [discriminate | now apply Hvia]. }
    pose proof (discover_inv g cap a b (Some (p, q)) U r via st p q
                  (mkLocal (Z.of_nat p) (-1) false) (scCap - scFlow) true
                  (negb (q =? b)%nat) Hinv Hu Hq Hnq ltac:(lia) eq_refl) as Hstep.
    simpl in Hstep.
    assert (Hlink : (exists i, -1 = Z.of_nat i /\ arc g p q i false
                /\ usable cap st i false
                /\ scCap - scFlow <= residual cap st false i
                /\ true = via p /\ (via p = false -> U q = true))
             \/ (-1 = -1 /\ Some (p, q) = Some (p, q) /\ via p = false /\ true = true)).
    { right. repeat split. now apply Hvia. }
    assert (Hpush : negb (q =? b)%nat = false -> q = b).
    { intros H. apply negb_false_iff in H. now apply Nat.eqb_eq. }
    specialize (Hstep Hlink Hpush). destruct Hstep as (S1 & S2 & S3 & S4 & S5 & S6).
    destruct (negb (q =? b)%nat) eqn:Eqb; simpl.
    + eexists _, _. split; [exact S1|]. split; [exact S2|]. split; [|split; [|split; [|split]]].
      * eapply fired_inv_extends; [exact S2 | | | exact Hfired]; [lia|].
        intros x Hx Hvx. destruct (S5 x Hx) as [B| ->].
        -- left. split; [exact B|]. now rewrite <- (proj2 (S4 x B)).
        -- right. exists j. split; [lia | exact Hj].
      * discriminate.
      * intros _ H. destruct (S5 b H) as [B|B]; [exact B|].
        apply negb_true_iff, Nat.eqb_neq in Eqb. congruence.
      * intros _ _. exact S3.
      * intros H. rewrite (proj2 (S4 p Hud)) in H. exact H.
    + eexists _, _. split; [exact S1|]. split; [exact S2|]. split; [|split; [|split; [|split]]].
      * eapply fired_inv_extends; [exact S2 | | | exact Hfired]; [lia|].
        intros x Hx Hvx. destruct (S5 x Hx) as [B| ->].
        -- left. split; [exact B|]. now rewrite <- (proj2 (S4 x B)).
        -- right. exists j. split; [lia | exact Hj].
      * intros _. rewrite <- (Hpush eq_refl). exact S3.
      * discriminate.
      * intros _ _. exact S3.
      * intros H. rewrite (proj2 (S4 p Hud)) in H. exact H.
  - simpl. exists r, via. split; [exact Hinv|]. split; [apply extends_refl|].
    split; [|split; [discriminate | split; [auto | split; [|auto]]]].
    + intros x Hx Hvx. destruct (Hfired x Hx Hvx) as (jj & D1 & D2).
      exists jj. split; [lia | exact D2].
    + intros -> Hc. rewrite Nat.eqb_refl in Efire. simpl in Efire. lia.
Qed.

Lemma extends_lookup st st' jj x :
  extends st st' -> Q st !! jj = Some x -> Q st' !! jj = Some x.
Proof.
  intros (_ & _ & _ & (new & ->)) H. apply lookup_app_l_Some. exact H.
Qed.

Lemma extends_closed g cap st st' U :
  extends st st' -> closed g cap st U -> closed g cap st' U.
Proof. intros ((HF & _ & HE & _) & _). now apply closed_frame. Qed.

Lemma label_positive g cap a b sc U r via st x :
  bfs_inv g cap a b sc U r via st -> discovered st x -> 0 < getM st x.
Proof.
  intros Hinv Hx.
  assert (Hn : (x < nodes g)%nat) by (eapply discovered_lt; [apply Hinv | exact Hx]).
  destruct Hinv as (_ & _ & _ & HD & _). now apply HD.
Qed.

Lemma bfs_sc_loop_ok g cap a b p q U scCap scFlow :
  graph_wf g -> (q < nodes g)%nat -> U q = false ->
  forall fuel j st r via,
  bfs_inv g cap a b (Some (p, q)) U r via st -> closed g cap st U ->
  (nodes g - j < fuel)%nat ->
  ~ discovered st b ->
  fired_inv st via j p ->
  (forall jj x, (jj < j)%nat -> Q st !! jj = Some x ->
     scanned g cap st x /\ (x = p -> 0 < scCap - scFlow -> discovered st q)) ->
  exists st' m,
    bfs_sc_loop fuel g cap b j p q scCap scFlow st = Some (st', m)
    /\ extends st st'
    /\ (exists r' via', bfs_inv g cap a b (Some (p, q)) U r' via' st')
    /\ ((0 < m /\ m = getM st' b /\ discovered st' b)
        \/ (m = 0 /\ ~ discovered st' b
            /\ forall x, In x (Q st') ->
                 scanned g cap st' x
                 /\ (x = p -> 0 < scCap - scFlow -> discovered st' q))).
Proof.
  intros Hwf Hq HUq. induction fuel as [|k IH];
    intros j st r via Hinv Hcl Hfuel Hnb Hfired Hdone; [lia|].
  rewrite bfs_sc_loop_S. destruct (Q st !! j) as [u|] eqn:Ej.
  - assert (Hu : In u (Q st)) by (eapply list_elem_of_In, list_elem_of_lookup_2; eauto).
    assert (Hj : (j < length (Q st))%nat) by (eapply lookup_lt_Some; eauto).
    pose proof (queue_bound _ _ _ _ _ _ _ _ _ Hinv) as Hqb.
    destruct (shortcut_step_inv g cap a b p q U scCap scFlow r via st j u
                Hinv Hq HUq Ej Hfired)
      as (r0 & via0 & A1 & A2 & A3 & A4 & A5 & A6 & A7).
    destruct (shortcut_step b u p q scCap scFlow st) as [st0 f0].
    simpl in A1, A2, A3, A4, A5, A6.
    destruct f0.
    { exists st0, (getM st0 b). split; [reflexivity|]. split; [exact A2|].
      split; [exists r0, via0; exact A1|]. left.
      split; [eapply label_positive; eauto|]. auto. }
    assert (Hnb0 : ~ discovered st0 b) by (intros H; apply Hnb, A5; auto).
    pose proof (extends_closed g cap st st0 U A2 Hcl) as Hcl0.
    pose proof (extends_In st st0 u A2 Hu) as Hu0.
    destruct (scan_inv g cap a b (Some (p, q)) U false u (incident g u) st0 r0 via0
                A1 Hcl0 Hu0 (incident_arcs g u Hwf))
      as (r1 & via1 & B1 & B2 & B3 & B4 & B5 & B6).
    destruct (scan_both g cap a b (Some (p, q)) U u st0 r0 via0 Hwf A1 Hcl0 Hu0)
      as (r2 & via2 & C1 & C2 & C3 & C4 & C5 & C6).
    destruct (scan cap false u b (incident g u) st0) as [st1 f1].
    simpl in B1, B2, B4, B5, B6, C1, C2, C4, C5, C6.
    destruct f1.
    { exists st1, (getM st1 b). split; [reflexivity|].
      split; [eapply extends_trans; eauto|].
      split; [exists r1, via1; exact B1|]. left.
      split; [eapply label_positive; eauto|]. auto. }
    destruct (scan cap true u b (incoming g u) st1) as [st2 f2].
    simpl in C1, C2, C4, C5, C6.
    pose proof (extends_trans _ _ _ A2 C2) as E02.
    destruct f2.
    { exists st2, (getM st2 b). split; [reflexivity|]. split; [exact E02|].
      split; [exists r2, via2; exact C1|]. left.
      split; [eapply label_positive; eauto|]. auto. }
    destruct (C6 eq_refl eq_refl) as [D1 D2].
    destruct (IH (S j) st2 r2 via2 C1) as (st' & m & F1 & F2 & F3 & F4).
    + eapply extends_closed; eauto.
    + lia.
    + intros H. apply Hnb0, D1, H.
    + eapply fired_inv_extends; [exact C2 | | | exact A3]; [lia|].
      intros x Hx Hvx. destruct (C4 x Hx Hvx) as [G|G]; [now left|].
      right. assert (Hud : discovered st u).
      { destruct Hinv as (_ & _ & HQ & _). now apply HQ. }
      destruct (Hfired u Hud (A7 G)) as (jj & G1 & G2).
      exists jj. split; [lia|]. eapply extends_lookup; eauto.
    + intros jj x Hjj Hx. pose proof E02 as (_ & _ & _ & (new & HQ2)).
      rewrite HQ2 in Hx. destruct (Nat.eq_dec jj j) as [->|Hne].
      * rewrite lookup_app_l in Hx by exact Hj. assert (x = u) by congruence.
        subst x. split; [exact D2|]. intros Hp Hc.
        eapply extends_discovered; [exact C2|]. now apply A6.
      * rewrite lookup_app_l in Hx by lia.
        destruct (Hdone jj x ltac:(lia) Hx) as [G1 G2]. split.
        -- eapply scanned_extends; eauto.
        -- intros Hp Hc. eapply extends_discovered; [exact E02|]. now apply G2.
    + exists st', m. split; [exact F1|]. split; [eapply extends_trans; eauto|].
      split; assumption.
  - exists st, 0. split; [reflexivity|]. split; [apply extends_refl|].
    split; [exists r, via; exact Hinv|]. right.
    split; [reflexivity|]. split; [exact Hnb|].
    intros x Hx. apply list_elem_of_In, list_elem_of_lookup_1 in Hx.
    destruct Hx as [jj Hjj]. apply (Hdone jj); [|exact Hjj].
    apply lookup_ge_None in Ej. apply lookup_lt_Some in Hjj. lia.
Qed.

(** [BreadthFirstSearch(a, b, p, q, ...)] returns, given a set [U] that is
    closed under the residual arcs and holds [a] but neither [q] nor the
    label of a node outside [U]; the result [0] comes with a set that holds
    [a], not [b], and is closed under the residual arcs and under the
    shortcut arc. *)
Lemma BreadthFirstSearch_sc_ok g cap a b p q U scCap scFlow fuel st :
  graph_wf g ->
  length (prev st) = nodes g -> length (M st) = nodes g ->
  (a < nodes g)%nat -> (q < nodes g)%nat -> a <> b -> 0 < getM st a ->
  closed g cap st U -> U a = true -> U q = false ->
  (nodes g < fuel)%nat ->
  exists st' m,
    BreadthFirstSearch_sc fuel g cap a b p q scCap scFlow st = Some (st', m)
    /\ search_frame st st'
    /\ (forall x, getM st' x = getM st x \/ 0 < getM st' x)
    /\ ((0 < m /\ m = getM st' b /\ discovered st' b
         /\ exists r via, bfs_inv g cap a b (Some (p, q)) U r via st')
        \/ (m = 0 /\ closed g cap st' (discoveredb st')
            /\ discoveredb st' a = true /\ discoveredb st' b = false
            /\ (discoveredb st' p = true -> 0 < scCap - scFlow ->
                discoveredb st' q = true))).
Proof.
  intros Hwf Lp Lm Ha Hq Hab Hm Hcl HUa HUq Hfuel.
  destruct (bfs_start_inv g cap a b (Some (p, q)) U st Lp Lm Ha Hm HUa)
    as (I0 & D0 & Q0 & M0).
  assert (Hnt : ~ discovered (bfs_start g a st) b).
  { intros H. apply D0 in H. congruence. }
  assert (Hcl0 : closed g cap (bfs_start g a st) U).
  { destruct (bfs_start_frame g a st) as (HF & _ & HE & _). eapply closed_frame; eauto. }
  destruct (bfs_sc_loop_ok g cap a b p q U scCap scFlow Hwf Hq HUq fuel 0
              (bfs_start g a st) _ _ I0 Hcl0)
    as (st' & m & B1 & B2 & (r' & via' & B3) & B4).
  - lia.
  - exact Hnt.
  - intros x _ Hvx. discriminate.
  - intros jj x Hjj. lia.
  - unfold BreadthFirstSearch_sc. rewrite B1. exists st', m. split; [reflexivity|].
    split; [eapply search_frame_trans; [apply bfs_start_frame | apply B2]|].
    split.
    { intros x. destruct B2 as (_ & _ & B2 & _). destruct (B2 x) as [E|E]; [|now right].
      left. rewrite E. unfold getM. now rewrite M0. }
    destruct B4 as [(C1 & C2 & C3)|(C1 & C2 & C3)].
    + left. split; [exact C1|]. split; [exact C2|]. split; [exact C3|].
      exists r', via'. exact B3.
    + right. split; [exact C1|].
      split; [eapply scanned_closed; eauto; intros x Hx; now apply C3|].
      split; [|split].
      * apply discoveredb_spec. eapply extends_discovered; [exact B2|]. now apply D0.
      * destruct (discoveredb st' b) eqn:E; [|reflexivity].
        apply discoveredb_spec in E. contradiction.
      * intros Hp Hc. apply discoveredb_spec. apply discoveredb_spec in Hp.
        assert (Hpn : (p < nodes g)%nat) by (eapply discovered_lt; [apply B3 | exact Hp]).
        pose proof B3 as (_ & _ & _ & HD & _).
        destruct (HD p Hpn Hp) as ([G| ->] & _); [|contradiction].
        now apply (C3 p G).
Qed.

(** ** Pushing flow along an arc *)

Lemma push_getF p m st i j :
  le_id p = Z.of_nat i -> (i < length (F st))%nat ->
  getF (push p m st) j
  = if Nat.eq_dec j i
    then (if backward p then getF st i - m else getF st i + m)
    else getF st j.
Proof.
  intros Hp Hi. unfold push. rewrite Hp, Nat2Z.id.
  destruct (backward p); unfold getF at 1; simpl; now rewrite nth_upd.
Qed.

Lemma push_enabled p m st j : enabled (push p m st) j = enabled st j.
Proof. unfold push. now destruct (backward p). Qed.

Lemma push_step g cap skip U st p i m u v :
  le_id p = Z.of_nat i -> arc g u v i (backward p) -> u <> v ->
  enabled st i = true -> skip <> Some i -> length (F st) = edges g ->
  capacity_ok g cap st skip -> closed g cap st U -> U u = U v ->
  0 < m <= residual cap st (backward p) i ->
  capacity_ok g cap (push p m st) skip
  /\ closed g cap (push p m st) U
  /\ forall x, excess g (push p m st) x = excess g st x + m * (ind v x - ind u x).
Proof.
  intros Hp Harc Huv Hen Hskip HlF Hcap Hcl HU Hm.
  destruct Harc as [Hi Harc].
  assert (HF : forall j, getF (push p m st) j
             = if Nat.eq_dec j i
               then (if backward p then getF st i - m else getF st i + m)
               else getF st j).
  { intros j. apply push_getF; [exact Hp | lia]. }
  split; [|split].
  - intros j Hj Hsk. rewrite push_enabled, HF. destruct (Hcap j Hj Hsk) as [C1 C2].
    destruct (Nat.eq_dec j i) as [->|Hne]; [|split; assumption].
    rewrite Hen in C1 |- *. unfold residual in Hm.
    destruct (backward p); (split; [lia|]); intros E; exfalso; apply Huv;
      destruct Harc as [E1 E2]; congruence.
  - intros j Hj. rewrite push_enabled, HF. intros Hej.
    destruct (Hcl j Hj Hej) as [C1 C2].
    destruct (Nat.eq_dec j i) as [->|Hne]; [|split; assumption].
    assert (HU' : U (from (edge_at g i)) = U (to (edge_at g i))).
    { destruct (backward p); destruct Harc as [E1 E2]; rewrite E1, E2; congruence. }
    split; intros H _; congruence.
  - intros x. destruct (backward p) eqn:Eb.
    + rewrite (excess_push g st (push p m st) x i (- m) Hi Hen).
      * destruct Harc as [E1 E2]. rewrite E1, E2. lia.
      * intros j. apply push_enabled.
      * intros j. rewrite HF. destruct (Nat.eq_dec j i); [lia | reflexivity].
    + rewrite (excess_push g st (push p m st) x i m Hi Hen).
      * destruct Harc as [E1 E2]. rewrite E1, E2. lia.
      * intros j. apply push_enabled.
      * intros j. rewrite HF. destruct (Nat.eq_dec j i); [lia | reflexivity].
Qed.

(** ** The walks *)

Lemma augment_sc_S k s v scFrom m st :
  augment_sc (S k) s v scFrom m st
  = if (v =? s)%nat then Some st
    else
      if 0 <=? le_id (getPrev st v) then
        if le_from (getPrev st v) <? 0 then None
        else augment_sc k s (Z.to_nat (le_from (getPrev st v))) scFrom m
               (push (getPrev st v) m st)
      else augment_sc k s scFrom scFrom m st.
Proof. reflexivity. Qed.

Lemma walk_inv_start g cap skip U a r st0 v :
  capacity_ok g cap st0 skip -> closed g cap st0 U ->
  (forall i, (i < edges g)%nat -> 0 < getF st0 i ->
     0 < getM st0 (from (edge_at g i))) ->
  walk_inv g cap skip U a r st0 st0 v.
Proof.
  intros H1 H2 H3. split; [apply walk_frame_refl|]. split; [exact H1|].
  split; [exact H2|]. split; [auto | exact H3].
Qed.

(** The walk from a discovered node [v] back to the root [a] returns; it
    moves [m] units of excess from [a] to [v], less what the shortcut arc
    carries. *)
Lemma augment_sc_ok g cap skip U a b sc p q r via st0 m :
  graph_wf g ->
  bfs_inv g cap a b sc U r via st0 ->
  length (F st0) = edges g ->
  (forall u' v', sc = Some (u', v') -> u' = p /\ v' = q) ->
  (forall e, skip = Some e -> enabled st0 e = false) ->
  0 < m ->
  forall fuel v st,
  walk_inv g cap skip U a r st0 st v ->
  (v < nodes g)%nat -> discovered st0 v -> (r v < fuel)%nat ->
  m <= getM st0 v -> (via v = true -> U v = false) ->
  exists st',
    augment_sc fuel a v p m st = Some st'
    /\ walk_inv g cap skip U a r st0 st' a
    /\ forall x, excess g st' x
         = excess g st x + m * (ind v x - ind a x)
           - (if via v then m else 0) * (ind q x - ind p x).
Proof.
  intros Hwf Hinv HlF Hsc Hskip Hm.
  pose proof Hinv as (_ & _ & _ & HD & (Hr1 & Hr2 & Hr3) & HP).
  assert (Hmono : forall st x y, (r x <= r y)%nat ->
            walk_inv g cap skip U a r st0 st y -> walk_inv g cap skip U a r st0 st x).
  { intros st x y Hxy (W1 & W2 & W3 & W4 & W5). repeat (split; [assumption|]).
    split; [|exact W5]. intros z i Hz Hdz Hza Hrz. apply W4; auto. lia. }
  induction fuel as [|k IH]; intros v st HW Hv Hdv Hfuel Hmv Hzone; [lia|].
  rewrite augment_sc_S. destruct (Nat.eqb_spec v a) as [->|Hva].
  - exists st. split; [reflexivity|]. split; [exact HW|].
    intros x. rewrite Hr3. lia.
  - pose proof HW as (W1 & W2 & W3 & W4 & W5).
    pose proof W1 as (WF & _ & WE & _ & WP & WM & _).
    assert (Hprev : getPrev st v = getPrev st0 v) by (unfold getPrev; now rewrite WP).
    rewrite Hprev.
    destruct (HP v Hv Hdv Hva) as (u & P1 & P2 & P3 & P4 & P5 & P6).
    destruct P6 as [(i & E1 & E2 & E3 & E4 & E5)|(E1 & E2 & E3 & E4)].
    + rewrite E1, P1.
      replace (0 <=? Z.of_nat i) with true by (symmetry; lia).
      replace (Z.of_nat u <? 0) with false by (symmetry; lia).
      rewrite Nat2Z.id.
      set (pv := getPrev st0 v) in *.
      assert (Hi : (i < edges g)%nat) by apply E2.
      assert (HFi : getF st i = getF st0 i) by (apply (W4 v i); auto).
      assert (Hres : residual cap st (backward pv) i = residual cap st0 (backward pv) i).
      { unfold residual. now rewrite HFi. }
      assert (Hen : enabled st i = true).
      { unfold enabled. rewrite WE. apply E3. }
      assert (Hsk : skip <> Some i).
      { intros H. apply Hskip in H. destruct E3 as [E3 _]. congruence. }
      assert (Huv : u <> v) by (intros ->; lia).
      assert (HU : U u = U v).
      { destruct (via v) eqn:Evia.
        - rewrite (Hzone eq_refl). destruct (U u) eqn:EUu; [|reflexivity].
          exfalso. destruct (W3 i Hi Hen) as [C1 C2].
          destruct E3 as [_ E3]. rewrite <- Hres in E3. unfold residual in E3.
          assert (U v = true); [|rewrite (Hzone eq_refl) in *; discriminate].
          destruct E2 as [_ E2]. destruct (backward pv); destruct E2 as [G1 G2].
          + rewrite <- G2. apply C2; [now rewrite G1 | lia].
          + rewrite <- G2. apply C1; [now rewrite G1 | lia].
        - destruct (HD v Hv Hdv) as (_ & _ & _ & Z1).
          destruct (HD u P2 P3) as (_ & _ & _ & Z2).
          rewrite Z1 by exact Evia. rewrite Z2 by congruence. reflexivity. }
      destruct (push_step g cap skip U st pv i m u v E1 E2 Huv Hen Hsk
                  ltac:(congruence) W2 W3 HU ltac:(lia)) as (S1 & S2 & S3).
      assert (HW1 : walk_inv g cap skip U a r st0 (push pv m st) u).
      { split; [eapply walk_frame_trans; [exact W1 | apply push_frame]|].
        split; [exact S1|]. split; [exact S2|]. split.
        - intros x i' Hx Hdx Hxa Hrx Hid.
          rewrite (push_getF pv m st i i' E1 ltac:(lia)).
          destruct (Nat.eq_dec i' i) as [->|Hne]; [|apply (W4 x i'); auto; lia].
          exfalso. destruct (HP x Hx Hdx Hxa) as (ux & X1 & X2 & X3 & X4 & X5 & X6).
          destruct X6 as [(i2 & Y1 & Y2 & _)|(Y1 & _)]; [|lia].
          assert (i2 = i) by lia. subst i2.
          destruct E2 as [_ E2]. destruct Y2 as [_ Y2].
          destruct (backward pv), (backward (getPrev st0 x));
            destruct E2 as [G1 G2]; destruct Y2 as [G3 G4]; subst; lia.
        - intros j Hj. rewrite (push_getF pv m st i j E1 ltac:(lia)).
          destruct (Nat.eq_dec j i) as [->|Hne]; [|now apply W5].
          destruct (backward pv) eqn:Eb.
          + intros H. apply W5; [exact Hi | lia].
          + intros _. destruct E2 as [_ [G1 G2]]. rewrite G1.
            eapply label_positive; eauto. }
      destruct (IH u (push pv m st) HW1 P2 P3 ltac:(lia) ltac:(lia)) as (st' & A1 & A2 & A3).
      { intros Hvu. rewrite HU. apply Hzone. congruence. }
      exists st'. split; [exact A1|]. split; [exact A2|].
      intros x. rewrite A3, S3, E5. lia.
    + rewrite E1. simpl (0 <=? -1).
      destruct (Hsc u v E2) as [-> ->]. cbv iota.
      destruct (IH p st (Hmono st p q ltac:(lia) HW) P2 P3 ltac:(lia) ltac:(lia))
        as (st' & A1 & A2 & A3).
      { intros H. congruence. }
      exists st'. split; [exact A1|]. split; [exact A2|].
      intros x. rewrite A3, E3, E4. lia.
Qed.

(** Without a shortcut arc no node is reached through it. *)
Lemma via_none g cap a b U r via st :
  bfs_inv g cap a b None U r via st ->
  forall n x, (r x < n)%nat -> (x < nodes g)%nat -> discovered st x -> via x = false.
Proof.
  intros (_ & _ & _ & _ & (_ & _ & Hr) & HP).
  induction n as [|n IH]; intros x Hrx Hx Hdx; [lia|].
  destruct (Nat.eq_dec x a) as [->|Hne]; [exact Hr|].
  destruct (HP x Hx Hdx Hne) as (u & P1 & P2 & P3 & P4 & P5 & P6).
  destruct P6 as [(i & _ & _ & _ & _ & E)|(_ & E & _)]; [|discriminate].
  rewrite E. apply IH; [lia | assumption | assumption].
Qed.

Lemma rank_bound g cap a b sc U r via st x :
  bfs_inv g cap a b sc U r via st -> (x < nodes g)%nat -> discovered st x ->
  (r x <= nodes g)%nat.
Proof.
  intros Hinv Hx Hdx. pose proof (queue_bound _ _ _ _ _ _ _ _ _ Hinv) as Hq.
  destruct Hinv as (_ & _ & _ & HD & _). destruct (HD x Hx Hdx) as (_ & H & _). lia.
Qed.

(** Without a shortcut arc the two walks are the same. *)
Lemma augment_eq g cap a b U r via st0 p m :
  bfs_inv g cap a b None U r via st0 ->
  forall fuel v st, prev st = prev st0 -> (v < nodes g)%nat -> discovered st0 v ->
  augment fuel a v m st = augment_sc fuel a v p m st.
Proof.
  intros Hinv. pose proof Hinv as (_ & _ & _ & _ & _ & HP).
  induction fuel as [|k IH]; intros v st Hp Hv Hdv; [reflexivity|].
  rewrite augment_sc_S. simpl. destruct (Nat.eqb_spec v a) as [->|Hva]; [reflexivity|].
  assert (Hprev : getPrev st v = getPrev st0 v) by (unfold getPrev; now rewrite Hp).
  rewrite Hprev.
  destruct (HP v Hv Hdv Hva) as (u & P1 & P2 & P3 & P4 & P5 & P6).
  destruct P6 as [(i & E1 & _)|(_ & E & _)]; [|discriminate].
  rewrite E1, P1.
  replace (Z.of_nat i <? 0) with false by (symmetry; lia).
  replace (Z.of_nat u <? 0) with false by (symmetry; lia).
  replace (0 <=? Z.of_nat i) with true by (symmetry; lia).
  simpl. rewrite Nat2Z.id. apply IH; [|assumption|assumption].
  rewrite <- Hp. apply (push_frame (getPrev st0 v) m st).
Qed.

(** The walk of [maxFlow_p(s,t)] and of [maxFlow_residual] along a search
    tree that reaches [b]. *)
Lemma augment_ok g cap skip a b r via st0 m fuel :
  graph_wf g ->
  bfs_inv g cap a b None (fun _ => true) r via st0 ->
  length (F st0) = edges g ->
  (forall e, skip = Some e -> enabled st0 e = false) ->
  capacity_ok g cap st0 skip ->
  (forall i, (i < edges g)%nat -> 0 < getF st0 i ->
     0 < getM st0 (from (edge_at g i))) ->
  0 < m <= getM st0 b -> discovered st0 b -> (nodes g < fuel)%nat ->
  exists st',
    augment fuel a b m st0 = Some st'
    /\ walk_frame st0 st' /\ capacity_ok g cap st' skip
    /\ (forall i, (i < edges g)%nat -> 0 < getF st' i ->
          0 < getM st' (from (edge_at g i)))
    /\ forall x, excess g st' x = excess g st0 x + m * (ind b x - ind a x).
Proof.
  intros Hwf Hinv HlF Hskip Hcap Hlab Hm Hdb Hfuel.
  assert (Hb : (b < nodes g)%nat) by (eapply discovered_lt; [apply Hinv | exact Hdb]).
  pose proof (rank_bound _ _ _ _ _ _ _ _ _ b Hinv Hb Hdb) as Hr.
  assert (Hvia : via b = false) by (eapply via_none; eauto).
  rewrite (augment_eq g cap a b _ r via st0 0%nat m Hinv fuel b st0 eq_refl Hb Hdb).
  assert (Hcl : closed g cap st0 (fun _ => true)) by (intros i _ _; auto).
  destruct (augment_sc_ok g cap skip (fun _ => true) a b None 0%nat 0%nat r via st0 m
              Hwf Hinv HlF ltac:(discriminate) Hskip ltac:(lia) fuel b st0
              (walk_inv_start g cap skip _ a r st0 b Hcap Hcl Hlab) Hb Hdb
              ltac:(lia) ltac:(lia) ltac:(congruence))
    as (st' & A1 & (W1 & W2 & W3 & W4 & W5) & A3).
  exists st'. split; [exact A1|]. split; [exact W1|]. split; [exact W2|].
  split.
  - intros i Hi HF. unfold getM. destruct W1 as (_ & _ & _ & _ & _ & -> & _).
    now apply W5.
  - intros x. rewrite A3, Hvia. lia.
Qed.

(** The walk of the shortcut-augmented max-flow along a search tree that
    reaches [b], a node outside [U]. *)
Lemma augment_sc_round g cap skip U a b p q r via st0 m fuel :
  graph_wf g ->
  bfs_inv g cap a b (Some (p, q)) U r via st0 ->
  length (F st0) = edges g ->
  (forall e, skip = Some e -> enabled st0 e = false) ->
  capacity_ok g cap st0 skip -> closed g cap st0 U ->
  (forall i, (i < edges g)%nat -> 0 < getF st0 i ->
     0 < getM st0 (from (edge_at g i))) ->
  0 < m <= getM st0 b -> discovered st0 b -> U b = false -> (nodes g < fuel)%nat ->
  exists st',
    augment_sc fuel a b p m st0 = Some st'
    /\ walk_frame st0 st' /\ capacity_ok g cap st' skip /\ closed g cap st' U
    /\ (forall i, (i < edges g)%nat -> 0 < getF st' i ->
          0 < getM st' (from (edge_at g i)))
    /\ forall x, excess g st' x
         = excess g st0 x + m * (ind b x - ind a x) - m * (ind q x - ind p x).
Proof.
  intros Hwf Hinv HlF Hskip Hcap Hcl Hlab Hm Hdb HUb Hfuel.
  assert (Hb : (b < nodes g)%nat) by (eapply discovered_lt; [apply Hinv | exact Hdb]).
  pose proof (rank_bound _ _ _ _ _ _ _ _ _ b Hinv Hb Hdb) as Hr.
  assert (Hvia : via b = true).
  { destruct (via b) eqn:E; [reflexivity|].
    destruct Hinv as (_ & _ & _ & HD & _). destruct (HD b Hb Hdb) as (_ & _ & _ & Z).
    rewrite Z in HUb; [discriminate | exact E]. }
  destruct (augment_sc_ok g cap skip U a b (Some (p, q)) p q r via st0 m
              Hwf Hinv HlF ltac:(intros u' v' E; injection E; auto) Hskip
              ltac:(lia) fuel b st0
              (walk_inv_start g cap skip _ a r st0 b Hcap Hcl Hlab) Hb Hdb
              ltac:(lia) ltac:(lia) ltac:(auto))
    as (st' & A1 & (W1 & W2 & W3 & W4 & W5) & A3).
  exists st'. split; [exact A1|]. split; [exact W1|]. split; [exact W2|].
  split; [exact W3|]. split.
  - intros i Hi HF. unfold getM. destruct W1 as (_ & _ & _ & _ & _ & -> & _).
    now apply W5.
  - intros x. rewrite A3, Hvia. lia.
Qed.

(** ** What a search keeps *)

Lemma excess_frame g st st' x :
  F st' = F st -> edge_enabled st' = edge_enabled st ->
  excess g st' x = excess g st x.
Proof.
  intros HF HE. unfold excess. apply esum_ext. intros j e _.
  unfold term, enabled, getF. now rewrite HF, HE.
Qed.

Lemma balance_frame g st st' s t a u v d :
  F st' = F st -> edge_enabled st' = edge_enabled st ->
  balance g st s t a u v d -> balance g st' s t a u v d.
Proof. intros HF HE H x Hx. rewrite (excess_frame g st st' x HF HE). now apply H. Qed.

Lemma capacity_frame g cap st st' skip :
  F st' = F st -> edge_enabled st' = edge_enabled st ->
  capacity_ok g cap st skip -> capacity_ok g cap st' skip.
Proof.
  intros HF HE H i Hi Hs. unfold enabled, getF. rewrite HF, HE. now apply H.
Qed.

Lemma sizes_search g st st' : search_frame st st' -> sizes_ok g st -> sizes_ok g st'.
Proof.
  intros (HF & _ & HE & _ & Lp & Lm) (S1 & S2 & S3 & S4).
  unfold sizes_ok. rewrite HF, HE, Lp, Lm. auto.
Qed.

Lemma sizes_walk g st st' : walk_frame st st' -> sizes_ok g st -> sizes_ok g st'.
Proof.
  intros (HF & _ & HE & _ & Hp & Hm & _) (S1 & S2 & S3 & S4).
  unfold sizes_ok. rewrite HF, HE, Hp, Hm. auto.
Qed.

Lemma labels_search g st st' s :
  F st' = F st -> (forall x, getM st' x = getM st x \/ 0 < getM st' x) ->
  labels_ok g st s -> labels_ok g st' s.
Proof.
  intros HF HM [L1 L2]. split.
  - destruct (HM s) as [E|E]; [rewrite E; exact L1 | exact E].
  - intros i Hi Hpos. unfold getF in Hpos. rewrite HF in Hpos.
    destruct (HM (from (edge_at g i))) as [E|E]; [rewrite E; now apply L2 | exact E].
Qed.

Lemma label_search st st' x :
  (forall x, getM st' x = getM st x \/ 0 < getM st' x) ->
  0 < getM st x -> 0 < getM st' x.
Proof. intros HM H. destruct (HM x) as [E|E]; [now rewrite E | exact E]. Qed.

(** ** The value of a flow is at most the total capacity *)

Lemma value_bound g cap s t st a :
  nonneg cap -> (s < nodes g)%nat -> s <> t ->
  capacity_ok g cap st None -> balance g st s t a 0 0 0 ->
  a <= total_capacity g cap.
Proof.
  intros Hcap Hs Hst Hok Hbal. specialize (Hbal s Hs).
  rewrite ind_refl, (ind_ne t s) in Hbal by congruence.
  assert (H : 0 <= total_capacity g cap + excess g st s); [|lia].
  unfold total_capacity, excess. rewrite <- esum_plus.
  rewrite <- (esum_zero 0 (all_edges g)) at 1. apply esum_le.
  intros j e Hj. simpl. destruct (nth_error_edge_at g j e Hj) as [_ Hlt].
  destruct (Hok j Hlt ltac:(discriminate)) as [C _].
  specialize (Hcap j). unfold term.
  destruct (enabled st j), (to e =? s)%nat, (from e =? s)%nat; lia.
Qed.

(** ** [maxFlow_p(s,t)] *)

Lemma maxFlow_p_ok g cap s t :
  graph_wf g -> nonneg cap -> (s < nodes g)%nat -> s <> t ->
  forall fuel fuel' st a,
  sizes_ok g st -> capacity_ok g cap st None -> labels_ok g st s ->
  balance g st s t a 0 0 0 -> 0 <= a ->
  (nodes g < fuel')%nat -> (Z.to_nat (total_capacity g cap - a) < fuel)%nat ->
  exists st',
    maxFlow_p fuel fuel' g cap s t st = Some st' /\ flow_inv g cap s t st'.
Proof.
  intros Hwf Hcap Hs Hst. induction fuel as [|k IH];
    intros fuel' st a Hsz Hok Hlab Hbal Ha Hf' Hf; [lia|].
  simpl. pose proof Hsz as (S1 & S2 & S3 & S4).
  destruct (BreadthFirstSearch_ok g cap s t fuel' st Hwf S2 S3 Hs Hst (proj1 Hlab) Hf')
    as (st1 & m & B1 & B2 & B3 & B4).
  rewrite B1. pose proof B2 as (HF & _ & HE & _).
  pose proof (sizes_search g st st1 B2 Hsz) as Hsz1.
  pose proof (capacity_frame g cap st st1 None HF HE Hok) as Hok1.
  pose proof (labels_search g st st1 s HF B3 Hlab) as Hlab1.
  pose proof (balance_frame g st st1 s t a 0%nat 0%nat 0 HF HE Hbal) as Hbal1.
  destruct B4 as [(C1 & C2 & C3 & (r & via & C4))|(C1 & _)].
  - replace (m =? 0) with false by (symmetry; lia).
    destruct (augment_ok g cap None s t r via (set_f (f st1 + m) st1) m fuel'
                Hwf C4 (proj1 Hsz1) ltac:(discriminate) Hok1 (proj2 Hlab1)
                ltac:(split; [lia | rewrite C2; apply Z.le_refl]) C3 Hf')
      as (st2 & A1 & A2 & A3 & A4 & A5).
    rewrite A1.
    assert (Hbal2 : balance g st2 s t (a + m) 0 0 0).
    { intros x Hx. rewrite A5.
      rewrite (excess_frame g st1 (set_f (f st1 + m) st1) x eq_refl eq_refl).
      rewrite (Hbal1 x Hx). lia. }
    assert (Hsz2 : sizes_ok g st2).
    { apply (sizes_walk g (set_f (f st1 + m) st1) st2 A2). exact Hsz1. }
    assert (Hlab2 : labels_ok g st2 s).
    { split; [|exact A4]. destruct A2 as (_ & _ & _ & _ & _ & EM & _).
      unfold getM. rewrite EM. apply Hlab1. }
    pose proof (value_bound g cap s t st2 (a + m) Hcap Hs Hst A3 Hbal2) as Hvb.
    apply (IH fuel' st2 (a + m)); auto; lia.
  - subst m. simpl. exists st1. split; [reflexivity|].
    split; [exact Hsz1|]. split; [exact Hok1|]. split; [exact Hlab1|].
    exists a. split; [exact Ha | exact Hbal1].
Qed.

(** ** The residual max-flow of the repair *)

Lemma repair_search g cap s t e u v a d st st' :
  search_frame st st' -> (forall x, getM st' x = getM st x \/ 0 < getM st' x) ->
  repair_inv g cap s t e u v a d st -> repair_inv g cap s t e u v a d st'.
Proof.
  intros Hfr HM (R1 & R2 & R3 & R4 & R5 & R6 & R7 & R8).
  pose proof Hfr as (HF & _ & HE & _).
  split; [eapply sizes_search; eauto|].
  split; [eapply capacity_frame; eauto|].
  split; [unfold enabled; now rewrite HE|].
  split; [eapply labels_search; eauto|].
  split; [eapply label_search; eauto|].
  split; [eapply balance_frame; eauto | auto].
Qed.

Lemma residual_loop_ok g cap s t e u v a bound :
  graph_wf g -> (u < nodes g)%nat -> u <> v -> 0 <= bound ->
  forall fuel fuel' nf st,
  repair_inv g cap s t e u v a (bound - nf) st ->
  (nodes g < fuel')%nat -> (Z.to_nat (bound - nf) < fuel)%nat ->
  exists st' flow,
    residual_loop fuel fuel' g cap u v bound nf st = Some (st', flow)
    /\ repair_inv g cap s t e u v a (bound - flow) st'
    /\ (flow < bound ->
        exists U, closed g cap st' U /\ U u = true /\ U v = false).
Proof.
  intros Hwf Hu Huv Hbound. induction fuel as [|k IH];
    intros fuel' nf st Hinv Hf' Hf; [lia|].
  simpl. pose proof Hinv as (R1 & R2 & R3 & R4 & R5 & R6 & R7 & R8).
  pose proof R1 as (S1 & S2 & S3 & S4).
  destruct (BreadthFirstSearch_ok g cap u v fuel' st Hwf S2 S3 Hu Huv R5 Hf')
    as (st1 & m0 & B1 & B2 & B3 & B4).
  rewrite B1.
  pose proof (repair_search g cap s t e u v a _ st st1 B2 B3 Hinv) as Hinv1.
  pose proof Hinv1 as (T1 & T2 & T3 & T4 & T5 & T6 & _).
  destruct B4 as [(C1 & C2 & C3 & (r & via & C4))|(C1 & C5 & C6 & C7)].
  - set (m := if (0 <=? bound) && (bound <? nf + m0) then bound - nf else m0).
    assert (Hm : 0 <= m <= m0 /\ m <= bound - nf /\ (m = 0 -> bound - nf = 0)).
    { unfold m. destruct (Z.leb_spec 0 bound); [|lia].
      destruct (Z.ltb_spec bound (nf + m0)); simpl; lia. }
    destruct (Z.leb_spec m 0) as [Hle|Hgt].
    + exists st1, nf. split; [reflexivity|]. split; [exact Hinv1 | lia].
    + destruct (augment_ok g cap (Some e) u v r via st1 m fuel' Hwf C4 (proj1 T1)
                  ltac:(intros e' E; injection E as <-; exact T3) T2 (proj2 T4)
                  ltac:(lia) C3 Hf')
        as (st2 & A1 & A2 & A3 & A4 & A5).
      rewrite A1. apply IH; [|exact Hf'|lia].
      pose proof A2 as (_ & _ & AE & _ & _ & AM & _).
      split; [eapply sizes_walk; eauto|]. split; [exact A3|].
      split; [unfold enabled; now rewrite AE|].
      split; [split; [unfold getM; rewrite AM; apply T4 | exact A4]|].
      split; [unfold getM; rewrite AM; exact T5|].
      split; [|lia]. intros x Hx. rewrite A5, (T6 x Hx). lia.
  - subst m0.
    replace ((0 <=? bound) && (bound <? nf + 0)) with false
      by (symmetry; apply andb_false_iff; right; lia).
    simpl. exists st1, nf. split; [reflexivity|]. split; [exact Hinv1|].
    intros _. exists (discoveredb st1). auto.
Qed.

(** After the residual max-flow falls short, the set it leaves holds [s]
    and not [t], and the flow from [s] to [t] is at least the shortfall. *)
Lemma shortfall_cut g cap s t e u v a d st U :
  graph_wf g -> (s < nodes g)%nat -> (t < nodes g)%nat ->
  (u < nodes g)%nat -> (v < nodes g)%nat ->
  repair_inv g cap s t e u v a d st -> 0 < d ->
  closed g cap st U -> U u = true -> U v = false ->
  U s = true /\ U t = false /\ d <= a.
Proof.
  intros Hwf Hs Ht Hu Hv (R1 & R2 & R3 & R4 & R5 & R6 & R7 & R8) Hd Hcl HUu HUv.
  pose proof (closed_cut_nonpos g cap st (Some e) U Hwf R2
                ltac:(intros e' E; injection E as <-; exact R3) Hcl) as Hcut.
  rewrite (balance_cut g st s t a u v d U R6 Hs Ht Hu Hv) in Hcut.
  rewrite HUu, HUv in Hcut. unfold b2z in Hcut.
  destruct (U s), (U t); try nia; repeat split; nia.
Qed.

(** ** The shortcut-augmented max-flow of the repair *)

Lemma shortcut_loop_ok g cap s t e u v U bound :
  graph_wf g -> (s < nodes g)%nat -> (t < nodes g)%nat ->
  (u < nodes g)%nat -> (v < nodes g)%nat -> u <> v -> 0 < bound ->
  U u = true -> U v = false -> U t = false ->
  forall fuel fuel' nf st a,
  repair_inv g cap s t e u v a (bound - nf) st ->
  closed g cap st U -> bound - nf <= a -> shortCircuitFlow st = 0 ->
  (nodes g < fuel')%nat -> (Z.to_nat (bound - nf) < fuel)%nat ->
  exists st' flow,
    shortcut_loop fuel fuel' g cap u v s t bound nf st = Some (st', flow)
    /\ repair_inv g cap s t e u v (a - (bound - nf)) 0 st'.
Proof.
  intros Hwf Hs Ht Hu Hv Huv Hbound HUu HUv HUt. induction fuel as [|k IH];
    intros fuel' nf st a Hinv Hcl Hda Hscf Hf' Hf; [lia|].
  simpl. pose proof Hinv as (R1 & R2 & R3 & R4 & R5 & R6 & R7 & R8).
  pose proof R1 as (S1 & S2 & S3 & S4).
  destruct (BreadthFirstSearch_sc_ok g cap u v s t U bound (shortCircuitFlow st)
              fuel' st Hwf S2 S3 Hu Ht Huv R5 Hcl HUu HUt Hf')
    as (st1 & m0 & B1 & B2 & B3 & B4).
  rewrite B1.
  pose proof (repair_search g cap s t e u v a _ st st1 B2 B3 Hinv) as Hinv1.
  pose proof Hinv1 as (T1 & T2 & T3 & T4 & T5 & T6 & _).
  pose proof B2 as (HF & _ & HE & Hsc1 & _).
  pose proof (closed_frame g cap st st1 U HF HE Hcl) as Hcl1.
  destruct B4 as [(C1 & C2 & C3 & (r & via & C4))|(C1 & C5 & C6 & C7 & C8)].
  - set (m := if (0 <=? bound) && (bound <? nf + m0) then bound - nf else m0).
    assert (Hm : 0 <= m <= m0 /\ m <= bound - nf /\ (m = 0 -> bound - nf = 0)).
    { unfold m. destruct (Z.leb_spec 0 bound); [|lia].
      destruct (Z.ltb_spec bound (nf + m0)); simpl; lia. }
    destruct (Z.eqb_spec m 0) as [Hz|Hnz].
    + exists st1, nf. split; [reflexivity|].
      replace (a - (bound - nf)) with a by lia.
      replace 0 with (bound - nf) by lia. exact Hinv1.
    + destruct (augment_sc_round g cap (Some e) U u v s t r via st1 m fuel' Hwf C4
                  (proj1 T1) ltac:(intros e' E; injection E as <-; exact T3) T2 Hcl1
                  (proj2 T4) ltac:(lia) C3 HUv Hf')
        as (st2 & A1 & A2 & A3 & A4 & A5 & A6).
      rewrite A1.
      pose proof A2 as (_ & _ & AE & Asc & _ & AM & _).
      replace (a - (bound - nf)) with (a - m - (bound - (nf + m))) by lia.
      apply (IH fuel' (nf + m) st2 (a - m)); [|exact A4|lia|congruence|exact Hf'|lia].
      split; [eapply sizes_walk; eauto|]. split; [exact A3|].
      split; [unfold enabled; now rewrite AE|].
      split; [split; [unfold getM; rewrite AM; apply T4 | exact A5]|].
      split; [unfold getM; rewrite AM; exact T5|].
      split; [|lia]. intros x Hx. rewrite A6, (T6 x Hx). lia.
  - subst m0.
    replace ((0 <=? bound) && (bound <? nf + 0)) with false
      by (symmetry; apply andb_false_iff; right; lia).
    simpl. exists st1, nf. split; [reflexivity|].
    assert (Hd : bound - nf = 0);
      [|replace (a - (bound - nf)) with a by lia; rewrite <- Hd; exact Hinv1].
    pose proof (closed_cut_nonpos g cap st1 (Some e) (discoveredb st1) Hwf T2
                  ltac:(intros e' E; injection E as <-; exact T3) C5) as Hcut.
    rewrite (balance_cut g st1 s t a u v (bound - nf) _ T6 Hs Ht Hu Hv) in Hcut.
    rewrite C6, C7 in Hcut. unfold b2z in Hcut.
    destruct (discoveredb st1 s) eqn:Es.
    + rewrite C8 in Hcut by (auto; lia). nia.
    + destruct (discoveredb st1 t); nia.
Qed.

(** ** The events of the replay *)

Lemma esum_ge_term f k es a e :
  (forall j e', nth_error es j = Some e' -> 0 <= f (k + j)%nat e') ->
  nth_error es a = Some e -> f (k + a)%nat e <= esum f k es.
Proof.
  revert k a. induction es as [|e0 es IH]; intros k a Hpos Ha.
  - now destruct a.
  - simpl. assert (H0 : 0 <= esum f (S k) es).
    { rewrite <- (esum_zero (S k) es). apply esum_le. intros j e' Hj.
      specialize (Hpos (S j) e' Hj). now rewrite Nat.add_succ_r in Hpos. }
    destruct a as [|a]; simpl in Ha.
    + injection Ha as ->. rewrite Nat.add_0_r. lia.
    + assert (H1 : f (S k + a)%nat e <= esum f (S k) es).
      { apply IH; [|exact Ha]. intros j e' Hj.
        specialize (Hpos (S j) e' Hj). now rewrite Nat.add_succ_r in Hpos. }
      specialize (Hpos 0%nat e0 eq_refl). rewrite Nat.add_0_r in Hpos.
      rewrite Nat.add_succ_r. simpl in H1. lia.
Qed.

Lemma cap_le_total g cap i :
  nonneg cap -> (i < edges g)%nat -> nth i cap 0 <= total_capacity g cap.
Proof.
  intros Hcap Hi. unfold total_capacity.
  apply (esum_ge_term (fun i _ => nth i cap 0) 0 (all_edges g) i (edge_at g i)).
  - intros j e' _. cbv beta. exact (Hcap _).
  - now apply edge_at_nth_error.
Qed.

Lemma total_capacity_nonneg g cap : nonneg cap -> 0 <= total_capacity g cap.
Proof.
  intros Hcap. unfold total_capacity.
  apply Z.le_trans with (esum (fun _ _ => 0) 0 (all_edges g));
    [rewrite esum_zero; lia|].
  apply esum_le. intros j e _. cbv beta. exact (Hcap _).
Qed.

(** Setting the flag of an edge that carries no flow keeps the invariant. *)
Lemma flag_change g cap s t st id b :
  nonneg cap -> flow_inv g cap s t st -> getF st id = 0 ->
  flow_inv g cap s t (set_edge_enabled (<[id := b]> (edge_enabled st)) st).
Proof.
  intros Hcap ((S1 & S2 & S3 & S4) & Hok & Hlab & (a & Ha & Hbal)) HF.
  set (st' := set_edge_enabled _ st).
  assert (Hen : forall i, i <> id -> enabled st' i = enabled st i).
  { intros i Hne. unfold enabled, st'. simpl.
    rewrite !nth_lookup, list_lookup_insert_ne; auto. }
  split; [|split; [|split]].
  - unfold sizes_ok, st'. simpl. rewrite length_insert. auto.
  - intros i Hi Hs. destruct (Hok i Hi Hs) as [C1 C2]. split; [|exact C2].
    change (getF st' i) with (getF st i).
    destruct (Nat.eq_dec i id) as [->|Hne]; [|now rewrite Hen].
    rewrite HF. specialize (Hcap id). destruct (enabled st' id); lia.
  - exact Hlab.
  - exists a. split; [exact Ha|]. intros x Hx. rewrite <- (Hbal x Hx).
    apply excess_same. intros i Hi. change (getF st' i) with (getF st i).
    destruct (Nat.eq_dec i id) as [->|Hne]; [|now rewrite Hen].
    rewrite HF. now destruct (enabled st' id), (enabled st id).
Qed.

(** The end of the repair: the flow of the deleted edge is dropped. *)
Lemma repair_end g cap s t e u v a st :
  repair_inv g cap s t e u v a 0 st ->
  flow_inv g cap s t (set_F (<[e := 0]> (F st)) st).
Proof.
  intros ((S1 & S2 & S3 & S4) & Hok & Hdis & Hlab & _ & Hbal & Ha & _).
  set (st' := set_F _ st).
  assert (HF : forall i, i <> e -> getF st' i = getF st i).
  { intros i Hne. unfold getF, st'. simpl.
    rewrite !nth_lookup, list_lookup_insert_ne; auto. }
  assert (HFe : getF st' e = 0).
  { unfold getF, st'. simpl. destruct (Nat.lt_ge_cases e (length (F st))).
    - rewrite nth_upd by lia. destruct (Nat.eq_dec e e); congruence.
    - rewrite nth_overflow; [reflexivity | rewrite length_insert; lia]. }
  split; [|split; [|split]].
  - unfold sizes_ok, st'. simpl. rewrite length_insert. auto.
  - intros i Hi _. change (enabled st' i) with (enabled st i).
    destruct (Nat.eq_dec i e) as [->|Hne].
    + rewrite Hdis, HFe. auto.
    + rewrite HF by exact Hne. apply Hok; [exact Hi | congruence].
  - destruct Hlab as [L1 L2]. split; [exact L1|]. intros i Hi Hpos.
    change (getM st' (from (edge_at g i))) with (getM st (from (edge_at g i))).
    destruct (Nat.eq_dec i e) as [->|Hne]; [lia|].
    rewrite HF in Hpos by exact Hne. now apply L2.
  - exists a. split; [exact Ha|]. intros x Hx.
    replace (excess g st' x) with (excess g st x); [rewrite (Hbal x Hx); lia|].
    symmetry. apply excess_same. intros i Hi.
    change (enabled st' i) with (enabled st i).
    destruct (Nat.eq_dec i e) as [->|Hne]; [now rewrite Hdis | now rewrite HF].
Qed.

(** The value of the flow that the repair leaves. *)
Lemma repair_end_value g cap s t e u v a st :
  repair_inv g cap s t e u v a 0 st ->
  balance g (set_F (<[e := 0]> (F st)) st) s t a 0 0 0.
Proof.
  intros ((S1 & S2 & S3 & S4) & Hok & Hdis & Hlab & _ & Hbal & Ha & _).
  set (st' := set_F _ st).
  assert (HF : forall i, i <> e -> getF st' i = getF st i).
  { intros i Hne. unfold getF, st'. simpl.
    rewrite !nth_lookup, list_lookup_insert_ne; auto. }
  intros x Hx.
  replace (excess g st' x) with (excess g st x); [rewrite (Hbal x Hx); lia|].
  symmetry. apply excess_same. intros i Hi.
  change (enabled st' i) with (enabled st i).
  destruct (Nat.eq_dec i e) as [->|Hne]; [now rewrite Hdis | now rewrite HF].
Qed.

(** The start of the repair: the flag of the deleted edge is cleared. *)
Lemma repair_start g cap s t e st a :
  graph_wf g -> flow_inv g cap s t st ->
  0 <= a -> balance g st s t a 0 0 0 ->
  (e < edges g)%nat -> 0 < getF st e ->
  repair_inv g cap s t e (from (edge_at g e)) (to (edge_at g e)) a (getF st e)
    (set_edge_enabled (<[e := false]> (edge_enabled st)) st)
  /\ from (edge_at g e) <> to (edge_at g e)
  /\ getF st e <= nth e cap 0.
Proof.
  intros Hwf ((S1 & S2 & S3 & S4) & Hok & Hlab & _) Ha Hbal He Hpos.
  set (st' := set_edge_enabled _ st).
  destruct (Hok e He ltac:(discriminate)) as [C1 C2].
  assert (Hen : enabled st e = true).
  { destruct (enabled st e); [reflexivity | lia]. }
  rewrite Hen in C1.
  assert (Hen' : forall i, i <> e -> enabled st' i = enabled st i).
  { intros i Hne. unfold enabled, st'. simpl.
    rewrite !nth_lookup, list_lookup_insert_ne; auto. }
  assert (Hdis : enabled st' e = false).
  { unfold enabled, st'. simpl. rewrite nth_upd by lia.
    destruct (Nat.eq_dec e e); congruence. }
  split; [|split; [intros E; specialize (C2 E); lia | lia]].
  split; [unfold sizes_ok, st'; simpl; rewrite length_insert; auto|].
  split.
  { intros i Hi Hs. change (getF st' i) with (getF st i).
    rewrite Hen' by congruence. apply Hok; [exact Hi | discriminate]. }
  split; [exact Hdis|]. split; [exact Hlab|].
  split; [apply (proj2 Hlab e He Hpos)|].
  split; [|lia]. intros x Hx.
  rewrite (excess_disable g st st' x e He Hen Hdis Hen' ltac:(reflexivity)).
  rewrite (Hbal x Hx). lia.
Qed.

Lemma replay_event_deletion fuel g cap s t ev st fl :
  addition ev = false -> edgeEnabled g (chg_id ev) = false ->
  0 < getF st (chg_id ev) ->
  replay_event fuel g cap s t ev (st, fl)
  = match maxFlow_residual fuel g cap (from (edge_at g (chg_id ev)))
            (to (edge_at g (chg_id ev))) (getF st (chg_id ev))
            (disable_flag (chg_id ev) st) with
    | None => None
    | Some (st2, flow) =>
        if flow =? getF st (chg_id ev) then
          Some (set_F (<[chg_id ev := 0]> (F st2)) st2, fl)
        else
          match maxFlow_p_sc fuel g cap (from (edge_at g (chg_id ev)))
                  (to (edge_at g (chg_id ev))) s t
                  (getF st (chg_id ev) - flow) st2 with
          | None => None
          | Some (st3, _) =>
              Some (set_F (<[chg_id ev := 0]> (F st3)) st3,
                    mkFlags (added_Edges fl) true)
          end
    end.
Proof.
  intros Ha He Hpos. unfold replay_event. rewrite Ha, He. simpl.
  change (getF (set_edge_enabled (<[chg_id ev := false]> (edge_enabled st)) st)
            (chg_id ev)) with (getF st (chg_id ev)).
  destruct (Z.eqb_spec (getF st (chg_id ev)) 0) as [E|_]; [lia|].
  destruct (Z.ltb_spec (getF st (chg_id ev)) 0) as [E|_]; [lia|].
  reflexivity.
Qed.

Lemma flags_synced g st st' id b :
  edge_enabled st' = <[id := b]> (edge_enabled st) ->
  b = edgeEnabled g id -> length (edge_enabled st) = edges g ->
  (forall i, enabled st i = edgeEnabled g i -> enabled st' i = edgeEnabled g i)
  /\ (forall i, (i < edges g)%nat -> id = i -> enabled st' i = edgeEnabled g i).
Proof.
  intros HE Hb Hl. split.
  - intros i Hi. unfold enabled. rewrite HE.
    destruct (Nat.eq_dec i id) as [->|Hne].
    + destruct (Nat.lt_ge_cases id (length (edge_enabled st))).
      * rewrite nth_upd by lia. destruct (Nat.eq_dec id id); congruence.
      * rewrite nth_overflow by (rewrite length_insert; lia).
        rewrite <- Hi. unfold enabled. now rewrite nth_overflow by lia.
    + rewrite !nth_lookup, list_lookup_insert_ne by auto.
      rewrite <- nth_lookup. exact Hi.
  - intros i Hi <-. unfold enabled. rewrite HE, nth_upd by lia.
    destruct (Nat.eq_dec id id); congruence.
Qed.

(** An event of the replay keeps the invariant, and brings the flag of its
    edge in line with the graph when the event agrees with the graph. *)
Lemma replay_event_ok g cap s t fuel ev st fl :
  graph_wf g -> nonneg cap -> (s < nodes g)%nat -> (t < nodes g)%nat -> s <> t ->
  flow_inv g cap s t st -> (enough g cap <= fuel)%nat ->
  exists st' fl',
    replay_event fuel g cap s t ev (st, fl) = Some (st', fl')
    /\ flow_inv g cap s t st'
    /\ (forall i, enabled st i = edgeEnabled g i -> enabled st' i = edgeEnabled g i)
    /\ (forall i, (i < edges g)%nat -> chg_id ev = i ->
          addition ev = edgeEnabled g i -> enabled st' i = edgeEnabled g i).
Proof.
  intros Hwf Hcap Hs Ht Hst Hinv Hfuel.
  pose proof Hinv as ((S1 & S2 & S3 & S4) & Hok & Hlab & (a & Ha & Hbal)).
  pose proof (total_capacity_nonneg g cap Hcap) as Htot.
  assert (Hskipped : addition ev <> edgeEnabled g (chg_id ev) ->
            exists st' fl', Some (st, fl) = Some (st', fl')
              /\ flow_inv g cap s t st'
              /\ (forall i, enabled st i = edgeEnabled g i ->
                     enabled st' i = edgeEnabled g i)
              /\ (forall i, (i < edges g)%nat -> chg_id ev = i ->
                     addition ev = edgeEnabled g i ->
                     enabled st' i = edgeEnabled g i)).
  { intros Hne. exists st, fl. split; [reflexivity|]. split; [exact Hinv|].
    split; [auto|]. intros i _ <- E. contradiction. }
  assert (HF0 : forall i, 0 <= getF st i).
  { intros i. destruct (Nat.lt_ge_cases i (edges g)) as [Hi|Hi].
    - destruct (Hok i Hi ltac:(discriminate)) as [C _].
      destruct (enabled st i); lia.
    - unfold getF. rewrite nth_overflow by lia. lia. }
  destruct (addition ev) eqn:Eadd, (edgeEnabled g (chg_id ev)) eqn:Een.
  - (* an addition *)
    unfold replay_event. rewrite Eadd, Een. simpl.
    eexists _, _. split; [reflexivity|].
    assert (HFz : enabled st (chg_id ev) = true \/ getF st (chg_id ev) = 0).
    { destruct (Nat.lt_ge_cases (chg_id ev) (edges g)) as [Hi|Hi].
      - destruct (Hok _ Hi ltac:(discriminate)) as [C _].
        destruct (enabled st (chg_id ev)); auto.
      - right. unfold getF. rewrite nth_overflow by lia. reflexivity. }
    split.
    + destruct HFz as [En|HFz]; [|now apply flag_change].
      replace (<[chg_id ev := true]> (edge_enabled st)) with (edge_enabled st);
        [destruct st; exact Hinv|].
      symmetry. apply list_insert_id. unfold enabled in En.
      destruct (edge_enabled st !! chg_id ev) as [b|] eqn:El.
      * rewrite nth_lookup, El in En. simpl in En. congruence.
      * rewrite nth_lookup, El in En. discriminate.
    + destruct (flags_synced g st
                  (set_edge_enabled (<[chg_id ev := true]> (edge_enabled st)) st)
                  (chg_id ev) true eq_refl ltac:(congruence) S4) as [G1 G2].
      split; [exact G1|]. intros i Hi E _. now apply G2.
  - unfold replay_event. rewrite Eadd, Een. simpl. apply Hskipped. discriminate.
  - unfold replay_event. rewrite Eadd, Een. simpl. apply Hskipped. discriminate.
  - (* a deletion *)
    set (id := chg_id ev) in *.
    destruct (flags_synced g st (disable_flag id st) id false eq_refl
                ltac:(congruence) S4) as [G1 G2].
    destruct (Z.eq_dec (getF st id) 0) as [Hz|Hnz].
    + unfold replay_event. fold id. rewrite Eadd, Een. simpl.
      change (getF (set_edge_enabled (<[id := false]> (edge_enabled st)) st) id)
        with (getF st id).
      rewrite Hz. simpl. eexists _, _. split; [reflexivity|].
      split; [now apply flag_change|]. split; [exact G1|].
      intros i Hi E _. now apply G2.
    + assert (Hpos : 0 < getF st id) by (specialize (HF0 id); lia).
      assert (Hid : (id < edges g)%nat).
      { destruct (Nat.lt_ge_cases id (edges g)) as [Hi|Hi]; [exact Hi|].
        unfold getF in Hpos. rewrite nth_overflow in Hpos by lia. lia. }
      rewrite (replay_event_deletion fuel g cap s t ev st fl Eadd Een Hpos). fold id.
      destruct (repair_start g cap s t id st a Hwf Hinv Ha Hbal Hid Hpos)
        as (R & Huv & Hle).
      fold (disable_flag id st) in R.
      destruct (graph_wf_edge g id Hwf Hid) as [Hu Hv].
      set (u := from (edge_at g id)) in *. set (v := to (edge_at g id)) in *.
      set (fv := getF st id) in *.
      pose proof (cap_le_total g cap id Hcap Hid) as Hct.
      unfold enough in Hfuel.
      unfold maxFlow_residual.
      destruct (residual_loop_ok g cap s t id u v a fv Hwf Hu Huv ltac:(lia)
                  fuel fuel 0 (disable_flag id st)
                  ltac:(replace (fv - 0) with fv by lia; exact R)
                  ltac:(lia) ltac:(lia))
        as (st2 & flow & L1 & L2 & L3).
      rewrite L1.
      pose proof (residual_loop_frame _ _ _ _ _ _ _ _ _ _ _ L1) as (_ & FE2 & _).
      pose proof L2 as (_ & _ & _ & _ & _ & _ & _ & Hd).
      pose proof (residual_loop_bound _ _ _ _ _ _ _ _ _ _ _ L1 ltac:(lia)) as Hfl.
      destruct (Z.eqb_spec flow fv) as [Efl|Efl].
      * eexists _, _. split; [reflexivity|]. split.
        -- apply (repair_end g cap s t id u v a st2).
           replace 0 with (fv - flow) by lia. exact L2.
        -- assert (HE : forall i, enabled (set_F (<[id := 0]> (F st2)) st2) i
                          = enabled (disable_flag id st) i).
           { intros i. unfold enabled. simpl. now rewrite FE2. }
           split; [intros i Hi; rewrite HE; now apply G1|].
           intros i Hi E _. rewrite HE. now apply G2.
      * destruct (L3 ltac:(lia)) as (U & U1 & U2 & U3).
        destruct (shortfall_cut g cap s t id u v a (fv - flow) st2 U Hwf Hs Ht Hu Hv
                    L2 ltac:(lia) U1 U2 U3) as (U4 & U5 & U6).
        unfold maxFlow_p_sc.
        destruct (shortcut_loop_ok g cap s t id u v U (fv - flow) Hwf Hs Ht Hu Hv Huv
                    ltac:(lia) U2 U3 U5 fuel fuel 0 (set_shortCircuitFlow 0 st2) a
                    ltac:(replace (fv - flow - 0) with (fv - flow) by lia; exact L2)
                    U1 ltac:(lia) eq_refl ltac:(lia) ltac:(lia))
          as (st3 & flow3 & P1 & P2).
        rewrite P1.
        pose proof (shortcut_loop_frame _ _ _ _ _ _ _ _ _ _ _ _ _ P1) as (_ & FE3 & _).
        eexists _, _. split; [reflexivity|]. split.
        -- eapply (repair_end g cap s t id u v). exact P2.
        -- assert (HE : forall i, enabled (set_F (<[id := 0]> (F st3)) st3) i
                          = enabled (disable_flag id st) i).
           { intros i. unfold enabled. simpl. rewrite FE3. simpl. now rewrite FE2. }
           split; [intros i Hi; rewrite HE; now apply G1|].
           intros i Hi E _. rewrite HE. now apply G2.
Qed.

(** ** The replay loop *)

Lemma replay_ok g cap s t fuel :
  graph_wf g -> nonneg cap -> (s < nodes g)%nat -> (t < nodes g)%nat -> s <> t ->
  (enough g cap <= fuel)%nat ->
  forall evs st fl,
  flow_inv g cap s t st ->
  exists st' fl',
    replay fuel g cap s t evs (st, fl) = Some (st', fl')
    /\ flow_inv g cap s t st'
    /\ forall i, (i < edges g)%nat ->
         (enabled st i = edgeEnabled g i
          \/ exists ev, In ev evs /\ chg_id ev = i /\ addition ev = edgeEnabled g i) ->
         enabled st' i = edgeEnabled g i.
Proof.
  intros Hwf Hcap Hs Ht Hst Hfuel. induction evs as [|ev evs IH]; intros st fl Hinv.
  - exists st, fl. split; [reflexivity|]. split; [exact Hinv|].
    intros i Hi [H|(ev & [] & _)]. exact H.
  - destruct (replay_event_ok g cap s t fuel ev st fl Hwf Hcap Hs Ht Hst Hinv Hfuel)
      as (st1 & fl1 & E1 & I1 & G1 & G2).
    destruct (IH st1 fl1 I1) as (st' & fl' & E2 & I2 & G3).
    exists st', fl'. split; [cbn [replay]; rewrite E1; exact E2|]. split; [exact I2|].
    intros i Hi [H|(ev' & [<-|Hin] & Hid & Hadd)].
    + apply G3; [exact Hi|]. left. now apply G1.
    + apply G3; [exact Hi|]. left. now apply G2.
    + apply G3; [exact Hi|]. right. exists ev'. auto.
Qed.

(** ** Starting over *)

Lemma nth_replicate_same {A} (x : A) k i : nth i (replicate k x) x = x.
Proof. revert i. induction k as [|k IH]; intros [|i]; simpl; auto. Qed.

Lemma excess_zero g st x : (forall i, getF st i = 0) -> excess g st x = 0.
Proof.
  intros H. unfold excess. rewrite <- (esum_zero 0 (all_edges g)) at 1.
  apply esum_ext. intros j e _. unfold term. rewrite H.
  destruct (enabled st (0 + j)), (to e =? x)%nat, (from e =? x)%nat; reflexivity.
Qed.

Lemma reinit_enabled g s st i :
  (i < edges g)%nat -> enabled (reinit g s st) i = edgeEnabled g i.
Proof.
  intros Hi. unfold enabled, reinit. simpl.
  rewrite (nth_indep _ false (isEdge g 0 && edgeEnabled g 0))
    by (rewrite length_map, length_seq; exact Hi).
  rewrite (map_nth (fun i => isEdge g i && edgeEnabled g i)).
  rewrite seq_nth by exact Hi. simpl. unfold isEdge.
  now rewrite (proj2 (Nat.ltb_lt i (edges g)) Hi).
Qed.

Lemma reinit_inv g cap s t st :
  nonneg cap -> (s < nodes g)%nat -> flow_inv g cap s t (reinit g s st).
Proof.
  intros Hcap Hs.
  assert (HF : forall i, getF (reinit g s st) i = 0).
  { intros i. unfold getF, reinit. simpl. apply nth_replicate_same. }
  split; [|split; [|split]].
  - unfold sizes_ok, reinit. simpl.
    rewrite !length_insert, length_clear_from, !length_replicate, length_resize,
      length_map, length_seq. auto.
  - intros i Hi _. rewrite HF. specialize (Hcap i).
    destruct (enabled (reinit g s st) i); split; auto; lia.
  - split; [|intros i Hi Hpos; rewrite HF in Hpos; lia].
    unfold getM, reinit. simpl. rewrite nth_upd by (rewrite length_replicate; exact Hs).
    destruct (Nat.eq_dec s s); [reflexivity | congruence].
  - exists 0. split; [lia|]. intros x Hx. rewrite excess_zero by exact HF. lia.
Qed.

(** ** [maxFlow] *)

Lemma flow_inv_same g cap s t st st' :
  F st' = F st -> M st' = M st -> edge_enabled st' = edge_enabled st ->
  length (prev st') = length (prev st) ->
  flow_inv g cap s t st -> flow_inv g cap s t st'.
Proof.
  intros HF HM HE HP ((S1 & S2 & S3 & S4) & Hok & (L1 & L2) & (a & Ha & Hbal)).
  split; [unfold sizes_ok; rewrite HF, HM, HE, HP; auto|].
  split; [eapply capacity_frame; eauto|].
  split.
  - unfold labels_ok, getM, getF. rewrite HF, HM. split; [exact L1 | exact L2].
  - exists a. split; [exact Ha|]. eapply balance_frame; eauto.
Qed.

Lemma flow_inv_feasible g cap s t st :
  flow_inv g cap s t st ->
  (forall i, (i < edges g)%nat -> enabled st i = edgeEnabled g i) ->
  feasible g cap s t st.
Proof.
  intros (_ & Hok & _ & (a & _ & Hbal)) Hsync. split; [exact Hsync|]. split.
  - intros e He. rewrite <- (Hsync e He). apply (Hok e He). discriminate.
  - intros u Hu Hus Hut. pose proof (Hbal u Hu) as H.
    rewrite excess_inflow_outflow in H.
    rewrite (ind_ne t u), (ind_ne s u) in H by congruence. lia.
Qed.

(** What [maxFlow] does after the choice between starting over and keeping
    the flow. *)
Lemma maxFlow_tail g cap s t fuel st1 :
  graph_wf g -> nonneg cap -> (s < nodes g)%nat -> (t < nodes g)%nat -> s <> t ->
  (enough g cap <= fuel)%nat ->
  flow_inv g cap s t st1 ->
  (forall i, (i < edges g)%nat ->
     enabled st1 i = edgeEnabled g i
     \/ exists ev, In ev (pending g st1) /\ chg_id ev = i
                   /\ addition ev = edgeEnabled g i) ->
  exists st' v,
    match replay fuel g cap s t (drop (history_qhead st1) (history g))
            (st1, mkFlags false false) with
    | None => None
    | Some (st2, fl) =>
        let st3 := if needsReflow fl then set_f (sum_out g s st2) st2 else st2 in
        let ost4 := if added_Edges fl then maxFlow_p fuel fuel g cap s t st3
                    else Some st3 in
        match ost4 with
        | None => None
        | Some st4 => Some (set_stamps g st4, f st4)
        end
    end = Some (st', v)
    /\ engine_inv g cap s t st' /\ feasible g cap s t st'.
Proof.
  intros Hwf Hcap Hs Ht Hst Hfuel Hinv Hsync.
  destruct (replay_ok g cap s t fuel Hwf Hcap Hs Ht Hst Hfuel
              (drop (history_qhead st1) (history g)) st1 (mkFlags false false) Hinv)
    as (st2 & fl & E2 & I2 & G2).
  rewrite E2. cbv zeta.
  set (st3 := if needsReflow fl then set_f (sum_out g s st2) st2 else st2).
  assert (I3 : flow_inv g cap s t st3).
  { apply (flow_inv_same g cap s t st2); [..|exact I2];
      unfold st3; destruct (needsReflow fl); reflexivity. }
  assert (G3 : forall i, (i < edges g)%nat -> enabled st3 i = edgeEnabled g i).
  { intros i Hi. replace (enabled st3 i) with (enabled st2 i)
      by (unfold st3; destruct (needsReflow fl); reflexivity).
    apply G2; [exact Hi | now apply Hsync]. }
  assert (Hend : forall st4, flow_inv g cap s t st4 ->
            edge_enabled st4 = edge_enabled st3 ->
            engine_inv g cap s t (set_stamps g st4)
            /\ feasible g cap s t (set_stamps g st4)).
  { intros st4 I4 E4.
    assert (I5 : flow_inv g cap s t (set_stamps g st4))
      by (apply (flow_inv_same g cap s t st4); [reflexivity..|exact I4]).
    assert (G5 : forall i, (i < edges g)%nat ->
               enabled (set_stamps g st4) i = edgeEnabled g i).
    { intros i Hi. rewrite <- (G3 i Hi). unfold enabled. simpl. now rewrite E4. }
    split; [|now apply flow_inv_feasible].
    right. split; [exact I5|]. split; [simpl; lia|]. split; [simpl; lia|].
    split; [intros i Hi; left; now apply G5 | intros _; exact G5]. }
  destruct (added_Edges fl).
  - pose proof I3 as (Z1 & Z2 & Z3 & (a & Ha & Z4)).
    pose proof (total_capacity_nonneg g cap Hcap) as Htot. unfold enough in Hfuel.
    destruct (maxFlow_p_ok g cap s t Hwf Hcap Hs Hst fuel fuel st3 a Z1 Z2 Z3 Z4 Ha
                ltac:(lia) ltac:(lia)) as (st4 & E4 & I4).
    rewrite E4. eexists _, _. split; [reflexivity|].
    apply Hend; [exact I4|]. apply (maxFlow_p_frame _ _ _ _ _ _ _ _ E4).
  - eexists _, _. split; [reflexivity|]. apply Hend; [exact I3 | reflexivity].
Qed.

(** [maxFlow(s,t)] returns, and leaves a feasible flow. *)
Lemma maxFlow_ok g cap s t fuel st :
  graph_wf g -> nonneg cap -> (s < nodes g)%nat -> (t < nodes g)%nat -> s <> t ->
  (enough g cap <= fuel)%nat ->
  engine_inv g cap s t st ->
  exists st' v,
    maxFlow fuel g cap s t st = Some (st', v)
    /\ engine_inv g cap s t st' /\ feasible g cap s t st'.
Proof.
  intros Hwf Hcap Hs Ht Hst Hfuel Hinv. unfold maxFlow.
  destruct ((0 <? last_modification st) && (modifications g =? last_modification st))
    eqn:Ehit.
  - apply andb_true_iff in Ehit. destruct Ehit as [E1 E2].
    exists st, (curflow st). split; [reflexivity|]. split; [exact Hinv|].
    destruct Hinv as [H|(I1 & I2 & I3 & I4 & I5)]; [lia|].
    apply flow_inv_feasible; [exact I1|]. apply I5. lia.
  - destruct ((last_modification st <=? 0)
              || negb (historyclears g =? last_history_clear st) || changed g) eqn:Ere.
    + destruct (reinit_inv g cap s t st Hcap Hs) as (Z1 & Z2 & Z3 & (a & Ha & Z4)).
      pose proof (total_capacity_nonneg g cap Hcap) as Htot.
      pose proof Hfuel as Hfuel'. unfold enough in Hfuel'.
      destruct (maxFlow_p_ok g cap s t Hwf Hcap Hs Hst fuel fuel (reinit g s st) a
                  Z1 Z2 Z3 Z4 Ha ltac:(lia) ltac:(lia)) as (st1 & E1 & I1).
      rewrite E1. apply maxFlow_tail; auto.
      intros i Hi. left. unfold enabled.
      rewrite (proj1 (proj2 (maxFlow_p_frame _ _ _ _ _ _ _ _ E1))).
      now apply reinit_enabled.
    + apply orb_false_iff in Ere. destruct Ere as [Ere _].
      apply orb_false_iff in Ere. destruct Ere as [Ere _].
      destruct Hinv as [H|(I1 & I2 & I3 & I4 & I5)]; [lia|].
      apply maxFlow_tail; auto.
Qed.

(** ** The operations of a client *)

Lemma In_drop_app {A} (x : A) k l l' : In x (drop k l) -> In x (drop k (l ++ l')).
Proof. intros H. rewrite drop_app. apply in_or_app. now left. Qed.

Lemma engine_inv_event g g' cap s t st e b :
  nodes g' = nodes g -> all_edges g' = all_edges g ->
  history g' = history g ++ [mkChange e b] ->
  modifications g' = modifications g + 1 ->
  edge_status g' = <[e := b]> (edge_status g) ->
  engine_inv g cap s t st -> engine_inv g' cap s t st.
Proof.
  intros Hn He Hh Hm Hs [H|(I1 & I2 & I3 & I4 & I5)]; [now left|]. right.
  assert (Hed : edges g' = edges g) by (unfold edges; now rewrite He).
  assert (Hat : forall i, edge_at g' i = edge_at g i)
    by (intros i; unfold edge_at; now rewrite He).
  split.
  { destruct I1 as (Z1 & Z2 & Z3 & (a & Ha & Z4)).
    split; [unfold sizes_ok in *; now rewrite Hed, Hn|].
    split.
    { intros i Hi Hsk. rewrite Hat. apply Z2; [now rewrite <- Hed | exact Hsk]. }
    split.
    { split; [apply Z3|]. intros i Hi. rewrite Hat. apply Z3. now rewrite <- Hed. }
    exists a. split; [exact Ha|]. intros x Hx.
    replace (excess g' st x) with (excess g st x)
      by (unfold excess; now rewrite He).
    apply Z4. now rewrite <- Hn. }
  split; [lia|]. split; [rewrite Hh, length_app; simpl; lia|].
  split; [|intros E; lia].
  intros i Hi. rewrite Hed in Hi. unfold pending. rewrite Hh.
  assert (Hst : edgeEnabled g' i = edgeEnabled g i
                \/ (i = e /\ edgeEnabled g' i = b)).
  { unfold edgeEnabled. rewrite Hs.
    destruct (Nat.eq_dec i e) as [->|Hne].
    - destruct (Nat.lt_ge_cases e (length (edge_status g))).
      + right. split; [reflexivity|]. rewrite nth_upd by lia.
        destruct (Nat.eq_dec e e); congruence.
      + left. rewrite !nth_overflow; [reflexivity | lia | rewrite length_insert; lia].
    - left. rewrite !nth_lookup, list_lookup_insert_ne; auto. }
  destruct Hst as [E|[-> E]].
  - rewrite E. destruct (I4 i Hi) as [G|(ev & G1 & G2 & G3)]; [now left|].
    right. exists ev. split; [now apply In_drop_app | auto].
  - right. exists (mkChange e b). split; [|split; [reflexivity | now rewrite E]].
    rewrite drop_app. apply in_or_app. right.
    replace (history_qhead st - length (history g))%nat with 0%nat by lia.
    now left.
Qed.

Lemma engine_inv_enable g cap s t st e :
  engine_inv g cap s t st -> engine_inv (enableEdge e g) cap s t st.
Proof.
  intros H. unfold enableEdge. destruct (edgeEnabled g e); [exact H|].
  eapply engine_inv_event; [..|exact H]; reflexivity.
Qed.

Lemma engine_inv_disable g cap s t st e :
  engine_inv g cap s t st -> engine_inv (disableEdge e g) cap s t st.
Proof.
  intros H. unfold disableEdge. destruct (edgeEnabled g e); [|exact H].
  eapply engine_inv_event; [..|exact H]; reflexivity.
Qed.

Lemma enableEdge_shape g e :
  nodes (enableEdge e g) = nodes g /\ all_edges (enableEdge e g) = all_edges g.
Proof. unfold enableEdge. destruct (edgeEnabled g e); split; reflexivity. Qed.

Lemma disableEdge_shape g e :
  nodes (disableEdge e g) = nodes g /\ all_edges (disableEdge e g) = all_edges g.
Proof. unfold disableEdge. destruct (edgeEnabled g e); split; reflexivity. Qed.

Lemma graph_wf_shape g g' :
  nodes g' = nodes g -> all_edges g' = all_edges g -> graph_wf g -> graph_wf g'.
Proof. intros Hn He H e. rewrite He, Hn. apply H. Qed.

Lemma enough_shape g g' cap :
  nodes g' = nodes g -> all_edges g' = all_edges g -> enough g' cap = enough g cap.
Proof. intros Hn He. unfold enough, total_capacity. now rewrite Hn, He. Qed.

(** Every sequence of operations runs to its end and keeps the invariant of
    the engine. *)
Lemma run_ok cap s t fuel ops :
  nonneg cap -> s <> t ->
  forall g st out,
  graph_wf g -> (s < nodes g)%nat -> (t < nodes g)%nat ->
  (enough g cap <= fuel)%nat -> engine_inv g cap s t st ->
  exists g' st' out',
    run fuel cap s t ops g st out = Some (g', st', out')
    /\ nodes g' = nodes g /\ all_edges g' = all_edges g
    /\ engine_inv g' cap s t st'.
Proof.
  intros Hcap Hst. induction ops as [|op ops IH]; intros g st out Hwf Hs Ht Hfuel Hinv.
  - exists g, st, out. auto.
  - destruct op as [e|e|]; simpl.
    + destruct (enableEdge_shape g e) as [Hn He].
      destruct (IH (enableEdge e g) st out) as (g' & st' & out' & R1 & R2 & R3 & R4).
      * eapply graph_wf_shape; eauto.
      * now rewrite Hn.
      * now rewrite Hn.
      * now rewrite (enough_shape g (enableEdge e g) cap Hn He).
      * now apply engine_inv_enable.
      * exists g', st', out'. split; [exact R1|]. split; [congruence|].
        split; [congruence | exact R4].
    + destruct (disableEdge_shape g e) as [Hn He].
      destruct (IH (disableEdge e g) st out) as (g' & st' & out' & R1 & R2 & R3 & R4).
      * eapply graph_wf_shape; eauto.
      * now rewrite Hn.
      * now rewrite Hn.
      * now rewrite (enough_shape g (disableEdge e g) cap Hn He).
      * now apply engine_inv_disable.
      * exists g', st', out'. split; [exact R1|]. split; [congruence|].
        split; [congruence | exact R4].
    + destruct (maxFlow_ok g cap s t fuel st Hwf Hcap Hs Ht Hst Hfuel Hinv)
        as (st1 & v & E1 & I1 & _).
      rewrite E1. apply IH; assumption.
Qed.

Lemma run_app fuel cap s t ops1 ops2 :
  forall g st out,
  run fuel cap s t (ops1 ++ ops2) g st out
  = match run fuel cap s t ops1 g st out with
    | Some (g1, st1, out1) => run fuel cap s t ops2 g1 st1 out1
    | None => None
    end.
Proof.
  induction ops1 as [|op ops1 IH]; intros g st out; [reflexivity|].
  destruct op as [e|e|]; simpl; try apply IH.
  destruct (maxFlow fuel g cap s t st) as [[st1 v]|]; [apply IH | reflexivity].
Qed.

(** C5.  After every [maxFlow(s,t)] call the flow map is feasible.  A client
    starts with a new engine on a graph whose edges join nodes of the graph,
    with capacities that are not negative and two different nodes [s] and
    [t]; it enables and disables edges and calls [maxFlow(s,t)] in any
    order.  With fuel for the loops, every call returns, and after it the
    flags of the engine are those of the graph, [0 <= F[e] <= capacity[e]]
    on every enabled edge [e], [F[e] = 0] on every disabled edge, and at
    every node other than [s] and [t] the sum of [F] over the enabled
    incoming edges is the sum of [F] over the enabled outgoing edges. *)
Theorem maxFlow_feasible (cap : list Z) (s t fuel : nat) (ops : list Op)
    (g0 : DynamicGraph) :
  graph_wf g0 -> nonneg cap ->
  (s < nodes g0)%nat -> (t < nodes g0)%nat -> s <> t ->
  (enough g0 cap <= fuel)%nat ->
  exists g st out,
    run fuel cap s t (ops ++ [MaxFlow]) g0 init [] = Some (g, st, out)
    /\ feasible g cap s t st.
Proof.
  intros Hwf Hcap Hs Ht Hst Hfuel. rewrite run_app.
  destruct (run_ok cap s t fuel ops Hcap Hst g0 init [] Hwf Hs Ht Hfuel)
    as (g1 & st1 & out1 & R1 & Hn & He & I1).
  { left. simpl. lia. }
  rewrite R1. cbn [run].
  destruct (maxFlow_ok g1 cap s t fuel st1) as (st2 & v & E2 & _ & F2).
  - eapply graph_wf_shape; eauto.
  - exact Hcap.
  - now rewrite Hn.
  - now rewrite Hn.
  - exact Hst.
  - now rewrite (enough_shape g0 g1 cap Hn He).
  - exact I1.
  - rewrite E2. exists g1, st2, (v :: out1). split; [reflexivity | exact F2].
Qed.

Lemma maxFlow_feasible_witness :
  exists g st out,
    run 8 capB 0 2 ([MaxFlow; Disable 1] ++ [MaxFlow]) graphB init []
    = Some (g, st, out)
    /\ feasible g capB 0 2 st.
Proof.
  apply (maxFlow_feasible capB 0 2 8 [MaxFlow; Disable 1] graphB).
  - intros e [<-|[<-|[<-|[]]]]; simpl; lia.
  - intros i. do 3 (destruct i as [|i]; [simpl; lia|]). destruct i; simpl; lia.
  - simpl; lia.
  - simpl; lia.
  - lia.
  - vm_compute; lia.
Defined.

(** ** The flow that [maxFlow_p(s,t)] leaves is a maximum flow *)

(** [maxFlow_p(s,t)] returns; it adds to [f] what it adds to the value of
    the flow, and it ends with a set that holds [s], not [t], and is closed
    under the residual arcs. *)
Lemma maxFlow_p_opt g cap s t :
  graph_wf g -> nonneg cap -> (s < nodes g)%nat -> s <> t ->
  forall fuel fuel' st a,
  sizes_ok g st -> capacity_ok g cap st None -> labels_ok g st s ->
  balance g st s t a 0 0 0 -> 0 <= a ->
  (nodes g < fuel')%nat -> (Z.to_nat (total_capacity g cap - a) < fuel)%nat ->
  exists st' a',
    maxFlow_p fuel fuel' g cap s t st = Some st'
    /\ sizes_ok g st' /\ capacity_ok g cap st' None /\ labels_ok g st' s
    /\ balance g st' s t a' 0 0 0 /\ a <= a'
    /\ f st' = f st + (a' - a)
    /\ edge_enabled st' = edge_enabled st
    /\ (a' = a -> F st' = F st)
    /\ exists U, closed g cap st' U /\ U s = true /\ U t = false.
Proof.
  intros Hwf Hcap Hs Hst. induction fuel as [|k IH];
    intros fuel' st a Hsz Hok Hlab Hbal Ha Hf' Hf; [lia|].
  simpl. pose proof Hsz as (S1 & S2 & S3 & S4).
  destruct (BreadthFirstSearch_ok g cap s t fuel' st Hwf S2 S3 Hs Hst (proj1 Hlab) Hf')
    as (st1 & m & B1 & B2 & B3 & B4).
  rewrite B1. pose proof B2 as (HF & Hf1 & HE & _).
  pose proof (sizes_search g st st1 B2 Hsz) as Hsz1.
  pose proof (capacity_frame g cap st st1 None HF HE Hok) as Hok1.
  pose proof (labels_search g st st1 s HF B3 Hlab) as Hlab1.
  pose proof (balance_frame g st st1 s t a 0%nat 0%nat 0 HF HE Hbal) as Hbal1.
  destruct B4 as [(C1 & C2 & C3 & (r & via & C4))|(C1 & C5 & C6 & C7)].
  - replace (m =? 0) with false by (symmetry; lia).
    destruct (augment_ok g cap None s t r via (set_f (f st1 + m) st1) m fuel'
                Hwf C4 (proj1 Hsz1) ltac:(discriminate) Hok1 (proj2 Hlab1)
                ltac:(split; [lia | rewrite C2; apply Z.le_refl]) C3 Hf')
      as (st2 & A1 & A2 & A3 & A4 & A5).
    rewrite A1.
    assert (Hbal2 : balance g st2 s t (a + m) 0 0 0).
    { intros x Hx. rewrite A5.
      rewrite (excess_frame g st1 (set_f (f st1 + m) st1) x eq_refl eq_refl).
      rewrite (Hbal1 x Hx). lia. }
    assert (Hsz2 : sizes_ok g st2).
    { apply (sizes_walk g (set_f (f st1 + m) st1) st2 A2). exact Hsz1. }
    assert (Hlab2 : labels_ok g st2 s).
    { split; [|exact A4]. destruct A2 as (_ & _ & _ & _ & _ & EM & _).
      unfold getM. rewrite EM. apply Hlab1. }
    pose proof (value_bound g cap s t st2 (a + m) Hcap Hs Hst A3 Hbal2) as Hvb.
    destruct (IH fuel' st2 (a + m) Hsz2 A3 Hlab2 Hbal2 ltac:(lia) Hf' ltac:(lia))
      as (st' & a' & R1 & R2 & R3 & R4 & R5 & R6 & R7 & R8 & R9 & R10).
    exists st', a'. split; [exact R1|]. repeat (split; [assumption|]).
    split; [lia|]. pose proof A2 as (_ & Af & AE & _). simpl in Af, AE.
    split; [lia|]. split; [congruence|]. split; [intros E; lia | exact R10].
  - subst m. simpl. exists st1, a. split; [reflexivity|].
    repeat (split; [assumption|]). split; [lia|]. split; [lia|].
    split; [exact HE|]. split; [intros _; exact HF|].
    exists (discoveredb st1). auto.
Qed.

(** The excess of a set that holds [s] and not [t], under a flow of value
    [a]. *)
Lemma cut_value g st s t a (U : nat -> bool) :
  graph_wf g -> (s < nodes g)%nat -> (t < nodes g)%nat ->
  balance g st s t a 0 0 0 -> U s = true -> U t = false ->
  esum (fun i e => if enabled st i
                   then getF st i * (b2z (U (to e)) - b2z (U (from e))) else 0)
    0 (all_edges g) = - a.
Proof.
  intros Hwf Hs Ht Hbal HUs HUt. rewrite <- cut_sum by exact Hwf.
  rewrite (balance_cut g st s t a 0%nat 0%nat 0 U Hbal Hs Ht)
    by (destruct (nodes g); [lia | lia]).
  rewrite HUs, HUt. unfold b2z. lia.
Qed.

(** A closed set that holds [s] and not [t] is a cut whose capacity is the
    value of the flow. *)
Lemma closed_cut_cap g cap st s t a U :
  graph_wf g -> (s < nodes g)%nat -> (t < nodes g)%nat ->
  capacity_ok g cap st None -> balance g st s t a 0 0 0 ->
  closed g cap st U -> U s = true -> U t = false ->
  cut_cap g cap st U = a.
Proof.
  intros Hwf Hs Ht Hok Hbal Hcl HUs HUt.
  pose proof (cut_value g st s t a U Hwf Hs Ht Hbal HUs HUt) as Hv.
  assert (H : cut_cap g cap st U
              = - esum (fun i e => if enabled st i
                   then getF st i * (b2z (U (to e)) - b2z (U (from e))) else 0)
                  0 (all_edges g)); [|lia].
  assert (Hneg : forall f k es, - esum f k es = esum (fun i e => - f i e) k es).
  { intros f0 k es. revert k. induction es as [|e es IH]; intros k; simpl;
      [reflexivity | rewrite <- IH; lia]. }
  rewrite Hneg. unfold cut_cap. apply esum_ext. intros j e Hj. simpl.
  destruct (nth_error_edge_at g j e Hj) as [He Hlt].
  destruct (enabled st j) eqn:En; [|simpl; lia].
  destruct (Hok j Hlt ltac:(discriminate)) as [Hc _]. rewrite En in Hc.
  destruct (Hcl j Hlt En) as [H1 H2]. rewrite He in H1, H2.
  unfold b2z. destruct (U (from e)) eqn:Ef, (U (to e)) eqn:Et; simpl; lia.
Qed.

(** No flow has a value above the capacity of a cut. *)
Lemma value_le_cut g cap st s t a U :
  graph_wf g -> (s < nodes g)%nat -> (t < nodes g)%nat ->
  (forall i, (i < edges g)%nat -> enabled st i = true ->
     0 <= getF st i <= nth i cap 0) ->
  balance g st s t a 0 0 0 ->
  U s = true -> U t = false ->
  a <= cut_cap g cap st U.
Proof.
  intros Hwf Hs Ht Hok Hbal HUs HUt.
  pose proof (cut_value g st s t a U Hwf Hs Ht Hbal HUs HUt) as Hv.
  assert (H : - cut_cap g cap st U
              <= esum (fun i e => if enabled st i
                   then getF st i * (b2z (U (to e)) - b2z (U (from e))) else 0)
                  0 (all_edges g)); [|lia].
  assert (Hneg : forall f k es, - esum f k es = esum (fun i e => - f i e) k es).
  { intros f0 k es. revert k. induction es as [|e es IH]; intros k; simpl;
      [reflexivity | rewrite <- IH; lia]. }
  unfold cut_cap. rewrite Hneg. apply esum_le. intros j e Hj. simpl.
  destruct (nth_error_edge_at g j e Hj) as [He Hlt].
  destruct (enabled st j) eqn:En; [|simpl; lia].
  pose proof (Hok j Hlt En) as Hc.
  unfold b2z. destruct (U (from e)), (U (to e)); simpl; lia.
Qed.

Lemma cut_cap_frame g cap st st' U :
  (forall i, enabled st' i = enabled st i) ->
  cut_cap g cap st' U = cut_cap g cap st U.
Proof.
  intros HE. unfold cut_cap. apply esum_ext. intros j e _. now rewrite HE.
Qed.

Lemma net_out_balance g st s t a :
  (s < nodes g)%nat -> s <> t -> balance g st s t a 0 0 0 -> net_out g st s = a.
Proof.
  intros Hs Hst Hbal. specialize (Hbal s Hs). rewrite excess_inflow_outflow in Hbal.
  rewrite ind_refl, (ind_ne t s) in Hbal by congruence. unfold net_out. lia.
Qed.

(** On an engine whose flags are those of the graph and whose disabled
    edges carry no flow, the replay changes nothing but [added_Edges]. *)
Lemma set_edge_enabled_same st : set_edge_enabled (edge_enabled st) st = st.
Proof. now destruct st. Qed.

Lemma insert_same_flag (l : list bool) (i : nat) b :
  ((i < length l)%nat -> nth i l false = b) -> <[i := b]> l = l.
Proof.
  intros H. destruct (Nat.lt_ge_cases i (length l)) as [Hi|Hi].
  - apply list_insert_id. specialize (H Hi).
    destruct (l !! i) as [x|] eqn:E.
    + rewrite nth_lookup, E in H. simpl in H. now subst x.
    + apply lookup_ge_None in E. lia.
  - now apply list_insert_ge.
Qed.

Lemma replay_synced g cap s t fuel evs :
  forall st fl,
  sizes_ok g st -> capacity_ok g cap st None ->
  (forall i, (i < edges g)%nat -> enabled st i = edgeEnabled g i) ->
  exists fl',
    replay fuel g cap s t evs (st, fl) = Some (st, fl')
    /\ needsReflow fl' = needsReflow fl.
Proof.
  induction evs as [|ev evs IH]; intros st fl Hsz Hok Hsync.
  - exists fl. split; reflexivity.
  - cbn [replay].
    assert (Hev : exists fl1, replay_event fuel g cap s t ev (st, fl) = Some (st, fl1)
                              /\ needsReflow fl1 = needsReflow fl).
    { pose proof Hsz as (S1 & _ & _ & S4). unfold replay_event.
      destruct (addition ev) eqn:Ea, (edgeEnabled g (chg_id ev)) eqn:Ee; simpl.
      - rewrite insert_same_flag, set_edge_enabled_same.
        + eexists. split; reflexivity.
        + intros Hi. rewrite S4 in Hi. pose proof (Hsync _ Hi) as H.
          unfold enabled in H. rewrite H. exact Ee.
      - eexists. split; reflexivity.
      - eexists. split; reflexivity.
      - rewrite insert_same_flag, set_edge_enabled_same.
        + assert (Hz : getF st (chg_id ev) = 0).
          { destruct (Nat.lt_ge_cases (chg_id ev) (edges g)) as [Hi|Hi].
            - destruct (Hok _ Hi ltac:(discriminate)) as [C _].
              rewrite (Hsync _ Hi), Ee in C. exact C.
            - unfold getF. rewrite nth_overflow by lia. reflexivity. }
          rewrite Hz. simpl. eexists. split; reflexivity.
        + intros Hi. rewrite S4 in Hi. pose proof (Hsync _ Hi) as H.
          unfold enabled in H. rewrite H. exact Ee. }
    destruct Hev as (fl1 & E1 & N1). rewrite E1.
    destruct (IH st fl1 Hsz Hok Hsync) as (fl' & E2 & N2).
    exists fl'. split; [exact E2 | congruence].
Qed.

(** A call that starts over returns; the flow it leaves has the returned
    value, and a set that holds [s], not [t], is closed under its residual
    arcs. *)
Lemma start_over_state cap s t fuel g st :
  graph_wf g -> nonneg cap ->
  (s < nodes g)%nat -> (t < nodes g)%nat -> s <> t ->
  (enough g cap <= fuel)%nat ->
  (0 <? last_modification st) && (modifications g =? last_modification st) = false ->
  (last_modification st <=? 0)
  || negb (historyclears g =? last_history_clear st) || changed g = true ->
  exists st4 U,
    maxFlow fuel g cap s t st = Some (set_stamps g st4, f st4)
    /\ sizes_ok g st4 /\ capacity_ok g cap st4 None /\ labels_ok g st4 s
    /\ balance g st4 s t (f st4) 0 0 0 /\ 0 <= f st4
    /\ (forall i, (i < edges g)%nat -> enabled st4 i = edgeEnabled g i)
    /\ closed g cap st4 U /\ U s = true /\ U t = false.
Proof.
  intros Hwf Hcap Hs Ht Hst Hfuel Hhit Hre. unfold maxFlow. rewrite Hhit, Hre.
  destruct (reinit_inv g cap s t st Hcap Hs) as (Z1 & Z2 & Z3 & (a0 & Ha0 & Z4)).
  assert (Ha00 : a0 = 0).
  { pose proof (Z4 s Hs) as H. rewrite ind_refl, (ind_ne t s) in H by congruence.
    rewrite excess_zero in H; [lia|].
    intros i. unfold getF, reinit. simpl. apply nth_replicate_same. }
  subst a0.
  pose proof (total_capacity_nonneg g cap Hcap) as Htot.
  pose proof Hfuel as Hfuel'. unfold enough in Hfuel'.
  destruct (maxFlow_p_opt g cap s t Hwf Hcap Hs Hst fuel fuel (reinit g s st) 0
              Z1 Z2 Z3 Z4 ltac:(lia) ltac:(lia) ltac:(lia))
    as (st1 & a1 & E1 & Y1 & Y2 & Y3 & Y4 & Y5 & Y6 & Y7 & _ & Y8).
  rewrite E1.
  assert (Hsync1 : forall i, (i < edges g)%nat -> enabled st1 i = edgeEnabled g i).
  { intros i Hi. unfold enabled. rewrite Y7. now apply reinit_enabled. }
  destruct (replay_synced g cap s t fuel (drop (history_qhead st1) (history g))
              st1 (mkFlags false false) Y1 Y2 Hsync1) as (fl & E2 & N2).
  rewrite E2. simpl in N2. rewrite N2. cbv zeta.
  assert (Hf0 : f (reinit g s st) = 0) by reflexivity.
  destruct (added_Edges fl).
  - destruct (maxFlow_p_opt g cap s t Hwf Hcap Hs Hst fuel fuel st1 a1
                Y1 Y2 Y3 Y4 ltac:(lia) ltac:(lia) ltac:(lia))
      as (st4 & a4 & E4 & V1 & V2 & V3 & V4 & V5 & V6 & V7 & _ & (U & U1 & U2 & U3)).
    rewrite E4. exists st4, U. split; [reflexivity|].
    assert (Hf4 : f st4 = a4) by lia. rewrite Hf4.
    split; [exact V1|]. split; [exact V2|]. split; [exact V3|]. split; [exact V4|].
    split; [lia|]. split; [|auto].
    intros i Hi. unfold enabled. rewrite V7. now apply Hsync1.
  - destruct Y8 as (U & U1 & U2 & U3). exists st1, U. split; [reflexivity|].
    assert (Hf1 : f st1 = a1) by lia. rewrite Hf1.
    split; [exact Y1|]. split; [exact Y2|]. split; [exact Y3|]. split; [exact Y4|].
    split; [lia|]. split; [exact Hsync1 | auto].
Qed.

(** X1.  A [maxFlow(s,t)] call that starts over (a new engine, a cleared
    history or a changed graph) returns, and returns the value of a maximum
    flow: [F] is feasible, the value is what leaves [s] minus what enters
    it, it is the capacity of a cut between [s] and [t], and no flow on the
    enabled edges that respects the capacities has a greater value. *)
Theorem maxFlow_start_over_maximum (cap : list Z) (s t fuel : nat)
    (g : DynamicGraph) (st : EKD) :
  graph_wf g -> nonneg cap ->
  (s < nodes g)%nat -> (t < nodes g)%nat -> s <> t ->
  (enough g cap <= fuel)%nat ->
  (0 <? last_modification st) && (modifications g =? last_modification st) = false ->
  (last_modification st <=? 0)
  || negb (historyclears g =? last_history_clear st) || changed g = true ->
  exists st' v,
    maxFlow fuel g cap s t st = Some (st', v)
    /\ feasible g cap s t st'
    /\ net_out g st' s = v
    /\ (exists U, U s = true /\ U t = false /\ cut_cap g cap st' U = v)
    /\ (forall st2 a2,
          (forall i, enabled st2 i = enabled st' i) ->
          (forall i, (i < edges g)%nat -> enabled st2 i = true ->
             0 <= getF st2 i <= nth i cap 0) ->
          balance g st2 s t a2 0 0 0 ->
          a2 <= v).
Proof.
  intros Hwf Hcap Hs Ht Hst Hfuel Hhit Hre.
  destruct (start_over_state cap s t fuel g st Hwf Hcap Hs Ht Hst Hfuel Hhit Hre)
    as (st4 & U & E & W1 & W2 & W3 & W4 & W5 & G4 & U1 & U2 & U3).
  exists (set_stamps g st4), (f st4). split; [exact E|].
  assert (I4 : flow_inv g cap s t st4).
  { split; [exact W1|]. split; [exact W2|]. split; [exact W3|]. exists (f st4). auto. }
  pose proof (closed_cut_cap g cap st4 s t (f st4) U Hwf Hs Ht W2 W4 U1 U2 U3) as Hcc.
  split.
  { apply flow_inv_feasible.
    - apply (flow_inv_same g cap s t st4); [reflexivity..|exact I4].
    - exact G4. }
  split; [apply (net_out_balance g st4 s t (f st4) Hs Hst W4)|].
  split; [exists U; split; [exact U2|]; split; [exact U3 | exact Hcc]|].
  intros st2 a2 Hen Hok2 Hbal2. rewrite <- Hcc.
  rewrite <- (cut_cap_frame g cap st4 st2 U) by exact Hen.
  apply (value_le_cut g cap st2 s t a2 U Hwf Hs Ht Hok2 Hbal2 U2 U3).
Qed.

Lemma maxFlow_start_over_maximum_witness :
  exists st' v,
    maxFlow 17 (graphA false) capA 0 3 init = Some (st', v)
    /\ feasible (graphA false) capA 0 3 st'
    /\ net_out (graphA false) st' 0 = v
    /\ (exists U, U 0%nat = true /\ U 3%nat = false
                  /\ cut_cap (graphA false) capA st' U = v)
    /\ (forall st2 a2,
          (forall i, enabled st2 i = enabled st' i) ->
          (forall i, (i < edges (graphA false))%nat -> enabled st2 i = true ->
             0 <= getF st2 i <= nth i capA 0) ->
          balance (graphA false) st2 0 3 a2 0 0 0 ->
          a2 <= v).
Proof.
  apply (maxFlow_start_over_maximum capA 0 3 17 (graphA false) init).
  - intros e [<-|[<-|[<-|[<-|[<-|[]]]]]]; simpl; lia.
  - intros i. do 5 (destruct i as [|i]; [simpl; lia|]). destruct i; simpl; lia.
  - simpl; lia.
  - simpl; lia.
  - lia.
  - vm_compute; lia.
  - reflexivity.
  - reflexivity.
Defined.

(** ** What a search finds *)

Lemma reach_weaken g cap st s b b' v :
  b' <= b -> reach g cap st s b v -> reach g cap st s b' v.
Proof.
  intros Hb H. induction H as [|u v i back _ IH Ha He Hr]; [constructor|].
  eapply reach_step; eauto. lia.
Qed.

Lemma reach_frame g cap st st' s b v :
  F st' = F st -> edge_enabled st' = edge_enabled st ->
  reach g cap st' s b v -> reach g cap st s b v.
Proof.
  intros HF HE H. induction H as [|u v i back _ IH Ha He Hr]; [constructor|].
  eapply reach_step; eauto.
  - unfold enabled in *. now rewrite <- HE.
  - now rewrite <- (residual_frame cap st st' back i HF).
Qed.

(** A closed set holds every node that can be reached from one of its
    nodes. *)
Lemma closed_reach g cap st U s v :
  closed g cap st U -> U s = true -> reach g cap st s 1 v -> U v = true.
Proof.
  intros Hcl Hs H. induction H as [|u v i back _ IH Ha He Hr]; [exact Hs|].
  destruct Ha as [Hi Ha]. destruct (Hcl i Hi He) as [C1 C2].
  unfold residual in Hr. destruct back; destruct Ha as [E1 E2]; subst u v.
  - apply C2; [exact IH | lia].
  - apply C1; [exact IH | lia].
Qed.

(** Every node of a search tree is reached from its root over the tree
    arcs, whose residual capacities are at least the label of the node. *)
Lemma tree_reach g cap s t sc U r via st :
  bfs_inv g cap s t sc U r via st -> sc = None ->
  forall n x, (r x < n)%nat -> (x < nodes g)%nat -> discovered st x ->
  reach g cap st s (getM st x) x.
Proof.
  intros Hinv Hsc. pose proof Hinv as (_ & _ & _ & _ & _ & HP).
  induction n as [|n IH]; intros x Hr Hx Hdx; [lia|].
  destruct (Nat.eq_dec x s) as [->|Hne]; [constructor|].
  destruct (HP x Hx Hdx Hne) as (u & P1 & P2 & P3 & P4 & P5 & P6).
  destruct P6 as [(i & E1 & E2 & E3 & E4 & E5)|(_ & E & _)]; [|congruence].
  eapply reach_step; [|exact E2|apply E3|exact E4].
  eapply reach_weaken; [exact P5|]. apply IH; [lia | assumption | assumption].
Qed.

(** X2.  [BreadthFirstSearch(s,t)] on buffers of the size of the graph, with
    a positive label at [s], returns and writes neither [F] nor the flags.
    A positive result [m] comes with a path from [s] to [t] all of whose
    arcs have residual capacity at least [m]; the result [0] means that no
    path of arcs with residual capacity leads from [s] to [t]. *)
Theorem BreadthFirstSearch_bottleneck (g : DynamicGraph) (cap : list Z)
    (s t fuel : nat) (st : EKD) :
  graph_wf g ->
  length (prev st) = nodes g -> length (M st) = nodes g ->
  (s < nodes g)%nat -> s <> t -> 0 < getM st s -> (nodes g < fuel)%nat ->
  exists st' m,
    BreadthFirstSearch fuel g cap s t st = Some (st', m)
    /\ F st' = F st /\ edge_enabled st' = edge_enabled st
    /\ 0 <= m
    /\ (0 < m -> reach g cap st s m t)
    /\ (m = 0 -> ~ reach g cap st s 1 t).
Proof.
  intros Hwf Lp Lm Hs Hst Hm Hfuel.
  destruct (BreadthFirstSearch_ok g cap s t fuel st Hwf Lp Lm Hs Hst Hm Hfuel)
    as (st' & m & B1 & B2 & B3 & B4).
  pose proof B2 as (HF & _ & HE & _).
  exists st', m. split; [exact B1|]. split; [exact HF|]. split; [exact HE|].
  destruct B4 as [(C1 & C2 & C3 & (r & via & C4))|(C1 & C5 & C6 & C7)].
  - split; [lia|]. split; [|lia]. intros _.
    assert (Ht : (t < nodes g)%nat) by (eapply discovered_lt; [apply C4 | exact C3]).
    apply (reach_frame g cap st st' s m t HF HE). rewrite C2.
    apply (tree_reach g cap s t None _ r via st' C4 eq_refl (S (r t)) t);
      [lia | exact Ht | exact C3].
  - split; [lia|]. split; [lia|]. intros _ Hr.
    assert (Hr' : reach g cap st' s 1 t).
    { apply (reach_frame g cap st' st s 1 t); [congruence | congruence | exact Hr]. }
    pose proof (closed_reach g cap st' _ s t C5 C6 Hr') as H. congruence.
Qed.

Lemma BreadthFirstSearch_bottleneck_witness :
  exists st' m,
    BreadthFirstSearch 5 (graphA false) capA 0 3 (reinit (graphA false) 0 init)
    = Some (st', m)
    /\ F st' = F (reinit (graphA false) 0 init)
    /\ edge_enabled st' = edge_enabled (reinit (graphA false) 0 init)
    /\ 0 <= m
    /\ (0 < m -> reach (graphA false) capA (reinit (graphA false) 0 init) 0 m 3)
    /\ (m = 0 -> ~ reach (graphA false) capA (reinit (graphA false) 0 init) 0 1 3).
Proof.
  apply (BreadthFirstSearch_bottleneck (graphA false) capA 0 3 5
           (reinit (graphA false) 0 init)).
  - intros e [<-|[<-|[<-|[<-|[<-|[]]]]]]; simpl; lia.
  - reflexivity.
  - reflexivity.
  - simpl; lia.
  - lia.
  - vm_compute; reflexivity.
  - simpl; lia.
Defined.

(** ** Calls that follow a call *)

(** X3.  A [maxFlow(s,t)] call that follows a call on the same graph, with
    no mutation in between, takes the cache when the modification counter
    of the graph is positive: it returns the same value and leaves the
    engine as it is. *)
Theorem maxFlow_cached (fuel : nat) (g : DynamicGraph) (cap : list Z) (s t : nat)
    (st st' : EKD) (v : Z) :
  maxFlow fuel g cap s t st = Some (st', v) ->
  0 < modifications g ->
  maxFlow fuel g cap s t st' = Some (st', v).
Proof.
  intros H Hm. unfold maxFlow in H.
  destruct ((0 <? last_modification st) && (modifications g =? last_modification st))
    eqn:Ehit.
  - injection H as <- <-. unfold maxFlow. now rewrite Ehit.
  - destruct (if (last_modification st <=? 0)
                 || negb (historyclears g =? last_history_clear st) || changed g
              then maxFlow_p fuel fuel g cap s t (reinit g s st) else Some st)
      as [st1|]; [|discriminate].
    destruct (replay fuel g cap s t (drop (history_qhead st1) (history g))
                (st1, mkFlags false false)) as [[st2 fl]|]; [|discriminate].
    cbv zeta in H.
    destruct (if added_Edges fl
              then maxFlow_p fuel fuel g cap s t
                     (if needsReflow fl then set_f (sum_out g s st2) st2 else st2)
              else Some (if needsReflow fl then set_f (sum_out g s st2) st2 else st2))
      as [st4|]; [|discriminate].
    injection H as <- <-. unfold maxFlow. simpl.
    replace (0 <? modifications g) with true by (symmetry; lia).
    rewrite Z.eqb_refl. reflexivity.
Qed.

Lemma maxFlow_cached_witness :
  maxFlow 8 (graphA false) capA 0 3 stateA = Some (stateA, 5).
Proof.
  apply (maxFlow_cached 8 (graphA false) capA 0 3 init stateA 5).
  - vm_compute. reflexivity.
  - simpl. lia.
Defined.

(** ** The incremental path *)

Lemma flow_inv_shape g g' cap s t st :
  nodes g' = nodes g -> all_edges g' = all_edges g ->
  flow_inv g cap s t st -> flow_inv g' cap s t st.
Proof.
  intros Hn He (Z1 & Z2 & Z3 & (a & Ha & Z4)).
  assert (Hed : edges g' = edges g) by (unfold edges; now rewrite He).
  assert (Hat : forall i, edge_at g' i = edge_at g i)
    by (intros i; unfold edge_at; now rewrite He).
  split; [unfold sizes_ok in *; now rewrite Hed, Hn|].
  split.
  { intros i Hi Hsk. rewrite Hat. apply Z2; [now rewrite <- Hed | exact Hsk]. }
  split.
  { split; [apply Z3|]. intros i Hi. rewrite Hat. apply Z3. now rewrite <- Hed. }
  exists a. split; [exact Ha|]. intros x Hx.
  replace (excess g' st x) with (excess g st x) by (unfold excess; now rewrite He).
  apply Z4. now rewrite <- Hn.
Qed.

(** What [maxFlow] does after the choice between starting over and keeping
    the flow, with the stamps it leaves. *)
Lemma maxFlow_tail_settled g cap s t fuel st1 :
  graph_wf g -> nonneg cap -> (s < nodes g)%nat -> (t < nodes g)%nat -> s <> t ->
  (enough g cap <= fuel)%nat ->
  flow_inv g cap s t st1 ->
  (forall i, (i < edges g)%nat ->
     enabled st1 i = edgeEnabled g i
     \/ exists ev, In ev (pending g st1) /\ chg_id ev = i
                   /\ addition ev = edgeEnabled g i) ->
  exists st' v,
    match replay fuel g cap s t (drop (history_qhead st1) (history g))
            (st1, mkFlags false false) with
    | None => None
    | Some (st2, fl) =>
        let st3 := if needsReflow fl then set_f (sum_out g s st2) st2 else st2 in
        let ost4 := if added_Edges fl then maxFlow_p fuel fuel g cap s t st3
                    else Some st3 in
        match ost4 with
        | None => None
        | Some st4 => Some (set_stamps g st4, f st4)
        end
    end = Some (st', v)
    /\ settled_engine g cap s t st' v.
Proof.
  intros Hwf Hcap Hs Ht Hst Hfuel Hinv Hsync.
  destruct (replay_ok g cap s t fuel Hwf Hcap Hs Ht Hst Hfuel
              (drop (history_qhead st1) (history g)) st1 (mkFlags false false) Hinv)
    as (st2 & fl & E2 & I2 & G2).
  rewrite E2. cbv zeta.
  set (st3 := if needsReflow fl then set_f (sum_out g s st2) st2 else st2).
  assert (I3 : flow_inv g cap s t st3).
  { apply (flow_inv_same g cap s t st2); [..|exact I2];
      unfold st3; destruct (needsReflow fl); reflexivity. }
  assert (G3 : forall i, (i < edges g)%nat -> enabled st3 i = edgeEnabled g i).
  { intros i Hi. replace (enabled st3 i) with (enabled st2 i)
      by (unfold st3; destruct (needsReflow fl); reflexivity).
    apply G2; [exact Hi | now apply Hsync]. }
  assert (Hend : forall st4, flow_inv g cap s t st4 ->
            edge_enabled st4 = edge_enabled st3 ->
            settled_engine g cap s t (set_stamps g st4) (f st4)).
  { intros st4 I4 E4.
    split; [apply (flow_inv_same g cap s t st4); [reflexivity..|exact I4]|].
    split; [|repeat split].
    intros i Hi. rewrite <- (G3 i Hi). unfold enabled. simpl. now rewrite E4. }
  destruct (added_Edges fl).
  - pose proof I3 as (Z1 & Z2 & Z3 & (a & Ha & Z4)).
    pose proof (total_capacity_nonneg g cap Hcap) as Htot. unfold enough in Hfuel.
    destruct (maxFlow_p_ok g cap s t Hwf Hcap Hs Hst fuel fuel st3 a Z1 Z2 Z3 Z4 Ha
                ltac:(lia) ltac:(lia)) as (st4 & E4 & I4).
    rewrite E4. eexists _, _. split; [reflexivity|].
    apply Hend; [exact I4|]. apply (maxFlow_p_frame _ _ _ _ _ _ _ _ E4).
  - eexists _, _. split; [reflexivity|]. apply Hend; [exact I3 | reflexivity].
Qed.

(** [maxFlow(s,t)] returns and leaves the engine settled. *)
Lemma maxFlow_settled g cap s t fuel st :
  graph_wf g -> nonneg cap -> (s < nodes g)%nat -> (t < nodes g)%nat -> s <> t ->
  (enough g cap <= fuel)%nat ->
  engine_inv2 g cap s t st ->
  exists st' v,
    maxFlow fuel g cap s t st = Some (st', v) /\ settled_engine g cap s t st' v.
Proof.
  intros Hwf Hcap Hs Ht Hst Hfuel Hinv. unfold maxFlow.
  destruct ((0 <? last_modification st) && (modifications g =? last_modification st))
    eqn:Ehit.
  - apply andb_true_iff in Ehit. destruct Ehit as [E1 E2].
    exists st, (curflow st). split; [reflexivity|].
    destruct Hinv as [H|(I1 & I2 & I3 & I4 & I5 & I6 & I7)]; [lia|].
    destruct (I7 ltac:(lia)) as [J1 J2].
    split; [exact I1|]. split; [exact J1|]. repeat split; auto; lia.
  - destruct ((last_modification st <=? 0)
              || negb (historyclears g =? last_history_clear st) || changed g) eqn:Ere.
    + destruct (reinit_inv g cap s t st Hcap Hs) as (Z1 & Z2 & Z3 & (a & Ha & Z4)).
      pose proof (total_capacity_nonneg g cap Hcap) as Htot.
      pose proof Hfuel as Hfuel'. unfold enough in Hfuel'.
      destruct (maxFlow_p_ok g cap s t Hwf Hcap Hs Hst fuel fuel (reinit g s st) a
                  Z1 Z2 Z3 Z4 Ha ltac:(lia) ltac:(lia)) as (st1 & E1 & I1).
      rewrite E1. apply maxFlow_tail_settled; auto.
      intros i Hi. left. unfold enabled.
      rewrite (proj1 (proj2 (maxFlow_p_frame _ _ _ _ _ _ _ _ E1))).
      now apply reinit_enabled.
    + apply orb_false_iff in Ere. destruct Ere as [Ere _].
      apply orb_false_iff in Ere. destruct Ere as [Ere _].
      destruct Hinv as [H|(I1 & I2 & I3 & I4 & _)]; [lia|].
      apply maxFlow_tail_settled; auto.
Qed.

Lemma settled_engine_inv2 g cap s t st v :
  settled_engine g cap s t st v -> engine_inv2 g cap s t st.
Proof.
  intros (I1 & I2 & I3 & I4 & I5 & I6 & I7). right.
  split; [exact I1|]. split; [lia|]. split; [lia|].
  split; [intros i Hi; left; now apply I2|]. split; [exact I5|].
  split; [congruence|]. intros _. split; assumption.
Qed.

Lemma engine_inv2_event g g' cap s t st e b :
  nodes g' = nodes g -> all_edges g' = all_edges g ->
  history g' = history g ++ [mkChange e b] ->
  modifications g' = modifications g + 1 ->
  historyclears g' = historyclears g ->
  edge_status g' = <[e := b]> (edge_status g) ->
  engine_inv2 g cap s t st -> engine_inv2 g' cap s t st.
Proof.
  intros Hn He Hh Hm Hc Hs [H|(I1 & I2 & I3 & I4 & I5 & I6 & I7)]; [now left|]. right.
  assert (Hed : edges g' = edges g) by (unfold edges; now rewrite He).
  split; [eapply flow_inv_shape; eauto|].
  split; [lia|]. split; [rewrite Hh, length_app; simpl; lia|].
  split; [|split; [congruence | split; [exact I6 | intros E; lia]]].
  intros i Hi. rewrite Hed in Hi. unfold pending. rewrite Hh.
  assert (Hst : edgeEnabled g' i = edgeEnabled g i
                \/ (i = e /\ edgeEnabled g' i = b)).
  { unfold edgeEnabled. rewrite Hs.
    destruct (Nat.eq_dec i e) as [->|Hne].
    - destruct (Nat.lt_ge_cases e (length (edge_status g))).
      + right. split; [reflexivity|]. rewrite nth_upd by lia.
        destruct (Nat.eq_dec e e); congruence.
      + left. rewrite !nth_overflow; [reflexivity | lia | rewrite length_insert; lia].
    - left. rewrite !nth_lookup, list_lookup_insert_ne; auto. }
  destruct Hst as [E|[-> E]].
  - rewrite E. destruct (I4 i Hi) as [G|(ev & G1 & G2 & G3)]; [now left|].
    right. exists ev. split; [now apply In_drop_app | auto].
  - right. exists (mkChange e b). split; [|split; [reflexivity | now rewrite E]].
    rewrite drop_app. apply in_or_app. right.
    replace (history_qhead st - length (history g))%nat with 0%nat by lia.
    now left.
Qed.

Lemma engine_inv2_enable g cap s t st e :
  engine_inv2 g cap s t st -> engine_inv2 (enableEdge e g) cap s t st.
Proof.
  intros H. unfold enableEdge. destruct (edgeEnabled g e); [exact H|].
  eapply engine_inv2_event; [..|exact H]; reflexivity.
Qed.

Lemma engine_inv2_disable g cap s t st e :
  engine_inv2 g cap s t st -> engine_inv2 (disableEdge e g) cap s t st.
Proof.
  intros H. unfold disableEdge. destruct (edgeEnabled g e); [|exact H].
  eapply engine_inv2_event; [..|exact H]; reflexivity.
Qed.

Lemma enableEdge_counter g e : modifications g <= modifications (enableEdge e g).
Proof. unfold enableEdge. destruct (edgeEnabled g e); simpl; lia. Qed.

Lemma disableEdge_counter g e : modifications g <= modifications (disableEdge e g).
Proof. unfold disableEdge. destruct (edgeEnabled g e); simpl; lia. Qed.

Lemma enableEdge_changed g e : is_changed (enableEdge e g) = is_changed g.
Proof. unfold enableEdge. now destruct (edgeEnabled g e). Qed.

Lemma disableEdge_changed g e : is_changed (disableEdge e g) = is_changed g.
Proof. unfold disableEdge. now destruct (edgeEnabled g e). Qed.

(** Every sequence of operations runs to its end and keeps [engine_inv2];
    the modification counter of the graph does not go down. *)
Lemma run_ok2 cap s t fuel ops :
  nonneg cap -> s <> t ->
  forall g st out,
  graph_wf g -> (s < nodes g)%nat -> (t < nodes g)%nat ->
  (enough g cap <= fuel)%nat ->
  engine_inv2 g cap s t st ->
  exists g' st' out',
    run fuel cap s t ops g st out = Some (g', st', out')
    /\ nodes g' = nodes g /\ all_edges g' = all_edges g
    /\ is_changed g' = is_changed g
    /\ modifications g <= modifications g'
    /\ engine_inv2 g' cap s t st'.
Proof.
  intros Hcap Hst. induction ops as [|op ops IH];
    intros g st out Hwf Hs Ht Hfuel Hinv.
  - exists g, st, out. do 4 (split; [reflexivity|]). split; [lia | exact Hinv].
  - destruct op as [e|e|]; simpl.
    + destruct (enableEdge_shape g e) as [Hn He].
      pose proof (enableEdge_counter g e) as Hc.
      destruct (IH (enableEdge e g) st out)
        as (g' & st' & out' & R1 & R2 & R3 & R4 & R5 & R6).
      * eapply graph_wf_shape; eauto.
      * now rewrite Hn.
      * now rewrite Hn.
      * now rewrite (enough_shape g (enableEdge e g) cap Hn He).
      * now apply engine_inv2_enable.
      * exists g', st', out'. split; [exact R1|]. split; [congruence|].
        split; [congruence|]. split; [rewrite R4; apply enableEdge_changed|].
        split; [lia | assumption].
    + destruct (disableEdge_shape g e) as [Hn He].
      pose proof (disableEdge_counter g e) as Hc.
      destruct (IH (disableEdge e g) st out)
        as (g' & st' & out' & R1 & R2 & R3 & R4 & R5 & R6).
      * eapply graph_wf_shape; eauto.
      * now rewrite Hn.
      * now rewrite Hn.
      * now rewrite (enough_shape g (disableEdge e g) cap Hn He).
      * now apply engine_inv2_disable.
      * exists g', st', out'. split; [exact R1|]. split; [congruence|].
        split; [congruence|]. split; [rewrite R4; apply disableEdge_changed|].
        split; [lia | assumption].
    + destruct (maxFlow_settled g cap s t fuel st Hwf Hcap Hs Ht Hst Hfuel Hinv)
        as (st1 & v & E1 & I1).
      rewrite E1. apply IH; try assumption.
      eapply settled_engine_inv2; eauto.
Qed.

(** After a run that ends with a call, the engine is settled with the
    value that the call returned. *)
Lemma run_settled cap s t fuel ops g0 :
  graph_wf g0 -> nonneg cap ->
  (s < nodes g0)%nat -> (t < nodes g0)%nat -> s <> t ->
  (enough g0 cap <= fuel)%nat ->
  exists g st v out,
    run fuel cap s t (ops ++ [MaxFlow]) g0 init [] = Some (g, st, v :: out)
    /\ nodes g = nodes g0 /\ all_edges g = all_edges g0
    /\ is_changed g = is_changed g0 /\ modifications g0 <= modifications g
    /\ settled_engine g cap s t st v.
Proof.
  intros Hwf Hcap Hs Ht Hst Hfuel. rewrite run_app.
  destruct (run_ok2 cap s t fuel ops Hcap Hst g0 init [] Hwf Hs Ht Hfuel)
    as (g1 & st1 & out1 & R1 & Hn & He & Hch & Hm1 & I1).
  { left. simpl. lia. }
  rewrite R1. cbn [run].
  destruct (maxFlow_settled g1 cap s t fuel st1) as (st2 & v & E2 & F2); auto.
  - eapply graph_wf_shape; eauto.
  - now rewrite Hn.
  - now rewrite Hn.
  - now rewrite (enough_shape g0 g1 cap Hn He).
  - rewrite E2. exists g1, st2, v, out1. auto 10.
Qed.

(** A call on an engine whose stamp is positive and behind the graph's, with
    the history kept and the graph not changed, keeps the flow and replays. *)
Lemma maxFlow_incremental fuel g cap s t st :
  0 < last_modification st -> modifications g <> last_modification st ->
  historyclears g = last_history_clear st -> changed g = false ->
  maxFlow fuel g cap s t st
  = match replay fuel g cap s t (drop (history_qhead st) (history g))
            (st, mkFlags false false) with
    | None => None
    | Some (st2, fl) =>
        let st3 := if needsReflow fl then set_f (sum_out g s st2) st2 else st2 in
        let ost4 := if added_Edges fl then maxFlow_p fuel fuel g cap s t st3
                    else Some st3 in
        match ost4 with
        | None => None
        | Some st4 => Some (set_stamps g st4, f st4)
        end
    end.
Proof.
  intros H1 H2 H3 H4. unfold maxFlow.
  replace (modifications g =? last_modification st) with false by (symmetry; lia).
  rewrite andb_false_r.
  replace (last_modification st <=? 0) with false by (symmetry; lia).
  rewrite H3, Z.eqb_refl, H4. reflexivity.
Qed.

(** Events that enable edges change neither the flow nor [f], and ask for
    no recount. *)
Lemma replay_additions fuel g cap s t evs :
  (forall ev, In ev evs -> addition ev = true) ->
  forall st fl,
  exists st' fl',
    replay fuel g cap s t evs (st, fl) = Some (st', fl')
    /\ F st' = F st /\ f st' = f st /\ needsReflow fl' = needsReflow fl.
Proof.
  induction evs as [|ev evs IH]; intros Hadd st fl.
  - exists st, fl. repeat split.
  - cbn [replay]. unfold replay_event. rewrite (Hadd ev (or_introl eq_refl)).
    destruct (edgeEnabled g (chg_id ev)); simpl.
    + destruct (IH (fun e H => Hadd e (or_intror H))
                  (set_edge_enabled (<[chg_id ev := true]> (edge_enabled st)) st)
                  (mkFlags true (needsReflow fl))) as (st' & fl' & E & A1 & A2 & A3).
      exists st', fl'. split; [exact E|]. repeat split; assumption.
    + destruct (IH (fun e H => Hadd e (or_intror H)) st fl)
        as (st' & fl' & E & A1 & A2 & A3).
      exists st', fl'. split; [exact E|]. repeat split; assumption.
Qed.

Lemma enable_all_shape es :
  forall g,
  nodes (enable_all es g) = nodes g /\ all_edges (enable_all es g) = all_edges g
  /\ historyclears (enable_all es g) = historyclears g
  /\ is_changed (enable_all es g) = is_changed g
  /\ exists evs,
       history (enable_all es g) = history g ++ evs
       /\ (forall ev, In ev evs -> addition ev = true)
       /\ modifications (enable_all es g) = modifications g + Z.of_nat (length evs).
Proof.
  induction es as [|e es IH]; intros g.
  - repeat split. exists []. rewrite app_nil_r. repeat split; [intros ev []|simpl; lia].
  - simpl. destruct (IH (enableEdge e g)) as (A1 & A2 & A3 & A4 & evs & A5 & A6 & A7).
    unfold enable_all in *. unfold enableEdge in *.
    destruct (edgeEnabled g e).
    + repeat (split; [assumption|]). exists evs. auto.
    + simpl in *. repeat (split; [assumption|]).
      exists (mkChange e true :: evs). rewrite A5, <- app_assoc. split; [reflexivity|].
      split; [intros ev [<-|H]; [reflexivity | now apply A6]|].
      rewrite A7. simpl length. lia.
Qed.

Lemma run_enables fuel cap s t es :
  forall g st out,
  run fuel cap s t (map Enable es) g st out = Some (enable_all es g, st, out).
Proof.
  induction es as [|e es IH]; intros g st out; [reflexivity|].
  simpl. apply IH.
Qed.

(** X4.  Enabling edges never lowers the value: on a graph with a positive
    modification counter and no change pending, when a client calls
    [maxFlow(s,t)], enables any edges and calls [maxFlow(s,t)] again, the
    second value is at least the first. *)
Theorem enabling_never_lowers (cap : list Z) (s t fuel : nat) (ops : list Op)
    (es : list nat) (g0 : DynamicGraph) :
  graph_wf g0 -> nonneg cap ->
  (s < nodes g0)%nat -> (t < nodes g0)%nat -> s <> t ->
  (enough g0 cap <= fuel)%nat ->
  0 < modifications g0 -> is_changed g0 = false ->
  exists g st v2 v1 out,
    run fuel cap s t (ops ++ [MaxFlow] ++ map Enable es ++ [MaxFlow]) g0 init []
    = Some (g, st, v2 :: v1 :: out)
    /\ v1 <= v2.
Proof.
  intros Hwf Hcap Hs Ht Hst Hfuel Hmod Hch.
  destruct (run_settled cap s t fuel ops g0 Hwf Hcap Hs Ht Hst Hfuel)
    as (g1 & st1 & v1 & out & R1 & Hn & He & Hc1 & Hm1 & Hset).
  rewrite app_assoc, run_app, R1, run_app, run_enables. cbn [run].
  destruct (enable_all_shape es g1) as (B1 & B2 & B3 & B4 & evs & B5 & B6 & B7).
  set (g2 := enable_all es g1) in *.
  destruct Hset as (I1 & I2 & I3 & I4 & I5 & I6 & I7).
  assert (Hwf2 : graph_wf g2).
  { eapply graph_wf_shape; [| |exact Hwf]; congruence. }
  assert (Hfuel2 : (enough g2 cap <= fuel)%nat).
  { rewrite (enough_shape g0 g2 cap); [exact Hfuel | congruence | congruence]. }
  destruct evs as [|ev0 evs'].
  - (* nothing was enabled: the cache answers *)
    simpl in B7. unfold maxFlow.
    replace (0 <? last_modification st1) with true by (symmetry; lia).
    replace (modifications g2 =? last_modification st1) with true by (symmetry; lia).
    simpl. exists g2, st1, (curflow st1), v1, out. rewrite I7. split; [reflexivity | lia].
  - rewrite (maxFlow_incremental fuel g2 cap s t st1);
      [|lia|simpl length in B7; lia|congruence|unfold changed; congruence].
    rewrite I4, B5, drop_app_length.
    assert (I1' : flow_inv g2 cap s t st1)
      by (apply (flow_inv_shape g1 g2); [exact B1 | exact B2 | exact I1]).
    destruct (replay_ok g2 cap s t fuel Hwf2 Hcap ltac:(lia) ltac:(lia) Hst Hfuel2
                (ev0 :: evs') st1 (mkFlags false false) I1')
      as (st2 & fl & E2 & J2 & _).
    destruct (replay_additions fuel g2 cap s t (ev0 :: evs') B6 st1 (mkFlags false false))
      as (st2' & fl2' & E2' & K1 & K2 & K3).
    rewrite E2 in E2'. injection E2' as <- <-.
    rewrite E2. simpl in K3. rewrite K3. cbv zeta.
    destruct (added_Edges fl).
    + pose proof J2 as (Z1 & Z2 & Z3 & (a & Ha & Z4)).
      pose proof (total_capacity_nonneg g2 cap Hcap) as Htot.
      pose proof Hfuel2 as Hfuel'. unfold enough in Hfuel'.
      destruct (maxFlow_p_opt g2 cap s t Hwf2 Hcap ltac:(lia) Hst fuel fuel st2 a
                  Z1 Z2 Z3 Z4 Ha ltac:(lia) ltac:(lia))
        as (st4 & a4 & E4 & _ & _ & _ & _ & V5 & V6 & _).
      rewrite E4. exists g2, (set_stamps g2 st4), (f st4), v1, out.
      split; [reflexivity | lia].
    + exists g2, (set_stamps g2 st2), (f st2), v1, out. split; [reflexivity | lia].
Qed.

Lemma enabling_never_lowers_witness :
  exists g st v2 v1 out,
    run 17 capA 0 3 ([Disable 3] ++ [MaxFlow] ++ map Enable [3%nat] ++ [MaxFlow])
      (graphA false) init []
    = Some (g, st, v2 :: v1 :: out)
    /\ v1 <= v2.
Proof.
  apply (enabling_never_lowers capA 0 3 17 [Disable 3] [3%nat] (graphA false)).
  - intros e [<-|[<-|[<-|[<-|[<-|[]]]]]]; simpl; lia.
  - intros i. do 5 (destruct i as [|i]; [simpl; lia|]). destruct i; simpl; lia.
  - simpl; lia.
  - simpl; lia.
  - lia.
  - vm_compute; lia.
  - simpl; lia.
  - reflexivity.
Defined.

(** X5.  Disabling an edge that carries no flow costs no search: on a graph
    with a positive modification counter and no change pending, the call
    that follows returns the value of the call before and leaves [F] as it
    was. *)
Theorem disabling_unused_edge (cap : list Z) (s t fuel : nat) (ops : list Op)
    (e : nat) (g0 : DynamicGraph) :
  graph_wf g0 -> nonneg cap ->
  (s < nodes g0)%nat -> (t < nodes g0)%nat -> s <> t ->
  (enough g0 cap <= fuel)%nat ->
  0 < modifications g0 -> is_changed g0 = false ->
  exists g1 st1 v out,
    run fuel cap s t (ops ++ [MaxFlow]) g0 init [] = Some (g1, st1, v :: out)
    /\ (getF st1 e = 0 ->
        exists g2 st2,
          run fuel cap s t [Disable e; MaxFlow] g1 st1 (v :: out)
          = Some (g2, st2, v :: v :: out)
          /\ F st2 = F st1).
Proof.
  intros Hwf Hcap Hs Ht Hst Hfuel Hmod Hch.
  destruct (run_settled cap s t fuel ops g0 Hwf Hcap Hs Ht Hst Hfuel)
    as (g1 & st1 & v & out & R1 & Hn & He & Hc1 & Hm1 & Hset).
  exists g1, st1, v, out. split; [exact R1|]. intros Hz.
  destruct Hset as (I1 & I2 & I3 & I4 & I5 & I6 & I7).
  cbn [run]. unfold disableEdge. destruct (edgeEnabled g1 e) eqn:Een.
  - set (g2 := mkGraph (nodes g1) (all_edges g1) (<[e := false]> (edge_status g1))
                 (history g1 ++ [mkChange e false]) (modifications g1 + 1)
                 (additions g1) (modifications g1 + 1) (historyclears g1)
                 (is_changed g1)).
    rewrite (maxFlow_incremental fuel g2 cap s t st1);
      [|lia|simpl; lia|simpl; congruence|unfold changed; simpl; congruence].
    rewrite I4. simpl history. rewrite drop_app_length.
    cbn [replay]. unfold replay_event. simpl addition. simpl chg_id.
    assert (Hoff : edgeEnabled g2 e = false).
    { unfold edgeEnabled, g2. simpl.
      assert (Hlt : (e < length (edge_status g1))%nat).
      { destruct (Nat.lt_ge_cases e (length (edge_status g1))) as [H|H]; [exact H|].
        unfold edgeEnabled in Een. rewrite nth_overflow in Een by lia. discriminate. }
      rewrite nth_upd by exact Hlt. destruct (Nat.eq_dec e e); congruence. }
    rewrite Hoff. simpl.
    change (getF (set_edge_enabled (<[e := false]> (edge_enabled st1)) st1) e)
      with (getF st1 e).
    rewrite Hz. simpl.
    eexists _, _. split; [rewrite I6; reflexivity | reflexivity].
  - unfold maxFlow.
    replace (0 <? last_modification st1) with true by (symmetry; lia).
    replace (modifications g1 =? last_modification st1) with true by (symmetry; lia).
    simpl. exists g1, st1. rewrite I7. split; reflexivity.
Qed.

Lemma disabling_unused_edge_witness :
  exists g1 st1 v out,
    run 8 capB 0 2 ([] ++ [MaxFlow]) graphB init []
    = Some (g1, st1, v :: out)
    /\ (getF st1 2 = 0 ->
        exists g2 st2,
          run 8 capB 0 2 [Disable 2; MaxFlow] g1 st1 (v :: out)
          = Some (g2, st2, v :: v :: out)
          /\ F st2 = F st1).
Proof.
  apply (disabling_unused_edge capB 0 2 8 [] 2 graphB).
  - intros e [<-|[<-|[<-|[]]]]; simpl; lia.
  - intros i. do 3 (destruct i as [|i]; [simpl; lia|]). destruct i; simpl; lia.
  - simpl; lia.
  - simpl; lia.
  - lia.
  - vm_compute; lia.
  - simpl; lia.
  - reflexivity.
Defined.

(** X6.  An edge from a node to itself never carries flow: after every
    [maxFlow(s,t)] call of a client, [F] is zero on every such edge. *)
Theorem self_loops_carry_no_flow (cap : list Z) (s t fuel : nat) (ops : list Op)
    (g0 : DynamicGraph) :
  graph_wf g0 -> nonneg cap ->
  (s < nodes g0)%nat -> (t < nodes g0)%nat -> s <> t ->
  (enough g0 cap <= fuel)%nat ->
  exists g st out,
    run fuel cap s t (ops ++ [MaxFlow]) g0 init [] = Some (g, st, out)
    /\ forall e, (e < edges g)%nat ->
         from (edge_at g e) = to (edge_at g e) -> getF st e = 0.
Proof.
  intros Hwf Hcap Hs Ht Hst Hfuel.
  destruct (run_settled cap s t fuel ops g0 Hwf Hcap Hs Ht Hst Hfuel)
    as (g1 & st1 & v & out & R1 & _ & _ & _ & _ & ((_ & Hok & _) & _)).
  exists g1, st1, (v :: out). split; [exact R1|].
  intros e He Hloop. apply (Hok e He); [discriminate | exact Hloop].
Qed.

Lemma self_loops_carry_no_flow_witness :
  exists g st out,
    run 13 capL 0 2 ([MaxFlow; Disable 2; MaxFlow; Enable 2] ++ [MaxFlow])
      graphL init []
    = Some (g, st, out)
    /\ forall e, (e < edges g)%nat ->
         from (edge_at g e) = to (edge_at g e) -> getF st e = 0.
Proof.
  apply (self_loops_carry_no_flow capL 0 2 13 [MaxFlow; Disable 2; MaxFlow; Enable 2]
           graphL).
  - intros e [<-|[<-|[<-|[<-|[]]]]]; simpl; lia.
  - intros i. do 4 (destruct i as [|i]; [simpl; lia|]). destruct i; simpl; lia.
  - simpl; lia.
  - simpl; lia.
  - lia.
  - vm_compute; lia.
Defined.

(** ** The repair of a deletion, with what it leaves *)

Lemma replay_app fuel g cap s t evs1 evs2 :
  forall acc,
  replay fuel g cap s t (evs1 ++ evs2) acc
  = match replay fuel g cap s t evs1 acc with
    | Some acc1 => replay fuel g cap s t evs2 acc1
    | None => None
    end.
Proof.
  induction evs1 as [|ev evs1 IH]; intros acc; [reflexivity|].
  cbn [replay app]. destruct (replay_event fuel g cap s t ev acc); [apply IH | reflexivity].
Qed.

(** No event of the replay takes the request for a recount back. *)
Lemma replay_event_reflow fuel g cap s t ev st fl st' fl' :
  replay_event fuel g cap s t ev (st, fl) = Some (st', fl') ->
  needsReflow fl = true -> needsReflow fl' = true.
Proof.
  unfold replay_event. intros H Hfl.
  destruct (addition ev && edgeEnabled g (chg_id ev)).
  { injection H as _ <-. exact Hfl. }
  destruct (negb (addition ev) && negb (edgeEnabled g (chg_id ev)));
    [|injection H as _ <-; exact Hfl].
  cbv zeta in H. destruct (_ =? 0); [injection H as _ <-; exact Hfl|].
  destruct (if _ <? 0 then _ else _) as [[u v] fv].
  destruct (maxFlow_residual fuel g cap u v fv _) as [[st2 flow]|]; [|discriminate].
  destruct (flow =? fv); [injection H as _ <-; exact Hfl|].
  destruct (maxFlow_p_sc fuel g cap u v s t _ st2) as [[st3 x]|]; [|discriminate].
  injection H as _ <-. reflexivity.
Qed.

Lemma replay_reflow fuel g cap s t evs :
  forall st fl st' fl',
  replay fuel g cap s t evs (st, fl) = Some (st', fl') ->
  needsReflow fl = true -> needsReflow fl' = true.
Proof.
  induction evs as [|ev evs IH]; intros st fl st' fl' H Hfl.
  - injection H as _ <-. exact Hfl.
  - cbn [replay] in H.
    destruct (replay_event fuel g cap s t ev (st, fl)) as [[st1 fl1]|] eqn:E;
      [|discriminate].
    eapply IH; [exact H|]. eapply replay_event_reflow; eauto.
Qed.

(** The two phases of the repair of a deleted edge [e] that carries flow, on
    an engine that holds a flow of value [a]: both searches return, the
    first recovers at most [fv] and leaves no residual path from [u] to [v]
    when it recovers less, and the flow that is left has the value
    [a - (fv - recovered)]. *)
Lemma repair_phases g cap s t fuel e st fl a :
  graph_wf g -> nonneg cap -> (s < nodes g)%nat -> (t < nodes g)%nat -> s <> t ->
  flow_inv g cap s t st -> (enough g cap <= fuel)%nat ->
  0 <= a -> balance g st s t a 0 0 0 ->
  edgeEnabled g e = false -> getF st e <> 0 ->
  reorient g e (disable_flag e st)
  = (from (edge_at g e), to (edge_at g e), getF st e)
  /\ 0 < getF st e
  /\ exists st2 recovered st',
       maxFlow_residual fuel g cap (from (edge_at g e)) (to (edge_at g e))
         (getF st e) (disable_flag e st) = Some (st2, recovered)
       /\ 0 <= recovered <= getF st e
       /\ (recovered < getF st e ->
           exists U, closed g cap st2 U /\ U (from (edge_at g e)) = true
                     /\ U (to (edge_at g e)) = false)
       /\ (if recovered =? getF st e
           then st' = set_F (<[e := 0]> (F st2)) st2
           else exists st3 x,
                  maxFlow_p_sc fuel g cap (from (edge_at g e)) (to (edge_at g e))
                    s t (getF st e - recovered) st2 = Some (st3, x)
                  /\ st' = set_F (<[e := 0]> (F st3)) st3)
       /\ replay_event fuel g cap s t (mkChange e false) (st, fl)
          = Some (st', mkFlags (added_Edges fl)
                         (needsReflow fl || negb (recovered =? getF st e)))
       /\ flow_inv g cap s t st'
       /\ balance g st' s t (a - (getF st e - recovered)) 0 0 0
       /\ getF st' e = 0 /\ enabled st' e = false.
Proof.
  intros Hwf Hcap Hs Ht Hst Hinv Hfuel Ha Hbal Een Hnz.
  pose proof Hinv as ((S1 & S2 & S3 & S4) & Hok & Hlab & _).
  pose proof (total_capacity_nonneg g cap Hcap) as Htot.
  assert (Hid : (e < edges g)%nat).
  { destruct (Nat.lt_ge_cases e (edges g)) as [Hi|Hi]; [exact Hi|].
    unfold getF in Hnz. rewrite nth_overflow in Hnz by lia. congruence. }
  assert (Hpos : 0 < getF st e).
  { destruct (Hok e Hid ltac:(discriminate)) as [C _].
    destruct (enabled st e); lia. }
  assert (Hn : forall (A : Type) (d : A) (l : list A) (i : nat),
             nth i (<[i := d]> l) d = d).
  { intros A d l i. destruct (Nat.lt_ge_cases i (length l)) as [Hl|Hl].
    - rewrite nth_lookup, list_lookup_insert_eq by exact Hl. reflexivity.
    - rewrite list_insert_ge by exact Hl. now apply nth_overflow. }
  split.
  { unfold reorient. change (getF (disable_flag e st) e) with (getF st e).
    destruct (Z.ltb_spec (getF st e) 0) as [E|_]; [lia | reflexivity]. }
  split; [exact Hpos|].
  rewrite (replay_event_deletion fuel g cap s t (mkChange e false) st fl eq_refl Een Hpos).
  cbn [chg_id].
  destruct (repair_start g cap s t e st a Hwf Hinv Ha Hbal Hid Hpos) as (R & Huv & Hle).
  fold (disable_flag e st) in R.
  destruct (graph_wf_edge g e Hwf Hid) as [Hu Hv].
  set (u := from (edge_at g e)) in *. set (v := to (edge_at g e)) in *.
  set (fv := getF st e) in *.
  pose proof (cap_le_total g cap e Hcap Hid) as Hct.
  unfold enough in Hfuel.
  unfold maxFlow_residual.
  destruct (residual_loop_ok g cap s t e u v a fv Hwf Hu Huv ltac:(lia)
              fuel fuel 0 (disable_flag e st)
              ltac:(replace (fv - 0) with fv by lia; exact R)
              ltac:(lia) ltac:(lia))
    as (st2 & flow & L1 & L2 & L3).
  rewrite L1.
  pose proof (residual_loop_frame _ _ _ _ _ _ _ _ _ _ _ L1) as (_ & FE2 & _).
  pose proof (residual_loop_bound _ _ _ _ _ _ _ _ _ _ _ L1 ltac:(lia)) as Hfl.
  assert (Hdis : forall st3, edge_enabled st3 = edge_enabled st2 ->
            enabled (set_F (<[e := 0]> (F st3)) st3) e = false).
  { intros st3 E3. unfold enabled. simpl. rewrite E3, FE2.
    unfold disable_flag. simpl. apply Hn. }
  assert (Hzero : forall st3, getF (set_F (<[e := 0]> (F st3)) st3) e = 0).
  { intros st3. unfold getF. simpl. apply Hn. }
  destruct (Z.eqb_spec flow fv) as [Efl|Efl].
  - assert (Eb : (flow =? fv) = true) by (apply Z.eqb_eq; exact Efl).
    exists st2, flow, (set_F (<[e := 0]> (F st2)) st2). rewrite !Eb.
    split; [reflexivity|]. split; [lia|]. split; [intros; lia|].
    split; [reflexivity|]. split.
    { simpl negb. rewrite orb_false_r. now destruct fl. }
    assert (L2' : repair_inv g cap s t e u v a 0 st2)
      by (replace 0 with (fv - flow) by lia; exact L2).
    split; [apply (repair_end g cap s t e u v a st2 L2')|].
    split.
    { replace (a - (fv - flow)) with a by lia.
      apply (repair_end_value g cap s t e u v a st2 L2'). }
    split; [apply Hzero | now apply Hdis].
  - destruct (L3 ltac:(lia)) as (U & U1 & U2 & U3).
    destruct (shortfall_cut g cap s t e u v a (fv - flow) st2 U Hwf Hs Ht Hu Hv
                L2 ltac:(lia) U1 U2 U3) as (U4 & U5 & U6).
    unfold maxFlow_p_sc.
    destruct (shortcut_loop_ok g cap s t e u v U (fv - flow) Hwf Hs Ht Hu Hv Huv
                ltac:(lia) U2 U3 U5 fuel fuel 0 (set_shortCircuitFlow 0 st2) a
                ltac:(replace (fv - flow - 0) with (fv - flow) by lia; exact L2)
                U1 ltac:(lia) eq_refl ltac:(lia) ltac:(lia))
      as (st3 & flow3 & P1 & P2).
    rewrite P1.
    pose proof (shortcut_loop_frame _ _ _ _ _ _ _ _ _ _ _ _ _ P1) as (_ & FE3 & _).
    replace (a - (fv - flow - 0)) with (a - (fv - flow)) in P2 by lia.
    assert (Eb : (flow =? fv) = false) by (apply Z.eqb_neq; exact Efl).
    exists st2, flow, (set_F (<[e := 0]> (F st3)) st3). rewrite !Eb.
    split; [reflexivity|]. split; [lia|].
    split; [intros _; exists U; auto|].
    split; [exists st3, flow3; split; [exact P1 | reflexivity]|].
    split; [simpl negb; now rewrite orb_true_r|].
    split; [apply (repair_end g cap s t e u v _ st3 P2)|].
    split; [apply (repair_end_value g cap s t e u v _ st3 P2)|].
    split; [apply Hzero | apply Hdis; exact FE3].
Qed.

(** C4, as the code has it.  Take any incremental [maxFlow(s,t)] call on an
    engine that holds a flow, and any deletion of an edge [e] among the
    events that it replays, in a replay of any length.  The events before
    it are replayed; if [F[e] <> 0] then, the engine clears the flag of [e],
    orients its endpoints [(u,v)] along the flow [fv = F[e] > 0], and runs
    the residual-graph max-flow from [u] to [v] bounded by [fv], which
    returns having recovered at most [fv], and which leaves no residual path
    from [u] to [v] when it recovers less.  In that case, with
    [delta = fv - recovered > 0], the shortcut-augmented max-flow from [u]
    to [v] runs, and returns, with a shortcut arc of capacity [delta] that
    goes from [s] to [t], the source and the sink of the [maxFlow] call: the
    flow that is left is conserved and its value is lower by [delta], which
    is what an arc from [s] to [t] gives and an arc from [u] to [v] would
    not.  [F[e]] is zero afterwards, a recount is requested and no later
    event takes the request back; the call returns, and after the replay it
    recounts the cached value as the sum of [F] over the enabled edges that
    leave [s], which is the returned value unless edges were added and
    [maxFlow_p(s,t)] goes on from it. *)
Theorem deletion_repair_shortcut (g : DynamicGraph) (cap : list Z) (s t fuel : nat)
    (st : EKD) (evs1 evs2 : list EdgeChange) (e : nat) :
  graph_wf g -> nonneg cap ->
  (s < nodes g)%nat -> (t < nodes g)%nat -> s <> t ->
  (enough g cap <= fuel)%nat ->
  0 < last_modification st ->
  modifications g <> last_modification st ->
  historyclears g = last_history_clear st ->
  changed g = false ->
  flow_inv g cap s t st ->
  pending g st = evs1 ++ mkChange e false :: evs2 ->
  edgeEnabled g e = false ->
  exists st1 fl1,
    replay fuel g cap s t evs1 (st, mkFlags false false) = Some (st1, fl1)
    /\ (getF st1 e <> 0 ->
        exists u v fv a st2 recovered st1' reflow stR flR st4,
          reorient g e (disable_flag e st1) = (u, v, fv) /\ 0 < fv
          /\ 0 <= a /\ balance g st1 s t a 0 0 0
          /\ maxFlow_residual fuel g cap u v fv (disable_flag e st1)
             = Some (st2, recovered)
          /\ 0 <= recovered <= fv
          /\ (recovered < fv -> ~ reach g cap st2 u 1 v)
          /\ reflow = negb (recovered =? fv)
          /\ (if reflow
              then exists st3 x,
                     maxFlow_p_sc fuel g cap u v s t (fv - recovered) st2
                     = Some (st3, x)
                     /\ st1' = set_F (<[e := 0]> (F st3)) st3
              else st1' = set_F (<[e := 0]> (F st2)) st2)
          /\ deletion_repair (arc_s_t s t) fuel g cap e st1 = Some (st1', reflow)
          /\ replay_event fuel g cap s t (mkChange e false) (st1, fl1)
             = Some (st1', mkFlags (added_Edges fl1) (needsReflow fl1 || reflow))
          /\ getF st1' e = 0 /\ enabled st1' e = false
          /\ balance g st1' s t (a - (fv - recovered)) 0 0 0
          /\ replay fuel g cap s t evs2
               (st1', mkFlags (added_Edges fl1) (needsReflow fl1 || reflow))
             = Some (stR, flR)
          /\ (reflow = true -> needsReflow flR = true)
          /\ maxFlow fuel g cap s t st = Some (set_stamps g st4, f st4)
          /\ (needsReflow flR = true ->
              if added_Edges flR
              then maxFlow_p fuel fuel g cap s t (set_f (sum_out g s stR) stR)
                   = Some st4
              else st4 = set_f (sum_out g s stR) stR)).
Proof.
  intros Hwf Hcap Hs Ht Hst Hfuel Hlm Hmod Hhc Hch Hinv Hpend Hen.
  destruct (replay_ok g cap s t fuel Hwf Hcap Hs Ht Hst Hfuel evs1 st
              (mkFlags false false) Hinv) as (st1 & fl1 & E1 & I1 & _).
  exists st1, fl1. split; [exact E1|]. intros Hnz.
  pose proof I1 as (_ & _ & _ & (a & Ha & Hbal)).
  destruct (repair_phases g cap s t fuel e st1 fl1 a Hwf Hcap Hs Ht Hst I1 Hfuel
              Ha Hbal Hen Hnz)
    as (Hre & Hpos & st2 & recovered & st1' & P1 & P2 & P3 & P4 & P5 & P6 & P7 & P8 & P9).
  set (u := from (edge_at g e)) in *. set (v := to (edge_at g e)) in *.
  set (fv := getF st1 e) in *.
  set (reflow := negb (recovered =? fv)) in *.
  destruct (replay_ok g cap s t fuel Hwf Hcap Hs Ht Hst Hfuel evs2 st1'
              (mkFlags (added_Edges fl1) (needsReflow fl1 || reflow)) P6)
    as (stR & flR & ER & IR & _).
  assert (Hrefl : reflow = true -> needsReflow flR = true).
  { intros Hr. apply (replay_reflow _ _ _ _ _ _ _ _ _ _ ER). simpl.
    rewrite Hr. apply orb_true_r. }
  (* the call *)
  assert (Hall : replay fuel g cap s t (drop (history_qhead st) (history g))
                   (st, mkFlags false false) = Some (stR, flR)).
  { fold (pending g st). rewrite Hpend, replay_app, E1. cbn [replay].
    rewrite P5. exact ER. }
  set (st3 := if needsReflow flR then set_f (sum_out g s stR) stR else stR).
  assert (I3 : flow_inv g cap s t st3).
  { apply (flow_inv_same g cap s t stR); [..|exact IR];
      unfold st3; destruct (needsReflow flR); reflexivity. }
  assert (Htail : exists st4,
            (if added_Edges flR then maxFlow_p fuel fuel g cap s t st3 else Some st3)
            = Some st4).
  { destruct (added_Edges flR); [|eauto].
    pose proof I3 as (Z1 & Z2 & Z3 & (a3 & Ha3 & Z4)).
    pose proof (total_capacity_nonneg g cap Hcap) as Htot. unfold enough in Hfuel.
    destruct (maxFlow_p_ok g cap s t Hwf Hcap Hs Hst fuel fuel st3 a3 Z1 Z2 Z3 Z4 Ha3
                ltac:(lia) ltac:(lia)) as (st4 & E4 & _).
    eauto. }
  destruct Htail as (st4 & E4).
  exists u, v, fv, a, st2, recovered, st1', reflow, stR, flR, st4.
  split; [exact Hre|]. split; [exact Hpos|]. split; [exact Ha|]. split; [exact Hbal|].
  split; [exact P1|]. split; [exact P2|].
  split.
  { intros Hlt Hr. destruct (P3 Hlt) as (U & U1 & U2 & U3).
    pose proof (closed_reach g cap st2 U u v U1 U2 Hr). congruence. }
  split; [reflexivity|].
  split.
  { unfold reflow. destruct (recovered =? fv); exact P4. }
  split.
  { unfold deletion_repair. rewrite Hre, P1. unfold reflow.
    destruct (recovered =? fv).
    - simpl. now rewrite P4.
    - destruct P4 as (st3' & x & Q1 & Q2). unfold arc_s_t. simpl fst. simpl snd.
      rewrite Q1, Q2. reflexivity. }
  split; [exact P5|]. split; [exact P8|]. split; [exact P9|]. split; [exact P7|].
  split; [exact ER|]. split; [exact Hrefl|].
  split.
  { rewrite (maxFlow_incremental fuel g cap s t st Hlm Hmod Hhc Hch), Hall.
    cbv zeta. fold st3. rewrite E4. reflexivity. }
  intros Hr. unfold st3 in E4. rewrite Hr in E4.
  destruct (added_Edges flR); [exact E4 | now injection E4 as <-].
Qed.

Lemma deletion_repair_shortcut_witness :
  exists st1 fl1,
    replay 17 graphD capA 0 3 [mkChange 1 false] (stateA, mkFlags false false)
    = Some (st1, fl1)
    /\ getF st1 3 = 2
    /\ (getF st1 3 <> 0 ->
        exists u v fv a st2 recovered st1' reflow stR flR st4,
          reorient graphD 3 (disable_flag 3 st1) = (u, v, fv) /\ 0 < fv
          /\ 0 <= a /\ balance graphD st1 0 3 a 0 0 0
          /\ maxFlow_residual 17 graphD capA u v fv (disable_flag 3 st1)
             = Some (st2, recovered)
          /\ 0 <= recovered <= fv
          /\ (recovered < fv -> ~ reach graphD capA st2 u 1 v)
          /\ reflow = negb (recovered =? fv)
          /\ (if reflow
              then exists st3 x,
                     maxFlow_p_sc 17 graphD capA u v 0 3 (fv - recovered) st2
                     = Some (st3, x)
                     /\ st1' = set_F (<[3%nat := 0]> (F st3)) st3
              else st1' = set_F (<[3%nat := 0]> (F st2)) st2)
          /\ deletion_repair (arc_s_t 0 3) 17 graphD capA 3 st1 = Some (st1', reflow)
          /\ replay_event 17 graphD capA 0 3 (mkChange 3 false) (st1, fl1)
             = Some (st1', mkFlags (added_Edges fl1) (needsReflow fl1 || reflow))
          /\ getF st1' 3 = 0 /\ enabled st1' 3 = false
          /\ balance graphD st1' 0 3 (a - (fv - recovered)) 0 0 0
          /\ replay 17 graphD capA 0 3 [mkChange 1 true]
               (st1', mkFlags (added_Edges fl1) (needsReflow fl1 || reflow))
             = Some (stR, flR)
          /\ (reflow = true -> needsReflow flR = true)
          /\ maxFlow 17 graphD capA 0 3 stateA = Some (set_stamps graphD st4, f st4)
          /\ (needsReflow flR = true ->
              if added_Edges flR
              then maxFlow_p 17 17 graphD capA 0 3 (set_f (sum_out graphD 0 stR) stR)
                   = Some st4
              else st4 = set_f (sum_out graphD 0 stR) stR)).
Proof.
  assert (H : graph_wf graphD /\ nonneg capA
              /\ flow_inv graphD capA 0 3 stateA).
  { split; [|split].
    - intros e [<-|[<-|[<-|[<-|[<-|[]]]]]]; simpl; lia.
    - intros i. do 5 (destruct i as [|i]; [simpl; lia|]). destruct i; simpl; lia.
    - assert (En : edges graphD = 5%nat) by reflexivity.
      assert (Nn : nodes graphD = 4%nat) by reflexivity.
      split; [repeat split; reflexivity|].
      split.
      { intros i Hi _. rewrite En in Hi.
        do 5 (destruct i as [|i];
              [split; [vm_compute; split; discriminate | discriminate]|]).
        exfalso; lia. }
      split.
      { split; [reflexivity|]. intros i Hi _. rewrite En in Hi.
        do 5 (destruct i as [|i]; [reflexivity|]). exfalso; lia. }
      exists 5. split; [lia|]. intros x Hx. rewrite Nn in Hx.
      do 4 (destruct x as [|x]; [reflexivity|]). exfalso; lia. }
  destruct H as (Hwf & Hcap & Hinv).
  destruct (deletion_repair_shortcut graphD capA 0 3 17 stateA
              [mkChange 1 false] [mkChange 1 true] 3 Hwf Hcap)
    as (st1 & fl1 & E1 & R); [..| exists st1, fl1; split; [exact E1|]; split; [|exact R];
                                  assert (E : Some (st1, fl1)
                                              = replay 17 graphD capA 0 3 [mkChange 1 false]
                                                  (stateA, mkFlags false false))
                                    by (symmetry; exact E1);
                                  vm_compute in E; injection E as -> ->; reflexivity].
  - simpl; lia.
  - simpl; lia.
  - lia.
  - vm_compute; lia.
  - reflexivity.
  - discriminate.
  - reflexivity.
  - reflexivity.
  - exact Hinv.
  - reflexivity.
  - reflexivity.
Defined.

(** ** The cut that [minCut] returns *)

Lemma explored_mono g cap st st' u :
  F st' = F st -> (forall x, seenb st x = true -> seenb st' x = true) ->
  explored g cap st u -> explored g cap st' u.
Proof.
  intros HF Hs H i Hi He. unfold getF. rewrite HF.
  destruct (H i Hi He) as [H1 H2]. split; intros A B; apply Hs; auto.
Qed.

Lemma seen_push g U0 st v :
  explore_inv g U0 st -> (v < nodes g)%nat -> U0 v = true -> seenb st v = false ->
  let st' := set_seen (<[v := true]> (seen st)) (set_Q (Q st ++ [v]) st) in
  explore_inv g U0 st' /\ seenb st' v = true
  /\ (forall x, seenb st x = true -> seenb st' x = true).
Proof.
  intros (I1 & I2 & I3 & I4) Hv HU Hns st'.
  assert (Hnth : forall x, seenb st' x = if Nat.eq_dec x v then true else seenb st x).
  { intros x. unfold seenb, st'. simpl. apply nth_upd. lia. }
  split; [|split].
  - split; [unfold st'; simpl; now rewrite length_insert|]. split; [|split].
    + unfold st'; simpl.
      apply List.NoDup_app; [exact I2 | constructor; [intros [] | constructor] |].
      intros a Ha [<-|[]]. apply I3 in Ha. congruence.
    + intros x. rewrite Hnth. unfold st'; simpl. rewrite in_app_iff. simpl.
      destruct (Nat.eq_dec x v) as [->|Hne].
      * split; auto.
      * rewrite I3. split; [auto | intros [H|[H|[]]]; [exact H | congruence]].
    + intros x Hx. unfold st' in Hx; simpl in Hx. apply in_app_or in Hx.
      destruct Hx as [Hx|[<-|[]]]; auto.
  - rewrite Hnth. destruct (Nat.eq_dec v v); congruence.
  - intros x Hx. rewrite Hnth. destruct (Nat.eq_dec x v); auto.
Qed.

Section Exploration.

Variable g : DynamicGraph.
Variable cap : list Z.
Variable U0 : nat -> bool.
Hypothesis Hwf : graph_wf g.

Lemma cut_scan_out_ok u es :
  forall st cut,
  (forall e, In e es -> In e (incident g u)) ->
  (forall e, In e es -> edgeEnabled g (id e) = true ->
     nth (id e) cap 0 - getF st (id e) <> 0 -> U0 (node e) = true) ->
  explore_inv g U0 st ->
  let r := cut_scan_out g cap u es st cut in
  F (fst r) = F st /\ edge_enabled (fst r) = edge_enabled st
  /\ explore_inv g U0 (fst r)
  /\ (exists new, Q (fst r) = Q st ++ new)
  /\ (forall x, seenb st x = true -> seenb (fst r) x = true)
  /\ (forall e, In e es -> edgeEnabled g (id e) = true ->
        nth (id e) cap 0 - getF st (id e) <> 0 -> seenb (fst r) (node e) = true)
  /\ snd r = cut ++ map (fun e => mkCut u (node e) (id e))
                      (List.filter (fun e => edgeEnabled g (id e)
                                             && (nth (id e) cap 0 - getF st (id e) =? 0)) es).
Proof.
  induction es as [|e es IH]; intros st cut Hin HU Hinv; cbv zeta.
  - simpl. rewrite app_nil_r.
    split; [reflexivity|]. split; [reflexivity|]. split; [exact Hinv|].
    split; [exists []; now rewrite app_nil_r|]. split; [auto|].
    split; [intros e [] | reflexivity].
  - assert (Hin' : forall e', In e' es -> In e' (incident g u)) by (intros; apply Hin; now right).
    assert (HU' : forall e', In e' es -> edgeEnabled g (id e') = true ->
               nth (id e') cap 0 - getF st (id e') <> 0 -> U0 (node e') = true)
      by (intros; apply HU; auto; now right).
    simpl. destruct (edgeEnabled g (id e)) eqn:Een; simpl.
    + destruct (nth (id e) cap 0 - getF st (id e) =? 0) eqn:Esat; simpl.
      * apply Z.eqb_eq in Esat.
        destruct (IH st (cut ++ [mkCut u (node e) (id e)]) Hin' HU' Hinv)
          as (A1 & A2 & A3 & A4 & A5 & A6 & A7).
        split; [exact A1|]. split; [exact A2|]. split; [exact A3|].
        split; [exact A4|]. split; [exact A5|]. split.
        -- intros e' [<-|He'] He1 He2; [congruence | now apply A6].
        -- rewrite A7, <- app_assoc. reflexivity.
      * apply Z.eqb_neq in Esat.
        destruct (incident_arcs g u Hwf e (Hin e (or_introl eq_refl))) as [Hn _].
        destruct (nth (node e) (seen st) false) eqn:Eseen; simpl.
        -- destruct (IH st cut Hin' HU' Hinv) as (A1 & A2 & A3 & A4 & A5 & A6 & A7).
           split; [exact A1|]. split; [exact A2|]. split; [exact A3|].
           split; [exact A4|]. split; [exact A5|]. split; [|exact A7].
           intros e' [<-|He'] He1 He2; [apply A5; exact Eseen | now apply A6].
        -- destruct (seen_push g U0 st (node e) Hinv Hn
                       (HU e (or_introl eq_refl) Een Esat) Eseen) as (B1 & B2 & B3).
           set (st1 := set_seen (<[node e := true]> (seen st))
                         (set_Q (Q st ++ [node e]) st)) in *.
           destruct (IH st1 cut Hin' HU' B1) as (A1 & A2 & A3 & A4 & A5 & A6 & A7).
           split; [exact A1|]. split; [exact A2|]. split; [exact A3|].
           split; [|split; [|split]].
           ++ destruct A4 as (new & A4). exists (node e :: new). rewrite A4.
              unfold st1; simpl. now rewrite <- app_assoc.
           ++ intros x Hx. apply A5, B3, Hx.
           ++ intros e' [<-|He'] He1 He2; [apply A5; exact B2 | now apply A6].
           ++ exact A7.
    + destruct (IH st cut Hin' HU' Hinv) as (A1 & A2 & A3 & A4 & A5 & A6 & A7).
      split; [exact A1|]. split; [exact A2|]. split; [exact A3|].
      split; [exact A4|]. split; [exact A5|]. split; [|exact A7].
      intros e' [<-|He'] He1 He2; [congruence | now apply A6].
Qed.

Lemma cut_scan_in_ok u es :
  forall st,
  (forall e, In e es -> In e (incoming g u)) ->
  (forall e, In e es -> edgeEnabled g (id e) = true ->
     getF st (id e) <> 0 -> U0 (node e) = true) ->
  explore_inv g U0 st ->
  let st' := cut_scan_in g es st in
  F st' = F st /\ edge_enabled st' = edge_enabled st
  /\ explore_inv g U0 st'
  /\ (exists new, Q st' = Q st ++ new)
  /\ (forall x, seenb st x = true -> seenb st' x = true)
  /\ (forall e, In e es -> edgeEnabled g (id e) = true ->
        getF st (id e) <> 0 -> seenb st' (node e) = true).
Proof.
  induction es as [|e es IH]; intros st Hin HU Hinv; cbv zeta.
  - simpl.
    split; [reflexivity|]. split; [reflexivity|]. split; [exact Hinv|].
    split; [exists []; now rewrite app_nil_r|]. split; [auto|].
    intros e [].
  - assert (Hin' : forall e', In e' es -> In e' (incoming g u)) by (intros; apply Hin; now right).
    assert (HU' : forall e', In e' es -> edgeEnabled g (id e') = true ->
               getF st (id e') <> 0 -> U0 (node e') = true)
      by (intros; apply HU; auto; now right).
    simpl. destruct (edgeEnabled g (id e)) eqn:Een; simpl.
    + destruct (getF st (id e) =? 0) eqn:Ez; simpl.
      * apply Z.eqb_eq in Ez.
        destruct (IH st Hin' HU' Hinv) as (A1 & A2 & A3 & A4 & A5 & A6).
        split; [exact A1|]. split; [exact A2|]. split; [exact A3|].
        split; [exact A4|]. split; [exact A5|].
        intros e' [<-|He'] He1 He2; [congruence | now apply A6].
      * apply Z.eqb_neq in Ez.
        destruct (incoming_arcs g u Hwf e (Hin e (or_introl eq_refl))) as [Hn _].
        destruct (nth (node e) (seen st) false) eqn:Eseen; simpl.
        -- destruct (IH st Hin' HU' Hinv) as (A1 & A2 & A3 & A4 & A5 & A6).
           split; [exact A1|]. split; [exact A2|]. split; [exact A3|].
           split; [exact A4|]. split; [exact A5|].
           intros e' [<-|He'] He1 He2; [apply A5; exact Eseen | now apply A6].
        -- destruct (seen_push g U0 st (node e) Hinv Hn
                       (HU e (or_introl eq_refl) Een Ez) Eseen) as (B1 & B2 & B3).
           set (st1 := set_seen (<[node e := true]> (seen st))
                         (set_Q (Q st ++ [node e]) st)) in *.
           destruct (IH st1 Hin' HU' B1) as (A1 & A2 & A3 & A4 & A5 & A6).
           split; [exact A1|]. split; [exact A2|]. split; [exact A3|].
           split; [|split].
           ++ destruct A4 as (new & A4). exists (node e :: new). rewrite A4.
              unfold st1; simpl. now rewrite <- app_assoc.
           ++ intros x Hx. apply A5, B3, Hx.
           ++ intros e' [<-|He'] He1 He2; [apply A5; exact B2 | now apply A6].
    + destruct (IH st Hin' HU' Hinv) as (A1 & A2 & A3 & A4 & A5 & A6).
      split; [exact A1|]. split; [exact A2|]. split; [exact A3|].
      split; [exact A4|]. split; [exact A5|].
      intros e' [<-|He'] He1 He2; [congruence | now apply A6].
Qed.

Lemma saturated_out_frame st st' u :
  F st' = F st -> saturated_out g cap st' u = saturated_out g cap st u.
Proof. intros HF. unfold saturated_out, getF. now rewrite HF. Qed.

Lemma queue_length st : explore_inv g U0 st -> (length (Q st) <= nodes g)%nat.
Proof.
  intros (_ & I2 & _ & I4).
  rewrite <- (length_seq (nodes g) 0).
  apply NoDup_incl_length; [exact I2|].
  intros x Hx. apply in_seq. destruct (I4 x Hx). lia.
Qed.

(** [U0] is closed under the arcs that the exploration follows. *)
Variable F0 : list Z.
Hypothesis Hout : forall i, (i < edges g)%nat -> edgeEnabled g i = true ->
  U0 (from (edge_at g i)) = true -> nth i cap 0 - nth i F0 0 <> 0 ->
  U0 (to (edge_at g i)) = true.
Hypothesis Hinc : forall i, (i < edges g)%nat -> edgeEnabled g i = true ->
  U0 (to (edge_at g i)) = true -> nth i F0 0 <> 0 ->
  U0 (from (edge_at g i)) = true.

Lemma cut_loop_ok fuel :
  forall j st cut,
  F st = F0 -> explore_inv g U0 st ->
  (forall k u, (k < j)%nat -> Q st !! k = Some u -> explored g cap st u) ->
  (j <= length (Q st))%nat -> (nodes g - j < fuel)%nat ->
  exists st' cut',
    cut_loop fuel g cap j st cut = Some (st', cut')
    /\ F st' = F st /\ edge_enabled st' = edge_enabled st
    /\ explore_inv g U0 st'
    /\ (exists new, Q st' = Q st ++ new)
    /\ (forall x, seenb st x = true -> seenb st' x = true)
    /\ (forall u, In u (Q st') -> explored g cap st' u)
    /\ cut' = cut ++ flat_map (saturated_out g cap st) (drop j (Q st')).
Proof.
  induction fuel as [|fuel IH]; intros j st cut HF Hinv Hdone Hj Hfuel; [lia|].
  simpl. destruct (Q st !! j) as [u|] eqn:EQ.
  - pose proof (lookup_lt_Some _ _ _ EQ) as Hlt.
    pose proof (queue_length st Hinv) as Hql.
    assert (HuQ : In u (Q st)).
    { apply list_elem_of_In. eapply list_elem_of_lookup_2; eauto. }
    pose proof Hinv as (_ & _ & _ & I4). destruct (I4 u HuQ) as [Hun HuU].
    destruct (cut_scan_out_ok u (incident g u) st cut (fun e H => H)) as
      (A1 & A2 & A3 & (n1 & A4) & A5 & A6 & A7); [|exact Hinv|].
    { intros [v i] He Hen Hne. apply incident_In in He. destruct He as (Hi & E1 & E2).
      simpl in *. rewrite <- E2. apply Hout; auto.
      - now rewrite E1.
      - unfold getF in Hne. now rewrite HF in Hne. }
    destruct (cut_scan_out g cap u (incident g u) st cut) as [st1 cut1].
    cbn [fst snd] in *.
    destruct (cut_scan_in_ok u (incoming g u) st1 (fun e H => H)) as
      (B1 & B2 & B3 & (n2 & B4) & B5 & B6); [|exact A3|].
    { intros [v i] He Hen Hne. apply incoming_In in He. destruct He as (Hi & E1 & E2).
      simpl in *. rewrite <- E2. apply Hinc; auto.
      - now rewrite E1.
      - unfold getF in Hne. now rewrite A1, HF in Hne. }
    set (st2 := cut_scan_in g (incoming g u) st1) in *.
    assert (HF2 : F st2 = F st) by congruence.
    assert (Hmono : forall x, seenb st x = true -> seenb st2 x = true)
      by (intros x Hx; apply B5, A5, Hx).
    assert (Hexp : explored g cap st2 u).
    { intros i Hi Hen. split.
      - intros E1 Hne. apply B5.
        apply (A6 (mkEdge (to (edge_at g i)) i)); simpl.
        + apply incident_In. auto.
        + exact Hen.
        + unfold getF in *. now rewrite <- HF2.
      - intros E1 Hne.
        apply (B6 (mkEdge (from (edge_at g i)) i)); simpl.
        + apply incoming_In. auto.
        + exact Hen.
        + unfold getF in *. now rewrite <- B1. }
    assert (HQ2 : Q st2 = Q st ++ (n1 ++ n2)).
    { rewrite B4, A4. now rewrite <- app_assoc. }
    destruct (IH (S j) st2 cut1) as (st' & cut' & C1 & C2 & C3 & C4 & (n3 & C5) & C6 & C7 & C8).
    + congruence.
    + exact B3.
    + intros k u' Hk Hl. rewrite HQ2, lookup_app_l in Hl by lia.
      destruct (Nat.eq_dec k j) as [->|Hne].
      * assert (u' = u) by congruence. subst u'. exact Hexp.
      * apply (explored_mono g cap st st2 u' HF2 Hmono).
        apply (Hdone k u'); [lia | exact Hl].
    + rewrite HQ2, length_app. lia.
    + lia.
    + exists st', cut'. split; [exact C1|]. split; [congruence|]. split; [congruence|].
      split; [exact C4|]. split.
      { exists ((n1 ++ n2) ++ n3). rewrite C5, HQ2. now rewrite <- app_assoc. }
      split; [intros x Hx; apply C6, Hmono, Hx|]. split; [exact C7|].
      assert (Hj' : Q st' !! j = Some u).
      { rewrite C5, HQ2, <- app_assoc, lookup_app_l by lia. exact EQ. }
      rewrite (drop_S _ _ _ Hj'). simpl. rewrite C8, A7.
      rewrite <- app_assoc. f_equal. f_equal.
      apply flat_map_ext. intros a. now apply saturated_out_frame.
  - apply lookup_ge_None in EQ.
    exists st, cut. split; [reflexivity|]. split; [reflexivity|]. split; [reflexivity|].
    split; [exact Hinv|]. split; [exists []; now rewrite app_nil_r|].
    split; [auto|]. split.
    + intros u Hu. apply list_elem_of_In, list_elem_of_lookup_1 in Hu.
      destruct Hu as (k & Hk). apply (Hdone k u); [|exact Hk].
      apply lookup_lt_Some in Hk. lia.
    + rewrite drop_ge by lia. simpl. now rewrite app_nil_r.
Qed.

End Exploration.

(** *** The entries of the cut vector *)

Lemma crossing_In p k es c :
  In c (crossing p k es)
  <-> exists j e, nth_error es j = Some e
                  /\ c = mkCut (from e) (to e) (k + j) /\ p (k + j)%nat e = true.
Proof.
  revert k. induction es as [|e0 es IH]; intros k; simpl.
  - split; [intros [] | intros (j & e & H & _); now destruct j].
  - rewrite in_app_iff, IH. split.
    + intros [H|(j & e & H1 & H2 & H3)].
      * destruct (p k e0) eqn:Ep; [|destruct H]. destruct H as [<-|[]].
        exists 0%nat, e0. rewrite Nat.add_0_r. auto.
      * exists (S j), e. rewrite Nat.add_succ_r. auto.
    + intros (j & e & H1 & H2 & H3). destruct j as [|j].
      * left. simpl in H1. injection H1 as ->. rewrite Nat.add_0_r in *.
        rewrite H3. now left.
      * right. exists j, e. rewrite Nat.add_succ_r in *. auto.
Qed.

Lemma crossing_NoDup p k es : List.NoDup (crossing p k es).
Proof.
  revert k. induction es as [|e es IH]; intros k; simpl; [constructor|].
  destruct (p k e); simpl; [|apply IH].
  constructor; [|apply IH].
  intros H. apply crossing_In in H. destruct H as (j & e' & _ & H & _).
  injection H as _ _ H. lia.
Qed.

Lemma cut_weight_app cap a b :
  cut_weight cap (a ++ b) = cut_weight cap a + cut_weight cap b.
Proof.
  unfold cut_weight. induction a as [|c a IH]; simpl; [reflexivity|].
  rewrite IH. lia.
Qed.

Lemma crossing_weight cap p k es :
  cut_weight cap (crossing p k es)
  = esum (fun i e => if p i e then nth i cap 0 else 0) k es.
Proof.
  revert k. induction es as [|e es IH]; intros k; simpl; [reflexivity|].
  rewrite cut_weight_app, IH. destruct (p k e); unfold cut_weight; simpl; lia.
Qed.

Lemma cut_weight_perm cap a b :
  Permutation a b -> cut_weight cap a = cut_weight cap b.
Proof.
  unfold cut_weight. induction 1; simpl; lia.
Qed.

Lemma adj_out_ids u k es :
  List.NoDup (map id (adj_out u k es))
  /\ forall e, In e (adj_out u k es) -> (k <= id e)%nat.
Proof.
  revert k. induction es as [|e0 es IH]; intros k; simpl.
  - split; [constructor | intros e []].
  - destruct (IH (S k)) as [H1 H2].
    destruct (from e0 =? u)%nat; simpl.
    + split.
      * constructor; [|exact H1]. intros H. apply in_map_iff in H.
        destruct H as (e & E & He). apply H2 in He. lia.
      * intros e [<-|He]; [simpl; lia | apply H2 in He; lia].
    + split; [exact H1|]. intros e He. apply H2 in He. lia.
Qed.

Lemma NoDup_map_filter {A B} (h : A -> B) (p : A -> bool) l :
  List.NoDup (map h l) -> List.NoDup (map h (List.filter p l)).
Proof.
  induction l as [|x l IH]; simpl; [auto|].
  intros H. inversion H as [|? ? Hn Hd]; subst.
  destruct (p x); simpl; [|now apply IH].
  constructor; [|now apply IH].
  intros Hin. apply Hn. apply in_map_iff in Hin. destruct Hin as (y & E & Hy).
  apply filter_In in Hy. apply in_map_iff. exists y. tauto.
Qed.

Lemma saturated_out_In g cap st u c :
  In c (saturated_out g cap st u)
  <-> cu c = u /\ (cid c < edges g)%nat
      /\ from (edge_at g (cid c)) = u /\ to (edge_at g (cid c)) = cv c
      /\ edgeEnabled g (cid c) = true /\ nth (cid c) cap 0 - getF st (cid c) = 0.
Proof.
  unfold saturated_out. rewrite in_map_iff. split.
  - intros ([v i] & <- & H). apply filter_In in H. destruct H as [H1 H2].
    apply incident_In in H1. simpl in *. apply andb_true_iff in H2.
    destruct H2 as [H2 H3]. apply Z.eqb_eq in H3. tauto.
  - intros (H1 & H2 & H3 & H4 & H5 & H6). exists (mkEdge (cv c) (cid c)). split.
    + destruct c; simpl in *. now subst.
    + apply filter_In. split.
      * apply incident_In. auto.
      * simpl. rewrite H5. simpl. now apply Z.eqb_eq.
Qed.

Lemma saturated_out_NoDup g cap st u : List.NoDup (map cid (saturated_out g cap st u)).
Proof.
  unfold saturated_out. rewrite map_map. simpl.
  apply NoDup_map_filter. apply adj_out_ids.
Qed.

Lemma flat_saturated_NoDup g cap st q :
  List.NoDup q -> List.NoDup (flat_map (saturated_out g cap st) q).
Proof.
  induction q as [|u q IH]; simpl; [constructor|].
  intros H. inversion H as [|? ? Hn Hd]; subst.
  apply List.NoDup_app.
  - eapply NoDup_map_inv. apply saturated_out_NoDup.
  - now apply IH.
  - intros c H1 H2. apply saturated_out_In in H1. destruct H1 as [H1 _].
    apply in_flat_map in H2. destruct H2 as (u' & Hu' & H2).
    apply saturated_out_In in H2. destruct H2 as [H2 _]. congruence.
Qed.

(** X13.  On a call that starts over, [minCut(s,t,cut)] with an empty vector
    returns the value of the flow together with a minimum cut: [s] is seen
    and [t] is not, the vector holds exactly the enabled edges from a seen
    to an unseen node, each once, all of them without spare capacity, their
    capacities sum to the returned value, and no cut between [s] and [t]
    has a smaller capacity. *)
Theorem minCut_start_over (cap : list Z) (s t fuel : nat)
    (g : DynamicGraph) (st : EKD) :
  graph_wf g -> nonneg cap ->
  (s < nodes g)%nat -> (t < nodes g)%nat -> s <> t ->
  (enough g cap <= fuel)%nat ->
  (0 <? last_modification st) && (modifications g =? last_modification st) = false ->
  (last_modification st <=? 0)
  || negb (historyclears g =? last_history_clear st) || changed g = true ->
  exists st' cut v,
    minCut fuel g cap s t [] st = Some (st', cut, v)
    /\ net_out g st' s = v
    /\ cut_weight cap cut = v
    /\ seenb st' s = true /\ seenb st' t = false
    /\ List.NoDup (map cid cut)
    /\ (forall c, In c cut <->
          (cid c < edges g)%nat /\ edgeEnabled g (cid c) = true
          /\ from (edge_at g (cid c)) = cu c /\ to (edge_at g (cid c)) = cv c
          /\ seenb st' (cu c) = true /\ seenb st' (cv c) = false)
    /\ (forall c, In c cut -> getF st' (cid c) = nth (cid c) cap 0)
    /\ (forall U, U s = true -> U t = false -> v <= cut_cap g cap st' U).
Proof.
  intros Hwf Hcap Hs Ht Hst Hfuel Hhit Hre.
  destruct (start_over_state cap s t fuel g st Hwf Hcap Hs Ht Hst Hfuel Hhit Hre)
    as (st4 & U0 & E & W1 & W2 & W3 & W4 & W5 & G4 & U1 & U2 & U3).
  unfold minCut. rewrite E.
  set (st3 := set_seen (<[s := true]> (replicate (nodes g) false))
                (set_Q [s] (set_stamps g st4))).
  assert (HF3 : F st3 = F st4) by reflexivity.
  assert (HE3 : edge_enabled st3 = edge_enabled st4) by reflexivity.
  assert (Hseen3 : forall x, seenb st3 x = true <-> x = s).
  { intros x. unfold seenb, st3. simpl.
    rewrite nth_upd by (rewrite length_replicate; exact Hs).
    destruct (Nat.eq_dec x s) as [->|Hne]; [tauto|].
    rewrite nth_replicate_same. split; [discriminate | congruence]. }
  assert (Hinv3 : explore_inv g U0 st3).
  { split; [unfold st3; simpl; now rewrite length_insert, length_replicate|].
    split; [unfold st3; simpl; constructor; [intros [] | constructor]|].
    split.
    - intros x. rewrite Hseen3. unfold st3; simpl. split; [auto | intros [H|[]]; auto].
    - intros x Hx. unfold st3 in Hx; simpl in Hx. destruct Hx as [<-|[]]. auto. }
  assert (Hsat : forall i, (i < edges g)%nat -> edgeEnabled g i = true ->
            enabled st4 i = true /\ 0 <= getF st4 i <= nth i cap 0).
  { intros i Hi Hen. pose proof (G4 i Hi) as H. rewrite Hen in H.
    destruct (W2 i Hi ltac:(discriminate)) as [Hc _]. rewrite H in Hc. auto. }
  destruct (cut_loop_ok g cap U0 Hwf (F st4)) with (fuel := fuel) (j := 0%nat)
    (st := st3) (cut := @nil MaxFlowEdge)
    as (st' & cut' & C1 & C2 & C3 & C4 & _ & C6 & C7 & C8).
  { intros i Hi Hen HU Hne. destruct (Hsat i Hi Hen) as [H1 H2].
    apply (proj1 (U1 i Hi H1) HU). unfold getF in *. lia. }
  { intros i Hi Hen HU Hne. destruct (Hsat i Hi Hen) as [H1 H2].
    apply (proj2 (U1 i Hi H1) HU). unfold getF in *. lia. }
  { reflexivity. }
  { exact Hinv3. }
  { intros k u Hk. lia. }
  { lia. }
  { unfold enough in Hfuel. lia. }
  rewrite C1. simpl in C8. rewrite drop_0 in C8.
  assert (HF' : F st' = F st4) by congruence.
  assert (HE' : edge_enabled st' = edge_enabled st4) by congruence.
  pose proof C4 as (I1 & I2 & I3 & I4).
  assert (Hs' : seenb st' s = true) by (apply C6, Hseen3; reflexivity).
  assert (Ht' : seenb st' t = false).
  { destruct (seenb st' t) eqn:Et; [|reflexivity].
    apply I3, I4 in Et. destruct Et. congruence. }
  assert (Hcl : closed g cap st' (seenb st')).
  { intros i Hi Hen. unfold enabled in Hen. rewrite HE' in Hen.
    fold (enabled st4 i) in Hen. rewrite (G4 i Hi) in Hen. split.
    - intros HU Hpos. apply I3 in HU.
      apply (proj1 (C7 _ HU i Hi Hen) eq_refl). lia.
    - intros HU Hpos. apply I3 in HU.
      apply (proj2 (C7 _ HU i Hi Hen) eq_refl). lia. }
  assert (Hbal : balance g st' s t (f st4) 0 0 0)
    by (apply (balance_frame g st4 st'); assumption).
  assert (Hok : capacity_ok g cap st' None)
    by (apply (capacity_frame g cap st4 st'); assumption).
  pose proof (closed_cut_cap g cap st' s t (f st4) (seenb st') Hwf Hs Ht Hok Hbal
                Hcl Hs' Ht') as Hcc.
  set (final := keep_cut st' cut').
  assert (Hmem : forall c, In c final <->
            (cid c < edges g)%nat /\ edgeEnabled g (cid c) = true
            /\ from (edge_at g (cid c)) = cu c /\ to (edge_at g (cid c)) = cv c
            /\ seenb st' (cu c) = true /\ seenb st' (cv c) = false).
  { intros c. unfold final, keep_cut. rewrite filter_In, C8, in_flat_map.
    fold (seenb st' (cv c)). fold (seenb st' (cu c)). split.
    - intros ((u & Hu & Hc) & Hk). apply saturated_out_In in Hc.
      destruct Hc as (A1 & A2 & A3 & A4 & A5 & A6).
      apply andb_true_iff in Hk. destruct Hk as [K1 K2].
      apply negb_true_iff in K1. repeat split; auto; congruence.
    - intros (A1 & A2 & A3 & A4 & A5 & A6). split.
      + exists (cu c). split; [now apply I3|]. apply saturated_out_In.
        repeat split; auto.
        destruct (Z.eq_dec (nth (cid c) cap 0 - getF st3 (cid c)) 0) as [Hz|Hnz];
          [exact Hz|].
        apply I3 in A5.
        pose proof (proj1 (C7 _ A5 (cid c) A1 A2) A3) as H.
        unfold getF in H, Hnz. rewrite HF' in H. rewrite HF3 in Hnz.
        specialize (H Hnz). rewrite A4 in H. congruence.
      + rewrite A5, A6. reflexivity. }
  assert (Hnd : List.NoDup final).
  { unfold final, keep_cut. apply NoDup_filter. rewrite C8.
    now apply flat_saturated_NoDup. }
  set (p := fun (i : nat) (e : FullEdge) =>
              edgeEnabled g i && seenb st' (from e) && negb (seenb st' (to e))).
  assert (Hperm : Permutation final (crossing p 0 (all_edges g))).
  { apply Stdlib.Sorting.Permutation.NoDup_Permutation;
      [exact Hnd | apply crossing_NoDup|].
    intros c. rewrite Hmem, crossing_In. split.
    - intros (A1 & A2 & A3 & A4 & A5 & A6).
      exists (cid c), (edge_at g (cid c)). split; [now apply edge_at_nth_error|].
      split.
      + destruct c; simpl in *. now subst.
      + unfold p. simpl. rewrite A2, A3, A4, A5, A6. reflexivity.
    - intros (j & e & H1 & -> & H3). simpl in *.
      destruct (nth_error_edge_at g j e H1) as [He Hj]. rewrite He.
      unfold p in H3. apply andb_true_iff in H3. destruct H3 as [H3 H5].
      apply andb_true_iff in H3. destruct H3 as [H3 H4].
      apply negb_true_iff in H5. repeat split; auto. }
  exists st', final, (f st4). split; [reflexivity|].
  split; [apply (net_out_balance g st' s t); assumption|].
  split.
  { rewrite (cut_weight_perm cap _ _ Hperm), crossing_weight, <- Hcc.
    unfold cut_cap. apply esum_ext. intros j e Hj. simpl.
    destruct (nth_error_edge_at g j e Hj) as [_ Hlt].
    unfold p. unfold enabled. rewrite HE'. fold (enabled st4 j).
    now rewrite (G4 j Hlt). }
  split; [exact Hs'|]. split; [exact Ht'|].
  split.
  { apply NoDup_map_NoDup_ForallPairs; [|exact Hnd].
    intros a b Ha Hb Hab. apply Hmem in Ha, Hb.
    destruct Ha as (_ & _ & A3 & A4 & _), Hb as (_ & _ & B3 & B4 & _).
    destruct a, b; simpl in *. subst. reflexivity. }
  split; [exact Hmem|]. split.
  - intros c Hc. apply Hmem in Hc. destruct Hc as (A1 & A2 & A3 & A4 & A5 & A6).
    destruct (Z.eq_dec (nth (cid c) cap 0 - getF st' (cid c)) 0) as [Hz|Hnz]; [lia|].
    apply I3 in A5. pose proof (proj1 (C7 _ A5 (cid c) A1 A2) A3 Hnz) as H.
    rewrite A4 in H. congruence.
  - intros U HUs HUt. apply (value_le_cut g cap st' s t (f st4) U Hwf Hs Ht);
      [|exact Hbal|exact HUs|exact HUt].
    intros i Hi Hen. destruct (Hok i Hi ltac:(discriminate)) as [Hc _].
    now rewrite Hen in Hc.
Qed.

Lemma minCut_start_over_witness :
  exists st' cut v,
    minCut 17 (graphA false) capA 0 3 [] init = Some (st', cut, v)
    /\ net_out (graphA false) st' 0 = v
    /\ cut_weight capA cut = v
    /\ seenb st' 0 = true /\ seenb st' 3 = false
    /\ List.NoDup (map cid cut)
    /\ (forall c, In c cut <->
          (cid c < edges (graphA false))%nat /\ edgeEnabled (graphA false) (cid c) = true
          /\ from (edge_at (graphA false) (cid c)) = cu c
          /\ to (edge_at (graphA false) (cid c)) = cv c
          /\ seenb st' (cu c) = true /\ seenb st' (cv c) = false)
    /\ (forall c, In c cut -> getF st' (cid c) = nth (cid c) capA 0)
    /\ (forall U, U 0%nat = true -> U 3%nat = false
                   -> v <= cut_cap (graphA false) capA st' U).
Proof.
  apply (minCut_start_over capA 0 3 17 (graphA false) init).
  - intros e [<-|[<-|[<-|[<-|[<-|[]]]]]]; simpl; lia.
  - intros i. do 5 (destruct i as [|i]; [simpl; lia|]). destruct i; simpl; lia.
  - simpl; lia.
  - simpl; lia.
  - lia.
  - vm_compute; lia.
  - reflexivity.
  - reflexivity.
Defined.

(** ** Runs without deletions *)

Lemma replay_additions_effect fuel g cap s t evs :
  (forall ev, In ev evs -> addition ev = true) ->
  forall st fl,
  exists st' fl',
    replay fuel g cap s t evs (st, fl) = Some (st', fl')
    /\ F st' = F st /\ f st' = f st /\ needsReflow fl' = needsReflow fl
    /\ added_Edges fl'
       = added_Edges fl || existsb (fun ev => edgeEnabled g (chg_id ev)) evs
    /\ (existsb (fun ev => edgeEnabled g (chg_id ev)) evs = false ->
        st' = st /\ fl' = fl).
Proof.
  induction evs as [|ev evs IH]; intros Hadd st fl.
  - exists st, fl. simpl. rewrite orb_false_r. repeat split.
  - cbn [replay]. unfold replay_event. rewrite (Hadd ev (or_introl eq_refl)).
    simpl existsb. destruct (edgeEnabled g (chg_id ev)); simpl.
    + destruct (IH (fun e H => Hadd e (or_intror H))
                  (set_edge_enabled (<[chg_id ev := true]> (edge_enabled st)) st)
                  (mkFlags true (needsReflow fl)))
        as (st' & fl' & E & A1 & A2 & A3 & A4 & A5).
      exists st', fl'. split; [exact E|]. split; [exact A1|]. split; [exact A2|].
      split; [exact A3|]. split; [|discriminate].
      rewrite A4. simpl. now rewrite orb_true_r.
    + destruct (IH (fun e H => Hadd e (or_intror H)) st fl)
        as (st' & fl' & E & A1 & A2 & A3 & A4 & A5).
      exists st', fl'. repeat split; try assumption; now apply A5.
Qed.

Lemma balance_unique g st s t a a' :
  (t < nodes g)%nat -> s <> t ->
  balance g st s t a 0 0 0 -> balance g st s t a' 0 0 0 -> a = a'.
Proof.
  intros Ht Hst H H'. specialize (H t Ht). specialize (H' t Ht).
  rewrite ind_refl, (ind_ne s t) in H, H' by congruence. lia.
Qed.

Lemma excess_flags g cap st st' x :
  F st' = F st -> capacity_ok g cap st None -> capacity_ok g cap st' None ->
  excess g st' x = excess g st x.
Proof.
  intros HF H H'. apply excess_same. intros i Hi.
  destruct (H i Hi ltac:(discriminate)) as [A _].
  destruct (H' i Hi ltac:(discriminate)) as [A' _].
  unfold getF in *. rewrite HF in *.
  destruct (enabled st' i), (enabled st i); lia.
Qed.

Lemma closed_shape g g' cap st U :
  all_edges g' = all_edges g -> closed g cap st U -> closed g' cap st U.
Proof.
  intros He H i Hi. unfold edge_at. rewrite He. apply H.
  unfold edges in *. now rewrite <- He.
Qed.

Lemma balance_shape g g' st s t a :
  nodes g' = nodes g -> all_edges g' = all_edges g ->
  balance g st s t a 0 0 0 -> balance g' st s t a 0 0 0.
Proof.
  intros Hn He H x Hx. unfold excess. rewrite He. apply H. now rewrite <- Hn.
Qed.

Lemma In_drop_snoc {A} (x y : A) k l :
  In x (drop k (l ++ [y])) -> In x (drop k l) \/ x = y.
Proof.
  rewrite drop_app. intros H. apply in_app_or in H. destruct H as [H|H]; [now left|].
  right. destruct (k - length l)%nat as [|m]; simpl in H.
  - destruct H as [H|[]]. congruence.
  - rewrite drop_nil in H. destruct H.
Qed.

Lemma additions_inv_enable g cap s t st e :
  additions_inv g cap s t st -> additions_inv (enableEdge e g) cap s t st.
Proof.
  intros [H1 H2]. split; [now apply engine_inv2_enable|].
  intros Hpos. destruct (H2 Hpos) as (B1 & B2 & B3).
  unfold enableEdge. destruct (edgeEnabled g e) eqn:Een; [now split|].
  set (g' := mkGraph _ _ _ _ _ _ _ _ _).
  assert (Hflag : forall i, edgeEnabled g' i = false -> edgeEnabled g i = false).
  { intros i. unfold edgeEnabled, g'. simpl.
    destruct (Nat.eq_dec i e) as [->|Hne].
    - intros _. exact Een.
    - now rewrite !nth_lookup, list_lookup_insert_ne by congruence. }
  split; [|split].
  - apply (balance_shape g g'); [reflexivity | reflexivity | exact B1].
  - intros ev Hev. unfold pending, g' in Hev. simpl in Hev.
    apply In_drop_snoc in Hev. destruct Hev as [Hev| ->]; [now apply B2 | reflexivity].
  - intros Hnone. destruct B3 as (U & C1 & C2 & C3).
    + intros ev Hev. apply Hflag. apply Hnone.
      unfold pending, g'. simpl. now apply In_drop_app.
    + exists U. split; [|auto]. now apply (closed_shape g g').
Qed.

Lemma settled_additions_inv g cap s t st v :
  settled_engine g cap s t st v -> balance g st s t v 0 0 0 ->
  (exists U, closed g cap st U /\ U s = true /\ U t = false) ->
  additions_inv g cap s t st.
Proof.
  intros Hset Hbal Hcl. split; [eapply settled_engine_inv2; eauto|].
  intros _. destruct Hset as (_ & _ & _ & I4 & _ & I6 & _).
  assert (Hp : pending g st = []) by (unfold pending; rewrite I4; apply drop_all).
  split; [now rewrite I6|]. rewrite Hp. split; [intros ev []|]. intros _. exact Hcl.
Qed.

(** [maxFlow(s,t)] on such an engine returns the value of a maximum flow. *)
Lemma maxFlow_exact g cap s t fuel st :
  graph_wf g -> nonneg cap -> (s < nodes g)%nat -> (t < nodes g)%nat -> s <> t ->
  (enough g cap <= fuel)%nat ->
  additions_inv g cap s t st ->
  exists st' v,
    maxFlow fuel g cap s t st = Some (st', v)
    /\ settled_engine g cap s t st' v
    /\ balance g st' s t v 0 0 0
    /\ exists U, closed g cap st' U /\ U s = true /\ U t = false.
Proof.
  intros Hwf Hcap Hs Ht Hst Hfuel [Hinv Hex].
  destruct ((0 <? last_modification st) && (modifications g =? last_modification st))
    eqn:Ehit.
  - (* the cache *)
    unfold maxFlow. rewrite Ehit.
    apply andb_true_iff in Ehit. destruct Ehit as [E1 E2].
    exists st, (curflow st). split; [reflexivity|].
    destruct Hinv as [H|(I1 & I2 & I3 & I4 & I5 & I6 & I7)]; [lia|].
    destruct (I7 ltac:(lia)) as [J1 J2].
    destruct (Hex ltac:(lia)) as (B1 & B2 & B3).
    split.
    { split; [exact I1|]. split; [exact J1|]. repeat split; auto; lia. }
    split; [now rewrite <- I6|].
    apply B3. unfold pending. rewrite J2, drop_all. intros ev [].
  - destruct ((last_modification st <=? 0)
              || negb (historyclears g =? last_history_clear st) || changed g) eqn:Ere.
    + (* starting over *)
      destruct (start_over_state cap s t fuel g st Hwf Hcap Hs Ht Hst Hfuel Ehit Ere)
        as (st4 & U & E & W1 & W2 & W3 & W4 & W5 & G4 & U1 & U2 & U3).
      exists (set_stamps g st4), (f st4). split; [exact E|].
      assert (I4 : flow_inv g cap s t st4).
      { split; [exact W1|]. split; [exact W2|]. split; [exact W3|].
        exists (f st4). auto. }
      split.
      { split; [apply (flow_inv_same g cap s t st4); [reflexivity..|exact I4]|].
        split; [exact G4 | repeat split]. }
      split; [exact W4|]. exists U. auto.
    + (* keeping the flow *)
      apply orb_false_iff in Ere. destruct Ere as [Ere Ech].
      apply orb_false_iff in Ere. destruct Ere as [Elm Ehc].
      apply Z.leb_gt in Elm. apply negb_false_iff, Z.eqb_eq in Ehc.
      assert (Hne : modifications g <> last_modification st).
      { intros E. rewrite E, Z.eqb_refl, andb_true_r in Ehit.
        apply Z.ltb_ge in Ehit. lia. }
      rewrite (maxFlow_incremental fuel g cap s t st Elm Hne Ehc Ech).
      destruct Hinv as [H|(I1 & I2 & I3 & I4 & I5 & I6 & I7)]; [lia|].
      destruct (Hex Elm) as (B1 & B2 & B3).
      fold (pending g st).
      destruct (replay_ok g cap s t fuel Hwf Hcap Hs Ht Hst Hfuel
                  (pending g st) st (mkFlags false false) I1)
        as (st2 & fl & E2 & J2 & G2).
      destruct (replay_additions_effect fuel g cap s t (pending g st) B2 st
                  (mkFlags false false))
        as (st2' & fl2' & E2' & K1 & K2 & K3 & K4 & K5).
      rewrite E2 in E2'. injection E2' as <- <-.
      rewrite E2. simpl in K3, K4. rewrite K3. cbv zeta.
      assert (Hsync2 : forall i, (i < edges g)%nat -> enabled st2 i = edgeEnabled g i).
      { intros i Hi. apply G2; [exact Hi | now apply I4]. }
      assert (Hbal2 : balance g st2 s t (f st2) 0 0 0).
      { intros x Hx. rewrite K2.
        rewrite (excess_flags g cap st st2 x K1 (proj1 (proj2 I1)) (proj1 (proj2 J2))).
        now apply B1. }
      assert (Hend : forall st4, flow_inv g cap s t st4 ->
                edge_enabled st4 = edge_enabled st2 ->
                settled_engine g cap s t (set_stamps g st4) (f st4)).
      { intros st4 I4' E4.
        split; [apply (flow_inv_same g cap s t st4); [reflexivity..|exact I4']|].
        split; [|repeat split].
        intros i Hi. rewrite <- (Hsync2 i Hi). unfold enabled. simpl. now rewrite E4. }
      destruct (added_Edges fl) eqn:Eadd.
      * pose proof J2 as (Z1 & Z2 & Z3 & (a & Ha & Z4)).
        assert (a = f st2) by (apply (balance_unique g st2 s t); assumption).
        subst a.
        pose proof (total_capacity_nonneg g cap Hcap) as Htot.
        pose proof Hfuel as Hfuel'. unfold enough in Hfuel'.
        destruct (maxFlow_p_opt g cap s t Hwf Hcap Hs Hst fuel fuel st2 (f st2)
                    Z1 Z2 Z3 Z4 Ha ltac:(lia) ltac:(lia))
          as (st4 & a4 & E4 & Y1 & Y2 & Y3 & Y4 & Y5 & Y6 & Y7 & _ & (U & Y8)).
        rewrite E4. exists (set_stamps g st4), (f st4). split; [reflexivity|].
        assert (Hf4 : f st4 = a4) by lia.
        split.
        { apply Hend; [|exact Y7]. split; [exact Y1|]. split; [exact Y2|].
          split; [exact Y3|]. exists a4. split; [lia | exact Y4]. }
        split; [rewrite Hf4; exact Y4|].
        exists U. exact Y8.
      * symmetry in K4. destruct (K5 K4) as [-> _].
        exists (set_stamps g st), (f st). split; [reflexivity|].
        split; [apply Hend; [exact I1 | reflexivity]|].
        split; [exact B1|]. apply B3.
        intros ev Hev. destruct (edgeEnabled g (chg_id ev)) eqn:Een; [|reflexivity].
        exfalso. assert (H : existsb (fun ev => edgeEnabled g (chg_id ev)) (pending g st)
                             = true).
        { apply existsb_exists. exists ev. auto. }
        congruence.
Qed.

Lemma run_additions cap s t fuel ops :
  nonneg cap -> s <> t -> no_disable ops ->
  forall g st out,
  graph_wf g -> (s < nodes g)%nat -> (t < nodes g)%nat ->
  (enough g cap <= fuel)%nat ->
  additions_inv g cap s t st ->
  exists g' st' out',
    run fuel cap s t ops g st out = Some (g', st', out')
    /\ nodes g' = nodes g /\ all_edges g' = all_edges g
    /\ additions_inv g' cap s t st'.
Proof.
  intros Hcap Hst. induction ops as [|op ops IH];
    intros Hno g st out Hwf Hs Ht Hfuel Hinv.
  - exists g, st, out. auto.
  - assert (Hno' : no_disable ops) by (intros e H; apply (Hno e); now right).
    destruct op as [e|e|]; simpl.
    + destruct (enableEdge_shape g e) as [Hn He].
      destruct (IH Hno' (enableEdge e g) st out) as (g' & st' & out' & R1 & R2 & R3 & R4).
      * eapply graph_wf_shape; eauto.
      * now rewrite Hn.
      * now rewrite Hn.
      * now rewrite (enough_shape g (enableEdge e g) cap Hn He).
      * now apply additions_inv_enable.
      * exists g', st', out'. split; [exact R1|]. split; [congruence|].
        split; [congruence | exact R4].
    + exfalso. apply (Hno e). now left.
    + destruct (maxFlow_exact g cap s t fuel st Hwf Hcap Hs Ht Hst Hfuel Hinv)
        as (st1 & v & E1 & I1 & B1 & C1).
      rewrite E1. apply IH; try assumption.
      eapply settled_additions_inv; eauto.
Qed.

(** X18.  Without deletions the engine is exact: when a client only enables
    edges and calls [maxFlow(s,t)], in any order, every call returns the
    value of a maximum flow of the graph as it is then: [F] is feasible,
    the value is what leaves [s] minus what enters it, it is the capacity
    of a cut between [s] and [t], and no flow on the enabled edges that
    respects the capacities has a greater value. *)
Theorem additions_only_maximum (cap : list Z) (s t fuel : nat) (ops : list Op)
    (g0 : DynamicGraph) :
  graph_wf g0 -> nonneg cap ->
  (s < nodes g0)%nat -> (t < nodes g0)%nat -> s <> t ->
  (enough g0 cap <= fuel)%nat ->
  no_disable ops ->
  exists g st v out,
    run fuel cap s t (ops ++ [MaxFlow]) g0 init [] = Some (g, st, v :: out)
    /\ feasible g cap s t st
    /\ net_out g st s = v
    /\ (exists U, U s = true /\ U t = false /\ cut_cap g cap st U = v)
    /\ (forall st2 a2,
          (forall i, enabled st2 i = enabled st i) ->
          (forall i, (i < edges g)%nat -> enabled st2 i = true ->
             0 <= getF st2 i <= nth i cap 0) ->
          balance g st2 s t a2 0 0 0 ->
          a2 <= v).
Proof.
  intros Hwf Hcap Hs Ht Hst Hfuel Hno. rewrite run_app.
  destruct (run_additions cap s t fuel ops Hcap Hst Hno g0 init [] Hwf Hs Ht Hfuel)
    as (g1 & st1 & out1 & R1 & Hn & He & I1).
  { split; [left; simpl; lia | simpl; lia]. }
  rewrite R1. cbn [run].
  assert (Hwf1 : graph_wf g1) by (eapply graph_wf_shape; eauto).
  assert (Hs1 : (s < nodes g1)%nat) by now rewrite Hn.
  assert (Ht1 : (t < nodes g1)%nat) by now rewrite Hn.
  destruct (maxFlow_exact g1 cap s t fuel st1 Hwf1 Hcap Hs1 Ht1 Hst) as
    (st2 & v & E2 & F2 & B2 & (U & C1 & C2 & C3)); [|exact I1|].
  { now rewrite (enough_shape g0 g1 cap Hn He). }
  rewrite E2. exists g1, st2, v, out1. split; [reflexivity|].
  destruct F2 as (J1 & J2 & _).
  pose proof J1 as (_ & Hok & _).
  pose proof (closed_cut_cap g1 cap st2 s t v U Hwf1 Hs1 Ht1 Hok B2 C1 C2 C3) as Hcc.
  split; [now apply flow_inv_feasible|].
  split; [apply (net_out_balance g1 st2 s t v Hs1 Hst B2)|].
  split; [exists U; auto|].
  intros st3 a3 Hen Hok3 Hbal3. rewrite <- Hcc.
  rewrite <- (cut_cap_frame g1 cap st2 st3 U) by exact Hen.
  apply (value_le_cut g1 cap st3 s t a3 U Hwf1 Hs1 Ht1 Hok3 Hbal3 C2 C3).
Qed.

Lemma additions_only_maximum_witness :
  exists g st v out,
    run 17 capA 0 3 ([MaxFlow; Enable 3] ++ [MaxFlow])
      (disableEdge 3 (graphA false)) init []
    = Some (g, st, v :: out)
    /\ feasible g capA 0 3 st
    /\ net_out g st 0 = v
    /\ (exists U, U 0%nat = true /\ U 3%nat = false /\ cut_cap g capA st U = v)
    /\ (forall st2 a2,
          (forall i, enabled st2 i = enabled st i) ->
          (forall i, (i < edges g)%nat -> enabled st2 i = true ->
             0 <= getF st2 i <= nth i capA 0) ->
          balance g st2 0 3 a2 0 0 0 ->
          a2 <= v).
Proof.
  apply (additions_only_maximum capA 0 3 17 [MaxFlow; Enable 3]
           (disableEdge 3 (graphA false))).
  - intros e [<-|[<-|[<-|[<-|[<-|[]]]]]]; simpl; lia.
  - intros i. do 5 (destruct i as [|i]; [simpl; lia|]). destruct i; simpl; lia.
  - simpl; lia.
  - simpl; lia.
  - lia.
  - vm_compute; lia.
  - intros e [H|[H|[]]]; discriminate.
Defined.
End DglProps.

(** * Properties of the cover selection *)

Module CoverProps.

Import Cover.

(** ** The fields that the passes leave alone *)

Lemma level0_same ls st cover : same_lists st (fst (level0 ls st cover)).
Proof.
  revert st cover. induction ls as [|l ls IH]; intros st cover; simpl;
    [split; reflexivity|].
  destruct (included st (var l)); [|apply IH].
  specialize (IH (set_in_cover (<[var l := true]> (in_cover st)) st) (cover ++ [l])).
  exact IH.
Qed.

Lemma fast_watchers_same Sv v p ws st cover :
  same_lists st (fst (fast_watchers Sv v p ws st cover)).
Proof.
  revert st cover. induction ws as [|w ws IH]; intros st cover; simpl;
    [split; reflexivity|].
  destruct (match blocker w with Some _ => _ | None => _ end); [apply IH|].
  destruct (lbool_eqb _ l_True); [|split; reflexivity].
  destruct (_ || _); [apply IH | split; reflexivity].
Qed.

Lemma fast_pass_same Sv vs st cover :
  same_lists st (fst (fast_pass Sv vs st cover)).
Proof.
  revert st cover. induction vs as [|v vs IH]; intros st cover; simpl;
    [split; reflexivity|].
  destruct (inCover st v); [apply IH|].
  match goal with |- context [fast_watchers Sv v ?p ?ws st cover] =>
    pose proof (fast_watchers_same Sv v p ws st cover) as H1;
    destruct (fast_watchers Sv v p ws st cover) as [st1 cover1] end.
  specialize (IH st1 cover1). unfold same_lists in *; simpl in *.
  intuition congruence.
Qed.

Lemma same_lists_refl st : same_lists st st.
Proof. split; reflexivity. Qed.

Lemma same_lists_trans a b c : same_lists a b -> same_lists b c -> same_lists a c.
Proof. unfold same_lists. intuition congruence. Qed.

Lemma forced_pass_same Sv i cs st cover :
  same_lists st (fst (forced_pass Sv i cs (st, cover))).
Proof.
  revert i st cover. induction cs as [|c cs IH]; intros i st cover;
    [apply same_lists_refl|].
  change (forced_pass Sv i (c :: cs) (st, cover))
    with (forced_pass Sv (S i) cs (forced_clause Sv i c (st, cover))).
  assert (H : same_lists st (fst (forced_clause Sv i c (st, cover)))).
  { unfold forced_clause. destruct (forced_scan Sv st c 0 None) as [n [pl|]];
      [|apply same_lists_refl].
    destruct (n =? 1)%Z; [|apply same_lists_refl].
    destruct (negb _); split; reflexivity. }
  destruct (forced_clause Sv i c (st, cover)) as [st1 cover1].
  eapply same_lists_trans; [exact H | apply IH].
Qed.

Lemma fold_bump_same i unc st : same_lists st (fold_left (bump i) unc st).
Proof.
  revert st. induction unc as [|l unc IH]; intros st; simpl;
    [apply same_lists_refl|].
  eapply same_lists_trans; [|apply IH].
  unfold bump. destruct (score st (var l) =? 0)%Z; split; reflexivity.
Qed.

Lemma greedy_pass_same Sv i cs st : same_lists st (greedy_pass Sv i cs st).
Proof.
  revert i st. induction cs as [|c cs IH]; intros i st;
    [apply same_lists_refl|].
  change (greedy_pass Sv i (c :: cs) st)
    with (greedy_pass Sv (S i) cs (greedy_clause Sv i c st)).
  eapply same_lists_trans; [|apply IH].
  unfold greedy_clause. destruct (sat_scan Sv st c _) as [[|] unc].
  - split; reflexivity.
  - eapply same_lists_trans; [|apply fold_bump_same]. split; reflexivity.
Qed.

Lemma add_counts_same d cls st : same_lists st (add_counts d cls st).
Proof.
  unfold add_counts. revert st. induction cls as [|c cls IH]; intros st; simpl;
    [apply same_lists_refl|].
  eapply same_lists_trans; [|apply IH]. split; reflexivity.
Qed.

Lemma third_pass_same n cands i st cover st' cover' :
  third_pass n cands i st cover = Some (st', cover') -> same_lists st st'.
Proof.
  revert i st cover. induction cands as [|l cands IH]; intros i st cover; simpl.
  - destruct (_ =? n); [|discriminate]. intros [= <- _]. apply same_lists_refl.
  - destruct (_ =? n); [intros [= <- _]; apply same_lists_refl|].
    destruct (existsb _ _).
    + intros H. apply IH in H.
      eapply same_lists_trans; [apply add_counts_same | exact H].
    + apply IH.
Qed.

Lemma prune_same ls st kept : same_lists st (fst (prune ls st kept)).
Proof.
  revert st kept. induction ls as [|l ls IH]; intros st kept; simpl;
    [apply same_lists_refl|].
  destruct (existsb _ _); [apply IH|].
  eapply same_lists_trans; [apply add_counts_same | apply IH].
Qed.

Lemma getCover_same sort fast Sv st st' cover :
  getCover sort fast Sv st = Some (st', cover) -> same_lists (prologue Sv st) st'.
Proof.
  unfold getCover.
  pose proof (level0_same (firstn (level0_count Sv) (trail Sv)) (prologue Sv st) []) as H0.
  destruct (level0 _ (prologue Sv st) []) as [st1 cover1]. simpl in H0.
  destruct fast.
  - intros [= E]. pose proof (fast_pass_same Sv (subset st1) st1 cover1) as H1.
    rewrite E in H1. simpl in H1. eapply same_lists_trans; eassumption.
  - pose proof (forced_pass_same Sv 0 (clauses Sv) (exact_reset Sv st1) cover1) as H1.
    destruct (forced_pass Sv 0 (clauses Sv) (exact_reset Sv st1, cover1)) as [st3 cover3].
    simpl in H1.
    pose proof (greedy_pass_same Sv 0 (clauses Sv) st3) as H2.
    destruct (third_pass _ _ 0 _ cover3) as [[st6 cover6]|] eqn:E3; [|discriminate].
    apply third_pass_same in E3.
    pose proof (prune_same (skipn (first_greedy st6 cover6) cover6) st6 []) as H4.
    destruct (prune _ st6 []) as [st7 kept]. simpl in H4.
    intros [= <- _].
    eapply same_lists_trans; [exact H0|].
    eapply same_lists_trans; [|exact H4].
    eapply same_lists_trans; [|exact E3].
    eapply same_lists_trans; [|exact H2].
    eapply same_lists_trans; [|exact H1].
    split; reflexivity.
Qed.

(** ** The list of eligible variables *)

Lemma prologue_subset Sv st :
  subset (prologue Sv st)
  = match subset st with
    | [] => build_subset (growTo (nVars Sv) true (include st))
    | _ :: _ => subset st
    end.
Proof.
  unfold prologue; simpl. destruct (subset st) as [|v vs] eqn:E; simpl.
  - reflexivity.
  - exact E.
Qed.

Lemma run_cover_subset sort ops st st' :
  subset st <> [] -> run_cover sort ops st = Some st' -> subset st' = subset st.
Proof.
  revert st. induction ops as [|[v b|fast Sv] ops IH]; intros st Hne; simpl.
  - now intros [= <-].
  - intros H. apply IH in H; [exact H | exact Hne].
  - destruct (getCover sort fast Sv st) as [[st1 cover]|] eqn:E; [|discriminate].
    apply getCover_same in E. destruct E as [E _].
    rewrite prologue_subset in E. destruct (subset st) as [|x xs] eqn:Es;
      [contradiction|].
    intros H. apply IH in H; congruence.
Qed.

(** C9.  [excludeFromCover] writes [include] and nothing else.  A
    [getCover] call on an object whose [subset] is empty fills it from the
    inclusion flags of that moment, and a call on an object whose [subset] is
    not empty leaves it as it is; the fast-mode loop goes through that list.
    So once a [getCover] call has left a non-empty [subset], no later
    sequence of [excludeFromCover] and [getCover] calls changes the variables
    that the fast-mode loop goes through. *)
Theorem subset_built_once (sort : (Lit -> Lit -> bool) -> list Lit -> list Lit) :
  (forall v b st,
     excludeFromCover v b st
     = set_include (<[v := negb b]> (growTo (v + 1) true (include st))) st
     /\ subset (excludeFromCover v b st) = subset st
     /\ in_cover (excludeFromCover v b st) = in_cover st
     /\ uncovered (excludeFromCover v b st) = uncovered st
     /\ coverCount (excludeFromCover v b st) = coverCount st
     /\ mVarsGreedyScore (excludeFromCover v b st) = mVarsGreedyScore st
     /\ mVarsInUncCls (excludeFromCover v b st) = mVarsInUncCls st
     /\ potentialCoverLits (excludeFromCover v b st) = potentialCoverLits st)
  /\ (forall fast Sv st st' cover,
        getCover sort fast Sv st = Some (st', cover) ->
        subset st' = scanned Sv st
        /\ (subset st = [] ->
            subset st' = build_subset (growTo (nVars Sv) true (include st)))
        /\ (subset st <> [] -> subset st' = subset st))
  /\ (forall Sv st,
        exists st1 cover1,
          getCover sort true Sv st = Some (fast_pass Sv (scanned Sv st) st1 cover1))
  /\ (forall ops Sv st st',
        subset st <> [] -> run_cover sort ops st = Some st' ->
        scanned Sv st' = subset st).
Proof.
  split; [|split; [|split]].
  - intros v b st. repeat split.
  - intros fast Sv st st' cover H. apply getCover_same in H. destruct H as [H _].
    unfold scanned. split; [exact H|]. rewrite H, prologue_subset.
    split; intros Hs.
    + now rewrite Hs.
    + destruct (subset st); [contradiction | reflexivity].
  - intros Sv st. unfold getCover, scanned.
    pose proof (level0_same (firstn (level0_count Sv) (trail Sv)) (prologue Sv st) []) as H0.
    destruct (level0 _ (prologue Sv st) []) as [st1 cover1]. simpl in H0.
    exists st1, cover1. destruct H0 as [-> _]. reflexivity.
  - intros ops Sv st st' Hne H. apply run_cover_subset in H; [|exact Hne].
    unfold scanned. rewrite prologue_subset, H.
    destruct (subset st); [contradiction | reflexivity].
Qed.

(** ** Fast mode after a late exclusion *)

(** C7 at the failing input.  On [solverF] the first [getCover] in fast mode
    returns the cover [x0].  After [excludeFromCover(0, true)] the second
    [getCover] in fast mode still goes through variable 0 and returns [x0]
    again, a literal whose inclusion flag is now cleared; the exact mode on
    the same object returns the empty cover. *)
Theorem fast_cover_after_exclusion
    (sort : (Lit -> Lit -> bool) -> list Lit -> list Lit) :
  exists st1 st2,
    getCover sort true solverF init = Some (st1, [mkLitS 0 false])
    /\ getCover sort true solverF (excludeFromCover 0 true st1)
       = Some (st2, [mkLitS 0 false])
    /\ included st2 0 = false
    /\ value solverF (mkLitS 0 false) = l_True
    /\ option_map snd (getCover stable_sort false solverF (excludeFromCover 0 true st1))
       = Some [].
Proof.
  eexists. eexists. split; [reflexivity|]. split; [reflexivity|].
  split; [reflexivity|]. split; reflexivity.
Qed.

(** ** Reading and writing vectors *)

Lemma nth_insert_eq {A} (l : list A) i x d :
  i < length l -> nth i (<[i := x]> l) d = x.
Proof. intros H. now rewrite nth_lookup, list_lookup_insert_eq. Qed.

Lemma nth_insert_ne {A} (l : list A) i j x d :
  i <> j -> nth j (<[i := x]> l) d = nth j l d.
Proof. intros H. now rewrite !nth_lookup, list_lookup_insert_ne. Qed.

Lemma nth_insert_same {A} (l : list A) i d : nth i (<[i := d]> l) d = d.
Proof.
  destruct (Nat.lt_ge_cases i (length l)) as [H|H].
  - now apply nth_insert_eq.
  - rewrite list_insert_ge by exact H. now apply nth_overflow.
Qed.

Lemma length_growTo {A} n (pad : A) l : length (growTo n pad l) = Nat.max (length l) n.
Proof. unfold growTo. rewrite length_app, length_replicate. lia. Qed.

Lemma nth_growTo_nil {A} n (pad : A) i : nth i (growTo n pad []) pad = pad.
Proof.
  unfold growTo. simpl. rewrite Nat.sub_0_r.
  destruct (Nat.lt_ge_cases i n) as [H|H].
  - rewrite nth_lookup, lookup_replicate_2 by exact H. reflexivity.
  - apply nth_overflow. now rewrite length_replicate.
Qed.

Lemma nth_map_nil {A B} (l : list A) i :
  nth i (map (fun _ => @nil B) l) [] = [].
Proof.
  revert i. induction l as [|x l IH]; intros [|i]; simpl; auto.
Qed.

Lemma isTrue_value Sv l : isTrue Sv l = true <-> value Sv l = l_True.
Proof. unfold isTrue. destruct (value Sv l); simpl; split; congruence. Qed.

(** ** The trail pass and the resets *)

Lemma prologue_chosen Sv st : chosen_ok Sv (prologue Sv st) [].
Proof.
  unfold chosen_ok, prologue, inCover; simpl.
  split; [|split].
  - destruct (length (subset st) =? 0); simpl; rewrite length_growTo; simpl; lia.
  - intros l [].
  - intros v H. destruct (length (subset st) =? 0); simpl in H;
      rewrite nth_growTo_nil in H; discriminate.
Qed.

Lemma chosen_add Sv st cover l :
  chosen_ok Sv st cover ->
  isTrue Sv l = true -> included st (var l) = true -> var l < nVars Sv ->
  chosen_ok Sv (set_in_cover (<[var l := true]> (in_cover st)) st) (cover ++ [l]).
Proof.
  intros (Hlen & Hc & Hv) Ht Hi Hn. unfold chosen_ok, inCover, included in *; simpl.
  split; [now rewrite length_insert|]. split.
  - intros l' Hin. apply in_app_or in Hin. destruct Hin as [Hin|[<-|[]]].
    + destruct (Hc l' Hin) as (H1 & H2 & H3 & H4). repeat split; auto.
      destruct (Nat.eq_dec (var l) (var l')) as [E|E].
      * rewrite E. apply nth_insert_eq. lia.
      * now rewrite nth_insert_ne.
    + repeat split; auto. apply nth_insert_eq. lia.
  - intros v H. destruct (Nat.eq_dec (var l) v) as [E|E].
    + exists l. split; [apply in_or_app; right; left; reflexivity | exact E].
    + rewrite nth_insert_ne in H by exact E.
      destruct (Hv v H) as (l' & Hin & E'). exists l'. split; [|exact E'].
      apply in_or_app. now left.
Qed.

Lemma level0_chosen Sv ls st cover :
  (forall l, In l ls -> var l < nVars Sv /\ value Sv l = l_True) ->
  chosen_ok Sv st cover ->
  chosen_ok Sv (fst (level0 ls st cover)) (snd (level0 ls st cover)).
Proof.
  revert st cover. induction ls as [|l ls IH]; intros st cover Hls Hc; simpl;
    [exact Hc|].
  assert (Hls' : forall l', In l' ls -> var l' < nVars Sv /\ value Sv l' = l_True)
    by (intros l' H; apply Hls; now right).
  destruct (included st (var l)) eqn:Ei; [|now apply IH].
  apply IH; [exact Hls'|].
  destruct (Hls l (or_introl eq_refl)) as [Hn Ht].
  apply chosen_add; auto. now apply isTrue_value.
Qed.

(** ** The first pass *)

Section ForcedPass.

Context (Sv : Solver) (inc : list bool).
Hypothesis Hwf : solver_wf Sv.
Hypothesis Hel : forall l, var l < nVars Sv -> nth (var l) inc false = true ->
                           value Sv l <> l_Undef.

Lemma forced_scan_lit st c0 c n pl n' pl' :
  incl c c0 -> forced_scan Sv st c n pl = (n', pl') ->
  (n <> 0%Z -> exists p, pl = Some p /\ In p c0 /\ value Sv p <> l_False
                         /\ included st (var p) = true) ->
  n' <> 0%Z ->
  exists p, pl' = Some p /\ In p c0 /\ value Sv p <> l_False
            /\ included st (var p) = true.
Proof.
  revert n pl. induction c as [|l c IH]; intros n pl Hincl H Hpl Hn'; simpl in H.
  - injection H as <- <-. auto.
  - assert (Hl : In l c0) by (apply Hincl; now left).
    assert (Hc : incl c c0) by (intros x Hx; apply Hincl; now right).
    destruct (negb (lbool_eqb (value Sv l) l_False)) eqn:E1;
      [|eapply IH; eauto].
    assert (Hv : value Sv l <> l_False)
      by (intros E; rewrite E in E1; discriminate).
    destruct (negb (included st (var l))) eqn:E2.
    + injection H as <- <-. contradiction.
    + apply negb_false_iff in E2.
      destruct (negb (n =? 0)%Z).
      * injection H as <- <-. eauto.
      * eapply IH; eauto.
Qed.

Lemma forced_frame_refl st : forced_frame st st.
Proof. repeat split; auto. Qed.

Lemma forced_frame_trans a b c :
  forced_frame a b -> forced_frame b c -> forced_frame a c.
Proof.
  intros (A1 & A2 & A3 & A4 & A5 & A6 & A7) (B1 & B2 & B3 & B4 & B5 & B6 & B7).
  repeat split; try congruence. auto.
Qed.

Lemma included_frame st st' v :
  include st' = include st -> included st' v = included st v.
Proof. unfold included. now intros ->. Qed.

Lemma forced_clause_ok i c st cover :
  nth_error (clauses Sv) i = Some c ->
  include st = inc ->
  length (coverCount st) = S (length (clauses Sv)) ->
  chosen_ok Sv st cover -> counted_ok Sv st ->
  let r := forced_clause Sv i c (st, cover) in
  forced_frame st (fst r) /\ chosen_ok Sv (fst r) (snd r) /\ counted_ok Sv (fst r).
Proof.
  intros Hc Hinc Hlen Hch Hcnt r. subst r. unfold forced_clause.
  destruct (forced_scan Sv st c 0 None) as [n [plit|]] eqn:E;
    [|split; [apply forced_frame_refl | split; assumption]].
  destruct (n =? 1)%Z eqn:En; [|split; [apply forced_frame_refl | split; assumption]].
  apply Z.eqb_eq in En. subst n.
  destruct (forced_scan_lit st c c 0%Z None 1%Z (Some plit)) as (p & Hp & Hin & Hv & Hi);
    [apply incl_refl | exact E | intros H; now elim H | discriminate |].
  injection Hp as <-.
  assert (Hi_lt : i < length (clauses Sv)) by (apply nth_error_Some; congruence).
  assert (Hn : var plit < nVars Sv).
  { destruct Hwf as [_ Hw]. apply (Hw c); [eapply nth_error_In; eauto | exact Hin]. }
  assert (Ht : isTrue Sv plit = true).
  { apply isTrue_value. specialize (Hel plit Hn).
    unfold included in Hi. rewrite Hinc in Hi. specialize (Hel Hi).
    destruct (value Sv plit); congruence. }
  set (st1 := set_coverCount (<[i := (count st i + 1)%Z]> (coverCount st)) st).
  assert (Hch1 : chosen_ok Sv st1 cover) by exact Hch.
  assert (Hcount : forall j, count st1 j = if Nat.eq_dec i j then (count st i + 1)%Z
                                           else count st j).
  { intros j. unfold count, st1; simpl. destruct (Nat.eq_dec i j) as [<-|Hne].
    - apply nth_insert_eq. lia.
    - now apply nth_insert_ne. }
  assert (Hfr1 : forced_frame st st1).
  { unfold st1. repeat split; simpl; auto. now rewrite length_insert. }
  destruct (negb (inCover st1 (var plit))) eqn:Ec.
  - cbn [fst snd].
    set (st2 := set_in_cover (<[var plit := true]> (in_cover st1)) st1).
    assert (Hch2 : chosen_ok Sv st2 (cover ++ [plit])) by (apply chosen_add; auto).
    assert (Hmono : forall v, inCover st v = true -> inCover st2 v = true).
    { intros v Hv'. unfold inCover, st2; simpl.
      destruct (Nat.eq_dec (var plit) v) as [<-|Hne].
      - apply nth_insert_eq. destruct Hch as [Hl _]. lia.
      - rewrite nth_insert_ne by exact Hne. exact Hv'. }
    split; [|split; [exact Hch2|]].
    + unfold st2, st1. repeat split; simpl; auto. now rewrite length_insert.
    + intros j. pose proof (Hcount j) as Hj.
      change (count st1 j) with (count st2 j) in Hj. rewrite Hj.
      destruct (Hcnt j) as [H0 H1]. destruct (Nat.eq_dec i j) as [<-|Hne].
      * split; [destruct (Hcnt i); lia|]. intros _.
        exists c, plit. repeat split; auto.
        destruct Hch2 as (_ & Hc2 & _). apply Hc2, in_or_app. right. now left.
      * split; [exact H0|]. intros Hnz.
        destruct (H1 Hnz) as (c' & p & E1 & E2 & E3 & E4).
        exists c', p. repeat split; auto.
  - apply negb_false_iff in Ec. cbn [fst snd].
    split; [exact Hfr1 | split; [exact Hch1|]].
    intros j. rewrite Hcount.
    destruct (Hcnt j) as [H0 H1]. destruct (Nat.eq_dec i j) as [<-|Hne].
    + split; [destruct (Hcnt i); lia|]. intros _.
      exists c, plit. repeat split; auto.
    + split; [exact H0|]. intros Hnz.
      destruct (H1 Hnz) as (c' & p & E1 & E2 & E3 & E4).
      exists c', p. repeat split; auto.
Qed.

Lemma forced_pass_ok cs i st cover :
  (forall k c, nth_error cs k = Some c -> nth_error (clauses Sv) (i + k) = Some c) ->
  include st = inc ->
  length (coverCount st) = S (length (clauses Sv)) ->
  chosen_ok Sv st cover -> counted_ok Sv st ->
  let r := forced_pass Sv i cs (st, cover) in
  forced_frame st (fst r) /\ chosen_ok Sv (fst r) (snd r) /\ counted_ok Sv (fst r).
Proof.
  revert i st cover. induction cs as [|c cs IH]; intros i st cover Hcs Hinc Hlen Hch Hcnt.
  - simpl. split; [apply forced_frame_refl | split; assumption].
  - change (forced_pass Sv i (c :: cs) (st, cover))
      with (forced_pass Sv (S i) cs (forced_clause Sv i c (st, cover))).
    assert (Hc : nth_error (clauses Sv) i = Some c).
    { specialize (Hcs 0 c eq_refl). now rewrite Nat.add_0_r in Hcs. }
    destruct (forced_clause_ok i c st cover Hc Hinc Hlen Hch Hcnt) as (F1 & C1 & K1).
    destruct (forced_clause Sv i c (st, cover)) as [st1 cover1]. simpl in F1, C1, K1.
    destruct (IH (S i) st1 cover1) as (F2 & C2 & K2); auto.
    + intros k c' Hk. specialize (Hcs (S k) c' Hk).
      now rewrite Nat.add_succ_r in Hcs.
    + destruct F1 as (-> & _). exact Hinc.
    + destruct F1 as (_ & _ & _ & _ & _ & -> & _). exact Hlen.
    + split; [eapply forced_frame_trans; eauto | split; assumption].
Qed.

End ForcedPass.

(** ** The second pass *)

Section GreedyPass.

Context (Sv : Solver).
Hypothesis Hwf : solver_wf Sv.

Lemma settled_frame st st' c :
  greedy_frame st st' -> settled Sv st' c = settled Sv st c.
Proof.
  intros (Hi & Hc & _). unfold settled, included, inCover. now rewrite Hi, Hc.
Qed.

Lemma open_for_frame st st' j v :
  greedy_frame st st' -> open_for Sv st j v -> open_for Sv st' j v.
Proof.
  intros Hf (c & H1 & H2 & H3). exists c. split; [exact H1|]. split; [|exact H3].
  now rewrite (settled_frame st st' c Hf).
Qed.

Lemma greedy_frame_refl st : greedy_frame st st.
Proof. repeat split. Qed.

Lemma greedy_frame_trans a b c :
  greedy_frame a b -> greedy_frame b c -> greedy_frame a c.
Proof. unfold greedy_frame. intuition congruence. Qed.

Lemma sat_scan_spec st c unc :
  sat_scan Sv st c unc
  = if settled Sv st c then (true, []) else (false, unc ++ true_lits Sv c).
Proof.
  revert unc. induction c as [|l c IH]; intros unc; simpl.
  - now rewrite app_nil_r.
  - unfold isTrue at 1 2. destruct (lbool_eqb (value Sv l) l_True) eqn:E; simpl.
    + destruct (included st (var l)); simpl; [|reflexivity].
      destruct (inCover st (var l)); simpl; [reflexivity|].
      rewrite IH. destruct (settled Sv st c); [reflexivity|].
      now rewrite <- app_assoc.
    + apply IH.
Qed.

Lemma bump_frame k st l : greedy_frame st (bump k st l).
Proof. unfold bump. destruct (score st (var l) =? 0)%Z; repeat split. Qed.

Lemma bump_lists k st l v :
  var l < length (mVarsInUncCls st) ->
  inUncCls (bump k st l) v
  = if Nat.eq_dec (var l) v then inUncCls st v ++ [k] else inUncCls st v.
Proof.
  intros Hl. unfold bump, inUncCls. simpl.
  assert (E : forall A B (b : bool) (x y : A) (g : A -> B),
            g (if b then x else y) = if b then g x else g y)
    by (intros A B [] x y g; reflexivity).
  rewrite !(E _ _ _ _ _ mVarsInUncCls). simpl.
  destruct (score st (var l) =? 0)%Z;
    (destruct (Nat.eq_dec (var l) v) as [<-|Hne];
     [now rewrite nth_insert_eq | now rewrite nth_insert_ne]).
Qed.

Lemma bump_score k st l v :
  var l < length (mVarsGreedyScore st) ->
  score (bump k st l) v
  = if Nat.eq_dec (var l) v then (score st v + 1)%Z else score st v.
Proof.
  intros Hl. unfold bump, score. simpl.
  destruct (nth (var l) (mVarsGreedyScore st) 0 =? 0)%Z; simpl;
    (destruct (Nat.eq_dec (var l) v) as [<-|Hne];
     [now rewrite nth_insert_eq | now rewrite nth_insert_ne]).
Qed.

Lemma bump_candidates k st l :
  potentialCoverLits (bump k st l)
  = if (score st (var l) =? 0)%Z then potentialCoverLits st ++ [l]
    else potentialCoverLits st.
Proof. unfold bump. destruct (score st (var l) =? 0)%Z; reflexivity. Qed.

Lemma bump_rest k st l :
  coverCount (bump k st l) = coverCount st /\ uncovered (bump k st l) = uncovered st
  /\ length (mVarsGreedyScore (bump k st l)) = length (mVarsGreedyScore st)
  /\ length (mVarsInUncCls (bump k st l)) = length (mVarsInUncCls st).
Proof.
  unfold bump. destruct (score st (var l) =? 0)%Z; simpl;
    rewrite !length_insert; repeat split.
Qed.

Lemma bump_inv cnt0 k done st l :
  greedy_inv Sv cnt0 k done st -> isTrue Sv l = true -> var l < nVars Sv ->
  greedy_inv Sv cnt0 k (done ++ [l]) (bump k st l).
Proof.
  intros ((L1 & L2 & L3) & G2 & G3 & G3' & G4 & G5 & G5n & G5c & G6) Ht Hn.
  pose proof (bump_frame k st l) as Hf.
  pose proof (bump_rest k st l) as (R1 & R2 & R3 & R4).
  assert (HL : forall v, inUncCls (bump k st l) v
               = if Nat.eq_dec (var l) v then inUncCls st v ++ [k] else inUncCls st v)
    by (intros v; apply bump_lists; lia).
  assert (HS : forall v, score (bump k st l) v
               = if Nat.eq_dec (var l) v then (score st v + 1)%Z else score st v)
    by (intros v; apply bump_score; lia).
  assert (Hgrow : forall v j, In j (inUncCls st v) -> In j (inUncCls (bump k st l) v)).
  { intros v j Hj. rewrite HL. destruct (Nat.eq_dec (var l) v); [|exact Hj].
    apply in_or_app. now left. }
  assert (Hne : forall v, inUncCls st v <> [] -> inUncCls (bump k st l) v <> []).
  { intros v Hv. rewrite HL. destruct (Nat.eq_dec (var l) v); [|exact Hv].
    destruct (inUncCls st v); [congruence | discriminate]. }
  unfold greedy_inv. split; [|split; [|split; [|split; [|split; [|split; [|split;
    [|split]]]]]]].
  - rewrite R3, R4. unfold count in *. rewrite R1. auto.
  - intros v j Hj. rewrite HL in Hj.
    assert (Hold : In j (inUncCls st v) ->
              j < k /\ open_for Sv (bump k st l) j v
              \/ j = k /\ (exists l0, In l0 (done ++ [l]) /\ var l0 = v)).
    { intros Hj'. destruct (G2 v j Hj') as [[H1 H2]|[H1 (l0 & H2 & H3)]].
      - left. split; [exact H1|]. eapply open_for_frame; eauto.
      - right. split; [exact H1|]. exists l0. split; [|exact H3].
        apply in_or_app. now left. }
    destruct (Nat.eq_dec (var l) v) as [E|E]; [|auto].
    apply in_app_or in Hj. destruct Hj as [Hj|[<-|[]]]; [auto|].
    right. split; [reflexivity|]. exists l. split; [|exact E].
    apply in_or_app. right. now left.
  - intros i c l0 Hi Hc Hs Hl0 Ht0. apply Hgrow. eapply G3; eauto.
    now rewrite <- (settled_frame st (bump k st l) c Hf).
  - intros l0 Hl0. apply in_app_or in Hl0. destruct Hl0 as [Hl0|[<-|[]]].
    + apply Hgrow. now apply G3'.
    + rewrite HL. destruct (Nat.eq_dec (var l) (var l)); [|congruence].
      apply in_or_app. right. now left.
  - intros v Hv. rewrite HS, HL. destruct (Nat.eq_dec (var l) v).
    + rewrite length_app, G4 by exact Hv. simpl. lia.
    + now apply G4.
  - intros l0 Hl0. rewrite bump_candidates in Hl0.
    destruct (score st (var l) =? 0)%Z eqn:Es.
    + apply in_app_or in Hl0. destruct Hl0 as [Hl0|[<-|[]]].
      * destruct (G5 l0 Hl0) as [H1 H2]. split; [exact H1 | now apply Hne].
      * split; [exact Ht|]. rewrite HL.
        destruct (Nat.eq_dec (var l) (var l)); [|congruence].
        destruct (inUncCls st (var l)); discriminate.
    + destruct (G5 l0 Hl0) as [H1 H2]. split; [exact H1 | now apply Hne].
  - rewrite bump_candidates. destruct (score st (var l) =? 0)%Z eqn:Es; [|exact G5n].
    rewrite map_app. simpl. apply List.NoDup_app; [exact G5n | |].
    + constructor; [intros [] | constructor].
    + intros v Hv [<-|[]]. apply in_map_iff in Hv.
      destruct Hv as (l0 & E0 & Hl0). destruct (G5 l0 Hl0) as [_ H2].
      apply Z.eqb_eq in Es. rewrite G4 in Es by exact Hn.
      rewrite E0 in H2. destruct (inUncCls st (var l)); [congruence | discriminate].
  - intros v Hv. rewrite bump_candidates. rewrite HL in Hv.
    destruct (score st (var l) =? 0)%Z eqn:Es.
    + rewrite map_app. apply in_or_app. destruct (Nat.eq_dec (var l) v) as [E|E].
      * right. left. exact E.
      * left. now apply G5c.
    + destruct (Nat.eq_dec (var l) v) as [E|E]; [|now apply G5c].
      apply G5c. rewrite <- E. apply Z.eqb_neq in Es. rewrite G4 in Es by exact Hn.
      intros Hnil. rewrite Hnil in Es. now apply Es.
  - intros j c Hc. unfold count. rewrite R1.
    rewrite (settled_frame st (bump k st l) c Hf). now apply G6.
Qed.

Lemma fold_bump_inv cnt0 k ls done st :
  greedy_inv Sv cnt0 k done st ->
  (forall l, In l ls -> isTrue Sv l = true /\ var l < nVars Sv) ->
  greedy_inv Sv cnt0 k (done ++ ls) (fold_left (bump k) ls st)
  /\ greedy_frame st (fold_left (bump k) ls st)
  /\ uncovered (fold_left (bump k) ls st) = uncovered st.
Proof.
  revert done st. induction ls as [|l ls IH]; intros done st Hinv Hls; simpl.
  - rewrite app_nil_r. split; [exact Hinv|]. split; [apply greedy_frame_refl | reflexivity].
  - destruct (Hls l (or_introl eq_refl)) as [Ht Hn].
    destruct (IH (done ++ [l]) (bump k st l)) as (H1 & H2 & H3).
    + now apply bump_inv.
    + intros l' Hl'. apply Hls. now right.
    + rewrite <- app_assoc in H1. simpl in H1. split; [exact H1|]. split.
      * eapply greedy_frame_trans; [apply bump_frame | exact H2].
      * rewrite H3. apply bump_rest.
Qed.

Lemma greedy_inv_frame_uncovered cnt0 k done st x :
  greedy_inv Sv cnt0 k done st ->
  greedy_inv Sv cnt0 k done (set_uncovered x st).
Proof. intros H. exact H. Qed.

Lemma true_lits_In c l : In l (true_lits Sv c) <-> In l c /\ isTrue Sv l = true.
Proof. unfold true_lits. apply filter_In. Qed.

Lemma greedy_clause_inv cnt0 k c st :
  nth_error (clauses Sv) k = Some c ->
  greedy_inv Sv cnt0 k [] st -> pending_empty k st ->
  greedy_inv Sv cnt0 (S k) [] (greedy_clause Sv k c st)
  /\ pending_empty (S k) (greedy_clause Sv k c st)
  /\ greedy_frame st (greedy_clause Sv k c st).
Proof.
  intros Hc Hinv Hpe. unfold greedy_clause.
  rewrite sat_scan_spec, (Hpe k (Nat.le_refl k)). simpl app.
  assert (Hk : k < length (clauses Sv)) by (apply nth_error_Some; congruence).
  destruct (settled Sv st c) eqn:Es.
  - set (st' := set_uncovered _ _).
    assert (Hf : greedy_frame st st') by (repeat split).
    destruct Hinv as ((L1 & L2 & L3) & G2 & G3 & G3' & G4 & G5 & G5n & G5c & G6).
    split; [|split; [|exact Hf]].
    + unfold greedy_inv.
      change (inUncCls st') with (inUncCls st). change (score st') with (score st).
      change (potentialCoverLits st') with (potentialCoverLits st).
      split; [|split; [|split; [|split; [|split; [|split; [|split; [|split]]]]]]];
        auto.
      * unfold st'; simpl. rewrite length_insert. auto.
      * intros v j Hj. destruct (G2 v j Hj) as [[H1 H2]|[H1 (l0 & [] & _)]].
        left. split; [lia|]. eapply open_for_frame; eauto.
      * intros i c0 l Hi Hc0 Hs Hl Ht.
        rewrite (settled_frame st st' c0 Hf) in Hs.
        destruct (Nat.eq_dec i k) as [->|Hne]; [congruence|].
        eapply G3; eauto. lia.
      * intros l [].
      * intros j c0 Hc0. rewrite (settled_frame st st' c0 Hf).
        unfold count, st'; simpl. fold (count st k).
        destruct (Nat.eq_dec k j) as [<-|Hne].
        -- rewrite nth_insert_eq by lia. rewrite (G6 k c0 Hc0).
           assert (c0 = c) by congruence. subst c0. rewrite Es.
           rewrite Nat.ltb_irrefl, (proj2 (Nat.ltb_lt k (S k))) by lia. simpl. lia.
        -- rewrite nth_insert_ne by exact Hne. fold (count st j). rewrite (G6 j c0 Hc0).
           destruct (Nat.ltb_spec j k), (Nat.ltb_spec j (S k)); try lia; reflexivity.
    + intros j Hj. unfold st'; simpl. rewrite nth_insert_ne by lia. apply Hpe. lia.
  - set (st0 := set_uncovered _ st).
    destruct (fold_bump_inv cnt0 k (true_lits Sv c) [] st0) as (H1 & H2 & H3).
    + exact Hinv.
    + intros l Hl. apply true_lits_In in Hl. destruct Hl as [Hl Ht].
      split; [exact Ht|]. destruct Hwf as [_ Hw]. apply (Hw c); [|exact Hl].
      eapply nth_error_In; eauto.
    + simpl in H1.
      assert (Hf : greedy_frame st (fold_left (bump k) (true_lits Sv c) st0))
        by (eapply greedy_frame_trans; [|exact H2]; repeat split).
      split; [|split; [|exact Hf]].
      * destruct H1 as ((L1 & L2 & L3) & G2 & G3 & G3' & G4 & G5 & G5n & G5c & G6).
        unfold greedy_inv.
        split; [|split; [|split; [|split; [|split; [|split; [|split; [|split]]]]]]];
          auto.
        -- intros v j Hj. left. destruct (G2 v j Hj) as [[E1 E2]|[E1 (l0 & E2 & E3)]].
           ++ split; [lia | exact E2].
           ++ subst j. split; [lia|]. exists c. split; [exact Hc|]. split.
              ** rewrite (settled_frame st _ c Hf). exact Es.
              ** apply true_lits_In in E2. exists l0. tauto.
        -- intros i c0 l Hi Hc0 Hs Hl Ht. destruct (Nat.eq_dec i k) as [->|Hne].
           ++ assert (c0 = c) by congruence. subst c0. apply G3'.
              apply true_lits_In. tauto.
           ++ eapply G3; eauto. lia.
        -- intros l [].
        -- intros j c0 Hc0. rewrite (G6 j c0 Hc0).
           destruct (Nat.eq_dec j k) as [->|Hne].
           ++ assert (c0 = c) by congruence. subst c0.
              rewrite (settled_frame st _ c Hf), Es, !andb_false_r. reflexivity.
           ++ destruct (Nat.ltb_spec j k), (Nat.ltb_spec j (S k)); try lia; reflexivity.
      * intros j Hj. rewrite H3. unfold st0; simpl.
        rewrite nth_insert_ne by lia. apply Hpe. lia.
Qed.

Lemma greedy_pass_inv cnt0 cs k st :
  (forall i c, nth_error cs i = Some c -> nth_error (clauses Sv) (k + i) = Some c) ->
  greedy_inv Sv cnt0 k [] st -> pending_empty k st ->
  greedy_inv Sv cnt0 (k + length cs) [] (greedy_pass Sv k cs st)
  /\ greedy_frame st (greedy_pass Sv k cs st).
Proof.
  revert k st. induction cs as [|c cs IH]; intros k st Hcs Hinv Hpe.
  - simpl. rewrite Nat.add_0_r. split; [exact Hinv | apply greedy_frame_refl].
  - change (greedy_pass Sv k (c :: cs) st)
      with (greedy_pass Sv (S k) cs (greedy_clause Sv k c st)).
    assert (Hc : nth_error (clauses Sv) k = Some c).
    { specialize (Hcs 0 c eq_refl). now rewrite Nat.add_0_r in Hcs. }
    destruct (greedy_clause_inv cnt0 k c st Hc Hinv Hpe) as (H1 & H2 & H3).
    destruct (IH (S k) (greedy_clause Sv k c st)) as (H4 & H5); auto.
    + intros i c' Hi. specialize (Hcs (S i) c' Hi). now rewrite Nat.add_succ_r in Hcs.
    + simpl length. rewrite Nat.add_succ_r. split; [exact H4|].
      eapply greedy_frame_trans; eauto.
Qed.

(** ** The third and the last pass *)

Lemma count_frame_refl st : count_frame st st.
Proof. repeat split. Qed.

Lemma count_frame_trans a b c : count_frame a b -> count_frame b c -> count_frame a c.
Proof. unfold count_frame. intuition congruence. Qed.

Lemma count_frame_lists st st' v : count_frame st st' -> inUncCls st' v = inUncCls st v.
Proof. intros (_ & _ & _ & H & _). unfold inUncCls. now rewrite H. Qed.

Lemma count_frame_settled st st' c :
  count_frame st st' -> settled Sv st' c = settled Sv st c.
Proof.
  intros (Hi & Hc & _). unfold settled, included, inCover. now rewrite Hi, Hc.
Qed.

Lemma count_frame_occurrences st st' G j :
  count_frame st st' -> occurrences st' G j = occurrences st G j.
Proof.
  intros Hf. unfold occurrences. induction G as [|l G IH]; simpl; [reflexivity|].
  now rewrite IH, (count_frame_lists st st' (var l) Hf).
Qed.

Lemma add_counts_spec d cls st :
  (forall j, In j cls -> j < length (coverCount st)) ->
  count_frame st (add_counts d cls st)
  /\ forall j, count (add_counts d cls st) j
               = (count st j + d * Z.of_nat (count_occ Nat.eq_dec cls j))%Z.
Proof.
  unfold add_counts. revert st. induction cls as [|c cls IH]; intros st Hlt; simpl.
  - split; [apply count_frame_refl | intros j; lia].
  - set (st1 := set_coverCount (<[c := (count st c + d)%Z]> (coverCount st)) st).
    destruct (IH st1) as [H1 H2].
    + intros j Hj. unfold st1; simpl. rewrite length_insert. apply Hlt. now right.
    + split.
      * eapply count_frame_trans; [|exact H1]. unfold st1. repeat split; simpl.
        now rewrite length_insert.
      * intros j. rewrite H2. unfold count at 1, st1; simpl.
        destruct (Nat.eq_dec c j) as [<-|Hne].
        -- rewrite nth_insert_eq by (apply Hlt; now left).
           rewrite Nat2Z.inj_succ. fold (count st c). lia.
        -- rewrite nth_insert_ne by exact Hne. fold (count st j). lia.
Qed.

Lemma occurrences_app st A B j :
  occurrences st (A ++ B) j = (occurrences st A j + occurrences st B j)%Z.
Proof.
  unfold occurrences. induction A as [|l A IH]; simpl; [reflexivity|].
  rewrite IH. lia.
Qed.

Lemma occurrences_cons st l G j :
  occurrences st (l :: G) j
  = (Z.of_nat (count_occ Nat.eq_dec (inUncCls st (var l)) j) + occurrences st G j)%Z.
Proof. reflexivity. Qed.

Lemma occurrences_single st l j :
  occurrences st [l] j = Z.of_nat (count_occ Nat.eq_dec (inUncCls st (var l)) j).
Proof. rewrite occurrences_cons. unfold occurrences; simpl. lia. Qed.

Lemma occurrences_nonneg st G j : (0 <= occurrences st G j)%Z.
Proof. unfold occurrences. induction G as [|l G IH]; simpl; lia. Qed.

Lemma occurrences_In st G l j :
  In l G -> In j (inUncCls st (var l)) -> (1 <= occurrences st G j)%Z.
Proof.
  intros Hl Hj. induction G as [|x G IH]; [destruct Hl|].
  change (occurrences st (x :: G) j)
    with (Z.of_nat (count_occ Nat.eq_dec (inUncCls st (var x)) j) + occurrences st G j)%Z.
  pose proof (occurrences_nonneg st G j).
  destruct Hl as [->|Hl].
  - apply (count_occ_In Nat.eq_dec) in Hj. lia.
  - specialize (IH Hl). lia.
Qed.

(** Two literals of [G] whose lists hold a clause that is counted once are
    the same literal. *)
Lemma occurrences_one st G l l' j :
  occurrences st G j = 1%Z ->
  In l G -> In j (inUncCls st (var l)) ->
  In l' G -> In j (inUncCls st (var l')) -> l = l'.
Proof.
  induction G as [|x G IH]; intros Hsum Hl Hj Hl' Hj'; [destruct Hl|].
  change (occurrences st (x :: G) j)
    with (Z.of_nat (count_occ Nat.eq_dec (inUncCls st (var x)) j) + occurrences st G j)%Z
    in Hsum.
  pose proof (occurrences_nonneg st G j) as H0.
  assert (Hx : forall y, y = x -> In j (inUncCls st (var y)) ->
                (1 <= Z.of_nat (count_occ Nat.eq_dec (inUncCls st (var x)) j))%Z).
  { intros y -> Hy. apply (count_occ_In Nat.eq_dec) in Hy. lia. }
  destruct Hl as [El|Hl], Hl' as [El'|Hl'].
  - congruence.
  - pose proof (Hx l (eq_sym El) Hj). pose proof (occurrences_In st G l' j Hl' Hj'). lia.
  - pose proof (Hx l' (eq_sym El') Hj'). pose proof (occurrences_In st G l j Hl Hj). lia.
  - apply IH; auto. pose proof (occurrences_In st G l j Hl Hj). lia.
Qed.

Lemma first_uncovered_spec st k i :
  let i' := first_uncovered st k i in
  i <= i' <= i + k
  /\ (forall j, i <= j < i' -> count st j <> 0%Z)
  /\ (i' < i + k -> count st i' = 0%Z).
Proof.
  revert i. induction k as [|k IH]; intros i; simpl.
  - split; [lia|]. split; [intros j Hj; lia | lia].
  - destruct (count st i =? 0)%Z eqn:E.
    + apply Z.eqb_eq in E. split; [lia|]. split; [intros j Hj; lia | auto].
    + apply Z.eqb_neq in E. destruct (IH (S i)) as (H1 & H2 & H3).
      split; [lia|]. split.
      * intros j Hj. destruct (Nat.eq_dec j i) as [->|Hne]; [exact E|].
        apply H2. lia.
      * intros Hlt. apply H3. lia.
Qed.

Lemma counts_ok_frame st st' G :
  count_frame st st' -> (forall j, count st' j = count st j) ->
  counts_ok Sv st G -> counts_ok Sv st' G.
Proof.
  intros Hf Hc H j c Hj. specialize (H j c Hj).
  rewrite (count_frame_settled st st' c Hf), Hc, (count_frame_occurrences st st' G j Hf).
  exact H.
Qed.

Lemma lists_ok_frame st st' :
  count_frame st st' -> lists_ok Sv st -> lists_ok Sv st'.
Proof.
  intros Hf (L & H1 & H2). pose proof Hf as (_ & _ & _ & _ & HL).
  split; [congruence|]. split.
  - intros v j Hj. rewrite (count_frame_lists st st' v Hf) in Hj.
    destruct (H1 v j Hj) as [E1 (c & E2 & E3 & E4)]. split; [exact E1|].
    exists c. split; [exact E2|]. split; [|exact E4].
    now rewrite (count_frame_settled st st' c Hf).
  - intros i c l Hc Hs Hl Ht. rewrite (count_frame_lists st st' (var l) Hf).
    rewrite (count_frame_settled st st' c Hf) in Hs. eapply H2; eauto.
Qed.

(** A settled clause is in no list. *)
Lemma settled_not_listed st v j c :
  lists_ok Sv st -> nth_error (clauses Sv) j = Some c -> settled Sv st c = true ->
  ~ In j (inUncCls st v).
Proof.
  intros (_ & H1 & _) Hc Hs Hj. destruct (H1 v j Hj) as [_ (c' & E1 & E2 & _)].
  congruence.
Qed.

(** Adding or removing the list of one literal keeps the counts right. *)
Lemma add_counts_ok d st G G' l :
  lists_ok Sv st -> counts_ok Sv st G ->
  (forall j, occurrences st G' j
             = (occurrences st G j
                + d * Z.of_nat (count_occ Nat.eq_dec (inUncCls st (var l)) j))%Z) ->
  count_frame st (add_counts d (inUncCls st (var l)) st)
  /\ counts_ok Sv (add_counts d (inUncCls st (var l)) st) G'
  /\ forall j, count (add_counts d (inUncCls st (var l)) st) j
               = (count st j + d * Z.of_nat (count_occ Nat.eq_dec (inUncCls st (var l)) j))%Z.
Proof.
  intros HL HC HG. pose proof HL as (Hlen & H1 & _).
  destruct (add_counts_spec d (inUncCls st (var l)) st) as [Hf Hc].
  { intros j Hj. destruct (H1 _ _ Hj) as [Hlt _]. lia. }
  split; [exact Hf|]. split; [|exact Hc].
  intros j c Hj. specialize (HC j c Hj).
  rewrite (count_frame_settled _ _ c Hf), Hc, (count_frame_occurrences _ _ G' j Hf).
  destruct (settled Sv st c) eqn:Es.
  - rewrite (proj1 (count_occ_not_In Nat.eq_dec (inUncCls st (var l)) j)); [lia|].
    eapply settled_not_listed; eauto.
  - rewrite HG. lia.
Qed.

Lemma count_nonneg_listed st G v j :
  lists_ok Sv st -> counts_ok Sv st G -> In j (inUncCls st v) -> (0 <= count st j)%Z.
Proof.
  intros (_ & H1 & _) HC Hj. destruct (H1 v j Hj) as [_ (c & E1 & E2 & _)].
  specialize (HC j c E1). rewrite E2 in HC. rewrite HC. apply occurrences_nonneg.
Qed.

(** The third pass returns: while a clause is uncovered a candidate is left.
    It extends the cover by candidates whose lists are not empty and keeps
    the counts right. *)
Lemma third_pass_ok cover0 cands i st G :
  satisfied Sv ->
  i <= length (clauses Sv) ->
  lists_ok Sv st -> counts_ok Sv st G ->
  (forall v, inUncCls st v <> [] ->
     (exists l, In l cands /\ var l = v)
     \/ (forall j, In j (inUncCls st v) -> count st j <> 0%Z)) ->
  exists st' G',
    third_pass (length (clauses Sv)) cands i st (cover0 ++ G)
    = Some (st', cover0 ++ G ++ G')
    /\ count_frame st st' /\ counts_ok Sv st' (G ++ G')
    /\ (forall l, In l G' -> In l cands /\ inUncCls st (var l) <> []).
Proof.
  intros Hsat. revert i st G.
  assert (Hstuck : forall i st G,
    i <= length (clauses Sv) -> lists_ok Sv st -> counts_ok Sv st G ->
    first_uncovered st (length (clauses Sv) - i) i <> length (clauses Sv) ->
    exists v, inUncCls st v <> []
      /\ In (first_uncovered st (length (clauses Sv) - i) i) (inUncCls st v)
      /\ count st (first_uncovered st (length (clauses Sv) - i) i) = 0%Z).
  { intros i st G Hi HL HC Hne.
    destruct (first_uncovered_spec st (length (clauses Sv) - i) i) as (H1 & _ & H3).
    set (i' := first_uncovered st (length (clauses Sv) - i) i) in *.
    assert (Hlt : i' < length (clauses Sv)) by lia.
    assert (H0 : count st i' = 0%Z) by (apply H3; lia).
    destruct (nth_error (clauses Sv) i') as [c|] eqn:Ec;
      [|apply nth_error_None in Ec; lia].
    pose proof (HC i' c Ec) as HCi.
    destruct (settled Sv st c) eqn:Es; [lia|].
    destruct (Hsat c (nth_error_In _ _ Ec)) as (l & Hl & Hv).
    apply isTrue_value in Hv. destruct HL as (_ & _ & H2).
    pose proof (H2 i' c l Ec Es Hl Hv) as Hin.
    exists (var l). split; [|split; [exact Hin | exact H0]].
    intros E. rewrite E in Hin. destruct Hin. }
  induction cands as [|l0 r IH]; intros i st G Hi HL HC HT.
  - simpl. destruct (Nat.eqb_spec (first_uncovered st (length (clauses Sv) - i) i)
                       (length (clauses Sv))) as [E|E].
    + exists st, []. rewrite app_nil_r. split; [reflexivity|].
      split; [apply count_frame_refl|]. split; [exact HC | intros l []].
    + exfalso. destruct (Hstuck i st G Hi HL HC E) as (v & Hv & Hin & H0).
      destruct (HT v Hv) as [(l & [] & _)|Hall]. exact (Hall _ Hin H0).
  - cbn [third_pass].
    destruct (first_uncovered_spec st (length (clauses Sv) - i) i) as (H1 & _ & _).
    set (i' := first_uncovered st (length (clauses Sv) - i) i) in *.
    destruct (Nat.eqb_spec i' (length (clauses Sv))) as [E|E].
    + exists st, []. rewrite app_nil_r. split; [reflexivity|].
      split; [apply count_frame_refl|]. split; [exact HC | intros l []].
    + assert (Hi' : i' <= length (clauses Sv)) by lia.
      destruct (existsb (fun c => (count st c =? 0)%Z) (inUncCls st (var l0))) eqn:Ex.
      * destruct (add_counts_ok 1 st G (G ++ [l0]) l0 HL HC) as (Hf & HC1 & Hc1).
        { intros j. rewrite occurrences_app, occurrences_single. lia. }
        set (st1 := add_counts 1 (inUncCls st (var l0)) st) in *.
        destruct (IH i' st1 (G ++ [l0]) Hi' (lists_ok_frame st st1 Hf HL) HC1)
          as (st' & G' & R1 & R2 & R3 & R4).
        { intros v Hv. rewrite (count_frame_lists st st1 v Hf) in *.
          assert (Hpos : forall j, In j (inUncCls st v) -> count st j <> 0%Z ->
                                   count st1 j <> 0%Z).
          { intros j Hj Hnz. rewrite Hc1.
            pose proof (count_nonneg_listed st G v j HL HC Hj). lia. }
          destruct (HT v Hv) as [(l & [<-|Hl] & El)|Hall].
          - right. intros j Hj. rewrite Hc1. rewrite <- El in Hj.
            pose proof (count_nonneg_listed st G _ j HL HC Hj).
            apply (count_occ_In Nat.eq_dec) in Hj. lia.
          - left. eauto.
          - right. intros j Hj. apply Hpos; auto. }
        exists st', ([l0] ++ G'). rewrite <- !app_assoc in *.
        split; [exact R1|].
        split; [eapply count_frame_trans; eauto|]. split; [exact R3|].
        intros l [<-|Hl].
        -- split; [now left|]. intros En. rewrite En in Ex. discriminate.
        -- destruct (R4 l Hl) as [A B]. split; [now right|].
           now rewrite (count_frame_lists st st1 (var l) Hf) in B.
      * destruct (IH i' st G Hi' HL HC) as (st' & G' & R1 & R2 & R3 & R4).
        { intros v Hv. destruct (HT v Hv) as [(l & [<-|Hl] & El)|Hall].
          - right. intros j Hj Hz. rewrite <- El in Hj.
            assert (Ht : existsb (fun c => (count st c =? 0)%Z) (inUncCls st (var l0)) = true).
            { apply existsb_exists. exists j. split; [exact Hj | now apply Z.eqb_eq]. }
            congruence.
          - left. eauto.
          - now right. }
        exists st', G'. split; [exact R1|]. split; [exact R2|]. split; [exact R3|].
        intros l Hl. destruct (R4 l Hl). split; [now right | assumption].
Qed.

(** The last pass: every literal it keeps has a clause in its list that is
    counted once, and the counts stay right. *)
Lemma prune_ok R st K :
  lists_ok Sv st -> counts_ok Sv st (K ++ R) ->
  (forall l, In l K -> exists j, In j (inUncCls st (var l)) /\ count st j = 1%Z) ->
  let r := prune R st K in
  count_frame st (fst r) /\ counts_ok Sv (fst r) (snd r)
  /\ (forall l, In l (snd r) ->
        exists j, In j (inUncCls (fst r) (var l)) /\ count (fst r) j = 1%Z)
  /\ (forall l, In l (snd r) -> In l (K ++ R)).
Proof.
  revert st K. induction R as [|l R IH]; intros st K HL HC HK; cbn [prune].
  - rewrite app_nil_r in *. cbn [fst snd].
    split; [apply count_frame_refl|]. split; [exact HC|]. split; [exact HK | auto].
  - destruct (existsb (fun c => (count st c =? 1)%Z) (inUncCls st (var l))) eqn:Ex.
    + destruct (IH st (K ++ [l]) HL) as (R1 & R2 & R3 & R4).
      * now rewrite <- app_assoc.
      * intros l' Hl'. apply in_app_or in Hl'. destruct Hl' as [Hl'|[<-|[]]]; [auto|].
        apply existsb_exists in Ex. destruct Ex as (j & Hj & Ej).
        exists j. split; [exact Hj | now apply Z.eqb_eq].
      * split; [exact R1|]. split; [exact R2|]. split; [exact R3|].
        intros l' Hl'. specialize (R4 l' Hl'). now rewrite <- app_assoc in R4.
    + destruct (add_counts_ok (-1) st (K ++ l :: R) (K ++ R) l HL HC) as (Hf & HC1 & Hc1).
      { intros j. rewrite !occurrences_app, occurrences_cons. lia. }
      set (st1 := add_counts (-1) (inUncCls st (var l)) st) in *.
      destruct (IH st1 K (lists_ok_frame st st1 Hf HL) HC1) as (R1 & R2 & R3 & R4).
      * intros l' Hl'. destruct (HK l' Hl') as (j & Hj & Ej).
        exists j. rewrite (count_frame_lists st st1 (var l') Hf). split; [exact Hj|].
        rewrite Hc1.
        rewrite (proj1 (count_occ_not_In Nat.eq_dec (inUncCls st (var l)) j)); [lia|].
        intros Hin.
        assert (Ht : existsb (fun c => (count st c =? 1)%Z) (inUncCls st (var l)) = true).
        { apply existsb_exists. exists j. split; [exact Hin | now apply Z.eqb_eq]. }
        congruence.
      * split; [eapply count_frame_trans; eauto|]. split; [exact R2|].
        split; [exact R3|].
        intros l' Hl'. specialize (R4 l' Hl'). apply in_app_or in R4.
        apply in_or_app. destruct R4; [now left | right; now right].
Qed.

Lemma first_greedy_app st A B :
  (forall l, In l A -> inUncCls st (var l) = []) ->
  (forall l, In l B -> inUncCls st (var l) <> []) ->
  first_greedy st (A ++ B) = length A.
Proof.
  intros HA HB. induction A as [|a A IH]; simpl.
  - destruct B as [|b B]; [reflexivity|]. simpl.
    specialize (HB b (or_introl eq_refl)).
    destruct (inUncCls st (var b)); [congruence | reflexivity].
  - rewrite (HA a (or_introl eq_refl)). simpl. f_equal. apply IH.
    intros l Hl. apply HA. now right.
Qed.

End GreedyPass.

(** ** Local minimality in exact mode *)

Lemma In_firstn_whole {A} n (l : list A) x : In x (firstn n l) -> In x l.
Proof.
  revert n. induction l as [|y l IH]; intros [|n]; simpl; try tauto.
  intros [->|H]; [now left | right; eauto].
Qed.

Lemma Lit_eqb_refl l : Lit_eqb l l = true.
Proof. unfold Lit_eqb. rewrite Nat.eqb_refl. now destruct (sign l). Qed.

Lemma remove_lit_In l x cover :
  In x (remove_lit l cover) -> In x cover /\ x <> l.
Proof.
  unfold remove_lit. intros H. apply filter_In in H. destruct H as [H1 H2].
  split; [exact H1|]. intros ->. now rewrite Lit_eqb_refl in H2.
Qed.

Lemma unsettled_lit Sv st c l :
  settled Sv st c = false -> In l c -> isTrue Sv l = true ->
  included st (var l) = true /\ inCover st (var l) = false.
Proof.
  unfold settled. intros Hs Hl Ht.
  destruct (included st (var l)) eqn:E1, (inCover st (var l)) eqn:E2; auto;
    exfalso; (assert (Hx : existsb (fun l => isTrue Sv l
                 && (negb (included st (var l)) || inCover st (var l))) c = true)
      by (apply existsb_exists; exists l; rewrite Ht, E1, E2; auto));
    congruence.
Qed.

Lemma stable_sort_perm lt l : Permutation (stable_sort lt l) l.
Proof.
  assert (Hi : forall x r, Permutation (insert_sorted lt x r) (x :: r)).
  { intros x r. induction r as [|y r IH]; simpl; [reflexivity|].
    destruct (lt y x); [|reflexivity].
    rewrite IH. apply perm_swap. }
  unfold stable_sort. induction l as [|x l IH]; simpl; [reflexivity|].
  rewrite Hi. now constructor.
Qed.

(** [stable_sort] is stable: a list in which no element is ordered before
    an earlier one comes out as it is, so that equal elements keep the order
    in which they were entered. *)
Lemma stable_sort_ties lt l :
  (forall l1 x l2 y l3, l = l1 ++ x :: l2 ++ y :: l3 -> lt y x = false) ->
  stable_sort lt l = l.
Proof.
  unfold stable_sort. induction l as [|x l IH]; intros H; [reflexivity|].
  simpl. rewrite IH.
  - destruct l as [|y r]; [reflexivity|]. simpl.
    now rewrite (H [] x [] y r eq_refl).
  - intros l1 a l2 b l3 ->. apply (H (x :: l1) a l2 b l3). reflexivity.
Qed.

(** C8.  In exact mode, on a well-formed solver view whose assignment
    satisfies every clause and assigns every cover-eligible variable,
    [getCover] returns, and for every returned literal [l] whose
    clause-index list is not empty (the literals taken from the trail below
    the first decision and those of the forced pass have empty lists) there
    is a clause that holds no true literal of an excluded variable and no
    literal of the cover other than [l]: without [l] that clause is not
    covered.  [sort] may be any function that permutes its argument. *)
Theorem exact_cover_locally_minimal
    (sort : (Lit -> Lit -> bool) -> list Lit -> list Lit) Sv st :
  (forall lt l, Permutation (sort lt l) l) ->
  solver_wf Sv -> satisfied Sv -> eligible_assigned Sv st ->
  exists st' cover,
    getCover sort false Sv st = Some (st', cover)
    /\ forall l, In l cover -> inUncCls st' (var l) <> [] ->
         exists c, In c (clauses Sv) /\ ~ covers Sv st' (remove_lit l cover) c.
Proof.
  intros Hperm Hwf Hsat Hel. unfold getCover.
  (* the trail pass *)
  pose proof (level0_chosen Sv (firstn (level0_count Sv) (trail Sv)) (prologue Sv st) [])
    as Hch1.
  pose proof (level0_same (firstn (level0_count Sv) (trail Sv)) (prologue Sv st) [])
    as [_ Hinc1].
  destruct (level0 _ (prologue Sv st) []) as [st1 cover1]. cbn [fst snd] in *.
  assert (Hch1' : chosen_ok Sv st1 cover1).
  { apply Hch1; [|apply prologue_chosen].
    intros l Hl. apply (proj1 Hwf). eapply In_firstn_whole; eauto. }
  clear Hch1.
  (* the resets *)
  set (st2 := exact_reset Sv st1).
  assert (Hinc2 : include st2 = include (prologue Sv st)) by exact Hinc1.
  assert (Hch2 : chosen_ok Sv st2 cover1) by exact Hch1'.
  assert (Hz2 : forall j, count st2 j = 0%Z).
  { intros j. unfold count, st2, exact_reset; simpl. apply nth_growTo_nil. }
  assert (Hl2 : forall v, inUncCls st2 v = []).
  { intros v. unfold inUncCls, st2, exact_reset; simpl. apply nth_map_nil. }
  assert (Hu2 : forall j, nth j (uncovered st2) [] = []).
  { intros j. unfold st2, exact_reset; simpl. apply nth_map_nil. }
  assert (Hs2 : forall v, score st2 v = 0%Z).
  { intros v. unfold score, st2, exact_reset; simpl. apply nth_growTo_nil. }
  assert (Hlen2 : length (coverCount st2) = S (length (clauses Sv))
                  /\ length (mVarsGreedyScore st2) = nVars Sv
                  /\ nVars Sv <= length (mVarsInUncCls st2)
                  /\ potentialCoverLits st2 = []).
  { unfold st2, exact_reset; simpl. rewrite !length_growTo, length_map, length_growTo.
    simpl. repeat split; lia. }
  destruct Hlen2 as (Hlc2 & Hls2 & Hlm2 & Hp2).
  (* the first pass *)
  destruct (forced_pass_ok Sv (include st2) Hwf) with (cs := clauses Sv) (i := 0)
    (st := st2) (cover := cover1) as (Hf3 & Hch3 & Hcnt3); auto.
  { intros l Hn Hi. apply Hel; [exact Hn|]. unfold eligible, included.
    now rewrite <- Hinc2. }
  { intros j. split; [rewrite Hz2; lia | rewrite Hz2; congruence]. }
  destruct (forced_pass Sv 0 (clauses Sv) (st2, cover1)) as [st3 cover3].
  cbn [fst snd] in *.
  destruct Hf3 as (Fi & Fu & Fs & Fm & Fp & Fl & _).
  (* the second pass *)
  destruct (greedy_pass_inv Sv Hwf (count st3) (clauses Sv) 0 st3) as (Hg4 & Hf4).
  { auto. }
  { assert (Hl3 : forall v, inUncCls st3 v = [])
      by (intros v; unfold inUncCls; rewrite Fm; apply Hl2).
    assert (Hs3 : forall v, score st3 v = 0%Z)
      by (intros v; unfold score; rewrite Fs; apply Hs2).
    unfold greedy_inv. rewrite Fs, Fm, Fp, Fl, Hp2.
    split; [auto|]. split; [intros v j Hj; rewrite Hl3 in Hj; destruct Hj|].
    split; [intros; lia|]. split; [intros l []|].
    split; [intros v _; now rewrite Hs3, Hl3|]. split; [intros l []|].
    split; [constructor|]. split; [intros v Hv; now rewrite Hl3 in Hv|].
    intros j c _. simpl. lia. }
  { intros j _. rewrite Fu. apply Hu2. }
  simpl in Hg4. set (st4 := greedy_pass Sv 0 (clauses Sv) st3) in *.
  destruct Hg4 as ((L1 & L2 & L3) & G2 & G3 & _ & _ & G5 & G5n & G5c & G6).
  assert (Hch4 : chosen_ok Sv st4 cover3).
  { destruct Hf4 as (E1 & E2 & _). unfold chosen_ok, included, inCover in *.
    rewrite E1, E2. exact Hch3. }
  assert (HL4 : lists_ok Sv st4).
  { split; [exact L3|]. split.
    - intros v j Hj. destruct (G2 v j Hj) as [[H1 H2]|[_ (l & [] & _)]]. auto.
    - intros i c l Hc. apply G3; [|exact Hc]. apply nth_error_Some. congruence. }
  assert (HC4 : counts_ok Sv st4 []).
  { intros j c Hc. rewrite (G6 j c Hc).
    assert (Hj : (j <? length (clauses Sv)) = true)
      by (apply Nat.ltb_lt, nth_error_Some; congruence).
    rewrite Hj. simpl andb. destruct (Hcnt3 j) as [H0 H1].
    destruct (settled Sv st4 c) eqn:Es; [lia|].
    destruct (Z.eq_dec (count st3 j) 0%Z) as [E|E]; [rewrite E; reflexivity|].
    exfalso. destruct (H1 E) as (c' & p & E1 & E2 & E3 & E4).
    assert (c' = c) by congruence. subst c'.
    destruct (unsettled_lit Sv st4 c p Es E2 E3) as [_ Hx].
    destruct Hf4 as (_ & Ei & _). unfold inCover in *. rewrite Ei in Hx. congruence. }
  (* the sort *)
  set (st5 := set_potentialCoverLits _ st4).
  assert (Hp5 : Permutation (potentialCoverLits st5) (potentialCoverLits st4))
    by apply Hperm.
  assert (HL5 : lists_ok Sv st5) by exact HL4.
  assert (HC5 : counts_ok Sv st5 []) by exact HC4.
  (* the third pass *)
  destruct (third_pass_ok Sv cover3 (potentialCoverLits st5) 0 st5 [] Hsat)
    as (st6 & G & E6 & Hf6 & HC6 & HG); auto.
  { lia. }
  { intros v Hv. left. apply (G5c v), in_map_iff in Hv.
    destruct Hv as (l & El & Hl). exists l. split; [|exact El].
    eapply Permutation_in; [symmetry; exact Hp5 | exact Hl]. }
  rewrite app_nil_r in E6. simpl app in E6. rewrite E6. simpl in HC6.
  pose proof (lists_ok_frame Sv st5 st6 Hf6 HL5) as HL6.
  assert (HGt : forall l, In l G -> isTrue Sv l = true /\ inUncCls st6 (var l) <> []).
  { intros l Hl. destruct (HG l Hl) as [H1 H2]. split.
    - apply G5. eapply Permutation_in; [exact Hp5 | exact H1].
    - now rewrite (count_frame_lists st5 st6 (var l) Hf6). }
  assert (Hpre : forall l, In l cover3 -> inUncCls st6 (var l) = []).
  { intros l Hl. destruct Hch4 as (_ & Hc4 & _). destruct (Hc4 l Hl) as (_ & _ & Hic & _).
    destruct (inUncCls st6 (var l)) as [|j js] eqn:El; [reflexivity|]. exfalso.
    destruct HL6 as (_ & H1 & _).
    destruct (H1 (var l) j) as [_ (c & E1 & E2 & l' & E3 & E4 & E5)];
      [rewrite El; now left|].
    destruct (unsettled_lit Sv st6 c l' E2 E3 E5) as [_ Hx].
    rewrite E4 in Hx. destruct Hf6 as (_ & Ei & _). unfold inCover in *.
    rewrite Ei in Hx. change (in_cover st5) with (in_cover st4) in Hx. congruence. }
  (* the last pass *)
  rewrite (first_greedy_app st6 cover3 G Hpre (fun l Hl => proj2 (HGt l Hl))).
  rewrite drop_app_length, take_app_length.
  destruct (prune_ok Sv G st6 [] HL6 HC6) as (Hf7 & HC7 & HK & Hsub).
  { intros l []. }
  destruct (prune G st6 []) as [st7 K]. cbn [fst snd] in *.
  exists st7, (cover3 ++ K). split; [reflexivity|].
  pose proof (lists_ok_frame Sv st6 st7 Hf7 HL6) as HL7.
  assert (Hin7 : in_cover st7 = in_cover st4 /\ include st7 = include st4).
  { destruct Hf7 as (A1 & A2 & _), Hf6 as (B1 & B2 & _).
    change (include st5) with (include st4) in B1.
    change (in_cover st5) with (in_cover st4) in B2. split; congruence. }
  intros l Hl Hne. apply in_app_or in Hl. destruct Hl as [Hl|Hl].
  { exfalso. apply Hne. rewrite (count_frame_lists st6 st7 (var l) Hf7). now apply Hpre. }
  destruct (HK l Hl) as (j & Hj & Ej).
  destruct HL7 as (_ & H1 & H2).
  destruct (H1 (var l) j Hj) as [_ (c & E1 & E2 & _)].
  exists c. split; [eapply nth_error_In; eauto|].
  pose proof (HC7 j c E1) as Hocc. rewrite E2, Ej in Hocc.
  intros [(l' & A1 & A2 & A3)|(l' & A1 & A2)].
  - apply isTrue_value in A2.
    destruct (unsettled_lit Sv st7 c l' E2 A1 A2) as [Hx _]. congruence.
  - apply remove_lit_In in A2. destruct A2 as [A2 A3].
    apply in_app_or in A2. destruct A2 as [A2|A2].
    + destruct Hch4 as (_ & Hc4 & _). destruct (Hc4 l' A2) as (B1 & _ & B3 & _).
      destruct (unsettled_lit Sv st7 c l' E2 A1 B1) as [_ Hx].
      unfold inCover in *. rewrite (proj1 Hin7) in Hx. congruence.
    + apply A3. symmetry.
      assert (Ht' : isTrue Sv l' = true).
      { apply (HGt l'). specialize (Hsub l' A2). exact Hsub. }
      eapply (occurrences_one st7 K l l' j); eauto.
Qed.

Lemma exact_cover_locally_minimal_witness :
  exists st' cover,
    getCover stable_sort false solverG init = Some (st', cover)
    /\ forall l, In l cover -> inUncCls st' (var l) <> [] ->
         exists c, In c (clauses solverG)
                   /\ ~ covers solverG st' (remove_lit l cover) c.
Proof.
  apply (exact_cover_locally_minimal stable_sort solverG init).
  - apply stable_sort_perm.
  - split.
    + intros l Hl. simpl in Hl.
      destruct Hl as [<-|[<-|[<-|[]]]]; split; simpl; first [lia | reflexivity].
    + intros c l Hc Hl. simpl in Hc.
      destruct Hc as [<-|[<-|[]]]; simpl in Hl;
        destruct Hl as [<-|[<-|[]]]; simpl; lia.
  - intros c Hc. simpl in Hc.
    destruct Hc as [<-|[<-|[]]]; exists (mkLitS 0 false); split;
      first [now left | reflexivity].
  - intros [v s] Hv _. simpl in Hv. unfold value; simpl.
    destruct v as [|[|[|v]]]; [| | |lia]; destruct s; simpl; discriminate.
Defined.

(** ** The structure of the cover *)

Lemma level0_included ls st cover v :
  included (fst (level0 ls st cover)) v = included st v.
Proof.
  revert st cover. induction ls as [|l ls IH]; intros st cover; simpl; [reflexivity|].
  destruct (included st (var l)); [rewrite IH; reflexivity | apply IH].
Qed.

Lemma level0_filter ls st cover :
  snd (level0 ls st cover)
  = cover ++ List.filter (fun l => included st (var l)) ls.
Proof.
  revert st cover. induction ls as [|l ls IH]; intros st cover; simpl.
  - now rewrite app_nil_r.
  - destruct (included st (var l)) eqn:E.
    + rewrite IH, <- app_assoc. reflexivity.
    + apply IH.
Qed.

Lemma forced_pass_extends Sv cs i st cover :
  exists forced, snd (forced_pass Sv i cs (st, cover)) = cover ++ forced.
Proof.
  revert i st cover. induction cs as [|c cs IH]; intros i st cover.
  - exists []. simpl. now rewrite app_nil_r.
  - change (forced_pass Sv i (c :: cs) (st, cover))
      with (forced_pass Sv (S i) cs (forced_clause Sv i c (st, cover))).
    assert (H : exists x, snd (forced_clause Sv i c (st, cover)) = cover ++ x).
    { unfold forced_clause. destruct (forced_scan Sv st c 0 None) as [n [p|]].
      - destruct (n =? 1)%Z; [|exists []; simpl; now rewrite app_nil_r].
        destruct (negb _); [exists [p]; reflexivity
                           | exists []; simpl; now rewrite app_nil_r].
      - exists []. simpl. now rewrite app_nil_r. }
    destruct H as (x & Hx).
    destruct (forced_clause Sv i c (st, cover)) as [st1 cover1]. simpl in Hx. subst cover1.
    destruct (IH (S i) st1 (cover ++ x)) as (y & Hy).
    exists (x ++ y). rewrite Hy. now rewrite app_assoc.
Qed.

(** Two true literals of one variable are the same literal. *)
Lemma true_same_var Sv l l' :
  isTrue Sv l = true -> isTrue Sv l' = true -> var l = var l' -> l = l'.
Proof.
  unfold isTrue, value. destruct l as [v s], l' as [v' s']. simpl.
  intros H1 H2 <-. destruct (nth v (assigns Sv) l_Undef), s, s'; simpl in *;
    congruence.
Qed.

(** ** The cover counts stay positive *)

Lemma third_pass_positive n cands :
  forall i st cover st' cover',
  third_pass n cands i st cover = Some (st', cover') ->
  i <= n ->
  (forall v j, In j (inUncCls st v) -> j < length (coverCount st)) ->
  (forall j, j < n -> (0 <= count st j)%Z) ->
  (forall j, j < i -> (0 < count st j)%Z) ->
  forall j, j < n -> (0 < count st' j)%Z.
Proof.
  induction cands as [|l0 r IH]; intros i st cover st' cover' H Hi Hlt Hnn Hpos.
  - cbn [third_pass] in H.
    destruct (first_uncovered_spec st (n - i) i) as (H1 & H2 & _).
    destruct (Nat.eqb_spec (first_uncovered st (n - i) i) n) as [E|E]; [|discriminate].
    injection H as <- _. intros j Hj.
    destruct (Nat.lt_ge_cases j i) as [Hji|Hji]; [now apply Hpos|].
    specialize (H2 j ltac:(lia)). specialize (Hnn j Hj). lia.
  - cbn [third_pass] in H.
    destruct (first_uncovered_spec st (n - i) i) as (H1 & H2 & _).
    set (i' := first_uncovered st (n - i) i) in *.
    assert (Hpos' : forall j, j < i' -> (0 < count st j)%Z).
    { intros j Hj. destruct (Nat.lt_ge_cases j i) as [Hji|Hji]; [now apply Hpos|].
      specialize (H2 j ltac:(lia)). specialize (Hnn j ltac:(lia)). lia. }
    destruct (Nat.eqb_spec i' n) as [E|E].
    + injection H as <- _. intros j Hj. apply Hpos'. lia.
    + destruct (existsb (fun c => (count st c =? 0)%Z) (inUncCls st (var l0))).
      * destruct (add_counts_spec 1 (inUncCls st (var l0)) st) as [Hf Hc].
        { intros j Hj. eapply Hlt; eauto. }
        apply (IH i' _ _ st' cover' H); [lia| | |].
        -- intros v j Hj. rewrite (count_frame_lists _ _ v Hf) in Hj.
           destruct Hf as (_ & _ & _ & _ & ->). eapply Hlt; eauto.
        -- intros j Hj. rewrite Hc. specialize (Hnn j Hj). lia.
        -- intros j Hj. rewrite Hc. specialize (Hpos' j Hj). lia.
      * apply (IH i' st cover st' cover' H); [lia | exact Hlt | exact Hnn | exact Hpos'].
Qed.

Lemma count_occ_NoDup (l : list nat) x : List.NoDup l -> count_occ Nat.eq_dec l x <= 1.
Proof. intros H. now apply (proj1 (NoDup_count_occ Nat.eq_dec l)). Qed.

Lemma prune_positive n R :
  forall st K,
  (forall v j, In j (inUncCls st v) -> j < length (coverCount st)) ->
  (forall v, List.NoDup (inUncCls st v)) ->
  (forall j, j < n -> (0 < count st j)%Z) ->
  forall j, j < n -> (0 < count (fst (prune R st K)) j)%Z.
Proof.
  induction R as [|l R IH]; intros st K Hlt Hnd Hpos; cbn [prune]; [exact Hpos|].
  destruct (existsb (fun c => (count st c =? 1)%Z) (inUncCls st (var l))) eqn:Ex;
    [now apply IH|].
  destruct (add_counts_spec (-1) (inUncCls st (var l)) st) as [Hf Hc].
  { intros j Hj. eapply Hlt; eauto. }
  apply IH.
  - intros v j Hj. rewrite (count_frame_lists _ _ v Hf) in Hj.
    destruct Hf as (_ & _ & _ & _ & ->). eapply Hlt; eauto.
  - intros v. rewrite (count_frame_lists _ _ v Hf). apply Hnd.
  - intros j Hj. rewrite Hc. specialize (Hpos j Hj).
    pose proof (count_occ_NoDup (inUncCls st (var l)) j (Hnd (var l))) as Ho.
    destruct (in_dec Nat.eq_dec j (inUncCls st (var l))) as [Hin|Hnin].
    + assert (Hne : count st j <> 1%Z).
      { intros E. assert (Ht : existsb (fun c => (count st c =? 1)%Z)
                                  (inUncCls st (var l)) = true).
        { apply existsb_exists. exists j. split; [exact Hin | now apply Z.eqb_eq]. }
        congruence. }
      lia.
    + rewrite (proj1 (count_occ_not_In Nat.eq_dec _ j) Hnin). lia.
Qed.

(** ** No clause index is entered twice *)

Lemma fold_bump_nodup k ls :
  forall st,
  List.NoDup (map var ls) ->
  (forall l, In l ls -> var l < length (mVarsInUncCls st)) ->
  (forall v, List.NoDup (inUncCls st v)
             /\ (forall j, In j (inUncCls st v) -> j <= k)
             /\ (In k (inUncCls st v) -> ~ In v (map var ls))) ->
  forall v, List.NoDup (inUncCls (fold_left (bump k) ls st) v)
            /\ forall j, In j (inUncCls (fold_left (bump k) ls st) v) -> j <= k.
Proof.
  induction ls as [|l ls IH]; intros st Hnd Hlen Hinv v.
  - simpl. destruct (Hinv v) as (A & B & _). auto.
  - simpl. apply IH.
    + now inversion Hnd.
    + intros l' Hl'. destruct (bump_rest k st l) as (_ & _ & _ & ->).
      apply Hlen. now right.
    + intros w. rewrite (bump_lists k st l w) by (apply Hlen; now left).
      destruct (Hinv w) as (A & B & C).
      destruct (Nat.eq_dec (var l) w) as [<-|Hne].
      * split; [|split].
        -- apply List.NoDup_app; [exact A | constructor; [intros [] | constructor] |].
           intros j Hj [<-|[]]. apply (C Hj). now left.
        -- intros j Hj. apply in_app_or in Hj. destruct Hj as [Hj|[<-|[]]]; auto.
        -- intros _. inversion Hnd. assumption.
      * split; [exact A|]. split; [exact B|].
        intros Hk Hin. apply (C Hk). now right.
Qed.

Lemma true_lits_vars_NoDup Sv c : List.NoDup c -> List.NoDup (map var (true_lits Sv c)).
Proof.
  intros Hnd.
  assert (H : List.NoDup (true_lits Sv c)) by (apply List.NoDup_filter; exact Hnd).
  assert (Ht : forall l, In l (true_lits Sv c) -> isTrue Sv l = true).
  { intros l Hl. unfold true_lits in Hl. apply filter_In in Hl. tauto. }
  induction (true_lits Sv c) as [|l ls IH]; simpl; [constructor|].
  inversion H as [|? ? Hnin Hnd']; subst. constructor.
  - intros Hin. apply in_map_iff in Hin. destruct Hin as (l' & E & Hl').
    assert (l' = l).
    { apply (true_same_var Sv); [apply Ht; now right | apply Ht; now left | exact E]. }
    subst l'. contradiction.
  - apply IH; [exact Hnd'|]. intros l' Hl'. apply Ht. now right.
Qed.

Lemma greedy_pass_nodup Sv (Hwf : solver_wf Sv) cnt0 cs :
  forall k st,
  (forall i c, nth_error cs i = Some c -> nth_error (clauses Sv) (k + i) = Some c) ->
  greedy_inv Sv cnt0 k [] st -> pending_empty k st ->
  (forall c, In c cs -> List.NoDup c) ->
  (forall v, List.NoDup (inUncCls st v) /\ forall j, In j (inUncCls st v) -> j < k) ->
  forall v, List.NoDup (inUncCls (greedy_pass Sv k cs st) v).
Proof.
  induction cs as [|c cs IH]; intros k st Hcs Hinv Hpe Hnd HN v.
  - simpl. apply HN.
  - change (greedy_pass Sv k (c :: cs) st)
      with (greedy_pass Sv (S k) cs (greedy_clause Sv k c st)).
    assert (Hc : nth_error (clauses Sv) k = Some c).
    { specialize (Hcs 0 c eq_refl). now rewrite Nat.add_0_r in Hcs. }
    destruct (greedy_clause_inv Sv Hwf cnt0 k c st Hc Hinv Hpe) as (H1 & H2 & H3).
    apply IH; auto.
    + intros i c' Hi. specialize (Hcs (S i) c' Hi). now rewrite Nat.add_succ_r in Hcs.
    + intros c' Hc'. apply Hnd. now right.
    + intros w. unfold greedy_clause. rewrite sat_scan_spec, (Hpe k (Nat.le_refl k)).
      simpl app. destruct (settled Sv st c).
      * destruct (HN w) as [A B]. split; [exact A|]. intros j Hj.
        specialize (B j Hj). lia.
      * destruct (fold_bump_nodup k (true_lits Sv c)
                    (set_uncovered (<[k := true_lits Sv c]> (uncovered st)) st)) with (v := w)
          as [A B].
        -- apply true_lits_vars_NoDup. apply Hnd. now left.
        -- intros l Hl. apply true_lits_In in Hl. destruct Hl as [Hl _].
           destruct Hinv as ((_ & L2 & _) & _). simpl.
           destruct Hwf as [_ Hw]. specialize (Hw c l (nth_error_In _ _ Hc) Hl). lia.
        -- intros u. destruct (HN u) as [A B]. split; [exact A|].
           split; [intros j Hj; specialize (B j Hj); lia|].
           intros Hk. specialize (B k Hk). lia.
        -- split; [exact A|]. intros j Hj. specialize (B j Hj). lia.
Qed.

(** ** The exact mode, as a whole *)

(** ** No variable twice *)

Lemma third_pass_distinct n cands :
  forall i st cover st' cover',
  third_pass n cands i st cover = Some (st', cover') ->
  exists G, cover' = cover ++ G /\ (forall l, In l G -> In l cands)
            /\ (List.NoDup (map var cands) -> List.NoDup (map var G)).
Proof.
  induction cands as [|x r IH]; intros i st cover st' cover'; simpl.
  - destruct (_ =? n); [|discriminate]. intros [= <- <-].
    exists []. rewrite app_nil_r. split; [reflexivity|]. split; [intros l [] | auto].
  - destruct (_ =? n).
    { intros [= <- <-]. exists []. rewrite app_nil_r.
      split; [reflexivity|]. split; [intros l [] | constructor]. }
    destruct (existsb _ _).
    + intros H. apply IH in H. destruct H as (G & -> & H1 & H2).
      exists (x :: G). rewrite <- app_assoc. split; [reflexivity|]. split.
      * intros l [<-|Hl]; [now left | right; now apply H1].
      * simpl. intros Hnd. inversion Hnd as [|? ? Hn Hd]; subst.
        constructor; [|now apply H2].
        intros Hin. apply Hn. apply in_map_iff in Hin. destruct Hin as (y & E & Hy).
        apply in_map_iff. exists y. split; [exact E | now apply H1].
    + intros H. apply IH in H. destruct H as (G & -> & H1 & H2).
      exists G. split; [reflexivity|]. split.
      * intros l Hl. right. now apply H1.
      * intros Hnd. inversion Hnd; subst. now apply H2.
Qed.

Lemma prune_distinct ls :
  forall st kept,
  exists K, snd (prune ls st kept) = kept ++ K /\ (forall l, In l K -> In l ls)
            /\ (List.NoDup (map var ls) -> List.NoDup (map var K)).
Proof.
  induction ls as [|x r IH]; intros st kept; simpl.
  - exists []. rewrite app_nil_r. split; [reflexivity|]. split; [intros l [] | auto].
  - destruct (existsb _ _).
    + destruct (IH st (kept ++ [x])) as (K & E & H1 & H2).
      exists (x :: K). rewrite E, <- app_assoc. split; [reflexivity|]. split.
      * intros l [<-|Hl]; [now left | right; now apply H1].
      * simpl. intros Hnd. inversion Hnd as [|? ? Hn Hd]; subst.
        constructor; [|now apply H2].
        intros Hin. apply Hn. apply in_map_iff in Hin. destruct Hin as (y & Ey & Hy).
        apply in_map_iff. exists y. split; [exact Ey | now apply H1].
    + destruct (IH (add_counts (-1) (inUncCls st (var x)) st) kept) as (K & E & H1 & H2).
      exists K. split; [exact E|]. split.
      * intros l Hl. right. now apply H1.
      * intros Hnd. inversion Hnd; subst. now apply H2.
Qed.

Section ForcedDistinct.

Context (Sv : Solver) (inc : list bool).
Hypothesis Hwf : solver_wf Sv.
Hypothesis Hel : forall l, var l < nVars Sv -> nth (var l) inc false = true ->
                           value Sv l <> l_Undef.

Lemma forced_clause_distinct i c st cover :
  chosen_ok Sv st cover -> List.NoDup (map var cover) ->
  List.NoDup (map var (snd (forced_clause Sv i c (st, cover)))).
Proof.
  intros Hch Hnd. unfold forced_clause.
  destruct (forced_scan Sv st c 0 None) as [n [plit|]]; [|exact Hnd].
  destruct (n =? 1)%Z; [|exact Hnd].
  destruct (negb _) eqn:Ec; [|exact Hnd].
  cbn [snd]. rewrite map_app. simpl.
  apply List.NoDup_app; [exact Hnd | constructor; [intros [] | constructor] |].
  intros v Hv [<-|[]]. apply in_map_iff in Hv. destruct Hv as (l & E & Hl).
  destruct Hch as (_ & Hc & _). destruct (Hc l Hl) as (_ & _ & Hic & _).
  apply negb_true_iff in Ec. unfold inCover in *. simpl in Ec. congruence.
Qed.

Lemma forced_pass_distinct cs i st cover :
  (forall k c, nth_error cs k = Some c -> nth_error (clauses Sv) (i + k) = Some c) ->
  include st = inc ->
  length (coverCount st) = S (length (clauses Sv)) ->
  chosen_ok Sv st cover -> counted_ok Sv st ->
  List.NoDup (map var cover) ->
  List.NoDup (map var (snd (forced_pass Sv i cs (st, cover)))).
Proof.
  revert i st cover. induction cs as [|c cs IH];
    intros i st cover Hcs Hinc Hlen Hch Hcnt Hnd; [exact Hnd|].
  change (forced_pass Sv i (c :: cs) (st, cover))
    with (forced_pass Sv (S i) cs (forced_clause Sv i c (st, cover))).
  assert (Hc : nth_error (clauses Sv) i = Some c).
  { specialize (Hcs 0 c eq_refl). now rewrite Nat.add_0_r in Hcs. }
  destruct (forced_clause_ok Sv inc Hwf Hel i c st cover Hc Hinc Hlen Hch Hcnt)
    as (F1 & C1 & K1).
  pose proof (forced_clause_distinct i c st cover Hch Hnd) as N1.
  destruct (forced_clause Sv i c (st, cover)) as [st1 cover1]. simpl in F1, C1, K1, N1.
  apply IH; auto.
  - intros k c' Hk. specialize (Hcs (S k) c' Hk). now rewrite Nat.add_succ_r in Hcs.
  - destruct F1 as (-> & _). exact Hinc.
  - destruct F1 as (_ & _ & _ & _ & _ & -> & _). exact Hlen.
Qed.

End ForcedDistinct.

(** In exact mode under the contract, [getCover] returns the literals of the
    trail pass, then those of the forced pass, then the literals [K] that
    the greedy pass chose and the last pass kept, with the facts about
    [in_cover], the clause-index lists and the cover counts. *)
Lemma exact_cover_structure
    (sort : (Lit -> Lit -> bool) -> list Lit -> list Lit) Sv st :
  (forall lt l, Permutation (sort lt l) l) ->
  solver_wf Sv -> satisfied Sv -> eligible_assigned Sv st ->
  exists st' forced K,
    getCover sort false Sv st = Some (st', level0_lits Sv st ++ forced ++ K)
    /\ include st' = include (prologue Sv st)
    /\ chosen_ok Sv st' (level0_lits Sv st ++ forced)
    /\ lists_ok Sv st' /\ counts_ok Sv st' K
    /\ (forall l, In l (level0_lits Sv st ++ forced) -> inUncCls st' (var l) = [])
    /\ (forall l, In l K -> isTrue Sv l = true /\ inUncCls st' (var l) <> [])
    /\ ((forall c, In c (clauses Sv) -> List.NoDup c) ->
        forall j, j < length (clauses Sv) -> (0 < count st' j)%Z)
    /\ (List.NoDup (map var (level0_lits Sv st)) ->
        List.NoDup (map var (level0_lits Sv st ++ forced))
        /\ List.NoDup (map var K)).
Proof.
  intros Hperm Hwf Hsat Hel. unfold getCover.
  (* the trail pass *)
  pose proof (level0_chosen Sv (firstn (level0_count Sv) (trail Sv)) (prologue Sv st) [])
    as Hch1.
  pose proof (level0_same (firstn (level0_count Sv) (trail Sv)) (prologue Sv st) [])
    as [_ Hinc1].
  pose proof (level0_filter (firstn (level0_count Sv) (trail Sv)) (prologue Sv st) [])
    as Hlv.
  simpl app in Hlv. fold (level0_lits Sv st) in Hlv.
  destruct (level0 _ (prologue Sv st) []) as [st1 cover1]. cbn [fst snd] in *.
  subst cover1. set (cover1 := level0_lits Sv st) in *.
  assert (Hch1' : chosen_ok Sv st1 cover1).
  { apply Hch1; [|apply prologue_chosen].
    intros l Hl. apply (proj1 Hwf). eapply In_firstn_whole; eauto. }
  clear Hch1.
  (* the resets *)
  set (st2 := exact_reset Sv st1).
  assert (Hinc2 : include st2 = include (prologue Sv st)) by exact Hinc1.
  assert (Hch2 : chosen_ok Sv st2 cover1) by exact Hch1'.
  assert (Hz2 : forall j, count st2 j = 0%Z).
  { intros j. unfold count, st2, exact_reset; simpl. apply nth_growTo_nil. }
  assert (Hl2 : forall v, inUncCls st2 v = []).
  { intros v. unfold inUncCls, st2, exact_reset; simpl. apply nth_map_nil. }
  assert (Hu2 : forall j, nth j (uncovered st2) [] = []).
  { intros j. unfold st2, exact_reset; simpl. apply nth_map_nil. }
  assert (Hs2 : forall v, score st2 v = 0%Z).
  { intros v. unfold score, st2, exact_reset; simpl. apply nth_growTo_nil. }
  assert (Hlen2 : length (coverCount st2) = S (length (clauses Sv))
                  /\ length (mVarsGreedyScore st2) = nVars Sv
                  /\ nVars Sv <= length (mVarsInUncCls st2)
                  /\ potentialCoverLits st2 = []).
  { unfold st2, exact_reset; simpl. rewrite !length_growTo, length_map, length_growTo.
    simpl. repeat split; lia. }
  destruct Hlen2 as (Hlc2 & Hls2 & Hlm2 & Hp2).
  (* the first pass *)
  destruct (forced_pass_extends Sv (clauses Sv) 0 st2 cover1) as (forced & Hforced).
  destruct (forced_pass_ok Sv (include st2) Hwf) with (cs := clauses Sv) (i := 0)
    (st := st2) (cover := cover1) as (Hf3 & Hch3 & Hcnt3); auto.
  { intros l Hn Hi. apply Hel; [exact Hn|]. unfold eligible, included.
    now rewrite <- Hinc2. }
  { intros j. split; [rewrite Hz2; lia | rewrite Hz2; congruence]. }
  assert (Hcnt2 : counted_ok Sv st2).
  { intros j. split; [rewrite Hz2; lia | rewrite Hz2; congruence]. }
  assert (Hel2 : forall l, var l < nVars Sv -> nth (var l) (include st2) false = true ->
                           value Sv l <> l_Undef).
  { intros l Hn Hi. apply Hel; [exact Hn|]. unfold eligible, included.
    now rewrite <- Hinc2. }
  pose proof (fun Hnd => forced_pass_distinct Sv (include st2) Hwf Hel2
                (clauses Sv) 0 st2 cover1 (fun k c H => H) eq_refl Hlc2 Hch2
                Hcnt2 Hnd) as Hnd3.
  destruct (forced_pass Sv 0 (clauses Sv) (st2, cover1)) as [st3 cover3].
  cbn [fst snd] in *. subst cover3. set (cover3 := cover1 ++ forced) in *.
  destruct Hf3 as (Fi & Fu & Fs & Fm & Fp & Fl & _).
  (* the second pass *)
  assert (Hl3 : forall v, inUncCls st3 v = [])
    by (intros v; unfold inUncCls; rewrite Fm; apply Hl2).
  assert (Hinv3 : greedy_inv Sv (count st3) 0 [] st3).
  { assert (Hs3 : forall v, score st3 v = 0%Z)
      by (intros v; unfold score; rewrite Fs; apply Hs2).
    unfold greedy_inv. rewrite Fs, Fm, Fp, Fl, Hp2.
    split; [auto|]. split; [intros v j Hj; rewrite Hl3 in Hj; destruct Hj|].
    split; [intros; lia|]. split; [intros l []|].
    split; [intros v _; now rewrite Hs3, Hl3|]. split; [intros l []|].
    split; [constructor|]. split; [intros v Hv; now rewrite Hl3 in Hv|].
    intros j c _. simpl. lia. }
  assert (Hpe3 : pending_empty 0 st3) by (intros j _; rewrite Fu; apply Hu2).
  pose proof (fun HND => greedy_pass_nodup Sv Hwf (count st3) (clauses Sv) 0 st3
                (fun i c H => H) Hinv3 Hpe3 HND
                (fun v => conj (eq_ind_r (fun l => List.NoDup l) (List.NoDup_nil _) (Hl3 v))
                               (fun j Hj => match eq_ind _ (fun l => In j l) Hj _ (Hl3 v)
                                            with end))) as Hnd4.
  destruct (greedy_pass_inv Sv Hwf (count st3) (clauses Sv) 0 st3 (fun i c H => H)
              Hinv3 Hpe3) as (Hg4 & Hf4).
  simpl in Hg4. set (st4 := greedy_pass Sv 0 (clauses Sv) st3) in *.
  destruct Hg4 as ((L1 & L2 & L3) & G2 & G3 & _ & _ & G5 & G5n & G5c & G6).
  assert (Hch4 : chosen_ok Sv st4 cover3).
  { destruct Hf4 as (E1 & E2 & _). unfold chosen_ok, included, inCover in *.
    rewrite E1, E2. exact Hch3. }
  assert (HL4 : lists_ok Sv st4).
  { split; [exact L3|]. split.
    - intros v j Hj. destruct (G2 v j Hj) as [[H1 H2]|[_ (l & [] & _)]]. auto.
    - intros i c l Hc. apply G3; [|exact Hc]. apply nth_error_Some. congruence. }
  assert (HC4 : counts_ok Sv st4 []).
  { intros j c Hc. rewrite (G6 j c Hc).
    assert (Hj : (j <? length (clauses Sv)) = true)
      by (apply Nat.ltb_lt, nth_error_Some; congruence).
    rewrite Hj. simpl andb. destruct (Hcnt3 j) as [H0 H1].
    destruct (settled Sv st4 c) eqn:Es; [lia|].
    destruct (Z.eq_dec (count st3 j) 0%Z) as [E|E]; [rewrite E; reflexivity|].
    exfalso. destruct (H1 E) as (c' & p & E1 & E2 & E3 & E4).
    assert (c' = c) by congruence. subst c'.
    destruct (unsettled_lit Sv st4 c p Es E2 E3) as [_ Hx].
    destruct Hf4 as (_ & Ei & _). unfold inCover in *. rewrite Ei in Hx. congruence. }
  (* the sort *)
  set (st5 := set_potentialCoverLits _ st4).
  assert (Hp5 : Permutation (potentialCoverLits st5) (potentialCoverLits st4))
    by apply Hperm.
  assert (HL5 : lists_ok Sv st5) by exact HL4.
  assert (HC5 : counts_ok Sv st5 []) by exact HC4.
  (* the third pass *)
  destruct (third_pass_ok Sv cover3 (potentialCoverLits st5) 0 st5 [] Hsat)
    as (st6 & G & E6 & Hf6 & HC6 & HG); auto.
  { lia. }
  { intros v Hv. left. apply (G5c v), in_map_iff in Hv.
    destruct Hv as (l & El & Hl). exists l. split; [|exact El].
    eapply Permutation_in; [symmetry; exact Hp5 | exact Hl]. }
  rewrite app_nil_r in E6. simpl app in E6.
  pose proof E6 as E6'. rewrite E6. simpl in HC6.
  pose proof (lists_ok_frame Sv st5 st6 Hf6 HL5) as HL6.
  assert (HGt : forall l, In l G -> isTrue Sv l = true /\ inUncCls st6 (var l) <> []).
  { intros l Hl. destruct (HG l Hl) as [H1 H2]. split.
    - apply G5. eapply Permutation_in; [exact Hp5 | exact H1].
    - now rewrite (count_frame_lists st5 st6 (var l) Hf6). }
  assert (Hpre : forall l, In l cover3 -> inUncCls st6 (var l) = []).
  { intros l Hl. destruct Hch4 as (_ & Hc4 & _). destruct (Hc4 l Hl) as (_ & _ & Hic & _).
    destruct (inUncCls st6 (var l)) as [|j js] eqn:El; [reflexivity|]. exfalso.
    destruct HL6 as (_ & H1 & _).
    destruct (H1 (var l) j) as [_ (c & E1 & E2 & l' & E3 & E4 & E5)];
      [rewrite El; now left|].
    destruct (unsettled_lit Sv st6 c l' E2 E3 E5) as [_ Hx].
    rewrite E4 in Hx. destruct Hf6 as (_ & Ei & _). unfold inCover in *.
    rewrite Ei in Hx. change (in_cover st5) with (in_cover st4) in Hx. congruence. }
  (* the last pass *)
  rewrite (first_greedy_app st6 cover3 G Hpre (fun l Hl => proj2 (HGt l Hl))).
  rewrite drop_app_length, take_app_length.
  destruct (prune_ok Sv G st6 [] HL6 HC6) as (Hf7 & HC7 & HK & Hsub).
  { intros l []. }
  pose proof (prune_positive (length (clauses Sv)) G st6 []) as Hpp.
  destruct (prune_distinct G st6 []) as (K' & EK & _ & HKnd). simpl in EK.
  destruct (third_pass_distinct _ _ _ _ _ _ _ E6') as (G' & EG & _ & HGnd).
  apply app_inv_head in EG. subst G'.
  assert (HndG : List.NoDup (map var G)).
  { apply HGnd. eapply Permutation_NoDup; [|exact G5n].
    apply Permutation_map. symmetry. exact Hp5. }
  destruct (prune G st6 []) as [st7 K]. cbn [fst snd] in *.
  exists st7, forced, K. split; [unfold cover3; now rewrite <- app_assoc|].
  pose proof (lists_ok_frame Sv st6 st7 Hf7 HL6) as HL7.
  assert (Hin7 : in_cover st7 = in_cover st4 /\ include st7 = include st4).
  { destruct Hf7 as (A1 & A2 & _), Hf6 as (B1 & B2 & _).
    change (include st5) with (include st4) in B1.
    change (in_cover st5) with (in_cover st4) in B2. split; congruence. }
  destruct Hin7 as [Hic7 Hinc7].
  split.
  { rewrite Hinc7. destruct Hf4 as (E1 & _). rewrite E1, Fi. exact Hinc2. }
  split.
  { unfold chosen_ok, included, inCover in *. rewrite Hic7, Hinc7. exact Hch4. }
  split; [exact HL7|]. split; [exact HC7|].
  split.
  { intros l Hl. rewrite (count_frame_lists st6 st7 (var l) Hf7). now apply Hpre. }
  split.
  { intros l Hl. simpl in Hsub. specialize (Hsub l Hl).
    destruct (HGt l Hsub) as [A B]. split; [exact A|].
    now rewrite (count_frame_lists st6 st7 (var l) Hf7). }
  split; [|intros Hnd0; split; [now apply Hnd3 | rewrite EK; now apply HKnd]].
  intros HND. apply Hpp.
  - intros v j Hj. destruct HL6 as (Hlen6 & H1 & _).
    destruct (H1 v j Hj) as [Hlt _]. lia.
  - intros v. rewrite (count_frame_lists st5 st6 v Hf6).
    change (inUncCls st5 v) with (inUncCls st4 v). now apply Hnd4.
  - apply (third_pass_positive (length (clauses Sv)) (potentialCoverLits st5)
             0 st5 cover3 st6 (cover3 ++ G) E6'); [lia| | |intros j Hj; lia].
    + intros v j Hj. destruct HL5 as (Hlen5 & H1 & _).
      destruct (H1 v j Hj) as [Hlt _]. lia.
    + intros j Hj. destruct (nth_error (clauses Sv) j) as [c|] eqn:Ec;
        [|apply nth_error_None in Ec; lia].
      specialize (HC5 j c Ec). destruct (settled Sv st5 c); [lia|].
      rewrite HC5. apply occurrences_nonneg.
Qed.

Lemma occurrences_pos st G j :
  (0 < occurrences st G j)%Z -> exists l, In l G /\ In j (inUncCls st (var l)).
Proof.
  induction G as [|x G IH]; intros H.
  - unfold occurrences in H. simpl in H. lia.
  - rewrite occurrences_cons in H.
    destruct (in_dec Nat.eq_dec j (inUncCls st (var x))) as [Hin|Hnin].
    + exists x. split; [now left | exact Hin].
    + rewrite (proj1 (count_occ_not_In Nat.eq_dec _ j) Hnin) in H.
      destruct (IH ltac:(lia)) as (l & Hl & Hj). exists l. split; [now right | exact Hj].
Qed.

(** X7.  In exact mode, on a well-formed solver view whose assignment
    satisfies every clause and assigns every cover-eligible variable,
    [getCover] returns, and every literal of the returned cover is true and
    belongs to a variable below [nVars] whose inclusion flag is set. *)
Theorem exact_cover_valid
    (sort : (Lit -> Lit -> bool) -> list Lit -> list Lit) Sv st :
  (forall lt l, Permutation (sort lt l) l) ->
  solver_wf Sv -> satisfied Sv -> eligible_assigned Sv st ->
  exists st' cover,
    getCover sort false Sv st = Some (st', cover)
    /\ forall l, In l cover ->
         value Sv l = l_True /\ eligible Sv st (var l) = true
         /\ included st' (var l) = true /\ var l < nVars Sv.
Proof.
  intros Hperm Hwf Hsat Hel.
  destruct (exact_cover_structure sort Sv st Hperm Hwf Hsat Hel)
    as (st' & forced & K & E & Hinc & Hch & HL & HC & Hpre & HK & _).
  exists st', (level0_lits Sv st ++ forced ++ K). split; [exact E|].
  assert (Hel' : forall v, eligible Sv st v = included st' v).
  { intros v. unfold eligible, included. now rewrite Hinc. }
  intros l Hl. rewrite app_assoc in Hl. apply in_app_or in Hl. destruct Hl as [Hl|Hl].
  - destruct Hch as (_ & Hc & _). destruct (Hc l Hl) as (A1 & A2 & _ & A4).
    apply isTrue_value in A1. rewrite Hel'. auto.
  - destruct (HK l Hl) as [A1 A2].
    destruct (inUncCls st' (var l)) as [|j js] eqn:El; [congruence|].
    destruct HL as (_ & H1 & _).
    destruct (H1 (var l) j) as [_ (c & E1 & E2 & l' & E3 & E4 & E5)];
      [rewrite El; now left|].
    destruct (unsettled_lit Sv st' c l' E2 E3 E5) as [Hx _].
    rewrite E4 in Hx. rewrite Hel'. split; [now apply isTrue_value|].
    split; [exact Hx|]. split; [exact Hx|].
    rewrite <- E4. destruct Hwf as [_ Hw]. apply (Hw c); [|exact E3].
    eapply nth_error_In; eauto.
Qed.

Lemma exact_cover_valid_witness :
  exists st' cover,
    getCover stable_sort false solverG init = Some (st', cover)
    /\ forall l, In l cover ->
         value solverG l = l_True /\ eligible solverG init (var l) = true
         /\ included st' (var l) = true /\ var l < nVars solverG.
Proof.
  apply (exact_cover_valid stable_sort solverG init).
  - apply stable_sort_perm.
  - split.
    + intros l Hl. simpl in Hl.
      destruct Hl as [<-|[<-|[<-|[]]]]; split; simpl; first [lia | reflexivity].
    + intros c l Hc Hl. simpl in Hc.
      destruct Hc as [<-|[<-|[]]]; simpl in Hl;
        destruct Hl as [<-|[<-|[]]]; simpl; lia.
  - intros c Hc. simpl in Hc.
    destruct Hc as [<-|[<-|[]]]; exists (mkLitS 0 false); split;
      first [now left | reflexivity].
  - intros [v s] Hv _. simpl in Hv. unfold value; simpl.
    destruct v as [|[|[|v]]]; [| | |lia]; destruct s; simpl; discriminate.
Defined.

(** X8.  In exact mode, under the same contract and when no clause holds a
    literal twice, the returned cover covers every clause: each clause holds
    a true literal of an excluded variable or a literal of the cover. *)
Theorem exact_cover_covers
    (sort : (Lit -> Lit -> bool) -> list Lit -> list Lit) Sv st :
  (forall lt l, Permutation (sort lt l) l) ->
  solver_wf Sv -> satisfied Sv -> eligible_assigned Sv st ->
  (forall c, In c (clauses Sv) -> List.NoDup c) ->
  exists st' cover,
    getCover sort false Sv st = Some (st', cover)
    /\ forall c, In c (clauses Sv) -> covers Sv st' cover c.
Proof.
  intros Hperm Hwf Hsat Hel HND.
  destruct (exact_cover_structure sort Sv st Hperm Hwf Hsat Hel)
    as (st' & forced & K & E & Hinc & Hch & HL & HC & Hpre & HK & Hpos & _).
  exists st', (level0_lits Sv st ++ forced ++ K). split; [exact E|].
  intros c Hc. apply In_nth_error in Hc. destruct Hc as (j & Hj).
  assert (Hjn : j < length (clauses Sv)) by (apply nth_error_Some; congruence).
  destruct (settled Sv st' c) eqn:Es.
  - unfold settled in Es. apply existsb_exists in Es. destruct Es as (l & Hl & Hx).
    apply andb_true_iff in Hx. destruct Hx as [Ht Hx].
    apply orb_true_iff in Hx. destruct Hx as [Hx|Hx].
    + left. exists l. split; [exact Hl|]. split; [now apply isTrue_value|].
      now apply negb_true_iff in Hx.
    + right. destruct Hch as (_ & Hc2 & Hc3).
      destruct (Hc3 (var l) Hx) as (l0 & Hl0 & Ev).
      destruct (Hc2 l0 Hl0) as (Ht0 & _).
      assert (l0 = l) by (apply (true_same_var Sv); assumption). subst l0.
      exists l. split; [exact Hl|]. rewrite app_assoc. apply in_or_app. now left.
  - right. pose proof (HC j c Hj) as Hcnt. rewrite Es in Hcnt.
    pose proof (Hpos HND j Hjn) as Hp. rewrite Hcnt in Hp.
    destruct (occurrences_pos st' K j Hp) as (l & Hl & Hin).
    destruct HL as (_ & H1 & _).
    destruct (H1 (var l) j Hin) as [_ (c' & E1 & E2 & l' & E3 & E4 & E5)].
    assert (c' = c) by congruence. subst c'.
    destruct (HK l Hl) as [Ht _].
    assert (l' = l) by (apply (true_same_var Sv); assumption). subst l'.
    exists l. split; [exact E3|]. apply in_or_app. right. apply in_or_app. now right.
Qed.

Lemma exact_cover_covers_witness :
  exists st' cover,
    getCover stable_sort false solverG init = Some (st', cover)
    /\ forall c, In c (clauses solverG) -> covers solverG st' cover c.
Proof.
  apply (exact_cover_covers stable_sort solverG init).
  - apply stable_sort_perm.
  - split.
    + intros l Hl. simpl in Hl.
      destruct Hl as [<-|[<-|[<-|[]]]]; split; simpl; first [lia | reflexivity].
    + intros c l Hc Hl. simpl in Hc.
      destruct Hc as [<-|[<-|[]]]; simpl in Hl;
        destruct Hl as [<-|[<-|[]]]; simpl; lia.
  - intros c Hc. simpl in Hc.
    destruct Hc as [<-|[<-|[]]]; exists (mkLitS 0 false); split;
      first [now left | reflexivity].
  - intros [v s] Hv _. simpl in Hv. unfold value; simpl.
    destruct v as [|[|[|v]]]; [| | |lia]; destruct s; simpl; discriminate.
  - intros c Hc. simpl in Hc.
    destruct Hc as [<-|[<-|[]]]; repeat constructor; simpl;
      intros H; repeat (destruct H as [H|H]; [discriminate|]); exact H.
Defined.

(** ** Inclusion flags *)

Lemma nth_replicate_pad {A} n (x d : A) i :
  nth i (replicate n x) d = if i <? n then x else d.
Proof.
  revert i. induction n as [|n IH]; intros [|i]; simpl; try reflexivity.
  rewrite IH. reflexivity.
Qed.

Lemma nth_growTo {A} n (pad d : A) l i :
  nth i (growTo n pad l) d
  = if i <? length l then nth i l d else if i <? n then pad else d.
Proof.
  unfold growTo. destruct (i <? length l) eqn:E.
  - apply Nat.ltb_lt in E. now rewrite app_nth1.
  - apply Nat.ltb_ge in E. rewrite app_nth2 by exact E.
    rewrite nth_replicate_pad.
    destruct (i - length l <? n - length l) eqn:E1, (i <? n) eqn:E2; try reflexivity.
    + apply Nat.ltb_lt in E1. apply Nat.ltb_ge in E2. lia.
    + apply Nat.ltb_ge in E1. apply Nat.ltb_lt in E2. lia.
Qed.

Lemma prologue_fields Sv st :
  prologue Sv st
  = mkCover (uncovered st) (coverCount st) (mVarsGreedyScore st) (mVarsInUncCls st)
      (potentialCoverLits st) (growTo (nVars Sv) false [])
      (if length (subset st) =? 0
       then subset st ++ build_subset (growTo (nVars Sv) true (include st))
       else subset st)
      (growTo (nVars Sv) true (include st)).
Proof.
  unfold prologue; simpl. destruct (length (subset st) =? 0); reflexivity.
Qed.

Lemma eligible_nth Sv st u :
  eligible Sv st u = nth u (growTo (nVars Sv) true (include st)) false.
Proof. unfold eligible, included. now rewrite prologue_fields. Qed.

Lemma eligible_exclude Sv st v b u :
  u < nVars Sv ->
  eligible Sv (excludeFromCover v b st) u
  = if v =? u then negb b else eligible Sv st u.
Proof.
  intros Hu. rewrite !eligible_nth. unfold excludeFromCover; simpl.
  rewrite !nth_growTo, length_insert, length_growTo.
  apply Nat.ltb_lt in Hu. rewrite Hu.
  apply Nat.ltb_lt in Hu.
  destruct (v =? u) eqn:Euv.
  - apply Nat.eqb_eq in Euv. subst u.
    replace (v <? Nat.max (length (include st)) (v + 1)) with true
      by (symmetry; apply Nat.ltb_lt; lia).
    apply nth_insert_eq. rewrite length_growTo. lia.
  - apply Nat.eqb_neq in Euv.
    rewrite nth_insert_ne by congruence. rewrite nth_growTo.
    destruct (u <? length (include st)) eqn:E1.
    + apply Nat.ltb_lt in E1.
      replace (u <? Nat.max (length (include st)) (v + 1)) with true
        by (symmetry; apply Nat.ltb_lt; lia).
      reflexivity.
    + apply Nat.ltb_ge in E1.
      destruct (u <? v + 1) eqn:E2; destruct (u <? Nat.max _ _) eqn:E3;
        try reflexivity.
      apply Nat.ltb_ge in E2. apply Nat.ltb_lt in E3. lia.
Qed.

Lemma eligible_getCover sort fast Sv' Sv st st' cover u :
  getCover sort fast Sv' st = Some (st', cover) ->
  u < nVars Sv -> eligible Sv st' u = eligible Sv st u.
Proof.
  intros E Hu. apply getCover_same in E. destruct E as [_ Hi].
  rewrite prologue_fields in Hi. cbn [include] in Hi.
  rewrite !eligible_nth, Hi, !nth_growTo, length_growTo.
  apply Nat.ltb_lt in Hu. rewrite Hu. apply Nat.ltb_lt in Hu.
  destruct (u <? length (include st)) eqn:E1.
  - apply Nat.ltb_lt in E1.
    replace (u <? Nat.max (length (include st)) (nVars Sv')) with true
      by (symmetry; apply Nat.ltb_lt; lia).
    reflexivity.
  - apply Nat.ltb_ge in E1.
    destruct (u <? Nat.max _ _) eqn:E2; [|reflexivity].
    destruct (u <? nVars Sv') eqn:E3; [reflexivity|].
    apply Nat.ltb_lt in E2. apply Nat.ltb_ge in E3. lia.
Qed.

(** X10.  The inclusion flags persist: after any operations of a client on
    one object, the flag with which the next [getCover] call treats a
    variable of the solver is the one that the last [excludeFromCover] call
    for that variable set, and the flag it had before if there is no such
    call; [getCover] calls, on any solver state, and calls for other
    variables do not change it. *)
Theorem eligible_after_run
    (sort : (Lit -> Lit -> bool) -> list Lit -> list Lit) Sv ops st st' v :
  run_cover sort ops st = Some st' -> v < nVars Sv ->
  eligible Sv st' v = last_flag v ops (eligible Sv st v).
Proof.
  intros H Hv. revert st H. induction ops as [|op ops IH]; intros st H.
  - injection H as <-. reflexivity.
  - destruct op as [u e|fast Sv']; cbn [run_cover last_flag fold_left] in *.
    + rewrite <- (eligible_exclude Sv st u e v Hv). now apply IH.
    + destruct (getCover sort fast Sv' st) as [[st1 cover]|] eqn:E; [|discriminate].
      rewrite <- (eligible_getCover sort fast Sv' Sv st st1 cover v E Hv).
      now apply IH.
Qed.

Lemma eligible_after_run_witness :
  exists st',
    run_cover stable_sort
      [ExcludeFromCover 1 true; GetCover false solverG; ExcludeFromCover 2 true] init
    = Some st'
    /\ eligible solverG st' 1
       = last_flag 1 [ExcludeFromCover 1 true; GetCover false solverG;
                      ExcludeFromCover 2 true] (eligible solverG init 1).
Proof.
  eexists. split.
  - vm_compute. reflexivity.
  - apply (eligible_after_run stable_sort solverG).
    + vm_compute. reflexivity.
    + simpl. lia.
Defined.

(** ** The fast mode *)

Lemma fast_watchers_chosen Sv v p ws st cover :
  chosen_ok Sv st cover ->
  isTrue Sv p = true -> included st v = true -> v < nVars Sv -> var p = v ->
  chosen_ok Sv (fst (fast_watchers Sv v p ws st cover))
               (snd (fast_watchers Sv v p ws st cover)).
Proof.
  intros Hch Hp Hi Hv Evar. subst v.
  revert st cover Hch Hi. induction ws as [|w ws IH]; intros st cover Hch Hi; simpl;
    [exact Hch|].
  destruct (match blocker w with Some _ => _ | None => _ end); [now apply IH|].
  destruct (lbool_eqb _ l_True); [|now apply chosen_add].
  destruct (_ || _); [now apply IH | now apply chosen_add].
Qed.

Lemma fast_choice_true Sv v :
  value Sv (mkLit v) <> l_Undef ->
  isTrue Sv (if lbool_eqb (value Sv (mkLit v)) l_False then neg (mkLit v) else mkLit v)
  = true
  /\ var (if lbool_eqb (value Sv (mkLit v)) l_False then neg (mkLit v) else mkLit v) = v.
Proof.
  unfold isTrue, value, neg, mkLit; simpl.
  destruct (nth v (assigns Sv) l_Undef) eqn:E; simpl; rewrite ?E; simpl;
    intros H; try congruence; split; reflexivity.
Qed.

Lemma fast_pass_chosen Sv vs st cover :
  chosen_ok Sv st cover ->
  (forall v, In v vs ->
     v < nVars Sv /\ included st v = true /\ value Sv (mkLit v) <> l_Undef) ->
  chosen_ok Sv (fst (fast_pass Sv vs st cover)) (snd (fast_pass Sv vs st cover)).
Proof.
  revert st cover. induction vs as [|v vs IH]; intros st cover Hch Hvs; simpl;
    [exact Hch|].
  destruct (inCover st v).
  - apply IH; [exact Hch|]. intros u Hu. apply Hvs. now right.
  - destruct (Hvs v (or_introl eq_refl)) as (Hv & Hi & Hu).
    destruct (fast_choice_true Sv v Hu) as [Ht Ev].
    match goal with |- context [fast_watchers Sv v ?p ?ws st cover] =>
      pose proof (fast_watchers_chosen Sv v p ws st cover Hch Ht Hi Hv Ev) as H1;
      pose proof (fast_watchers_same Sv v p ws st cover) as H2;
      destruct (fast_watchers Sv v p ws st cover) as [st1 cover1] end.
    cbn [fst snd] in *. apply IH; [exact H1|].
    intros u Hin. destruct (Hvs u (or_intror Hin)) as (A & B & C).
    split; [exact A|]. split; [|exact C].
    unfold included. rewrite (proj2 H2). exact B.
Qed.

(** X11.  In fast mode, when the solver view is well formed, every
    cover-eligible variable is assigned, and the variables that the loop
    goes through are eligible variables of the solver, [getCover] returns
    a cover all of whose literals are true literals of eligible variables
    below [nVars]. *)
Theorem fast_cover_valid
    (sort : (Lit -> Lit -> bool) -> list Lit -> list Lit) Sv st :
  solver_wf Sv -> eligible_assigned Sv st ->
  (forall v, In v (scanned Sv st) -> v < nVars Sv /\ eligible Sv st v = true) ->
  exists st' cover,
    getCover sort true Sv st = Some (st', cover)
    /\ forall l, In l cover ->
         value Sv l = l_True /\ eligible Sv st (var l) = true /\ var l < nVars Sv.
Proof.
  intros Hwf Hel Hsub. unfold getCover.
  pose proof (level0_same (firstn (level0_count Sv) (trail Sv)) (prologue Sv st) []) as H0.
  pose proof (level0_chosen Sv (firstn (level0_count Sv) (trail Sv)) (prologue Sv st) [])
    as Hch1.
  destruct (level0 _ (prologue Sv st) []) as [st1 cover1]. cbn [fst snd] in *.
  assert (Hch1' : chosen_ok Sv st1 cover1).
  { apply Hch1; [|apply prologue_chosen].
    intros l Hl. apply (proj1 Hwf). eapply In_firstn_whole; eauto. }
  destruct H0 as [Hs1 Hi1].
  pose proof (fast_pass_chosen Sv (subset st1) st1 cover1 Hch1') as H2.
  pose proof (fast_pass_same Sv (subset st1) st1 cover1) as H3.
  destruct (fast_pass Sv (subset st1) st1 cover1) as [st2 cover2]. cbn [fst snd] in *.
  exists st2, cover2. split; [reflexivity|].
  assert (Hch2 : chosen_ok Sv st2 cover2).
  { apply H2. intros v Hv. rewrite Hs1 in Hv. destruct (Hsub v Hv) as [A B].
    split; [exact A|]. split.
    - unfold included. rewrite Hi1. exact B.
    - apply (Hel (mkLit v)); assumption. }
  intros l Hl. destruct Hch2 as (_ & Hc & _).
  destruct (Hc l Hl) as (A1 & A2 & _ & A4).
  split; [now apply isTrue_value|]. split; [|exact A4].
  unfold eligible, included in *. rewrite (proj2 H3), Hi1 in A2. exact A2.
Qed.

Lemma fast_cover_valid_witness :
  exists st' cover,
    getCover stable_sort true solverF init = Some (st', cover)
    /\ forall l, In l cover ->
         value solverF l = l_True /\ eligible solverF init (var l) = true
         /\ var l < nVars solverF.
Proof.
  apply (fast_cover_valid stable_sort solverF init).
  - split.
    + intros l Hl. simpl in Hl.
      destruct Hl as [<-|[<-|[]]]; split; simpl; first [lia | reflexivity].
    + intros c l Hc Hl. simpl in Hc.
      destruct Hc as [<-|[]]; simpl in Hl;
        destruct Hl as [<-|[<-|[]]]; simpl; lia.
  - intros [v s] Hv _. simpl in Hv. unfold value; simpl.
    destruct v as [|[|v]]; [| |lia]; destruct s; simpl; discriminate.
  - intros v Hv. vm_compute in Hv.
    destruct Hv as [<-|[<-|[]]]; split; simpl; first [lia | reflexivity].
Defined.

(** ** A second call *)

Lemma growTo_idem {A} n (pad : A) l : growTo n pad (growTo n pad l) = growTo n pad l.
Proof.
  unfold growTo at 1. rewrite length_growTo.
  replace (n - Nat.max (length l) n) with 0 by lia. simpl. apply app_nil_r.
Qed.

Lemma map_nil_replicate {A B} (l : list A) :
  map (fun _ => @nil B) l = replicate (length l) [].
Proof. induction l as [|x l IH]; simpl; [reflexivity | now rewrite IH]. Qed.

Lemma level0_congr ls a b cover :
  include a = include b -> in_cover a = in_cover b ->
  in_cover (fst (level0 ls a cover)) = in_cover (fst (level0 ls b cover))
  /\ snd (level0 ls a cover) = snd (level0 ls b cover).
Proof.
  revert a b cover. induction ls as [|l ls IH]; intros a b cover Hi Hc; simpl.
  - split; [exact Hc | reflexivity].
  - unfold included. rewrite Hi. destruct (nth (var l) (include b) false).
    + apply IH; simpl; [exact Hi | now rewrite Hc].
    + now apply IH.
Qed.

Lemma level0_scratch ls st cover :
  let st' := fst (level0 ls st cover) in
  uncovered st' = uncovered st /\ coverCount st' = coverCount st
  /\ mVarsGreedyScore st' = mVarsGreedyScore st
  /\ mVarsInUncCls st' = mVarsInUncCls st
  /\ potentialCoverLits st' = potentialCoverLits st.
Proof.
  revert st cover. induction ls as [|l ls IH]; intros st cover; simpl.
  - repeat split.
  - destruct (included st (var l)); [|apply IH].
    specialize (IH (set_in_cover (<[var l := true]> (in_cover st)) st) (cover ++ [l])).
    exact IH.
Qed.

Lemma fast_watchers_scratch Sv v p ws st cover :
  let st' := fst (fast_watchers Sv v p ws st cover) in
  uncovered st' = uncovered st /\ coverCount st' = coverCount st
  /\ mVarsGreedyScore st' = mVarsGreedyScore st
  /\ mVarsInUncCls st' = mVarsInUncCls st
  /\ potentialCoverLits st' = potentialCoverLits st.
Proof.
  revert st cover. induction ws as [|w ws IH]; intros st cover; simpl;
    [repeat split|].
  destruct (match blocker w with Some _ => _ | None => _ end); [apply IH|].
  destruct (lbool_eqb _ l_True); [|repeat split].
  destruct (_ || _); [apply IH | repeat split].
Qed.

Lemma fast_pass_scratch Sv vs st cover :
  let st' := fst (fast_pass Sv vs st cover) in
  uncovered st' = uncovered st /\ coverCount st' = coverCount st
  /\ mVarsGreedyScore st' = mVarsGreedyScore st
  /\ mVarsInUncCls st' = mVarsInUncCls st
  /\ potentialCoverLits st' = potentialCoverLits st.
Proof.
  revert st cover. induction vs as [|v vs IH]; intros st cover; simpl;
    [repeat split|].
  destruct (inCover st v); [apply IH|].
  match goal with |- context [fast_watchers Sv v ?p ?ws st cover] =>
    pose proof (fast_watchers_scratch Sv v p ws st cover) as H1;
    destruct (fast_watchers Sv v p ws st cover) as [st1 cover1] end.
  specialize (IH st1 cover1). cbn [fst] in *.
  destruct H1 as (A1 & A2 & A3 & A4 & A5), IH as (B1 & B2 & B3 & B4 & B5).
  repeat split; congruence.
Qed.

Lemma same_sizes_refl st : same_sizes st st.
Proof. split; reflexivity. Qed.

Lemma same_sizes_trans a b c : same_sizes a b -> same_sizes b c -> same_sizes a c.
Proof. unfold same_sizes. intuition congruence. Qed.

Lemma forced_pass_sizes Sv i cs st cover :
  same_sizes st (fst (forced_pass Sv i cs (st, cover))).
Proof.
  revert i st cover. induction cs as [|c cs IH]; intros i st cover;
    [apply same_sizes_refl|].
  change (forced_pass Sv i (c :: cs) (st, cover))
    with (forced_pass Sv (S i) cs (forced_clause Sv i c (st, cover))).
  assert (H : same_sizes st (fst (forced_clause Sv i c (st, cover)))).
  { unfold forced_clause. destruct (forced_scan Sv st c 0 None) as [n [pl|]];
      [|apply same_sizes_refl].
    destruct (n =? 1)%Z; [|apply same_sizes_refl].
    destruct (negb _); split; reflexivity. }
  destruct (forced_clause Sv i c (st, cover)) as [st1 cover1].
  eapply same_sizes_trans; [exact H | apply IH].
Qed.

Lemma fold_bump_sizes i unc st : same_sizes st (fold_left (bump i) unc st).
Proof.
  revert st. induction unc as [|l unc IH]; intros st; simpl;
    [apply same_sizes_refl|].
  eapply same_sizes_trans; [|apply IH].
  unfold bump, same_sizes. destruct (score st (var l) =? 0)%Z; simpl;
    rewrite length_insert; split; reflexivity.
Qed.

Lemma greedy_pass_sizes Sv i cs st : same_sizes st (greedy_pass Sv i cs st).
Proof.
  revert i st. induction cs as [|c cs IH]; intros i st;
    [apply same_sizes_refl|].
  change (greedy_pass Sv i (c :: cs) st)
    with (greedy_pass Sv (S i) cs (greedy_clause Sv i c st)).
  eapply same_sizes_trans; [|apply IH].
  unfold greedy_clause. destruct (sat_scan Sv st c _) as [[|] unc].
  - split; simpl; [apply length_insert | reflexivity].
  - eapply same_sizes_trans; [|apply fold_bump_sizes].
    split; simpl; [apply length_insert | reflexivity].
Qed.

Lemma add_counts_sizes d cls st : same_sizes st (add_counts d cls st).
Proof.
  unfold add_counts. revert st. induction cls as [|c cls IH]; intros st; simpl;
    [apply same_sizes_refl|].
  eapply same_sizes_trans; [|apply IH]. split; reflexivity.
Qed.

Lemma third_pass_sizes n cands i st cover st' cover' :
  third_pass n cands i st cover = Some (st', cover') -> same_sizes st st'.
Proof.
  revert i st cover. induction cands as [|l cands IH]; intros i st cover; simpl.
  - destruct (_ =? n); [|discriminate]. intros [= <- _]. apply same_sizes_refl.
  - destruct (_ =? n); [intros [= <- _]; apply same_sizes_refl|].
    destruct (existsb _ _).
    + intros H. apply IH in H.
      eapply same_sizes_trans; [apply add_counts_sizes | exact H].
    + apply IH.
Qed.

Lemma prune_sizes ls st kept : same_sizes st (fst (prune ls st kept)).
Proof.
  revert st kept. induction ls as [|l ls IH]; intros st kept; simpl;
    [apply same_sizes_refl|].
  destruct (existsb _ _); [apply IH|].
  eapply same_sizes_trans; [apply add_counts_sizes | apply IH].
Qed.

Lemma exact_reset_congr Sv a b :
  in_cover a = in_cover b -> subset a = subset b -> include a = include b ->
  Nat.max (length (uncovered a)) (length (clauses Sv) + 1)
  = Nat.max (length (uncovered b)) (length (clauses Sv) + 1) ->
  Nat.max (length (mVarsInUncCls a)) (nVars Sv)
  = Nat.max (length (mVarsInUncCls b)) (nVars Sv) ->
  exact_reset Sv a = exact_reset Sv b.
Proof.
  destruct a, b. cbn [in_cover subset include uncovered mVarsInUncCls].
  intros -> -> -> H4 H5.
  unfold exact_reset, set_uncovered, set_mVarsInUncCls, set_coverCount,
    set_mVarsGreedyScore, set_potentialCoverLits;
    cbn [uncovered coverCount mVarsGreedyScore mVarsInUncCls potentialCoverLits
         in_cover subset include].
  rewrite !map_nil_replicate, !length_growTo, H4, H5. reflexivity.
Qed.

(** X12.  A [getCover] call leaves the object in a state from which a second
    call on the same solver state, in the same mode, returns the same cover
    and leaves the object as it is: nothing of one call but [subset] and
    [include] reaches the next. *)
Theorem getCover_again
    (sort : (Lit -> Lit -> bool) -> list Lit -> list Lit) fast Sv st st' cover :
  getCover sort fast Sv st = Some (st', cover) ->
  getCover sort fast Sv st' = Some (st', cover).
Proof.
  intros E. rewrite <- E.
  pose proof (getCover_same _ _ _ _ _ _ E) as [Hs Hi].
  rewrite prologue_fields in Hs, Hi. cbn [subset include] in Hs, Hi.
  set (ls := firstn (level0_count Sv) (trail Sv)).
  assert (Hin : include (prologue Sv st') = include (prologue Sv st)).
  { rewrite !prologue_fields. cbn [include]. rewrite Hi. apply growTo_idem. }
  assert (Hsub : subset (prologue Sv st') = subset (prologue Sv st)).
  { rewrite !prologue_fields. cbn [subset]. rewrite Hs, Hi, growTo_idem.
    destruct (length (subset st) =? 0) eqn:E0.
    - apply Nat.eqb_eq, length_zero_iff_nil in E0. rewrite E0. simpl.
      destruct (length (build_subset _) =? 0) eqn:E1; [|reflexivity].
      apply Nat.eqb_eq, length_zero_iff_nil in E1. rewrite E1. reflexivity.
    - rewrite E0. reflexivity. }
  assert (Hic : in_cover (prologue Sv st') = in_cover (prologue Sv st)).
  { rewrite !prologue_fields. reflexivity. }
  destruct (level0_congr ls (prologue Sv st') (prologue Sv st) [] Hin Hic) as [Hc1 Hc2].
  pose proof (level0_same ls (prologue Sv st') []) as [Ha1 Ha2].
  pose proof (level0_same ls (prologue Sv st) []) as [Hb1 Hb2].
  pose proof (level0_scratch ls (prologue Sv st') []) as (Sa1 & Sa2 & Sa3 & Sa4 & Sa5).
  pose proof (level0_scratch ls (prologue Sv st) []) as (Sb1 & Sb2 & Sb3 & Sb4 & Sb5).
  cbv zeta in Sa1, Sa2, Sa3, Sa4, Sa5, Sb1, Sb2, Sb3, Sb4, Sb5.
  destruct fast.
  - (* fast mode: the object differs from the prologue state in [in_cover] only *)
    assert (Hpro : prologue Sv st' = prologue Sv st).
    { unfold getCover in E. fold ls in E.
      pose proof (level0_scratch ls (prologue Sv st) []) as Hl.
      destruct (level0 ls (prologue Sv st) []) as [st1 cover1]. cbn [fst snd] in *.
      pose proof (fast_pass_scratch Sv (subset st1) st1 cover1) as Hf.
      injection E as E. rewrite E in Hf. cbn [fst] in Hf.
      cbv zeta in Hl, Hf.
      destruct Hl as (L1 & L2 & L3 & L4 & L5), Hf as (F1 & F2 & F3 & F4 & F5).
      rewrite (prologue_fields Sv st') at 1. rewrite (prologue_fields Sv st).
      rewrite prologue_fields in L1, L2, L3, L4, L5. cbn in L1, L2, L3, L4, L5.
      rewrite Hs, Hi, growTo_idem, F1, F2, F3, F4, F5, L1, L2, L3, L4, L5.
      f_equal.
      destruct (length (subset st) =? 0) eqn:E0.
      - apply Nat.eqb_eq, length_zero_iff_nil in E0. rewrite E0. simpl.
        destruct (length (build_subset _) =? 0) eqn:E1; [|reflexivity].
        apply Nat.eqb_eq, length_zero_iff_nil in E1. rewrite E1. reflexivity.
      - rewrite E0. reflexivity. }
    unfold getCover. rewrite Hpro. reflexivity.
  - (* exact mode: the resets make the two states equal *)
    assert (Hsz : same_sizes (exact_reset Sv (fst (level0 ls (prologue Sv st) []))) st').
    { unfold getCover in E. fold ls in E.
      destruct (level0 ls (prologue Sv st) []) as [st1 cover1]. cbn [fst snd] in *.
      pose proof (forced_pass_sizes Sv 0 (clauses Sv) (exact_reset Sv st1) cover1) as H1.
      destruct (forced_pass Sv 0 (clauses Sv) (exact_reset Sv st1, cover1))
        as [st3 cover3]. cbn [fst] in H1.
      pose proof (greedy_pass_sizes Sv 0 (clauses Sv) st3) as H2.
      destruct (third_pass _ _ 0 _ cover3) as [[st6 cover6]|] eqn:E3; [|discriminate].
      apply third_pass_sizes in E3.
      pose proof (prune_sizes (skipn (first_greedy st6 cover6) cover6) st6 []) as H4.
      destruct (prune _ st6 []) as [st7 kept]. cbn [fst] in H4.
      injection E as <- _.
      eapply same_sizes_trans; [exact H1|].
      eapply same_sizes_trans; [exact H2|].
      eapply same_sizes_trans; [|exact H4].
      exact E3. }
    destruct Hsz as [Z1 Z2].
    unfold exact_reset, set_uncovered, set_mVarsInUncCls, set_coverCount,
      set_mVarsGreedyScore, set_potentialCoverLits in Z1, Z2.
    cbn [uncovered coverCount mVarsGreedyScore mVarsInUncCls potentialCoverLits
         in_cover subset include] in Z1, Z2.
    rewrite !length_map, !length_growTo, Sb1 in Z1.
    rewrite !length_map, !length_growTo, Sb4 in Z2.
    rewrite prologue_fields in Z1, Z2.
    cbn [uncovered mVarsInUncCls] in Z1, Z2.
    assert (Hre : exact_reset Sv (fst (level0 ls (prologue Sv st') []))
                  = exact_reset Sv (fst (level0 ls (prologue Sv st) []))).
    { apply exact_reset_congr.
      - exact Hc1.
      - rewrite Ha1, Hb1. exact Hsub.
      - rewrite Ha2, Hb2. exact Hin.
      - rewrite Sa1, Sb1, !prologue_fields. cbn [uncovered]. lia.
      - rewrite Sa4, Sb4, !prologue_fields. cbn [mVarsInUncCls]. lia. }
    unfold getCover. fold ls.
    destruct (level0 ls (prologue Sv st') []) as [sa ca].
    destruct (level0 ls (prologue Sv st) []) as [sb cb].
    cbn [fst snd] in *. rewrite Hre, Hc2. reflexivity.
Qed.

Lemma getCover_again_witness :
  exists st' cover,
    getCover stable_sort false solverG init = Some (st', cover)
    /\ getCover stable_sort false solverG st' = Some (st', cover).
Proof.
  eexists. eexists. split.
  - vm_compute. reflexivity.
  - apply (getCover_again stable_sort false solverG init). vm_compute. reflexivity.
Defined.

(** ** The literals of the trail come first *)

Lemma level0_marks ls :
  forall st cover,
  (forall l, In l ls -> var l < length (in_cover st)) ->
  (forall l, In l cover -> inCover st (var l) = true) ->
  forall l, In l (snd (level0 ls st cover)) ->
            inCover (fst (level0 ls st cover)) (var l) = true.
Proof.
  induction ls as [|x ls IH]; intros st cover Hlt Hc; simpl; [exact Hc|].
  assert (Hlt' : forall l, In l ls -> var l < length (in_cover st))
    by (intros l H; apply Hlt; now right).
  destruct (included st (var x)); [|now apply IH].
  apply IH.
  - simpl. intros l H. rewrite length_insert. now apply Hlt'.
  - intros l H. unfold inCover; simpl. apply in_app_or in H.
    destruct (Nat.eq_dec (var x) (var l)) as [E|E].
    + rewrite <- E. apply nth_insert_eq. apply Hlt. now left.
    + rewrite nth_insert_ne by exact E. destruct H as [H|[<-|[]]]; [|congruence].
      now apply Hc.
Qed.

Lemma insert_true_mono (l : list bool) i v :
  nth v l false = true -> nth v (<[i := true]> l) false = true.
Proof.
  intros H. destruct (Nat.eq_dec i v) as [->|Hne].
  - destruct (Nat.lt_ge_cases v (length l)) as [Hlt|Hge].
    + now apply nth_insert_eq.
    + now rewrite list_insert_ge.
  - now rewrite nth_insert_ne.
Qed.

Lemma forced_pass_marks Sv cs :
  forall i st cover,
  let r := forced_pass Sv i cs (st, cover) in
  mVarsInUncCls (fst r) = mVarsInUncCls st
  /\ uncovered (fst r) = uncovered st
  /\ forall v, inCover st v = true -> inCover (fst r) v = true.
Proof.
  induction cs as [|c cs IH]; intros i st cover; cbv zeta; [simpl; auto|].
  change (forced_pass Sv i (c :: cs) (st, cover))
    with (forced_pass Sv (S i) cs (forced_clause Sv i c (st, cover))).
  assert (H : mVarsInUncCls (fst (forced_clause Sv i c (st, cover))) = mVarsInUncCls st
              /\ uncovered (fst (forced_clause Sv i c (st, cover))) = uncovered st
              /\ forall v, inCover st v = true ->
                           inCover (fst (forced_clause Sv i c (st, cover))) v = true).
  { unfold forced_clause. destruct (forced_scan Sv st c 0 None) as [n [pl|]]; [|auto].
    destruct (n =? 1)%Z; [|auto].
    destruct (negb _); simpl; [|auto].
    split; [reflexivity|]. split; [reflexivity|].
    intros v Hv. unfold inCover in *; simpl. now apply insert_true_mono. }
  destruct (forced_clause Sv i c (st, cover)) as [st1 cover1]. cbn [fst] in H.
  destruct H as (H1 & H2 & H3).
  destruct (IH (S i) st1 cover1) as (A1 & A2 & A3).
  split; [congruence|]. split; [congruence | auto].
Qed.

Lemma bump_other k st l v :
  var l <> v -> inUncCls (bump k st l) v = inUncCls st v.
Proof.
  intros Hne. unfold bump, inUncCls.
  assert (E : forall (b : bool) (x y : Cover),
            mVarsInUncCls (if b then x else y)
            = if b then mVarsInUncCls x else mVarsInUncCls y)
    by (intros [] x y; reflexivity).
  simpl. rewrite !E. simpl.
  destruct (score st (var l) =? 0)%Z; now rewrite nth_insert_ne.
Qed.

Lemma fold_bump_marks k unc :
  forall st,
  (forall l, In l unc -> inCover st (var l) = false) ->
  let st' := fold_left (bump k) unc st in
  in_cover st' = in_cover st /\ uncovered st' = uncovered st
  /\ forall v, inCover st v = true -> inUncCls st' v = inUncCls st v.
Proof.
  induction unc as [|l unc IH]; intros st Hunc; cbv zeta; simpl; [auto|].
  destruct (bump_frame k st l) as (_ & Hic & _).
  destruct (bump_rest k st l) as (_ & Hun & _).
  destruct (IH (bump k st l)) as (A1 & A2 & A3).
  - intros x Hx. unfold inCover. rewrite Hic. apply Hunc. now right.
  - split; [congruence|]. split; [congruence|].
    intros v Hv. rewrite A3 by (unfold inCover in *; now rewrite Hic).
    apply bump_other. intros E. rewrite <- E in Hv.
    rewrite (Hunc l (or_introl eq_refl)) in Hv. discriminate.
Qed.

Lemma greedy_pass_marks Sv cs :
  forall i st,
  (forall i', i <= i' -> nth i' (uncovered st) [] = []) ->
  let st' := greedy_pass Sv i cs st in
  in_cover st' = in_cover st
  /\ forall v, inCover st v = true -> inUncCls st' v = inUncCls st v.
Proof.
  induction cs as [|c cs IH]; intros i st Hun; cbv zeta; [simpl; auto|].
  change (greedy_pass Sv i (c :: cs) st)
    with (greedy_pass Sv (S i) cs (greedy_clause Sv i c st)).
  assert (H : in_cover (greedy_clause Sv i c st) = in_cover st
              /\ (forall v, inCover st v = true ->
                    inUncCls (greedy_clause Sv i c st) v = inUncCls st v)
              /\ exists x, uncovered (greedy_clause Sv i c st)
                           = <[i := x]> (uncovered st)).
  { unfold greedy_clause. rewrite sat_scan_spec, (Hun i (le_n i)).
    destruct (settled Sv st c) eqn:Es.
    - split; [reflexivity|]. split; [reflexivity | simpl; eauto].
    - simpl app.
      destruct (fold_bump_marks i (true_lits Sv c)
                  (set_uncovered (<[i := true_lits Sv c]> (uncovered st)) st))
        as (A1 & A2 & A3).
      + intros l Hl. apply true_lits_In in Hl. destruct Hl as [Hl Ht].
        apply (unsettled_lit Sv st c l Es Hl Ht).
      + split; [exact A1|]. split; [exact A3|]. rewrite A2. simpl. eauto. }
  destruct H as (H1 & H2 & (x & H3)).
  destruct (IH (S i) (greedy_clause Sv i c st)) as (B1 & B2).
  - intros i' Hi'. rewrite H3, nth_insert_ne by lia. apply Hun. lia.
  - split; [congruence|]. intros v Hv.
    rewrite B2 by (unfold inCover in *; now rewrite H1). now apply H2.
Qed.

Lemma add_counts_marks d cls st :
  in_cover (add_counts d cls st) = in_cover st.
Proof.
  unfold add_counts. revert st. induction cls as [|c cls IH]; intros st; simpl;
    [reflexivity|]. now rewrite IH.
Qed.

Lemma third_pass_marks n cands :
  forall i st cover st' cover',
  third_pass n cands i st cover = Some (st', cover') ->
  in_cover st' = in_cover st /\ mVarsInUncCls st' = mVarsInUncCls st.
Proof.
  induction cands as [|x r IH]; intros i st cover st' cover'; simpl.
  - destruct (_ =? n); [|discriminate]. intros [= <- _]. auto.
  - destruct (_ =? n); [intros [= <- _]; auto|].
    destruct (existsb _ _).
    + intros H. apply IH in H. destruct H as [H1 H2].
      rewrite H1, H2. split; [apply add_counts_marks|].
      unfold add_counts. clear. generalize (inUncCls st (var x)) as cls. intros cls.
      revert st. induction cls as [|c cls IHc]; intros st; simpl; [reflexivity|].
      now rewrite IHc.
    + apply IH.
Qed.

Lemma fast_watchers_extends Sv v p ws st cover :
  exists ext, snd (fast_watchers Sv v p ws st cover) = cover ++ ext.
Proof.
  induction ws as [|w ws IH]; simpl.
  - exists []. now rewrite app_nil_r.
  - destruct (match blocker w with Some _ => _ | None => _ end); [exact IH|].
    destruct (lbool_eqb _ l_True); [|now exists [p]].
    destruct (_ || _); [exact IH | now exists [p]].
Qed.

Lemma fast_pass_extends Sv vs st cover :
  exists ext, snd (fast_pass Sv vs st cover) = cover ++ ext.
Proof.
  revert st cover. induction vs as [|v vs IH]; intros st cover; simpl.
  - exists []. now rewrite app_nil_r.
  - destruct (inCover st v); [apply IH|].
    match goal with |- context [fast_watchers Sv v ?p ?ws st cover] =>
      destruct (fast_watchers_extends Sv v p ws st cover) as (e1 & H1);
      destruct (fast_watchers Sv v p ws st cover) as [st1 cover1] end.
    simpl in H1. subst cover1. destruct (IH st1 (cover ++ e1)) as (e2 & H2).
    exists (e1 ++ e2). rewrite H2. now rewrite app_assoc.
Qed.

Lemma first_greedy_prefix st A B :
  (forall l, In l A -> inUncCls st (var l) = []) ->
  length A <= first_greedy st (A ++ B).
Proof.
  intros HA. induction A as [|a A IH]; simpl; [lia|].
  rewrite (HA a (or_introl eq_refl)). simpl.
  apply le_n_S, IH. intros l Hl. apply HA. now right.
Qed.

(** X9.  The literals of the trail below the first decision whose variable
    is included are always the first literals of the cover, in the order of
    the trail, in both modes: when the variables of the trail are variables
    of the solver, no later pass removes or reorders them. *)
Theorem cover_keeps_trail
    (sort : (Lit -> Lit -> bool) -> list Lit -> list Lit) fast Sv st st' cover :
  (forall l, In l (trail Sv) -> var l < nVars Sv) ->
  getCover sort fast Sv st = Some (st', cover) ->
  exists rest, cover = level0_lits Sv st ++ rest.
Proof.
  intros Htr. unfold getCover.
  pose proof (level0_filter (firstn (level0_count Sv) (trail Sv)) (prologue Sv st) [])
    as Hlv.
  simpl app in Hlv. fold (level0_lits Sv st) in Hlv.
  pose proof (level0_marks (firstn (level0_count Sv) (trail Sv)) (prologue Sv st) [])
    as Hmk.
  destruct (level0 _ (prologue Sv st) []) as [st1 cover1]. cbn [fst snd] in *.
  subst cover1. set (L0 := level0_lits Sv st) in *.
  assert (Hm1 : forall l, In l L0 -> inCover st1 (var l) = true).
  { apply Hmk; [|intros l []].
    intros l Hl. rewrite prologue_fields. cbn [in_cover].
    rewrite length_growTo. simpl. apply In_firstn_whole in Hl. apply Htr in Hl. lia. }
  destruct fast.
  - intros [= E]. destruct (fast_pass_extends Sv (subset st1) st1 L0) as (ext & He).
    rewrite E in He. simpl in He. eauto.
  - set (st2 := exact_reset Sv st1).
    assert (Hl2 : forall v, inUncCls st2 v = []).
    { intros v. unfold inUncCls, st2, exact_reset; simpl. apply nth_map_nil. }
    assert (Hu2 : forall i, nth i (uncovered st2) [] = []).
    { intros i. unfold st2, exact_reset; simpl. apply nth_map_nil. }
    destruct (forced_pass_extends Sv (clauses Sv) 0 st2 L0) as (forced & Hforced).
    destruct (forced_pass_marks Sv (clauses Sv) 0 st2 L0) as (A1 & A2 & A3).
    destruct (forced_pass Sv 0 (clauses Sv) (st2, L0)) as [st3 cover3].
    cbn [fst snd] in *. subst cover3.
    destruct (greedy_pass_marks Sv (clauses Sv) 0 st3) as (B1 & B2).
    { intros i _. rewrite A2. apply Hu2. }
    set (st4 := greedy_pass Sv 0 (clauses Sv) st3) in *.
    destruct (third_pass _ _ 0 _ (L0 ++ forced)) as [[st6 cover6]|] eqn:E3;
      [|discriminate].
    destruct (third_pass_marks _ _ _ _ _ _ _ E3) as [C1 C2].
    destruct (third_pass_distinct _ _ _ _ _ _ _ E3) as (G & -> & _).
    destruct (prune _ st6 []) as [st7 kept]. intros [= _ <-].
    assert (H0 : forall l, In l L0 -> inUncCls st6 (var l) = []).
    { intros l Hl. unfold inUncCls. rewrite C2. simpl.
      fold (inUncCls st4 (var l)). rewrite B2.
      - unfold inUncCls. rewrite A1. apply Hl2.
      - apply A3. unfold inCover, st2, exact_reset; simpl. now apply Hm1. }
    rewrite <- app_assoc.
    pose proof (first_greedy_prefix st6 L0 (forced ++ G) H0) as Hge.
    set (i0 := first_greedy st6 (L0 ++ forced ++ G)) in *.
    rewrite firstn_app, firstn_all2 by exact Hge.
    rewrite <- app_assoc. eauto.
Qed.

Lemma cover_keeps_trail_witness :
  exists st' cover rest,
    getCover stable_sort false
      (mkSolver 2 [l_True; l_True] [mkLitS 0 false] []
         [[mkLitS 0 false; mkLitS 1 false]] (fun _ => [])) init
    = Some (st', cover)
    /\ cover = level0_lits
                 (mkSolver 2 [l_True; l_True] [mkLitS 0 false] []
                    [[mkLitS 0 false; mkLitS 1 false]] (fun _ => [])) init ++ rest.
Proof.
  eexists. eexists.
  lazymatch goal with
  | |- exists rest, getCover _ _ ?S _ = Some (?a, ?b) /\ _ =>
      assert (E : getCover stable_sort false S init = Some (a, b))
        by (vm_compute; reflexivity);
      assert (Htr : forall l, In l (trail S) -> var l < nVars S)
        by (intros l Hl; simpl in Hl; destruct Hl as [<-|[]]; simpl; lia);
      destruct (cover_keeps_trail stable_sort false S init _ _ Htr E) as (rest & H)
  end.
  exists rest. split; [exact E | exact H].
Defined.

(** ** No variable twice in the cover *)










(** ** The fast mode covers every clause *)

Lemma covers_mono Sv st st' cover cover' c :
  include st' = include st -> (forall l, In l cover -> In l cover') ->
  covers Sv st cover c -> covers Sv st' cover' c.
Proof.
  intros Hi Hc [(l & H1 & H2 & H3)|(l & H1 & H2)].
  - left. exists l. unfold included in *. rewrite Hi. auto.
  - right. exists l. auto.
Qed.

(** A true literal of a variable that is excluded or already chosen covers
    the clauses that hold it. *)
Lemma covered_by_lit Sv st cover c l :
  chosen_ok Sv st cover -> In l c -> isTrue Sv l = true ->
  negb (included st (var l)) || inCover st (var l) = true ->
  covers Sv st cover c.
Proof.
  intros (_ & Hc2 & Hc3) Hl Ht Hx. apply orb_true_iff in Hx. destruct Hx as [Hx|Hx].
  - left. exists l. apply negb_true_iff in Hx. apply isTrue_value in Ht. auto.
  - right. destruct (Hc3 _ Hx) as (l0 & Hl0 & Ev).
    destruct (Hc2 l0 Hl0) as (Ht0 & _).
    assert (l0 = l) by (apply (true_same_var Sv); assumption). subst l0.
    exists l. auto.
Qed.

Lemma fast_watchers_covered Sv v p ws st cover :
  chosen_ok Sv st cover ->
  let r := fast_watchers Sv v p ws st cover in
  snd r = cover ++ [p]
  \/ (r = (st, cover)
      /\ forall w c, In w ws -> nth_error (clauses Sv) (cref w) = Some c ->
           2 <= length c -> (forall b, blocker w = Some b -> In b c) ->
           covers Sv st cover c).
Proof.
  intros Hch. induction ws as [|w ws IH]; cbv zeta; simpl.
  - right. split; [reflexivity | intros w c []].
  - destruct (match blocker w with Some _ => _ | None => _ end) eqn:Eb.
    + destruct IH as [IH|[IH1 IH2]]; [now left|]. right. split; [exact IH1|].
      intros w' c [<-|Hw] Hc Hlen Hbl; [|now apply (IH2 w')].
      destruct (blocker w) as [b|]; [|discriminate].
      apply andb_true_iff in Eb. destruct Eb as [E1 E2].
      apply (covered_by_lit Sv st cover c b Hch); auto.
    + destruct (lbool_eqb _ l_True) eqn:Et; [|now left].
      destruct (_ || _) eqn:Eo; [|now left].
      destruct IH as [IH|[IH1 IH2]]; [now left|]. right. split; [exact IH1|].
      intros w' c [<-|Hw] Hc Hlen Hbl; [|now apply (IH2 w')].
      rewrite (nth_error_nth _ _ [] Hc) in Et, Eo.
      set (o := if Lit_eqb (nth 0 c (mkLit 0)) p then nth 1 c (mkLit 0)
                else nth 0 c (mkLit 0)) in *.
      assert (Ho : In o c).
      { unfold o. destruct (Lit_eqb _ p); apply nth_In; lia. }
      apply (covered_by_lit Sv st cover c o Hch); auto.
Qed.

Lemma fast_pass_covered Sv vs :
  forall st cover,
  chosen_ok Sv st cover ->
  (forall v, In v vs ->
     v < nVars Sv /\ included st v = true /\ value Sv (mkLit v) <> l_Undef) ->
  forall v j c p w,
    In v vs -> nth_error (clauses Sv) j = Some c -> 2 <= length c ->
    In p c -> isTrue Sv p = true -> var p = v ->
    In w (watches Sv (neg p)) -> cref w = j ->
    (forall b, blocker w = Some b -> In b c) ->
    covers Sv (fst (fast_pass Sv vs st cover)) (snd (fast_pass Sv vs st cover)) c.
Proof.
  induction vs as [|v0 vs IH]; intros st cover Hch Hvs v j c p w Hv Hc Hlen Hp Ht Ev Hw Ej Hbl;
    [destruct Hv|].
  assert (Hvs' : forall u, In u vs ->
            u < nVars Sv /\ included st u = true /\ value Sv (mkLit u) <> l_Undef)
    by (intros u Hu; apply Hvs; now right).
  simpl. destruct (inCover st v0) eqn:Ein.
  - destruct Hv as [->|Hv]; [|eapply IH; eauto].
    pose proof (fast_pass_same Sv vs st cover) as [_ Hi].
    destruct (fast_pass_extends Sv vs st cover) as (ext & He).
    apply (covers_mono Sv st _ cover _ c Hi).
    + intros l Hl. rewrite He. apply in_or_app. now left.
    + apply (covered_by_lit Sv st cover c p Hch Hp Ht).
      rewrite Ev, Ein. apply orb_true_r.
  - destruct (Hvs v0 (or_introl eq_refl)) as (Hv0 & Hi0 & Hu0).
    destruct (fast_choice_true Sv v0 Hu0) as [Ht0 Ev0].
    set (p0 := if lbool_eqb (value Sv (mkLit v0)) l_False then neg (mkLit v0)
               else mkLit v0) in *.
    pose proof (fast_watchers_chosen Sv v0 p0 (watches Sv (neg p0)) st cover
                  Hch Ht0 Hi0 Hv0 Ev0) as H1.
    pose proof (fast_watchers_same Sv v0 p0 (watches Sv (neg p0)) st cover) as H2.
    pose proof (fast_watchers_covered Sv v0 p0 (watches Sv (neg p0)) st cover Hch) as H3.
    destruct (fast_watchers Sv v0 p0 (watches Sv (neg p0)) st cover) as [st1 cover1].
    cbn [fst snd] in *. cbv zeta in H3.
    assert (Hvs1 : forall u, In u vs ->
              u < nVars Sv /\ included st1 u = true /\ value Sv (mkLit u) <> l_Undef).
    { intros u Hu. destruct (Hvs' u Hu) as (A & B & C).
      split; [exact A|]. split; [|exact C]. unfold included.
      rewrite (proj2 H2). exact B. }
    destruct Hv as [->|Hv]; [|eapply IH; eauto].
    assert (p = p0) by (apply (true_same_var Sv); congruence). subst p.
    pose proof (fast_pass_same Sv vs st1 cover1) as [_ Hi].
    destruct (fast_pass_extends Sv vs st1 cover1) as (ext & He).
    apply (covers_mono Sv st1 _ cover1 _ c Hi).
    + intros l Hl. rewrite He. apply in_or_app. now left.
    + destruct H3 as [H3|[H3 H4]].
      * right. exists p0. split; [exact Hp|]. rewrite H3.
        apply in_or_app. right. now left.
      * injection H3 as -> ->. apply (H4 w c Hw); [now rewrite Ej | exact Hlen | exact Hbl].
Qed.

(** X16.  In fast mode, when the solver view is well formed, every
    cover-eligible variable is assigned, [subset] holds exactly the eligible
    variables of the solver, and every clause is watched through one of its
    true literals, the returned cover covers every clause: each clause
    holds a true literal of an excluded variable or a literal of the
    cover. *)
Theorem fast_cover_covers
    (sort : (Lit -> Lit -> bool) -> list Lit -> list Lit) Sv st :
  solver_wf Sv -> eligible_assigned Sv st ->
  (forall v, In v (scanned Sv st) <-> v < nVars Sv /\ eligible Sv st v = true) ->
  watch_ok Sv ->
  exists st' cover,
    getCover sort true Sv st = Some (st', cover)
    /\ forall c, In c (clauses Sv) -> covers Sv st' cover c.
Proof.
  intros Hwf Hel Hsub Hwatch. unfold getCover.
  pose proof (level0_same (firstn (level0_count Sv) (trail Sv)) (prologue Sv st) []) as H0.
  pose proof (level0_chosen Sv (firstn (level0_count Sv) (trail Sv)) (prologue Sv st) [])
    as Hch1.
  destruct (level0 _ (prologue Sv st) []) as [st1 cover1]. cbn [fst snd] in *.
  assert (Hch1' : chosen_ok Sv st1 cover1).
  { apply Hch1; [|apply prologue_chosen].
    intros l Hl. apply (proj1 Hwf). eapply In_firstn_whole; eauto. }
  destruct H0 as [Hs1 Hi1].
  assert (Hvs : forall v, In v (subset st1) ->
            v < nVars Sv /\ included st1 v = true /\ value Sv (mkLit v) <> l_Undef).
  { intros v Hv. rewrite Hs1 in Hv. apply Hsub in Hv. destruct Hv as [A B].
    split; [exact A|]. split.
    - unfold included. rewrite Hi1. exact B.
    - apply (Hel (mkLit v)); assumption. }
  pose proof (fast_pass_covered Sv (subset st1) st1 cover1 Hch1' Hvs) as H2.
  pose proof (fast_pass_same Sv (subset st1) st1 cover1) as [_ H3].
  destruct (fast_pass Sv (subset st1) st1 cover1) as [st2 cover2]. cbn [fst snd] in *.
  exists st2, cover2. split; [reflexivity|].
  intros c Hc. apply In_nth_error in Hc. destruct Hc as (j & Hj).
  destruct (Hwatch j c Hj) as (Hlen & p & w & Hp & Ht & Hw & Ej & Hbl).
  assert (Hn : var p < nVars Sv).
  { destruct Hwf as [_ Hw']. apply (Hw' c); [eapply nth_error_In; eauto | exact Hp]. }
  destruct (eligible Sv st (var p)) eqn:Eel.
  - apply (H2 (var p) j c p w); auto.
    + rewrite Hs1. apply Hsub. auto.
    + now apply isTrue_value.
  - left. exists p. split; [exact Hp|]. split; [exact Ht|].
    unfold eligible, included in *. now rewrite H3, Hi1.
Qed.

Lemma fast_cover_covers_witness :
  exists st' cover,
    getCover stable_sort true solverF init = Some (st', cover)
    /\ forall c, In c (clauses solverF) -> covers solverF st' cover c.
Proof.
  apply (fast_cover_covers stable_sort solverF init).
  - split.
    + intros l Hl. simpl in Hl.
      destruct Hl as [<-|[<-|[]]]; split; simpl; first [lia | reflexivity].
    + intros c l Hc Hl. simpl in Hc.
      destruct Hc as [<-|[]]; simpl in Hl;
        destruct Hl as [<-|[<-|[]]]; simpl; lia.
  - intros [v s] Hv _. simpl in Hv. unfold value; simpl.
    destruct v as [|[|v]]; [| |lia]; destruct s; simpl; discriminate.
  - intros v. split.
    + intros Hv. vm_compute in Hv.
      destruct Hv as [<-|[<-|[]]]; split; simpl; first [lia | reflexivity].
    + intros [Hv _]. simpl in Hv. vm_compute.
      destruct v as [|[|v]]; [now left | right; now left | lia].
  - intros j c Hc. destruct j as [|[|j]]; simpl in Hc; try discriminate.
    injection Hc as <-. split; [simpl; lia|].
    exists (mkLitS 0 false), (mkWatcher 0 (Some (mkLitS 1 false))).
    split; [now left|]. split; [reflexivity|]. split; [now left|].
    split; [reflexivity|]. intros b [= <-]. right. now left.
Defined.

(** ** A clause without a true literal *)

Lemma add_counts_lists d cls st :
  mVarsInUncCls (add_counts d cls st) = mVarsInUncCls st.
Proof.
  unfold add_counts. revert st. induction cls as [|c cls IH]; intros st; simpl;
    [reflexivity|]. now rewrite IH.
Qed.

Lemma add_counts_other d cls st j :
  ~ In j cls -> count (add_counts d cls st) j = count st j.
Proof.
  unfold add_counts. revert st. induction cls as [|c cls IH]; intros st Hj; simpl;
    [reflexivity|].
  rewrite IH by (intros H; apply Hj; now right).
  unfold count; simpl. apply nth_insert_ne. intros ->. apply Hj. now left.
Qed.

Lemma bump_no_index k st l j :
  k <> j -> (forall v, ~ In j (inUncCls st v)) ->
  forall v, ~ In j (inUncCls (bump k st l) v).
Proof.
  intros Hk Hno v. unfold bump, inUncCls in *.
  assert (E : forall (b : bool) (x y : Cover),
            mVarsInUncCls (if b then x else y)
            = if b then mVarsInUncCls x else mVarsInUncCls y)
    by (intros [] x y; reflexivity).
  simpl. rewrite !E. simpl.
  assert (H : ~ In j (nth v (<[var l := nth (var l) (mVarsInUncCls st) [] ++ [k]]>
                                (mVarsInUncCls st)) [])).
  { destruct (Nat.eq_dec (var l) v) as [<-|Hne].
    - destruct (Nat.lt_ge_cases (var l) (length (mVarsInUncCls st))) as [Hlt|Hge].
      + rewrite nth_insert_eq by exact Hlt. intros H. apply in_app_or in H.
        destruct H as [H|[H|[]]]; [now apply (Hno (var l)) | congruence].
      + rewrite list_insert_ge by exact Hge. apply Hno.
    - rewrite nth_insert_ne by exact Hne. apply Hno. }
  destruct (score st (var l) =? 0)%Z; exact H.
Qed.

Section FalseClause.

Context (Sv : Solver) (j : nat) (c : list Lit).
Hypothesis Hj : nth_error (clauses Sv) j = Some c.
Hypothesis Hfalse : forall l, In l c -> value Sv l = l_False.

Lemma forced_scan_false st n pl : forced_scan Sv st c n pl = (n, pl).
Proof.
  revert Hfalse. clear Hj. induction c as [|l r IH]; intros Hf; simpl; [reflexivity|].
  rewrite (Hf l (or_introl eq_refl)). simpl. apply IH. intros x Hx. apply Hf. now right.
Qed.

Lemma sat_scan_false st unc : sat_scan Sv st c unc = (false, unc).
Proof.
  revert Hfalse. clear Hj. induction c as [|l r IH]; intros Hf; simpl; [reflexivity|].
  rewrite (Hf l (or_introl eq_refl)). simpl. apply IH. intros x Hx. apply Hf. now right.
Qed.

Lemma forced_pass_zero cs :
  forall i st cover,
  (forall k c', nth_error cs k = Some c' -> nth_error (clauses Sv) (i + k) = Some c') ->
  count st j = 0%Z ->
  let r := forced_pass Sv i cs (st, cover) in
  count (fst r) j = 0%Z /\ mVarsInUncCls (fst r) = mVarsInUncCls st
  /\ uncovered (fst r) = uncovered st.
Proof.
  induction cs as [|c' cs IH]; intros i st cover Hcs Hz; cbv zeta.
  - simpl. auto.
  - change (forced_pass Sv i (c' :: cs) (st, cover))
      with (forced_pass Sv (S i) cs (forced_clause Sv i c' (st, cover))).
    assert (Hc : nth_error (clauses Sv) i = Some c').
    { specialize (Hcs 0 c' eq_refl). now rewrite Nat.add_0_r in Hcs. }
    assert (H : count (fst (forced_clause Sv i c' (st, cover))) j = 0%Z
                /\ mVarsInUncCls (fst (forced_clause Sv i c' (st, cover)))
                   = mVarsInUncCls st
                /\ uncovered (fst (forced_clause Sv i c' (st, cover))) = uncovered st).
    { unfold forced_clause. destruct (Nat.eq_dec i j) as [->|Hne].
      - assert (c' = c) by congruence. subst c'. rewrite forced_scan_false. auto.
      - destruct (forced_scan Sv st c' 0 None) as [n [pl|]]; [|auto].
        destruct (n =? 1)%Z; [|auto].
        assert (Hcnt : nth j (<[i := (count st i + 1)%Z]> (coverCount st)) 0%Z = 0%Z)
          by (rewrite nth_insert_ne by exact Hne; exact Hz).
        destruct (negb _); simpl; unfold count; simpl; auto. }
    destruct (forced_clause Sv i c' (st, cover)) as [st1 cover1]. cbn [fst] in H.
    destruct H as (H1 & H2 & H3).
    destruct (IH (S i) st1 cover1) as (A1 & A2 & A3); [|exact H1|].
    + intros k c'' Hk. specialize (Hcs (S k) c'' Hk). now rewrite Nat.add_succ_r in Hcs.
    + split; [exact A1|]. split; congruence.
Qed.

Lemma fold_bump_zero i unc :
  forall st, i <> j -> count st j = 0%Z -> (forall v, ~ In j (inUncCls st v)) ->
  let st' := fold_left (bump i) unc st in
  count st' j = 0%Z /\ (forall v, ~ In j (inUncCls st' v))
  /\ uncovered st' = uncovered st.
Proof.
  induction unc as [|l unc IH]; intros st Hi Hz Hno; cbv zeta; simpl; [auto|].
  destruct (bump_rest i st l) as (B1 & B2 & _).
  destruct (IH (bump i st l) Hi) as (A1 & A2 & A3).
  - unfold count. rewrite B1. exact Hz.
  - now apply bump_no_index.
  - split; [exact A1|]. split; [exact A2 | congruence].
Qed.

Lemma greedy_pass_zero cs :
  forall i st,
  (forall k c', nth_error cs k = Some c' -> nth_error (clauses Sv) (i + k) = Some c') ->
  count st j = 0%Z -> (forall v, ~ In j (inUncCls st v)) ->
  (forall i', i <= i' -> nth i' (uncovered st) [] = []) ->
  let st' := greedy_pass Sv i cs st in
  count st' j = 0%Z /\ (forall v, ~ In j (inUncCls st' v)).
Proof.
  induction cs as [|c' cs IH]; intros i st Hcs Hz Hno Hun; cbv zeta.
  - simpl. auto.
  - change (greedy_pass Sv i (c' :: cs) st)
      with (greedy_pass Sv (S i) cs (greedy_clause Sv i c' st)).
    assert (Hc : nth_error (clauses Sv) i = Some c').
    { specialize (Hcs 0 c' eq_refl). now rewrite Nat.add_0_r in Hcs. }
    assert (H : count (greedy_clause Sv i c' st) j = 0%Z
                /\ (forall v, ~ In j (inUncCls (greedy_clause Sv i c' st) v))
                /\ exists x, uncovered (greedy_clause Sv i c' st)
                             = <[i := x]> (uncovered st)).
    { unfold greedy_clause. destruct (Nat.eq_dec i j) as [->|Hne].
      - assert (c' = c) by congruence. subst c'.
        rewrite sat_scan_false, (Hun j (le_n j)). simpl.
        split; [exact Hz|]. split; [exact Hno | eauto].
      - destruct (sat_scan Sv st c' (nth i (uncovered st) [])) as [[|] unc].
        + split; [|split; [exact Hno | simpl; eauto]].
          unfold count; simpl. rewrite nth_insert_ne by exact Hne. exact Hz.
        + destruct (fold_bump_zero i unc
                      (set_uncovered (<[i := unc]> (uncovered st)) st) Hne Hz Hno)
            as (A1 & A2 & A3).
          split; [exact A1|]. split; [exact A2|]. rewrite A3. simpl. eauto. }
    destruct H as (H1 & H2 & (x & H3)).
    apply IH; auto.
    + intros k c'' Hk. specialize (Hcs (S k) c'' Hk). now rewrite Nat.add_succ_r in Hcs.
    + intros i' Hi'. rewrite H3, nth_insert_ne by lia. apply Hun. lia.
Qed.

Lemma third_pass_zero n cands :
  forall i st cover,
  i <= j -> j < n -> count st j = 0%Z -> (forall v, ~ In j (inUncCls st v)) ->
  third_pass n cands i st cover = None.
Proof.
  induction cands as [|x r IH]; intros i st cover Hi Hn Hz Hno.
  - simpl. destruct (first_uncovered_spec st (n - i) i) as (H1 & H2 & _).
    destruct (Nat.eqb_spec (first_uncovered st (n - i) i) n) as [E|E]; [|reflexivity].
    exfalso. apply (H2 j); [lia | exact Hz].
  - cbn [third_pass]. destruct (first_uncovered_spec st (n - i) i) as (H1 & H2 & _).
    set (i' := first_uncovered st (n - i) i) in *.
    assert (Hi' : i' <= j).
    { destruct (Nat.le_gt_cases i' j) as [H|H]; [exact H|].
      exfalso. apply (H2 j); [lia | exact Hz]. }
    destruct (Nat.eqb_spec i' n) as [E|E]; [lia|].
    destruct (existsb _ _).
    + apply IH; [exact Hi' | exact Hn | |].
      * rewrite add_counts_other by apply Hno. exact Hz.
      * intros v. unfold inUncCls. rewrite add_counts_lists. apply Hno.
    + now apply IH.
Qed.

End FalseClause.

(** X17.  The exact mode needs an assignment that satisfies every clause:
    when all literals of some clause are false, the third pass finds no
    candidate for that clause and reads [potentialCoverLits] past its end,
    so that [getCover] returns no cover. *)
Theorem exact_cover_false_clause
    (sort : (Lit -> Lit -> bool) -> list Lit -> list Lit) Sv st j c :
  nth_error (clauses Sv) j = Some c ->
  (forall l, In l c -> value Sv l = l_False) ->
  getCover sort false Sv st = None.
Proof.
  intros Hj Hfalse. unfold getCover.
  destruct (level0 _ (prologue Sv st) []) as [st1 cover1].
  set (st2 := exact_reset Sv st1).
  assert (Hz2 : count st2 j = 0%Z).
  { unfold count, st2, exact_reset; simpl. apply nth_growTo_nil. }
  assert (Hl2 : forall v, inUncCls st2 v = []).
  { intros v. unfold inUncCls, st2, exact_reset; simpl. apply nth_map_nil. }
  assert (Hu2 : forall i, nth i (uncovered st2) [] = []).
  { intros i. unfold st2, exact_reset; simpl. apply nth_map_nil. }
  destruct (forced_pass_zero Sv j c Hj Hfalse (clauses Sv) 0 st2 cover1
              (fun k c' H => H) Hz2) as (A1 & A2 & A3).
  destruct (forced_pass Sv 0 (clauses Sv) (st2, cover1)) as [st3 cover3].
  cbn [fst] in *.
  destruct (greedy_pass_zero Sv j c Hj Hfalse (clauses Sv) 0 st3 (fun k c' H => H) A1)
    as (B1 & B2).
  { intros v. unfold inUncCls. rewrite A2. fold (inUncCls st2 v). rewrite Hl2.
    intros []. }
  { intros i _. rewrite A3. apply Hu2. }
  rewrite (third_pass_zero j (length (clauses Sv))); [reflexivity | lia | | exact B1 | exact B2].
  apply nth_error_Some. congruence.
Qed.

Lemma exact_cover_false_clause_witness :
  getCover stable_sort false
    (mkSolver 1 [l_False] [] [] [[mkLitS 0 false]] (fun _ => [])) init = None.
Proof.
  apply (exact_cover_false_clause stable_sort
           (mkSolver 1 [l_False] [] [] [[mkLitS 0 false]] (fun _ => [])) init
           0 [mkLitS 0 false]).
  - reflexivity.
  - intros l [<-|[]]. reflexivity.
Defined.

End CoverProps.
